(** * linux-guitar-dsp: a shallow embedding of the realtime chain core

    The development follows the C++ sources of the engine:
    - [Json]            the fragment of nlohmann::json the engine relies on;
    - [Schema]          signal_chain_schema.cpp (parse and validate a chain);
    - [Arith]           the float arithmetic of the DSP code as an interface,
                        with the IEEE-754 binary32 instance;
    - [Convolver]       fft_convolver.cpp (uniform partitioned convolution);
    - [Nodes]           signal_chain_nodes.cpp (node classes and builder);
    - [Chain]           signal_chain.cpp (the ping-pong pipeline);
    - [Control]         chain_control_server.cpp (get_chain / set_chain);
    - [Swap]            the chain hand-over of the audio loop in main_alsa.cpp;
    - [Snapshot]        the timing snapshot of signal_chain.cpp;
    - [Boot]            configuration and boot chain of main_alsa.cpp;
    - [Ramp]            the swap ramps of the audio loop.

    Definitions come first; the statements about them follow. *)

From Stdlib Require Import ZArith String Ascii List Bool Lia SpecFloat.
From Stdlib Require QArith Qcanon Field.
From stdpp Require Import base tactics option list gmap strings pretty.

#[local] Set Warnings "-register-all".

Local Open Scope string_scope.
Local Open Scope Z_scope.

(** Results of fallible code: a value, or the error the C++ reports. *)
Inductive result (E A : Type) : Type :=
| Ok (a : A)
| Err (e : E).
Arguments Ok {E A} a.
Arguments Err {E A} e.

Definition is_ok {E A} (r : result E A) : bool :=
  match r with Ok _ => true | Err _ => false end.

(** Fixed-width integers: the value a C++ conversion to [int] (32 bits,
    two's complement) or [uint32_t] yields. *)
Definition wrap_int32 (z : Z) : Z := (z + 2 ^ 31) mod 2 ^ 32 - 2 ^ 31.
Definition wrap_uint32 (z : Z) : Z := z mod 2 ^ 32.
Definition wrap_uint64 (z : Z) : Z := z mod 2 ^ 64.

(* ================================================================== *)
(** ** nlohmann::json, as far as the engine uses it *)
(* ================================================================== *)
Module Json.

(** A JSON value. [JInt] stands for both integer kinds of the library
    (number_integer and number_unsigned: [is_number_integer] holds of both),
    [JFloat] carries the stored double.  An object is kept as an association
    list; a key is looked up at its first occurrence. *)
Inductive Json : Type :=
| JNull
| JBool (b : bool)
| JInt (z : Z)
| JFloat (d : spec_float)
| JString (s : string)
| JArray (items : list Json)
| JObject (fields : list (string * Json)).

Fixpoint assoc (k : string) (kvs : list (string * Json)) : option Json :=
  match kvs with
  | [] => None
  | (k', v) :: rest => if String.eqb k k' then Some v else assoc k rest
  end.

(** [upsert k v kvs]: the effect of [obj[k] = v] on an object. *)
Fixpoint upsert (k : string) (v : Json) (kvs : list (string * Json))
  : list (string * Json) :=
  match kvs with
  | [] => [(k, v)]
  | (k', v') :: rest =>
      if String.eqb k k' then (k, v) :: rest else (k', v') :: upsert k v rest
  end.

Definition is_object (j : Json) : bool :=
  match j with JObject _ => true | _ => false end.
Definition is_array (j : Json) : bool :=
  match j with JArray _ => true | _ => false end.
Definition is_string (j : Json) : bool :=
  match j with JString _ => true | _ => false end.
Definition is_boolean (j : Json) : bool :=
  match j with JBool _ => true | _ => false end.
Definition is_number_integer (j : Json) : bool :=
  match j with JInt _ => true | _ => false end.
Definition is_number (j : Json) : bool :=
  match j with JInt _ | JFloat _ => true | _ => false end.

(** [j[key]] on a value that is known to hold the key. *)
Definition get (k : string) (j : Json) : option Json :=
  match j with JObject kvs => assoc k kvs | _ => None end.

(** [j.contains(key)]: false on anything but an object. *)
Definition contains (k : string) (j : Json) : bool :=
  match get k j with Some _ => true | None => false end.

(** [j[key]] where the C++ has checked [contains] before; [JNull] stands
    for the unreachable miss. *)
Definition at_key (k : string) (j : Json) : Json :=
  match get k j with Some v => v | None => JNull end.

(** [get<int>()] of an integer: a static_cast from the 64-bit store. *)
Definition get_int (j : Json) : Z :=
  match j with JInt z => wrap_int32 z | _ => 0 end.
Definition get_string (j : Json) : string :=
  match j with JString s => s | _ => "" end.
Definition get_bool (j : Json) : bool :=
  match j with JBool b => b | _ => false end.
Definition items (j : Json) : list Json :=
  match j with JArray l => l | _ => [] end.

End Json.
Export Json.

(* ================================================================== *)
(** ** signal_chain_schema.{h,cpp} *)
(* ================================================================== *)
Module Schema.

Record AssetRef : Type := { path : string }.

Record NodeSpec : Type := {
  id : string;
  type : string;
  category : string;
  enabled : bool;
  params : Json;
  asset : option AssetRef
}.

(** The default member initialisers of the struct. *)
Definition NodeSpec_default : NodeSpec :=
  {| id := ""; type := ""; category := ""; enabled := true;
     params := JObject []; asset := None |}.

Record ChainSpec : Type := {
  version : Z;
  sampleRate : Z;
  chain : list NodeSpec
}.

Definition ChainSpec_default : ChainSpec :=
  {| version := 1; sampleRate := 48000; chain := [] |}.

Record ValidationError : Type := { message : string }.

Definition set_id (n : NodeSpec) (v : string) : NodeSpec :=
  {| id := v; type := type n; category := category n; enabled := enabled n;
     params := params n; asset := asset n |}.
Definition set_type (n : NodeSpec) (v : string) : NodeSpec :=
  {| id := id n; type := v; category := category n; enabled := enabled n;
     params := params n; asset := asset n |}.
Definition set_category (n : NodeSpec) (v : string) : NodeSpec :=
  {| id := id n; type := type n; category := v; enabled := enabled n;
     params := params n; asset := asset n |}.
Definition set_enabled (n : NodeSpec) (v : bool) : NodeSpec :=
  {| id := id n; type := type n; category := category n; enabled := v;
     params := params n; asset := asset n |}.
Definition set_params (n : NodeSpec) (v : Json) : NodeSpec :=
  {| id := id n; type := type n; category := category n; enabled := enabled n;
     params := v; asset := asset n |}.
Definition set_asset (n : NodeSpec) (v : option AssetRef) : NodeSpec :=
  {| id := id n; type := type n; category := category n; enabled := enabled n;
     params := params n; asset := v |}.

Definition set_sampleRate (c : ChainSpec) (sr : Z) : ChainSpec :=
  {| version := version c; sampleRate := sr; chain := chain c |}.

(** [getString]: the string under [key], if any; a value of another kind
    leaves a message in [err]. *)
Definition getString (j : Json) (key : string) (err : ValidationError)
  : option string * ValidationError :=
  if negb (contains key j) then (None, err)
  else if negb (is_string (at_key key j))
  then (None, {| message := "Field '" ++ key ++ "' must be a string" |})
  else (Some (get_string (at_key key j)), err).

Definition isBuiltinType (t : string) : bool :=
  String.eqb t "input" || String.eqb t "output".

Definition fail {A} (msg : string) : option A * ValidationError :=
  (None, {| message := msg |}).

Definition parseNode (jn : Json) (err : ValidationError)
  : option NodeSpec * ValidationError :=
  if negb (is_object jn) then fail "Each chain element must be an object"
  else
    let n := NodeSpec_default in
    match getString jn "id" err with
    | (None, _) => fail "Node missing required string field 'id'"
    | (Some i, err) =>
    let n := set_id n i in
    match getString jn "type" err with
    | (None, _) => fail "Node missing required string field 'type'"
    | (Some t, err) =>
    let n := set_type n t in
    if contains "category" jn && negb (is_string (at_key "category" jn))
    then fail "Node field 'category' must be a string"
    else
    let n := if contains "category" jn
             then set_category n (get_string (at_key "category" jn)) else n in
    if contains "enabled" jn && negb (is_boolean (at_key "enabled" jn))
    then fail "Node field 'enabled' must be a boolean"
    else
    let n := if contains "enabled" jn
             then set_enabled n (get_bool (at_key "enabled" jn)) else n in
    if contains "params" jn && negb (is_object (at_key "params" jn))
    then fail "Node field 'params' must be an object"
    else
    let n := if contains "params" jn
             then set_params n (at_key "params" jn) else n in
    if contains "asset" jn then
      if negb (is_object (at_key "asset" jn))
      then fail "Node field 'asset' must be an object"
      else if negb (contains "path" (at_key "asset" jn))
              || negb (is_string (at_key "path" (at_key "asset" jn)))
      then fail "Node asset requires string field 'path'"
      else
        (Some (set_asset n
           (Some {| path := get_string (at_key "path" (at_key "asset" jn)) |})),
         err)
    else (Some n, err)
    end
    end.

(** The loop of [parseCanonicalV1] over the elements of the array: the
    first element that does not parse ends it. *)
Fixpoint parseNodes (js : list Json) (acc : list NodeSpec)
  (err : ValidationError) : option (list NodeSpec) * ValidationError :=
  match js with
  | [] => (Some acc, err)
  | jn :: rest =>
      match parseNode jn err with
      | (None, err) => (None, err)
      | (Some n, err) => parseNodes rest (acc ++ [n]) err
      end
  end.

Definition parseCanonicalV1 (j : Json) (err : ValidationError)
  : option ChainSpec * ValidationError :=
  if negb (contains "version" j) || negb (is_number_integer (at_key "version" j))
  then fail "Missing/invalid 'version' (must be integer)"
  else
    let v := get_int (at_key "version" j) in
    if negb (v =? 1) then fail "Unsupported chain version"
    else
      let after_rate (sr : Z) :=
        if negb (contains "chain" j) || negb (is_array (at_key "chain" j))
        then fail "Missing/invalid 'chain' (must be array)"
        else
          match parseNodes (items (at_key "chain" j)) [] err with
          | (None, err) => (None, err)
          | (Some ns, err) =>
              (Some {| version := v; sampleRate := sr; chain := ns |}, err)
          end in
      if contains "sampleRate" j then
        if negb (is_number_integer (at_key "sampleRate" j))
        then fail "'sampleRate' must be integer"
        else
          let sr := get_int (at_key "sampleRate" j) in
          if sr <=? 0 then fail "'sampleRate' must be > 0"
          else after_rate (wrap_uint32 sr)
      else after_rate (sampleRate ChainSpec_default).

Definition legacy_node (i t c : string) : NodeSpec :=
  {| id := i; type := t; category := c; enabled := true;
     params := JObject []; asset := None |}.

Definition set_param (n : NodeSpec) (k : string) (v : Json) : NodeSpec :=
  set_params n
    (match params n with
     | JObject kvs => JObject (upsert k v kvs)
     | _ => JObject [(k, v)]
     end).

Definition parseLegacy (j : Json) (err : ValidationError)
  : option ChainSpec * ValidationError :=
  let audio := at_key "audio" j in
  let has_audio := contains "audio" j && is_object audio in
  let sr :=
    if has_audio && contains "sampleRate" audio
       && is_number_integer (at_key "sampleRate" audio)
    then wrap_uint32 (get_int (at_key "sampleRate" audio))
    else sampleRate ChainSpec_default in
  let input := legacy_node "input" "input" "utility" in
  if has_audio && contains "inputTrimDb" audio
     && negb (is_number (at_key "inputTrimDb" audio))
  then fail "legacy audio.inputTrimDb must be number"
  else
  let input :=
    if has_audio && contains "inputTrimDb" audio
    then set_param input "inputTrimDb" (at_key "inputTrimDb" audio)
    else input in
  let amp := legacy_node "amp1" "nam_model" "amp" in
  let cab := legacy_node "cab1" "ir_convolver" "cab" in
  let ch := at_key "chain" j in
  let has_chain := contains "chain" j && is_object ch in
  if has_chain && contains "namModelPath" ch
     && negb (is_string (at_key "namModelPath" ch))
  then fail "legacy chain.namModelPath must be string"
  else
  let amp :=
    if has_chain && contains "namModelPath" ch
    then set_asset amp (Some {| path := get_string (at_key "namModelPath" ch) |})
    else amp in
  if has_chain && contains "irPath" ch
     && negb (is_string (at_key "irPath" ch))
  then fail "legacy chain.irPath must be string"
  else
  let cab :=
    if has_chain && contains "irPath" ch
    then set_asset cab (Some {| path := get_string (at_key "irPath" ch) |})
    else cab in
  let output := legacy_node "output" "output" "utility" in
  (Some {| version := 1; sampleRate := sr;
           chain := [input; amp; cab; output] |}, err).

Definition parseChainJson (j : Json) (err : ValidationError)
  : option ChainSpec * ValidationError :=
  if negb (is_object j) then fail "Top-level JSON must be an object"
  else if contains "version" j && contains "chain" j
          && is_array (at_key "chain" j)
  then parseCanonicalV1 j err
  else parseLegacy j err.

Fixpoint hasType (nodes : list NodeSpec) (t : string) : bool :=
  match nodes with
  | [] => false
  | n :: rest => if String.eqb (type n) t then true else hasType rest t
  end.

(** The first loop of [validateChainSpec]: ids are collected in a set,
    [ids.insert(n.id).second] is false on an id already there. *)
Fixpoint checkIds (nodes : list NodeSpec) (ids : gset string)
  : option string :=
  match nodes with
  | [] => None
  | n :: rest =>
      if String.eqb (id n) "" then Some "Node id must be non-empty"
      else if bool_decide (id n ∈ ids)
      then Some ("Duplicate node id: " ++ id n)
      else if String.eqb (type n) "" then Some "Node type must be non-empty"
      else checkIds rest ({[ id n ]} ∪ ids)
  end.

(** The index loop: [ampIdx] and [cabIdx] are ints that start at -1;
    [(int)i] converts the position. *)
Fixpoint findAmpCab (nodes : list NodeSpec) (i : nat) (ampIdx cabIdx : Z)
  : Z * Z :=
  match nodes with
  | [] => (ampIdx, cabIdx)
  | n :: rest =>
      let ampIdx :=
        if String.eqb (type n) "nam_model" && (ampIdx <? 0)
        then wrap_int32 (Z.of_nat i) else ampIdx in
      let cabIdx :=
        if String.eqb (type n) "ir_convolver" && (cabIdx <? 0)
        then wrap_int32 (Z.of_nat i) else cabIdx in
      findAmpCab rest (S i) ampIdx cabIdx
  end.

Definition front_type (nodes : list NodeSpec) : string :=
  match nodes with n :: _ => type n | [] => "" end.
Definition back_type (nodes : list NodeSpec) : string :=
  match last nodes with Some n => type n | None => "" end.

Definition validateChainSpec (spec : ChainSpec) (err : ValidationError)
  : option ChainSpec * ValidationError :=
  if negb (version spec =? 1) then fail "Only chain version 1 is supported"
  else if (length (chain spec) <? 2)%nat
  then fail "Chain must contain at least input and output"
  else
    match checkIds (chain spec) ∅ with
    | Some msg => fail msg
    | None =>
    if negb (String.eqb (front_type (chain spec)) "input")
    then fail "First node must be type 'input'"
    else if negb (String.eqb (back_type (chain spec)) "output")
    then fail "Last node must be type 'output'"
    else if negb (hasType (chain spec) "nam_model")
    then fail "Chain must contain a 'nam_model' node"
    else if negb (hasType (chain spec) "ir_convolver")
    then fail "Chain must contain an 'ir_convolver' node"
    else
      let '(ampIdx, cabIdx) := findAmpCab (chain spec) 0 (-1) (-1) in
      if (ampIdx <? 0) || (cabIdx <? 0) || (ampIdx >=? cabIdx)
      then fail "Invalid ordering: 'nam_model' must appear before 'ir_convolver'"
      else (Some spec, err)
    end.

(** [chainSpecToJson].  The keys of an nlohmann object are kept sorted. *)
Definition nodeToJson (n : NodeSpec) : Json :=
  JObject
    ((match asset n with
      | Some a => [("asset", JObject [("path", JString (path a))])]
      | None => []
      end)
     ++ (if String.eqb (category n) "" then []
         else [("category", JString (category n))])
     ++ [("enabled", JBool (enabled n));
         ("id", JString (id n));
         ("params", if is_object (params n) then params n else JObject []);
         ("type", JString (type n))]).

Definition chainSpecToJson (spec : ChainSpec) : Json :=
  JObject [("chain", JArray (map nodeToJson (chain spec)));
           ("sampleRate", JInt (sampleRate spec));
           ("version", JInt (version spec))].

End Schema.

(* ================================================================== *)
(** ** The arithmetic of the DSP code *)
(* ================================================================== *)
Module Arith.

(** The C++ computes on [float].  The embedding keeps the operations as an
    interface, so that every definition below reads as its source does:
    [FloatRing] is what the convolver needs, [Float] adds comparisons,
    literals and conversions. *)
Class FloatRing (F : Type) : Type := {
  of_Z : Z -> F;                (* (float)n for an integer n *)
  fadd : F -> F -> F;
  fsub : F -> F -> F;
  fmul : F -> F -> F;
  fdiv : F -> F -> F
}.

Class Float (F : Type) : Type := {
  float_ring :: FloatRing F;
  fneg : F -> F;
  flt : F -> F -> bool;         (* a < b *)
  feqb : F -> F -> bool;        (* a == b *)
  fabs : F -> F;                (* std::fabs *)
  fconst : Z -> Z -> F;         (* the literal num/den, den > 0 *)
  of_double : spec_float -> F;  (* (float)d for a double d *)
  to_double : F -> spec_float;  (* (double)x *)
  llroundf : F -> Z             (* std::llround *)
}.

(** libm, as called by the engine. *)
Class LibM (F : Type) : Type := {
  powf : F -> F -> F;
  tanhf : F -> F;
  cosf : F -> F
}.

(** FFTW's real transforms of a plan of size [n]: [r2c] maps [n] reals to
    [n/2+1] complex bins, [c2r] maps them back, unnormalised.  The
    library can also refuse: [fftwf_malloc k n] is the answer to the
    [k]-th allocation of one [init], for [n] complex values, a null
    pointer ([None]) or a block with whatever it holds; the two plan
    functions tell whether a plan of size [n] is created. *)
Class FFTW (F : Type) : Type := {
  r2c : nat -> list F -> list (F * F);
  c2r : nat -> list (F * F) -> list F;
  fftwf_malloc : nat -> nat -> option (nat -> F * F);
  fftwf_plan_dft_r2c_1d : nat -> bool;
  fftwf_plan_dft_c2r_1d : nat -> bool
}.

Declare Scope float_scope.
Delimit Scope float_scope with fl.
Infix "+" := fadd : float_scope.
Infix "-" := fsub : float_scope.
Infix "*" := fmul : float_scope.
Infix "/" := fdiv : float_scope.
Notation "- x" := (fneg x) : float_scope.
Infix "<?" := flt : float_scope.
Notation "a >? b" := (flt b a) : float_scope.

(** *** IEEE-754 doubles (the JSON store, and the few double computations) *)
Definition d_prec : Z := 53.
Definition d_emax : Z := 1024.
Definition double_of_Z (z : Z) : spec_float :=
  binary_normalize d_prec d_emax z 0 false.
Definition ddiv : spec_float -> spec_float -> spec_float := SFdiv d_prec d_emax.
Definition dmul : spec_float -> spec_float -> spec_float := SFmul d_prec d_emax.
Definition dltb : spec_float -> spec_float -> bool := SFltb.

(** [std::llround]: to the nearest integer, halves away from zero. *)
Definition llround_sf (x : spec_float) : Z :=
  match x with
  | S754_finite s m e =>
      let mag :=
        if 0 <=? e then Z.shiftl (Zpos m) e
        else Z.shiftr (Zpos m + Z.shiftl 1 (- e - 1)) (- e) in
      if s then - mag else mag
  | _ => 0
  end.

(** *** The binary32 instance *)
(** IEEE-754 single precision with gradual underflow.  At start-up
    [configureDenormals] switches the CPU to flush-to-zero where SSE
    offers it and $ALSA_DENORMALS_OFF does not forbid it; the instance
    is the arithmetic of the other configurations, and of every
    computation that meets no subnormal number. *)
Definition f_prec : Z := 24.
Definition f_emax : Z := 128.

Definition sf_of_Z (prec emax : Z) (z : Z) : spec_float :=
  binary_normalize prec emax z 0 false.

Definition sf_round (prec emax : Z) (x : spec_float) : spec_float :=
  match x with
  | S754_finite s m e =>
      binary_normalize prec emax (if s then Zneg m else Zpos m) e s
  | _ => x
  end.

Definition sf_exact (z : Z) : spec_float :=
  match z with
  | Z0 => S754_zero false
  | Zpos p => S754_finite false p 0
  | Zneg p => S754_finite true p 0
  end.

#[export] Instance binary32_ring : FloatRing spec_float := {
  of_Z := sf_of_Z f_prec f_emax;
  fadd := SFadd f_prec f_emax;
  fsub := SFsub f_prec f_emax;
  fmul := SFmul f_prec f_emax;
  fdiv := SFdiv f_prec f_emax
}.

#[export] Instance binary32 : Float spec_float := {
  float_ring := binary32_ring;
  fneg := SFopp;
  flt := SFltb;
  feqb := SFeqb;
  fabs := SFabs;
  fconst := fun n d => SFdiv f_prec f_emax (sf_exact n) (sf_exact d);
  of_double := sf_round f_prec f_emax;
  to_double := sf_round d_prec d_emax;
  llroundf := llround_sf
}.

End Arith.
Export Arith.

(* ================================================================== *)
(** ** Buffers and counted loops *)
(* ================================================================== *)
Module Buffers.

(** [for (i = lo; i < hi; i++) body]: the body sees the index and the
    state the loop threads. *)
Definition for_range {S : Type} (lo hi : nat) (body : nat -> S -> S) (s : S)
  : S :=
  fold_left (fun s i => body i s) (seq lo (hi - lo)) s.

Definition for_loop {S : Type} (n : nat) (body : nat -> S -> S) (s : S) : S :=
  for_range 0 n body s.

(** [std::memcpy(dst, src, n * sizeof T)] on two buffers that do not
    overlap. *)
Definition memcpy {A : Type} (dst src : list A) (n : nat) : list A :=
  take n src ++ drop n dst.

(** [std::memcpy(dst + off, src + off, n * sizeof T)]. *)
Definition memcpy_at {A : Type} (dst src : list A) (off n : nat) : list A :=
  take off dst ++ take n (drop off src) ++ drop (off + n) dst.

(** [std::memset(dst + off, 0, n * sizeof T)], [z] being the zero of [T]. *)
Definition memset_at {A : Type} (z : A) (dst : list A) (off n : nat)
  : list A :=
  take off dst ++ replicate (min n (length dst - off)) z ++ drop (off + n) dst.

(** [std::fill(v.begin(), v.end(), z)]. *)
Definition fill {A : Type} (z : A) (v : list A) : list A :=
  replicate (length v) z.

(** [buf[i]] as an rvalue; [d] stands for a read past the end, which the
    C++ never performs. *)
Definition rd {A : Type} (d : A) (buf : list A) (i : nat) : A :=
  default d (buf !! i).

End Buffers.
Export Buffers.

(* ================================================================== *)
(** ** fft_convolver.{h,cpp} *)
(* ================================================================== *)
Module Convolver.
Section Convolver.
Context {F : Type} `{FloatRing F} `{FFTW F}.

Definition f0 : F := of_Z 0.
Definition c0 : F * F := (f0, f0).

Record FFTConvolverPartitioned : Type := {
  mBlock : Z;
  mFFT : Z;
  mBins : Z;
  mParts : Z;
  mWrite : Z;
  mReady : bool;
  mTimeIn : list F;
  mTimeOut : list F;
  mOverlap : list F;
  mFreqY : list (F * F);
  mH : list (list (F * F));
  mX : list (list (F * F))
}.

(** The state [clear()] leaves, which is also the default-constructed one. *)
Definition clear : FFTConvolverPartitioned :=
  {| mBlock := 0; mFFT := 0; mBins := 0; mParts := 0; mWrite := 0;
     mReady := false; mTimeIn := []; mTimeOut := []; mOverlap := [];
     mFreqY := []; mH := []; mX := [] |}.

Definition ready (c : FFTConvolverPartitioned) : bool := mReady c.

(** [cmul_acc]: [y += a * b] on complex numbers. *)
Definition cmul_acc (y a b : F * F) : F * F :=
  let '(ar, ai) := a in
  let '(br, bi) := b in
  (fadd (fst y) (fsub (fmul ar br) (fmul ai bi)),
   fadd (snd y) (fadd (fmul ar bi) (fmul ai br))).

(** One turn of the loop of [init] that fills [mH]: partition [k] of the
    impulse response, padded with zeros, goes through the forward plan
    into [mX[0]] and is copied from there. *)
Definition init_partition (ir : list F) (block fft bins : Z) (k : nat)
  (s : list F * list (list (F * F)) * list (list (F * F)))
  : list F * list (list (F * F)) * list (list (F * F)) :=
  let '(timeIn, X, Hs) := s in
  let timeIn := fill f0 timeIn in
  let start := (k * Z.to_nat block)%nat in
  let stop := min (start + Z.to_nat block) (length ir) in
  let timeIn :=
    for_range start stop
      (fun i t => <[(i - start)%nat := rd f0 ir i]> t) timeIn in
  let X := <[0%nat := r2c (Z.to_nat fft) timeIn]> X in
  let Hs := <[k := memcpy (rd [] Hs k) (rd [] X 0) (Z.to_nat bins)]> Hs in
  (timeIn, X, Hs).

(** The memory behind a pointer that [fftwf_malloc] returned for [n]
    complex values; a null pointer has none. *)
Definition allocated (n : nat) (p : option (nat -> F * F)) : list (F * F) :=
  match p with
  | Some content => map content (seq 0 n)
  | None => []
  end.

(** One turn of the loop of [init] that allocates the spectra.  The loop
    is left, and [init] with it, at the first turn in which one of the
    two pointers is null: [ok] tells whether that has not happened. *)
Definition init_allocate (bins : nat) (k : nat)
  (s : bool * list (list (F * F)) * list (list (F * F)))
  : bool * list (list (F * F)) * list (list (F * F)) :=
  let '(ok, Hs, X) := s in
  if negb ok then s
  else
    let ph := fftwf_malloc (2 * k + 1) bins in
    let px := fftwf_malloc (2 * k + 2) bins in
    let Hs := <[k := allocated bins ph]> Hs in
    let X := <[k := allocated bins px]> X in
    match ph, px with
    | Some _, Some _ =>
        (true,
         <[k := memset_at c0 (rd [] Hs k) 0 bins]> Hs,
         <[k := memset_at c0 (rd [] X k) 0 bins]> X)
    | _, _ => (false, Hs, X)
    end.

(** [init(ir, blockSize)]: the flag returned, and the object after the
    call.  [2 * mBlock] is computed in [int]: from a block size of 2^30
    on it overflows, which C++ leaves undefined and the model wraps.
    The two plans are not part of the state: they are there whenever
    [mReady] is set. *)
Definition init (ir : list F) (blockSize : Z)
  : bool * FFTConvolverPartitioned :=
  if blockSize <=? 0 then (false, clear)
  else
    let block := blockSize in
    let fft := wrap_int32 (2 * block) in
    let bins := Z.quot fft 2 + 1 in
    let parts :=
      wrap_int32 (wrap_uint64 (Z.of_nat (length ir) + block - 1) / block) in
    let failed timeIn timeOut overlap freqY Hs X :=
      (false,
       {| mBlock := block; mFFT := fft; mBins := bins; mParts := parts;
          mWrite := 0; mReady := false; mTimeIn := timeIn;
          mTimeOut := timeOut; mOverlap := overlap; mFreqY := freqY;
          mH := Hs; mX := X |}) in
    if parts <=? 0 then failed [] [] [] [] [] []
    else
      let timeIn := replicate (Z.to_nat fft) f0 in
      let timeOut := replicate (Z.to_nat fft) f0 in
      let overlap := replicate (Z.to_nat block) f0 in
      match fftwf_malloc 0 (Z.to_nat bins) with
      | None => failed timeIn timeOut overlap [] [] []
      | Some content =>
        let freqY := allocated (Z.to_nat bins) (Some content) in
        let Hs := replicate (Z.to_nat parts) [] in
        let X := replicate (Z.to_nat parts) [] in
        let '(ok, Hs, X) :=
          for_loop (Z.to_nat parts) (init_allocate (Z.to_nat bins))
            (true, Hs, X) in
        if negb ok then failed timeIn timeOut overlap freqY Hs X
        else if negb (fftwf_plan_dft_r2c_1d (Z.to_nat fft))
                || negb (fftwf_plan_dft_c2r_1d (Z.to_nat fft))
        then failed timeIn timeOut overlap freqY Hs X
        else
          let '(timeIn, X, Hs) :=
            for_loop (Z.to_nat parts) (init_partition ir block fft bins)
              (timeIn, X, Hs) in
          let X :=
            for_loop (Z.to_nat parts)
              (fun k X =>
                 <[k := memset_at c0 (rd [] X k) 0 (Z.to_nat bins)]> X)
              X in
          (true,
           {| mBlock := block; mFFT := fft; mBins := bins; mParts := parts;
              mWrite := 0; mReady := true; mTimeIn := timeIn;
              mTimeOut := timeOut; mOverlap := overlap; mFreqY := freqY;
              mH := Hs; mX := X |})
      end.

(** The accumulation over the partitions: [Y = sum_k X[w-k] * H[k]]. *)
Definition accumulate (c : FFTConvolverPartitioned)
  (X : list (list (F * F))) (Y : list (F * F)) : list (F * F) :=
  for_loop (Z.to_nat (mParts c))
    (fun k Y =>
       let idx := mWrite c - Z.of_nat k in
       let idx := if idx <? 0 then idx + mParts c else idx in
       let Xk := rd [] X (Z.to_nat idx) in
       let Hk := rd [] (mH c) k in
       for_loop (Z.to_nat (mBins c))
         (fun b Y => <[b := cmul_acc (rd c0 Y b) (rd c0 Xk b) (rd c0 Hk b)]> Y)
         Y)
    Y.

(** [processBlock(in, out, n)]: the flag returned, [out] and the object
    after the call. *)
Definition processBlock (c : FFTConvolverPartitioned)
  (inb outb : list F) (n : Z)
  : bool * list F * FFTConvolverPartitioned :=
  if negb (mReady c) || negb (n =? mBlock c) then (false, outb, c)
  else
    let block := Z.to_nat (mBlock c) in
    let timeIn := memcpy (mTimeIn c) inb block in
    let timeIn := memset_at f0 timeIn block block in
    let X := <[Z.to_nat (mWrite c) := r2c (Z.to_nat (mFFT c)) timeIn]> (mX c) in
    let Y := memset_at c0 (mFreqY c) 0 (Z.to_nat (mBins c)) in
    let Y := accumulate c X Y in
    let timeOut := c2r (Z.to_nat (mFFT c)) Y in
    let invFFT := fdiv (of_Z 1) (of_Z (mFFT c)) in
    let outb :=
      for_loop block
        (fun i o =>
           <[i := fadd (fmul (rd f0 timeOut i) invFFT) (rd f0 (mOverlap c) i)]> o)
        outb in
    let overlap :=
      for_loop block
        (fun i ov => <[i := fmul (rd f0 timeOut (i + block)) invFFT]> ov)
        (mOverlap c) in
    let w := mWrite c + 1 in
    let w := if w >=? mParts c then 0 else w in
    (true, outb,
     {| mBlock := mBlock c; mFFT := mFFT c; mBins := mBins c;
        mParts := mParts c; mWrite := w; mReady := mReady c;
        mTimeIn := timeIn; mTimeOut := timeOut; mOverlap := overlap;
        mFreqY := Y; mH := mH c; mX := X |}).

End Convolver.
Arguments FFTConvolverPartitioned F : clear implicits.
End Convolver.

(* ================================================================== *)
(** ** signal_chain_nodes.{h,cpp}: parameters and node classes *)
(* ================================================================== *)
Module Nodes.
Import Schema Convolver.

Section Nodes.
Context {F : Type} `{Float F} `{LibM F} `{FFTW F}.

Definition f1 : F := of_Z 1.

(** The realtime parameter cells of the engine ([std::atomic<float>]),
    which a [ProcessContext] may point to. *)
Record RtParams : Type := {
  cell_inputTrimDb : F;
  cell_inputTrimLin : F
}.

Record ProcessContext : Type := {
  ctx_sampleRate : Z;
  maxBlockFrames : nat;
  inputTrimDb : bool;   (* the pointer is not null *)
  inputTrimLin : bool   (* the pointer is not null *)
}.

Record NodeStandardParams : Type := {
  sp_enabled : bool;
  levelDb : F;
  mix : F;
  levelLin : F;
  mixWet : F;
  mixDry : F
}.

Definition NodeStandardParams_default : NodeStandardParams :=
  {| sp_enabled := true; levelDb := f0; mix := f1;
     levelLin := f1; mixWet := f1; mixDry := f0 |}.

Definition set_sp_enabled (p : NodeStandardParams) (b : bool)
  : NodeStandardParams :=
  {| sp_enabled := b; levelDb := levelDb p; mix := mix p;
     levelLin := levelLin p; mixWet := mixWet p; mixDry := mixDry p |}.

Definition dbToLin (db : F) : F := powf (of_Z 10) (fdiv db (of_Z 20)).

Definition clampf (v lo hi : F) : F :=
  if flt v lo then lo else if flt hi v then hi else v.

Definition softclipFast (x : F) : F :=
  if flt f1 x then f1
  else if flt x (fneg f1) then fneg f1
  else
    let b := fconst 3333333 10000000 in
    fsub x (fmul (fmul (fmul b x) x) x).

(** [j.get<double>()] of a number. *)
Definition get_double (j : Json) : spec_float :=
  match j with
  | JInt z => double_of_Z z
  | JFloat d => d
  | _ => S754_zero false
  end.

Definition num_at (p : Json) (k : string) : option F :=
  if contains k p && is_number (at_key k p)
  then Some (of_double (get_double (at_key k p))) else None.

Definition parseStd (spec : NodeSpec) : NodeStandardParams :=
  let p := NodeStandardParams_default in
  let lv := levelDb p in
  let mx := mix p in
  let '(lv, mx) :=
    if is_object (params spec) then
      let lv := match num_at (params spec) "levelDb" with
                | Some v => v | None => lv end in
      let lv := match num_at (params spec) "outputGainDb" with
                | Some v => v | None => lv end in
      let mx := match num_at (params spec) "mix" with
                | Some v => v | None => mx end in
      (lv, mx)
    else (lv, mx) in
  let lv := clampf lv (fneg (of_Z 48)) (of_Z 24) in
  let mx := clampf mx f0 f1 in
  {| sp_enabled := enabled spec; levelDb := lv; mix := mx;
     levelLin := dbToLin lv; mixWet := mx; mixDry := fsub f1 mx |}.

Definition numParam (spec : NodeSpec) (k : string) : option F :=
  if negb (is_object (params spec)) then None else num_at (params spec) k.

Definition bool_at (p : Json) (k : string) (dflt : bool) : bool :=
  if contains k p && is_boolean (at_key k p)
  then get_bool (at_key k p) else dflt.

(** *** The node classes *)

Record PassthroughNode : Type := {
  pt_id : string;
  pt_type : string;
  pt_std : NodeStandardParams
}.

Record InputNode : Type := {
  in_id : string;
  in_std : NodeStandardParams;
  in_inputTrimLin : bool;       (* bound to the realtime cell *)
  in_fallbackTrimLin : F
}.

Record OutputNode : Type := {
  out_id : string;
  out_std : NodeStandardParams
}.

Record OverdriveNode : Type := {
  od_id : string;
  od_std : NodeStandardParams;
  drive_ : F;
  tone_ : F;
  outDb_ : F;
  pre_ : F;
  od_postLin : F;
  a_ : F;
  toneInv_ : F;
  z1_ : F
}.

(** An amp model of the NAM library: the metadata the builder reads, and
    the way it answers.  A model has memory, so its answer to a block is
    a function of all the blocks it was fed; [None] is a throw. *)
Record NamDSP : Type := {
  dsp_expected_sr : spec_float;
  dsp_has_input_level : bool;
  dsp_input_level : spec_float;
  dsp_fed : list (list F);
  dsp_respond : list (list F) -> option (list F)
}.

Definition dsp_reset (m : NamDSP) : NamDSP :=
  {| dsp_expected_sr := dsp_expected_sr m;
     dsp_has_input_level := dsp_has_input_level m;
     dsp_input_level := dsp_input_level m;
     dsp_fed := []; dsp_respond := dsp_respond m |}.

Definition dsp_feed (m : NamDSP) (block : list F) : NamDSP :=
  {| dsp_expected_sr := dsp_expected_sr m;
     dsp_has_input_level := dsp_has_input_level m;
     dsp_input_level := dsp_input_level m;
     dsp_fed := dsp_fed m ++ [block]; dsp_respond := dsp_respond m |}.

Record NamModelNode : Type := {
  nam_id : string;
  nam_std : NodeStandardParams;
  model_ : option NamDSP;
  sr_ : Z;
  nam_maxFrames : nat;
  nam_in : list F;
  nam_out : list F;
  preGainDb_ : F;
  postGainDb_ : F;
  inLimit_ : F;
  softclip_ : bool;
  softclipTanh_ : bool;
  useInputLevel_ : bool;
  levelScaleLin_ : F;
  preLin_ : F;
  nam_postLin : F;
  lim_ : F
}.

Record IrConvolverNode : Type := {
  ir_id : string;
  ir_std : NodeStandardParams;
  conv_ : FFTConvolverPartitioned F;
  ir_maxFrames : nat;
  ir_out : list F
}.

(** *** Constructors *)

Definition mkOverdriveNode (i : string) (sp : NodeStandardParams)
  (drive tone outDb : F) : OverdriveNode :=
  let d := clampf drive f0 f1 in
  let t := clampf tone f0 f1 in
  {| od_id := i; od_std := sp; drive_ := d; tone_ := t; outDb_ := outDb;
     pre_ := fadd f1 (fmul d (of_Z 20));
     od_postLin := fmul (dbToLin outDb) (levelLin sp);
     a_ := fadd (fconst 2 100) (fmul (fsub f1 t) (fconst 2 10));
     toneInv_ := fsub f1 t;
     z1_ := f0 |}.

Definition mkNamModelNode (i : string) (sp : NodeStandardParams)
  (model : option NamDSP) (sampleRate : Z) (maxFrames : nat)
  (preGainDb postGainDb inLimit : F)
  (softclip softclipTanh useInputLevel : bool) : NamModelNode :=
  let model := option_map dsp_reset model in
  let levelScale :=
    match model with
    | Some m =>
        if useInputLevel && dsp_has_input_level m then
          let refDbu := fconst 122 10 in
          let modelDbu := of_double (dsp_input_level m) in
          powf (of_Z 10) (fdiv (fsub refDbu modelDbu) (of_Z 20))
        else f1
    | None => f1
    end in
  {| nam_id := i; nam_std := sp; model_ := model; sr_ := sampleRate;
     nam_maxFrames := maxFrames;
     nam_in := replicate maxFrames f0; nam_out := replicate maxFrames f0;
     preGainDb_ := preGainDb; postGainDb_ := postGainDb;
     inLimit_ := inLimit; softclip_ := softclip;
     softclipTanh_ := softclipTanh; useInputLevel_ := useInputLevel;
     levelScaleLin_ := levelScale;
     preLin_ := fmul (dbToLin preGainDb) levelScale;
     nam_postLin := fmul (dbToLin postGainDb) (levelLin sp);
     lim_ := clampf inLimit (fconst 5 100) f1 |}.

Definition mkIrConvolverNode (i : string) (sp : NodeStandardParams)
  (conv : FFTConvolverPartitioned F) (maxFrames : nat) : IrConvolverNode :=
  {| ir_id := i; ir_std := sp; conv_ := conv; ir_maxFrames := maxFrames;
     ir_out := replicate maxFrames f0 |}.

(** *** [process] of each class *)

(** The loop shared by the gain-only nodes: [wet] is a gain on [in[i]]. *)
Definition mix_loop (sp : NodeStandardParams) (wet : F -> F)
  (inb outb : list F) (nframes : nat) : list F :=
  for_loop nframes
    (fun i o =>
       let x := rd f0 inb i in
       <[i := fadd (fmul x (mixDry sp)) (fmul (wet x) (mixWet sp))]> o)
    outb.

Definition PassthroughNode_process (n : PassthroughNode)
  (inb outb : list F) (nframes : nat) : list F :=
  if negb (sp_enabled (pt_std n)) then memcpy outb inb nframes
  else
    let level := levelLin (pt_std n) in
    mix_loop (pt_std n) (fun x => fmul x level) inb outb nframes.

Definition InputNode_process (rt : RtParams) (n : InputNode)
  (inb outb : list F) (nframes : nat) : list F :=
  let en := sp_enabled (in_std n) in
  let trim :=
    if in_inputTrimLin n then cell_inputTrimLin rt
    else in_fallbackTrimLin n in
  let level := levelLin (in_std n) in
  if negb en then memcpy outb inb nframes
  else mix_loop (in_std n) (fun x => fmul (fmul x trim) level)
         inb outb nframes.

Definition OutputNode_process (n : OutputNode)
  (inb outb : list F) (nframes : nat) : list F :=
  let level := levelLin (out_std n) in
  if negb (sp_enabled (out_std n)) then memcpy outb inb nframes
  else mix_loop (out_std n) (fun x => fmul x level) inb outb nframes.

Definition set_z1 (n : OverdriveNode) (z : F) : OverdriveNode :=
  {| od_id := od_id n; od_std := od_std n; drive_ := drive_ n;
     tone_ := tone_ n; outDb_ := outDb_ n; pre_ := pre_ n;
     od_postLin := od_postLin n; a_ := a_ n; toneInv_ := toneInv_ n;
     z1_ := z |}.

(** One turn of the sample loop of the overdrive: the filter state [z]
    and the output buffer are what the loop carries. *)
Definition overdrive_step (n : OverdriveNode) (inb : list F) (i : nat)
  (s : F * list F) : F * list F :=
  let '(z, o) := s in
  let x := fmul (rd f0 inb i) (pre_ n) in
  let y := softclipFast x in
  let z := fadd z (fmul (a_ n) (fsub y z)) in
  let wet :=
    fmul (fadd (fmul z (toneInv_ n)) (fmul y (tone_ n))) (od_postLin n) in
  (z, <[i := fadd (fmul (rd f0 inb i) (mixDry (od_std n)))
                  (fmul wet (mixWet (od_std n)))]> o).

Definition OverdriveNode_process (n : OverdriveNode)
  (inb outb : list F) (nframes : nat) : OverdriveNode * list F :=
  if negb (sp_enabled (od_std n)) then (n, memcpy outb inb nframes)
  else
    let '(z, o) := for_loop nframes (overdrive_step n inb) (z1_ n, outb) in
    (set_z1 n z, o).

Definition set_nam_state (n : NamModelNode) (m : option NamDSP)
  (i o : list F) : NamModelNode :=
  {| nam_id := nam_id n; nam_std := nam_std n; model_ := m; sr_ := sr_ n;
     nam_maxFrames := nam_maxFrames n; nam_in := i; nam_out := o;
     preGainDb_ := preGainDb_ n; postGainDb_ := postGainDb_ n;
     inLimit_ := inLimit_ n; softclip_ := softclip_ n;
     softclipTanh_ := softclipTanh_ n; useInputLevel_ := useInputLevel_ n;
     levelScaleLin_ := levelScaleLin_ n; preLin_ := preLin_ n;
     nam_postLin := nam_postLin n; lim_ := lim_ n |}.

(** What the model writes into its output buffer: at most [frames]
    samples, from the start. *)
Definition model_write (dst ys : list F) (frames : nat) : list F :=
  take frames ys ++ drop (length (take frames ys)) dst.

Definition NamModelNode_process (n : NamModelNode)
  (inb outb : list F) (nframes : nat) : NamModelNode * list F :=
  let frames := if (nframes <=? nam_maxFrames n)%nat then nframes
                else nam_maxFrames n in
  match model_ n with
  | None => (n, memcpy outb inb nframes)
  | Some m =>
    if negb (sp_enabled (nam_std n)) then (n, memcpy outb inb nframes)
    else
      let pre := preLin_ n in
      let post := nam_postLin n in
      let lim := lim_ n in
      let in_ :=
        for_loop frames
          (fun i buf =>
             let x := fmul (rd f0 inb i) pre in
             let x := if flt lim x then lim
                      else if flt x (fneg lim) then fneg lim else x in
             <[i := if negb (softclip_ n) then x
                    else if softclipTanh_ n then tanhf x
                    else softclipFast x]> buf)
          (nam_in n) in
      let m := dsp_feed m (take frames in_) in
      let out_ :=
        match dsp_respond m (dsp_fed m) with
        | Some ys => model_write (nam_out n) ys frames
        | None => memcpy (nam_out n) in_ frames
        end in
      let o :=
        for_loop frames
          (fun i o =>
             let wet := fmul (rd f0 out_ i) post in
             <[i := fadd (fmul (rd f0 inb i) (mixDry (nam_std n)))
                         (fmul wet (mixWet (nam_std n)))]> o)
          outb in
      let o := for_range frames nframes (fun i o => <[i := rd f0 inb i]> o) o in
      (set_nam_state n (Some m) in_ out_, o)
  end.

Definition set_ir_state (n : IrConvolverNode)
  (c : FFTConvolverPartitioned F) (o : list F) : IrConvolverNode :=
  {| ir_id := ir_id n; ir_std := ir_std n; conv_ := c;
     ir_maxFrames := ir_maxFrames n; ir_out := o |}.

Definition IrConvolverNode_process (n : IrConvolverNode)
  (inb outb : list F) (nframes : nat) : IrConvolverNode * list F :=
  if negb (sp_enabled (ir_std n)) || negb (ready (conv_ n))
  then (n, memcpy outb inb nframes)
  else
    let frames := if (nframes <=? ir_maxFrames n)%nat then nframes
                  else ir_maxFrames n in
    let '(ok, out_, c) :=
      processBlock (conv_ n) inb (ir_out n) (wrap_int32 (Z.of_nat frames)) in
    let out_ := if ok then out_ else memcpy out_ inb frames in
    let level := levelLin (ir_std n) in
    let o :=
      for_loop frames
        (fun i o =>
           let wet := fmul (rd f0 out_ i) level in
           <[i := fadd (fmul (rd f0 inb i) (mixDry (ir_std n)))
                       (fmul wet (mixWet (ir_std n)))]> o)
        outb in
    let o := for_range frames nframes (fun i o => <[i := rd f0 inb i]> o) o in
    (set_ir_state n c out_, o).

(** *** The interface [INode] and the nodes a chain owns *)

Class INode (N : Type) : Type := {
  node_id : N -> string;
  node_type : N -> string;
  process : RtParams -> N -> list F -> list F -> nat -> N * list F
}.

#[export] Instance PassthroughNode_INode : INode PassthroughNode := {
  node_id := pt_id;
  node_type := pt_type;
  process := fun _ n i o k => (n, PassthroughNode_process n i o k)
}.
#[export] Instance InputNode_INode : INode InputNode := {
  node_id := in_id;
  node_type := fun _ => "input";
  process := fun rt n i o k => (n, InputNode_process rt n i o k)
}.
#[export] Instance OutputNode_INode : INode OutputNode := {
  node_id := out_id;
  node_type := fun _ => "output";
  process := fun _ n i o k => (n, OutputNode_process n i o k)
}.
#[export] Instance OverdriveNode_INode : INode OverdriveNode := {
  node_id := od_id;
  node_type := fun _ => "overdrive";
  process := fun _ => OverdriveNode_process
}.
#[export] Instance NamModelNode_INode : INode NamModelNode := {
  node_id := nam_id;
  node_type := fun _ => "nam_model";
  process := fun _ => NamModelNode_process
}.
#[export] Instance IrConvolverNode_INode : INode IrConvolverNode := {
  node_id := ir_id;
  node_type := fun _ => "ir_convolver";
  process := fun _ => IrConvolverNode_process
}.

(** [std::unique_ptr<INode>]: one of the classes above. *)
Inductive Node : Type :=
| NPassthrough (n : PassthroughNode)
| NInput (n : InputNode)
| NOutput (n : OutputNode)
| NOverdrive (n : OverdriveNode)
| NNamModel (n : NamModelNode)
| NIrConvolver (n : IrConvolverNode).

Definition lift {N : Type} (inj : N -> Node) (r : N * list F)
  : Node * list F := (inj (fst r), snd r).

#[export] Instance Node_INode : INode Node := {
  node_id := fun n =>
    match n with
    | NPassthrough n => node_id n | NInput n => node_id n
    | NOutput n => node_id n | NOverdrive n => node_id n
    | NNamModel n => node_id n | NIrConvolver n => node_id n
    end;
  node_type := fun n =>
    match n with
    | NPassthrough n => node_type n | NInput n => node_type n
    | NOutput n => node_type n | NOverdrive n => node_type n
    | NNamModel n => node_type n | NIrConvolver n => node_type n
    end;
  process := fun rt n i o k =>
    match n with
    | NPassthrough n => lift NPassthrough (process rt n i o k)
    | NInput n => lift NInput (process rt n i o k)
    | NOutput n => lift NOutput (process rt n i o k)
    | NOverdrive n => lift NOverdrive (process rt n i o k)
    | NNamModel n => lift NNamModel (process rt n i o k)
    | NIrConvolver n => lift NIrConvolver (process rt n i o k)
    end
}.

(** *** What the builder reads from outside the process *)

(** libsndfile's view of an audio file: the header fields, the
    interleaved samples [sf_readf_float] delivered and the frame count it
    returned. *)
Record SfFile : Type := {
  sf_frames : Z;
  sf_samplerate : Z;
  sf_channels : Z;
  sf_interleaved : list F;
  sf_got : Z
}.

Class Externals : Type := {
  (* nam::get_dsp: a throw ([what()]), a null pointer, or a model *)
  get_dsp : string -> result string (option NamDSP);
  (* sf_open + sf_readf_float; the error is sf_strerror's text *)
  sf_open_read : string -> result string SfFile;
  (* strtol of $ALSA_IR_MAX_SAMPLES when the variable is set *)
  env_ir_max_samples : option Z
}.
Context `{Externals}.

(** ir_loader.{h,cpp} *)
Record IRData : Type := {
  ir_sampleRate : Z;
  mono : list F
}.

Definition dadd : spec_float -> spec_float -> spec_float :=
  SFadd d_prec d_emax.

Definition load_ir_mono (path : string) : result string IRData :=
  match sf_open_read path with
  | Err e => Err ("sndfile open failed: " ++ e)
  | Ok f =>
    if (sf_frames f <=? 0) || (sf_samplerate f <=? 0) || (sf_channels f <=? 0)
    then Err "invalid audio file metadata"
    else if negb (sf_got f =? sf_frames f)
    then Err "short read from audio file"
    else
      let frames := Z.to_nat (sf_frames f) in
      let channels := Z.to_nat (sf_channels f) in
      let m :=
        if sf_channels f =? 1 then sf_interleaved f
        else
          for_loop frames
            (fun i m =>
               let sum :=
                 for_loop channels
                   (fun c sum =>
                      dadd sum
                        (to_double
                           (rd f0 (sf_interleaved f) (i * channels + c))))
                   (S754_zero false) in
               <[i := of_double (ddiv sum (double_of_Z (sf_channels f)))]> m)
            (replicate frames f0) in
      let mean := fold_left (fun mean v => fadd mean v) m f0 in
      let mean := fdiv mean (of_Z (Z.of_nat (length m))) in
      Ok {| ir_sampleRate := sf_samplerate f;
            mono := map (fun v => fsub v mean) m |}
  end.

(** *** [buildNode] *)

Definition fmax (a b : F) : F := if flt a b then b else a.

(** The gain and peak normalisation of the impulse response. *)
Definition ir_apply_gain (spec : NodeSpec) (m : list F) : list F :=
  let gainDb := match numParam spec "gainDb" with
                | Some v => v | None => f0 end in
  let gainLin := dbToLin (clampf gainDb (fneg (of_Z 24)) (of_Z 24)) in
  let m := if negb (feqb gainLin f1)
           then map (fun v => fmul v gainLin) m else m in
  match numParam spec "targetDb" with
  | Some targetDb =>
      let peak := fold_left (fun peak v => fmax peak (fabs v)) m f0 in
      let target := dbToLin (clampf targetDb (fneg (of_Z 24)) f0) in
      if flt f0 peak
      then let normG := fdiv target peak in map (fun v => fmul v normG) m
      else m
  | None => m
  end.

(** The length the impulse response is cut to; 0 is no limit. *)
Definition ir_max_samples (spec : NodeSpec) (ctx : ProcessContext) : Z :=
  let maxSamples :=
    match numParam spec "maxSamples" with
    | Some vf => if flt f0 vf then wrap_uint32 (llroundf vf) else 0
    | None => 0
    end in
  let maxSamples :=
    if maxSamples =? 0 then
      match numParam spec "maxMs" with
      | Some ms =>
          if flt f0 ms then
            let s := ddiv (to_double ms) (double_of_Z 1000) in
            wrap_uint32
              (llround_sf (dmul s (double_of_Z (ctx_sampleRate ctx))))
          else maxSamples
      | None => maxSamples
      end
    else maxSamples in
  if maxSamples =? 0 then
    match env_ir_max_samples with
    | Some v => if 0 <? v then wrap_uint32 v else maxSamples
    | None => maxSamples
    end
  else maxSamples.

Definition kPi : F := fconst 314159265358979323846 100000000000000000000.

(** The cut itself, with the raised-cosine taper of the last samples. *)
Definition ir_trim (m : list F) (maxSamples : nat) : list F :=
  let taper := min 128 maxSamples in
  let m :=
    if (1 <? taper)%nat then
      let start := (maxSamples - taper)%nat in
      for_loop taper
        (fun i m =>
           let t := fdiv (of_Z (Z.of_nat i)) (of_Z (Z.of_nat (taper - 1))) in
           let g := fmul (fconst 5 10) (fadd f1 (cosf (fmul kPi t))) in
           <[(start + i)%nat := fmul (rd f0 m (start + i)) g]> m)
        m
    else m in
  take maxSamples m.

Definition NodeBuildResult : Type := Node * string.

Definition bypassed (spec : NodeSpec) (t warning : string)
  : NodeBuildResult :=
  (NPassthrough {| pt_id := id spec; pt_type := t;
                   pt_std := set_sp_enabled (parseStd spec) false |},
   warning).

Definition has_asset_path (spec : NodeSpec) : bool :=
  match asset spec with
  | Some a => negb (String.eqb (path a) "")
  | None => false
  end.
Definition asset_path (spec : NodeSpec) : string :=
  match asset spec with Some a => path a | None => "" end.

Definition build_nam (spec : NodeSpec) (ctx : ProcessContext)
  : result string NodeBuildResult :=
  if negb (enabled spec) then Ok (bypassed spec "nam_model" "")
  else if negb (has_asset_path spec)
  then Ok (bypassed spec "nam_model" "nam_model missing asset.path (bypassing)")
  else
    match get_dsp (asset_path spec) with
    | Err what => Err ("Failed to load NAM model: " ++ what)
    | Ok None => Err "Failed to load NAM model (get_dsp returned null)"
    | Ok (Some model) =>
        let expSR := dsp_expected_sr model in
        let warning :=
          if dltb (S754_zero false) expSR
             && negb (llround_sf expSR =? ctx_sampleRate ctx)
          then "NAM expected sampleRate="
               ++ pretty (wrap_int32 (llround_sf expSR))
               ++ " but engine is " ++ pretty (ctx_sampleRate ctx)
          else "" in
        let sp := parseStd spec in
        let preGainDb := default (fneg (of_Z 12)) (numParam spec "preGainDb") in
        let postGainDb := default f0 (numParam spec "postGainDb") in
        let inLimit := default (fconst 90 100) (numParam spec "inLimit") in
        let softclip :=
          if is_object (params spec)
          then bool_at (params spec) "softclip" true else true in
        let softclipTanh :=
          if is_object (params spec)
          then bool_at (params spec) "softclipTanh" false else false in
        let useInputLevel :=
          if is_object (params spec)
          then bool_at (params spec) "useInputLevel" true else true in
        Ok (NNamModel
              (mkNamModelNode (id spec) sp (Some model) (ctx_sampleRate ctx)
                 (maxBlockFrames ctx) preGainDb postGainDb inLimit
                 softclip softclipTanh useInputLevel),
            warning)
    end.

Definition build_ir (spec : NodeSpec) (ctx : ProcessContext)
  : result string NodeBuildResult :=
  if negb (enabled spec) then Ok (bypassed spec "ir_convolver" "")
  else if negb (has_asset_path spec)
  then Ok (bypassed spec "ir_convolver"
             "ir_convolver missing asset.path (bypassing)")
  else
    match load_ir_mono (asset_path spec) with
    | Err loadErr => Err ("Failed to load IR: " ++ loadErr)
    | Ok ir =>
        if negb (ir_sampleRate ir =? wrap_int32 (ctx_sampleRate ctx))
        then Err ("IR sample-rate mismatch (IR=" ++ pretty (ir_sampleRate ir)
                  ++ " engine=" ++ pretty (ctx_sampleRate ctx) ++ ")")
        else
          let m := ir_apply_gain spec (mono ir) in
          let maxSamples := ir_max_samples spec ctx in
          let '(m, warning) :=
            if (0 <? maxSamples) && (maxSamples <? Z.of_nat (length m))
            then (ir_trim m (Z.to_nat maxSamples),
                  "IR trimmed from " ++ pretty (length m) ++ " to "
                  ++ pretty maxSamples ++ " samples")
            else (m, "") in
          let '(ok, conv) :=
            init m (wrap_int32 (Z.of_nat (maxBlockFrames ctx))) in
          if negb ok then Err "IR convolver init failed"
          else
            Ok (NIrConvolver
                  (mkIrConvolverNode (id spec) (parseStd spec) conv
                     (maxBlockFrames ctx)),
                warning)
    end.

(** [buildNode(spec, ctx, err)]: the node with its warning, or the error
    text; the realtime cells are part of the result because the input
    node seeds them. *)
Definition buildNode (spec : NodeSpec) (ctx : ProcessContext) (rt : RtParams)
  : result string NodeBuildResult * RtParams :=
  if String.eqb (type spec) "input" then
    let sp := parseStd spec in
    let trimDb :=
      match numParam spec "inputTrimDb" with
      | Some v => clampf v (fneg (of_Z 24)) (of_Z 24)
      | None => f0
      end in
    let trimLin := dbToLin trimDb in
    let rt :=
      {| cell_inputTrimDb :=
           if inputTrimDb ctx then trimDb else cell_inputTrimDb rt;
         cell_inputTrimLin :=
           if inputTrimLin ctx then trimLin else cell_inputTrimLin rt |} in
    (Ok (NInput {| in_id := id spec; in_std := sp;
                   in_inputTrimLin := inputTrimLin ctx;
                   in_fallbackTrimLin := trimLin |}, ""), rt)
  else if String.eqb (type spec) "output" then
    (Ok (NOutput {| out_id := id spec; out_std := parseStd spec |}, ""), rt)
  else if String.eqb (type spec) "overdrive" then
    let sp := parseStd spec in
    let drive := default (fconst 6 10) (numParam spec "drive") in
    let tone := default (fconst 5 10) (numParam spec "tone") in
    let outDb := default f0 (numParam spec "levelDb") in
    (Ok (NOverdrive (mkOverdriveNode (id spec) sp drive tone outDb), ""), rt)
  else if String.eqb (type spec) "nam_model" then (build_nam spec ctx, rt)
  else if String.eqb (type spec) "ir_convolver" then (build_ir spec ctx, rt)
  else (Err ("Unknown node type: " ++ type spec), rt).

End Nodes.
Arguments RtParams F : clear implicits.
Arguments NodeStandardParams F : clear implicits.
Arguments PassthroughNode F : clear implicits.
Arguments InputNode F : clear implicits.
Arguments OutputNode F : clear implicits.
Arguments OverdriveNode F : clear implicits.
Arguments NamDSP F : clear implicits.
Arguments NamModelNode F : clear implicits.
Arguments IrConvolverNode F : clear implicits.
Arguments Node F : clear implicits.
Arguments INode F N : clear implicits.
Arguments SfFile F : clear implicits.
Arguments Externals F : clear implicits.
Arguments IRData F : clear implicits.
Arguments NodeBuildResult F : clear implicits.

(** *** [nodeTypeManifest] *)

Definition dbl (n d : Z) : Json :=
  JFloat (SFdiv d_prec d_emax (sf_exact n) (sf_exact d)).

Definition param_bool (key : string) (dflt : bool) : Json :=
  JObject [("default", JBool dflt); ("key", JString key);
           ("type", JString "bool")].

Definition param_float (key : string) (lo hi dflt : Json) : Json :=
  JObject [("default", dflt); ("key", JString key); ("max", hi);
           ("min", lo); ("type", JString "float")].

Definition std_params : list Json :=
  [param_bool "enabled" true;
   param_float "mix" (dbl 0 1) (dbl 1 1) (dbl 1 1);
   param_float "levelDb" (dbl (-48) 1) (dbl 24 1) (dbl 0 1)].

Definition nodeTypeManifest : Json :=
  JObject
    [("types",
      JArray
        [JObject
           [("category", JString "fx");
            ("params",
             JArray
               (std_params ++
                [param_float "drive" (dbl 0 1) (dbl 1 1) (dbl 6 10);
                 param_float "tone" (dbl 0 1) (dbl 1 1) (dbl 5 10)]));
            ("type", JString "overdrive")];
         JObject
           [("asset", JObject [("kind", JString "nam_model");
                               ("required", JBool true)]);
            ("category", JString "amp");
            ("params",
             JArray
               (std_params ++
                [param_float "preGainDb" (dbl (-24) 1) (dbl 24 1) (dbl (-12) 1);
                 param_float "postGainDb" (dbl (-24) 1) (dbl 24 1) (dbl 0 1);
                 param_float "inLimit" (dbl 5 100) (dbl 1 1) (dbl 90 100);
                 param_bool "softclip" true;
                 param_bool "softclipTanh" false;
                 param_bool "useInputLevel" true]));
            ("type", JString "nam_model")];
         JObject
           [("asset", JObject [("kind", JString "ir_wav");
                               ("required", JBool true)]);
            ("category", JString "cab");
            ("params",
             JArray
               (std_params ++
                [param_float "gainDb" (dbl (-24) 1) (dbl 24 1) (dbl 0 1);
                 param_float "targetDb" (dbl (-24) 1) (dbl 0 1) (dbl (-6) 1);
                 param_float "maxSamples" (dbl 0 1) (dbl 192000 1) (dbl 0 1);
                 param_float "maxMs" (dbl 0 1) (dbl 500 1) (dbl 0 1)]));
            ("type", JString "ir_convolver")];
         JObject [("category", JString "utility"); ("type", JString "input")];
         JObject [("category", JString "utility"); ("type", JString "output")]]);
     ("version", JInt 1)].

End Nodes.

(* ================================================================== *)
(** ** signal_chain.{h,cpp} *)
(* ================================================================== *)
Module Chain.
Import Schema Convolver Nodes.

Section Chain.
Context {F : Type} `{Float F} `{LibM F} `{FFTW F} `{!Externals F}.

Record TimingBucket : Type := {
  calls : Z;
  sumUs : Z;
  maxUs : Z
}.

Record SignalChain : Type := {
  spec_ : ChainSpec;
  nodes_ : list (Node F);
  ctx_ : ProcessContext;
  bufA_ : list F;
  bufB_ : list F;
  nodeTimingEnabled_ : bool;
  timingTypes_ : list string;
  timingBuckets_ : list TimingBucket;
  nodeToBucket_ : list Z
}.

Definition spec (c : SignalChain) : ChainSpec := spec_ c.

(** The node-to-bucket table of the constructor: one bucket per node type,
    numbered in order of first appearance. *)
Definition bucket_step (nodes : list (Node F)) (i : nat)
  (s : gmap string Z * list string * list Z)
  : gmap string Z * list string * list Z :=
  let '(typeToBucket, types, nodeToBucket) := s in
  let t := match nodes !! i with Some n => node_type n | None => "" end in
  let '(typeToBucket, types) :=
    match typeToBucket !! t with
    | Some _ => (typeToBucket, types)
    | None =>
        let idx := wrap_uint32 (Z.of_nat (length types)) in
        (<[t := idx]> typeToBucket, (types ++ [t])%list)
    end in
  (typeToBucket, types,
   <[i := default 0 (typeToBucket !! t)]> nodeToBucket).

(** The constructor; [timing] is what $ALSA_NODE_TIMING says. *)
Definition mkSignalChain (s : ChainSpec) (nodes : list (Node F))
  (ctx : ProcessContext) (timing : bool) : SignalChain :=
  let a := replicate (maxBlockFrames ctx) f0 in
  let b := replicate (maxBlockFrames ctx) f0 in
  if timing then
    let '(_, types, nodeToBucket) :=
      for_loop (length nodes) (bucket_step nodes)
        (∅, [], replicate (length nodes) 0) in
    {| spec_ := s; nodes_ := nodes; ctx_ := ctx; bufA_ := a; bufB_ := b;
       nodeTimingEnabled_ := true; timingTypes_ := types;
       timingBuckets_ :=
         replicate (length types) {| calls := 0; sumUs := 0; maxUs := 0 |};
       nodeToBucket_ := nodeToBucket |}
  else
    {| spec_ := s; nodes_ := nodes; ctx_ := ctx; bufA_ := a; bufB_ := b;
       nodeTimingEnabled_ := false; timingTypes_ := [];
       timingBuckets_ := []; nodeToBucket_ := [] |}.

(** The two scratch buffers, and the local pointers [a] and [b] into
    them. *)
Inductive Scratch : Type := PA | PB.

Definition deref (p : Scratch) (bufs : list F * list F) : list F :=
  match p with PA => fst bufs | PB => snd bufs end.
Definition assign (p : Scratch) (v : list F) (bufs : list F * list F)
  : list F * list F :=
  match p with PA => (v, snd bufs) | PB => (fst bufs, v) end.

(** [nodes_[i]->process(src, dst, frames)] with [dst] a scratch buffer. *)
Definition call_node (rt : RtParams F) (i : nat) (src : list F) (dst : Scratch)
  (frames : nat) (s : list (Node F) * (list F * list F))
  : list (Node F) * (list F * list F) :=
  let '(nodes, bufs) := s in
  match nodes !! i with
  | Some n =>
      let '(n, o) := process rt n src (deref dst bufs) frames in
      (<[i := n]> nodes, assign dst o bufs)
  | None => s
  end.

(** The timing record of one call: [us] is the duration measured. *)
Definition record_timing (c : SignalChain) (i : nat) (us : Z)
  (buckets : list TimingBucket) : list TimingBucket :=
  let bi := match nodeToBucket_ c with
            | [] => 0
            | _ => rd 0 (nodeToBucket_ c) i
            end in
  match buckets !! Z.to_nat bi with
  | Some bkt =>
      <[Z.to_nat bi :=
          {| calls := wrap_uint64 (calls bkt + 1);
             sumUs := wrap_uint64 (sumUs bkt + us);
             maxUs := if maxUs bkt <? us then us else maxUs bkt |}]> buckets
  | None => buckets
  end.

(** The loop over the nodes after the first: [a -> b], then the pointers
    are exchanged. *)
Definition pingpong_step (rt : RtParams F) (c : SignalChain) (us : nat -> Z)
  (frames : nat) (i : nat)
  (s : list (Node F) * (list F * list F) * (Scratch * Scratch)
       * list TimingBucket)
  : list (Node F) * (list F * list F) * (Scratch * Scratch) * list TimingBucket :=
  let '(nodes, bufs, (a, b), buckets) := s in
  let '(nodes, bufs) :=
    call_node rt i (deref a bufs) b frames (nodes, bufs) in
  let buckets :=
    if nodeTimingEnabled_ c then record_timing c i (us i) buckets
    else buckets in
  (nodes, bufs, (b, a), buckets).

(** [SignalChain::process(in, out, nframes)]: the caller's [out] and the
    chain after the call.  [us i] is the wall-clock time node [i] takes,
    which only the timing buckets see. *)
Definition SignalChain_process (rt : RtParams F) (us : nat -> Z)
  (c : SignalChain) (inb outb : list F) (nframes : nat)
  : SignalChain * list F :=
  let frames := if (nframes <=? maxBlockFrames (ctx_ c))%nat then nframes
                else maxBlockFrames (ctx_ c) in
  match nodes_ c with
  | [] => (c, memcpy outb inb nframes)
  | _ =>
      let '(nodes, bufs) :=
        call_node rt 0 inb PA frames (nodes_ c, (bufA_ c, bufB_ c)) in
      let buckets :=
        if nodeTimingEnabled_ c
        then record_timing c 0 (us 0%nat) (timingBuckets_ c)
        else timingBuckets_ c in
      let '(nodes, bufs, (a, _), buckets) :=
        for_range 1 (length (nodes_ c)) (pingpong_step rt c us frames)
          (nodes, bufs, (PA, PB), buckets) in
      let outb := memcpy outb (deref a bufs) frames in
      let outb :=
        if (frames <? nframes)%nat
        then memcpy_at outb inb frames (nframes - frames)
        else outb in
      ({| spec_ := spec_ c; nodes_ := nodes; ctx_ := ctx_ c;
          bufA_ := fst bufs; bufB_ := snd bufs;
          nodeTimingEnabled_ := nodeTimingEnabled_ c;
          timingTypes_ := timingTypes_ c; timingBuckets_ := buckets;
          nodeToBucket_ := nodeToBucket_ c |}, outb)
  end.

Record BuildChainResult : Type := {
  bc_chain : SignalChain;
  bc_warning : string
}.

(** The loop of [buildChain] over the node specs. *)
Fixpoint buildNodes (specs : list NodeSpec) (ctx : ProcessContext)
  (nodes : list (Node F)) (warnings : string) (rt : RtParams F)
  : result string (list (Node F) * string) * RtParams F :=
  match specs with
  | [] => (Ok (nodes, warnings), rt)
  | ns :: rest =>
      match buildNode ns ctx rt with
      | (Err nodeErr, rt) =>
          (Err ("Failed to build node '" ++ id ns ++ "' (" ++ type ns
                ++ "): " ++ nodeErr), rt)
      | (Ok (node, warning), rt) =>
          let warnings :=
            if negb (String.eqb warning "") then
              (if negb (String.eqb warnings "")
               then warnings ++ String "010" "" else warnings) ++ warning
            else warnings in
          buildNodes rest ctx (nodes ++ [node]) warnings rt
      end
  end.

Definition buildChain (s : ChainSpec) (ctx : ProcessContext) (timing : bool)
  (rt : RtParams F) : result string BuildChainResult * RtParams F :=
  match buildNodes (chain s) ctx [] "" rt with
  | (Err e, rt) => (Err e, rt)
  | (Ok (nodes, warnings), rt) =>
      (Ok {| bc_chain := mkSignalChain s nodes ctx timing;
             bc_warning := warnings |}, rt)
  end.

End Chain.
Arguments SignalChain F : clear implicits.
Arguments BuildChainResult F : clear implicits.
End Chain.

(* ================================================================== *)
(** ** chain_control_server.{h,cpp} *)
(* ================================================================== *)
Module Control.
Import Schema Convolver Nodes Chain.

Section Control.
Context {F : Type} `{Float F} `{LibM F} `{FFTW F} `{!Externals F}.

Record ChainRuntimeState : Type := {
  activeChain : option (SignalChain F);
  pendingChain : option (SignalChain F);
  lastSpec : ChainSpec;
  ctx : ProcessContext;
  configPath : string;
  socketPath : string
}.

(** The files of the machine, by path. *)
Definition Disk : Type := gmap string string.

(** What the file system does to one [persistChainToDisk]: nothing, or
    the failure of one step.  [fwrite] counts the bytes the stream took,
    into its buffer or further; when the flush of the buffer fails later,
    in [fclose], the caller does not learn of it, as the result of
    [fclose] is discarded: [FsFlushFails k] is that case, with the first
    [k] bytes of the text in the file. *)
Inductive FsFault : Type :=
| FsFine
| FsCreateDirectoriesThrows (what : string)
| FsOpenFails (strerror : string)
| FsShortWrite (written : nat)
| FsFlushFails (flushed : nat)
| FsRenameThrows (what : string).

(** What the control thread works in: its state, the realtime cells the
    builder seeds, the disk; and, fixed for one request, the library's
    [dump] of a JSON value, the timing switch read at construction and
    the fate of the write. *)
Record World : Type := {
  state : ChainRuntimeState;
  rt : RtParams F;
  disk : Disk
}.

Record Env : Type := {
  dump2 : Json -> string;        (* j.dump(2) *)
  json_parse : string -> result string Json;  (* Json::parse, or what() *)
  env_node_timing : bool;
  fs_fault : FsFault
}.

Definition string_take (n : nat) (s : string) : string :=
  String.substring 0 n s.

(** [persistChainToDisk(path, spec, err)]: the text goes to [path].tmp,
    which is then renamed to [path]. *)
Definition persistChainToDisk (env : Env) (path : string) (s : ChainSpec)
  (d : Disk) : result string unit * Disk :=
  let tmp := path ++ ".tmp" in
  let text := dump2 env (chainSpecToJson s) ++ String "010" "" in
  match fs_fault env with
  | FsCreateDirectoriesThrows what => (Err what, d)
  | FsOpenFails e => (Err ("Failed to open temp file: " ++ e), d)
  | FsShortWrite k =>
      if (k <? String.length text)%nat
      then (Err "Short write", <[tmp := string_take k text]> d)
      else (Ok tt, <[path := text]> (delete tmp d))
  | FsFlushFails k => (Ok tt, <[path := string_take k text]> (delete tmp d))
  | FsRenameThrows what => (Err what, <[tmp := text]> d)
  | FsFine => (Ok tt, <[path := text]> (delete tmp d))
  end.

Definition resp_error (msg : string) : Json :=
  JObject [("error", JString msg); ("ok", JBool false)].

Definition resp_ok (warning : string) : Json :=
  if negb (String.eqb warning "")
  then JObject [("ok", JBool true); ("warning", JString warning)]
  else JObject [("ok", JBool true)].

Definition set_pending (st : ChainRuntimeState) (last : ChainSpec)
  (c : SignalChain F) : ChainRuntimeState :=
  {| activeChain := activeChain st; pendingChain := Some c;
     lastSpec := last; ctx := ctx st; configPath := configPath st;
     socketPath := socketPath st |}.

Definition no_error : ValidationError := {| message := "" |}.

Definition handleRequest (env : Env) (w : World) (req : Json)
  : Json * World :=
  if negb (is_object req) then (resp_error "request must be an object", w)
  else if negb (contains "cmd" req) || negb (is_string (at_key "cmd" req))
  then (resp_error "missing string cmd", w)
  else
    let cmd := get_string (at_key "cmd" req) in
    if String.eqb cmd "list_types" then
      (JObject [("ok", JBool true); ("types", nodeTypeManifest)], w)
    else if String.eqb cmd "get_chain" then
      match activeChain (state w) with
      | None => (resp_error "no active chain", w)
      | Some current =>
          (JObject [("chain", chainSpecToJson (spec current));
                    ("ok", JBool true)], w)
      end
    else if String.eqb cmd "set_chain" then
      if negb (contains "chain" req) then (resp_error "missing chain", w)
      else
        match parseChainJson (at_key "chain" req) no_error with
        | (None, verr) => (resp_error (message verr), w)
        | (Some parsed, verr) =>
          let parsed :=
            set_sampleRate parsed (ctx_sampleRate (ctx (state w))) in
          match validateChainSpec parsed verr with
          | (None, verr) => (resp_error (message verr), w)
          | (Some validated, _) =>
            match buildChain validated (ctx (state w)) (env_node_timing env)
                    (rt w) with
            | (Err buildErr, rt') =>
                (resp_error buildErr,
                 {| state := state w; rt := rt'; disk := disk w |})
            | (Ok built, rt') =>
              match persistChainToDisk env (configPath (state w)) validated
                      (disk w) with
              | (Err persistErr, d') =>
                  (resp_error ("persist failed: " ++ persistErr),
                   {| state := state w; rt := rt'; disk := d' |})
              | (Ok _, d') =>
                  (resp_ok (bc_warning built),
                   {| state := set_pending (state w) validated (bc_chain built);
                      rt := rt'; disk := d' |})
              end
            end
          end
        end
    else (resp_error "unknown cmd", w).

(** One connection of the server loop: a line is read, parsed and
    answered; a line that is not JSON is answered without the handler. *)
Definition serve_line (env : Env) (w : World) (line : string)
  : Json * World :=
  match json_parse env line with
  | Ok req => handleRequest env w req
  | Err what => (resp_error ("parse error: " ++ what), w)
  end.

End Control.
Arguments ChainRuntimeState F : clear implicits.
Arguments World F : clear implicits.
End Control.

(* ================================================================== *)
(** ** main_alsa.cpp: retirement ring and chain hand-over *)
(* ================================================================== *)
Module Swap.

Section Swap.
(** A chain handle ([std::shared_ptr<SignalChain>]); the hand-over only
    moves handles around, so the chain behind one is left abstract. *)
Context {Chain : Type}.

Definition kRetireQueueSize : Z := 128.

(** [gRetireQueue], [gRetireWrite], [gRetireRead], [gRetireQueueFull]. *)
Record RetireRing : Type := {
  gRetireQueue : list (option Chain);
  gRetireWrite : Z;
  gRetireRead : Z;
  gRetireQueueFull : Z
}.

(** What the threads share: the two handles of [gChainState] and the ring. *)
Record Shared : Type := {
  g_activeChain : option Chain;
  g_pendingChain : option Chain;
  ring : RetireRing
}.

Inductive SwapRampState : Type := Idle | FadeOut | FadeIn.

(** The locals of the audio loop that outlive a period. *)
Record AudioState : Type := {
  activeChain : option Chain;
  deferredRetire : option Chain;
  deferredSwap : option Chain;
  swapNext : option Chain;
  swapState : SwapRampState;
  chainSwapCount : Z
}.

(** What a period reads once: [passthroughMode], and the ramp length
    fixed at start-up. *)
Record PeriodConfig : Type := {
  passthrough : bool;
  swapRampSamples : Z
}.

Definition retireQueueHasSpace (r : RetireRing) : bool :=
  wrap_uint64 (gRetireWrite r - gRetireRead r) <? kRetireQueueSize.

(** [retireChainFromAudioThread(old)]: the flag, [old] after the call,
    the ring. *)
Definition retireChainFromAudioThread (old : option Chain) (r : RetireRing)
  : bool * option Chain * RetireRing :=
  match old with
  | None => (true, None, r)
  | Some _ =>
      let w := gRetireWrite r in
      if wrap_uint64 (w - gRetireRead r) >=? kRetireQueueSize
      then (false, old,
            {| gRetireQueue := gRetireQueue r; gRetireWrite := w;
               gRetireRead := gRetireRead r;
               gRetireQueueFull := wrap_uint64 (gRetireQueueFull r + 1) |})
      else
        let idx := Z.to_nat (wrap_uint32 (w mod kRetireQueueSize)) in
        (true, None,
         {| gRetireQueue := <[idx := old]> (gRetireQueue r);
            gRetireWrite := wrap_uint64 (w + 1);
            gRetireRead := gRetireRead r;
            gRetireQueueFull := gRetireQueueFull r |})
  end.

(** One pass of the retire thread: every slot between the two indices is
    reset, which drops the chain there. *)
Fixpoint retire_drain (fuel : nat) (q : list (option Chain)) (r w : Z)
  : list (option Chain) * Z :=
  match fuel with
  | O => (q, r)
  | S fuel =>
      if r =? w then (q, r)
      else
        let idx := Z.to_nat (wrap_uint32 (r mod kRetireQueueSize)) in
        retire_drain fuel (<[idx := None]> q) (wrap_uint64 (r + 1)) w
  end.

Definition retire_thread_pass (r : RetireRing) : RetireRing :=
  let n := Z.to_nat (wrap_uint64 (gRetireWrite r - gRetireRead r)) in
  let '(q, rd') := retire_drain n (gRetireQueue r) (gRetireRead r)
                     (gRetireWrite r) in
  {| gRetireQueue := q; gRetireWrite := gRetireWrite r; gRetireRead := rd';
     gRetireQueueFull := gRetireQueueFull r |}.

(** The control thread's [atomic_store] into [pendingChain]. *)
Definition publish (c : Chain) (cell : option Chain) : option Chain := Some c.

Definition publish_all (burst : list Chain) (cell : option Chain)
  : option Chain :=
  fold_left (fun cell c => publish c cell) burst cell.

(** The audio thread's [atomic_exchange(&pendingChain, {})].  The control
    thread runs beside it: [arrivals] lists, for each exchange of the
    period in turn, what is published before it. *)
Definition exchange (arrivals : list (list Chain)) (cell : option Chain)
  : option Chain * list (list Chain) :=
  match arrivals with
  | [] => (cell, [])
  | burst :: rest => (publish_all burst cell, rest)
  end.

(** The coalescing loop: exchange until the cell is found empty. *)
Fixpoint coalesce (arrivals : list (list Chain)) (pending : Chain)
  : Chain * list (list Chain) :=
  match arrivals with
  | [] => (pending, [])
  | burst :: rest =>
      match publish_all burst None with
      | None => (pending, rest)
      | Some newer => coalesce rest newer
      end
  end.

(** The pick-up of a period: [pending], [deferredSwap] and the arrivals
    left; the cell is empty afterwards. *)
Definition pick_up (arrivals : list (list Chain)) (cell : option Chain)
  (deferred : option Chain)
  : option Chain * option Chain * list (list Chain) :=
  let '(pending, deferred, arrivals) :=
    match deferred with
    | Some _ =>
        let '(newer, arrivals) := exchange arrivals cell in
        match newer with
        | Some _ => (newer, newer, arrivals)
        | None => (deferred, deferred, arrivals)
        end
    | None =>
        let '(got, arrivals) := exchange arrivals cell in
        (got, deferred, arrivals)
    end in
  match pending with
  | Some p =>
      let '(p, arrivals) := coalesce arrivals p in
      (Some p, deferred, arrivals)
  | None => (None, deferred, arrivals)
  end.

Definition is_some {A : Type} (o : option A) : bool :=
  match o with Some _ => true | None => false end.

(** The swap itself: the new chain becomes active, the old one goes to
    [deferredRetire] and from there, if it fits, to the ring. *)
Definition install (next : option Chain) (sh : Shared) (au : AudioState)
  : Shared * AudioState :=
  let old := activeChain au in
  let '(_, dr, r) := retireChainFromAudioThread old (ring sh) in
  ({| g_activeChain := next; g_pendingChain := g_pendingChain sh; ring := r |},
   {| activeChain := next; deferredRetire := dr;
      deferredSwap := deferredSwap au; swapNext := swapNext au;
      swapState := swapState au;
      chainSwapCount := wrap_uint64 (chainSwapCount au + 1) |}).

Definition set_deferredSwap (au : AudioState) (v : option Chain)
  : AudioState :=
  {| activeChain := activeChain au; deferredRetire := deferredRetire au;
     deferredSwap := v; swapNext := swapNext au; swapState := swapState au;
     chainSwapCount := chainSwapCount au |}.
Definition set_deferredRetire (au : AudioState) (v : option Chain)
  : AudioState :=
  {| activeChain := activeChain au; deferredRetire := v;
     deferredSwap := deferredSwap au; swapNext := swapNext au;
     swapState := swapState au; chainSwapCount := chainSwapCount au |}.
Definition set_swapNext (au : AudioState) (v : option Chain)
  (s : SwapRampState) : AudioState :=
  {| activeChain := activeChain au; deferredRetire := deferredRetire au;
     deferredSwap := deferredSwap au; swapNext := v; swapState := s;
     chainSwapCount := chainSwapCount au |}.
Definition set_ring (sh : Shared) (r : RetireRing) : Shared :=
  {| g_activeChain := g_activeChain sh; g_pendingChain := g_pendingChain sh;
     ring := r |}.
Definition set_pendingCell (sh : Shared) (v : option Chain) : Shared :=
  {| g_activeChain := g_activeChain sh; g_pendingChain := v;
     ring := ring sh |}.

(** The request in hand, at the period boundary. *)
Definition swap_request (cfg : PeriodConfig) (pending : option Chain)
  (sh : Shared) (au : AudioState) : Shared * AudioState :=
  match pending with
  | None => (sh, au)
  | Some _ =>
      let canSwapNow :=
        negb (is_some (activeChain au))
        || (negb (is_some (deferredRetire au))
            && retireQueueHasSpace (ring sh)) in
      if negb canSwapNow then (sh, set_deferredSwap au pending)
      else
        let au := set_deferredSwap au None in
        if negb (passthrough cfg) && (0 <? swapRampSamples cfg)
           && is_some (activeChain au)
        then
          (sh, set_swapNext au pending
                 (match swapState au with Idle => FadeOut | s => s end))
        else install pending sh au
  end.

(** The ramp machine after the block was processed. *)
Definition ramp_step (cfg : PeriodConfig) (sh : Shared) (au : AudioState)
  : Shared * AudioState :=
  if negb (passthrough cfg) && (0 <? swapRampSamples cfg) then
    match swapState au with
    | FadeOut =>
        match swapNext au with
        | Some _ =>
            if is_some (deferredRetire au)
               || negb (retireQueueHasSpace (ring sh))
            then (sh, set_swapNext (set_deferredSwap au (swapNext au))
                        None Idle)
            else
              let '(sh, au') := install (swapNext au) sh au in
              (sh, set_swapNext au' None FadeIn)
        | None => (sh, au)
        end
    | FadeIn => (sh, set_swapNext au (swapNext au) Idle)
    | Idle => (sh, au)
    end
  else (sh, au).

(** One period of the audio loop, as far as chain handles go: the retry
    of a deferred retire, the pick-up, the swap request, the block (the
    chain that processes it is returned), the ramp machine. *)
Definition audio_period (cfg : PeriodConfig) (arrivals : list (list Chain))
  (sh : Shared) (au : AudioState)
  : Shared * AudioState * option Chain * list (list Chain) :=
  let '(sh, au) :=
    match deferredRetire au with
    | Some _ =>
        let '(_, dr, r) :=
          retireChainFromAudioThread (deferredRetire au) (ring sh) in
        (set_ring sh r, set_deferredRetire au dr)
    | None => (sh, au)
    end in
  let '(pending, deferred, arrivals) :=
    pick_up arrivals (g_pendingChain sh) (deferredSwap au) in
  let sh := set_pendingCell sh None in
  let au := set_deferredSwap au deferred in
  let '(sh, au) := swap_request cfg pending sh au in
  let processed := if negb (passthrough cfg) then activeChain au else None in
  let '(sh, au) := ramp_step cfg sh au in
  (sh, au, processed, arrivals).

(** The events of a run: the control thread publishes a chain, the audio
    thread runs a period (with what arrives during its pick-up), the
    retire thread makes a pass. *)
Inductive Event : Type :=
| EvPublish (c : Chain)
| EvPeriod (cfg : PeriodConfig) (arrivals : list (list Chain))
| EvRetirePass.

Definition step (ev : Event) (s : Shared * AudioState * list (option Chain))
  : Shared * AudioState * list (option Chain) :=
  let '(sh, au, trace) := s in
  match ev with
  | EvPublish c =>
      (set_pendingCell sh (publish c (g_pendingChain sh)), au, trace)
  | EvPeriod cfg arrivals =>
      let '(sh, au, processed, rest) := audio_period cfg arrivals sh au in
      (* what the pick-up did not see is published all the same *)
      let sh :=
        set_pendingCell sh (publish_all (concat rest) (g_pendingChain sh)) in
      (sh, au, (trace ++ [processed])%list)
  | EvRetirePass => (set_ring sh (retire_thread_pass (ring sh)), au, trace)
  end.

Definition run (evs : list Event)
  (s : Shared * AudioState * list (option Chain))
  : Shared * AudioState * list (option Chain) :=
  fold_left (fun s ev => step ev s) evs s.

End Swap.
Arguments RetireRing Chain : clear implicits.
Arguments Shared Chain : clear implicits.
Arguments AudioState Chain : clear implicits.
Arguments Event Chain : clear implicits.
End Swap.

(* ================================================================== *)
(** ** signal_chain.{h,cpp}: the timing snapshot *)
(* ================================================================== *)
Module Snapshot.
Import Schema Convolver Nodes Chain.

Section Snapshot.
Context {F : Type} `{Float F} `{LibM F} `{FFTW F} `{!Externals F}.

(** [SignalChain::NodeTimingStat]; [type] is a pointer that starts null. *)
Record NodeTimingStat : Type := {
  stat_type : option string;
  stat_calls : Z;
  stat_sumUs : Z;
  stat_maxUs : Z
}.

Definition NodeTimingStat_default : NodeTimingStat :=
  {| stat_type := None; stat_calls := 0; stat_sumUs := 0; stat_maxUs := 0 |}.

Definition TimingBucket_default : TimingBucket :=
  {| calls := 0; sumUs := 0; maxUs := 0 |}.

Definition set_timingBuckets (c : SignalChain F) (b : list TimingBucket)
  : SignalChain F :=
  {| spec_ := spec_ c; nodes_ := nodes_ c; ctx_ := ctx_ c;
     bufA_ := bufA_ c; bufB_ := bufB_ c;
     nodeTimingEnabled_ := nodeTimingEnabled_ c;
     timingTypes_ := timingTypes_ c; timingBuckets_ := b;
     nodeToBucket_ := nodeToBucket_ c |}.

(** [snapshotNodeTiming(out, cap, reset)]: the count returned, the
    caller's array ([None] is a null pointer) and the chain. *)
Definition snapshotNodeTiming (c : SignalChain F)
  (out : option (list NodeTimingStat)) (cap : nat) (reset : bool)
  : nat * option (list NodeTimingStat) * SignalChain F :=
  match out with
  | None => (0%nat, out, c)
  | Some o =>
      if negb (nodeTimingEnabled_ c) || (cap =? 0)%nat then (0%nat, out, c)
      else
        let n := min cap (length (timingBuckets_ c)) in
        let '(o, buckets) :=
          for_loop n
            (fun i '(o, buckets) =>
               let b := rd TimingBucket_default buckets i in
               let o :=
                 <[i := {| stat_type := Some (rd "" (timingTypes_ c) i);
                           stat_calls := calls b; stat_sumUs := sumUs b;
                           stat_maxUs := maxUs b |}]> o in
               let buckets :=
                 if reset then <[i := TimingBucket_default]> buckets
                 else buckets in
               (o, buckets))
            (o, timingBuckets_ c) in
        (n, Some o, set_timingBuckets c buckets)
  end.

End Snapshot.
End Snapshot.

(* ================================================================== *)
(** ** main_alsa.cpp: the boot chain *)
(* ================================================================== *)
Module Boot.
Import Schema Convolver Nodes Chain Control.

Section Boot.
Context {F : Type} `{Float F} `{LibM F} `{FFTW F} `{!Externals F}.

(** What start-up reads from outside: the stream extraction [f >> j] of
    the JSON library (a value, or the [what()] of its throw), the three
    bypass flags, and the environment variables, as far as they are
    looked at. *)
Record BootEnv : Type := {
  stream_read : string -> result string Json;
  passthroughMode : bool;
  bypassNam : bool;
  bypassIr : bool;
  env_ALSA_INPUT_TRIM_DB : bool;         (* getenv(...) != nullptr *)
  env_DSP_CONTROL_SOCK : option string;
  env_ALSA_NODE_TIMING : bool
}.

(** [gBootSpec] and [gBootSpecValid]. *)
Record BootSpec : Type := {
  gBootSpec : ChainSpec;
  gBootSpecValid : bool
}.

Definition BootSpec_init : BootSpec :=
  {| gBootSpec := ChainSpec_default; gBootSpecValid := false |}.

Definition config_path : string := "/opt/pedal/config/chain.json".

(** [loadConfig()]: every way out but the last leaves the globals as they
    are; a file that cannot be opened is a path the disk does not hold. *)
Definition loadConfig (be : BootEnv) (d : Disk) (b : BootSpec) : BootSpec :=
  match d !! config_path with
  | None => b
  | Some text =>
      match stream_read be text with
      | Err _ => b
      | Ok j =>
          match parseChainJson j no_error with
          | (None, _) => b
          | (Some parsed, verr) =>
              match validateChainSpec parsed verr with
              | (None, _) => b
              | (Some validated, _) =>
                  {| gBootSpec := validated; gBootSpecValid := true |}
              end
          end
      end
  end.

Definition default_node (i t c : string) (p : list (string * Json))
  : NodeSpec :=
  {| id := i; type := t; category := c; enabled := true;
     params := JObject p; asset := None |}.

(** [defaultChainSpec(sampleRate)]; the keys of each [params] in the
    order the library keeps them. *)
Definition defaultChainSpec (sampleRate : Z) : ChainSpec :=
  {| version := 1; sampleRate := sampleRate;
     chain :=
       [default_node "input" "input" "utility" [("inputTrimDb", dbl 0 1)];
        default_node "amp1" "nam_model" "amp"
          [("levelDb", dbl 0 1); ("postGainDb", dbl 0 1);
           ("preGainDb", dbl (-12) 1)];
        default_node "cab1" "ir_convolver" "cab"
          [("levelDb", dbl 0 1); ("targetDb", dbl (-6) 1)];
        default_node "output" "output" "utility" [("levelDb", dbl 0 1)]] |}.

Definition set_chain (s : ChainSpec) (ns : list NodeSpec) : ChainSpec :=
  {| version := version s; sampleRate := sampleRate s; chain := ns |}.

(** [applyBypassFlagsToSpec(spec)] *)
Definition applyBypassFlagsToSpec (be : BootEnv) (s : ChainSpec) : ChainSpec :=
  let passthrough := passthroughMode be in
  let bNam := bypassNam be in
  let bIr := bypassIr be in
  set_chain s
    (map (fun n =>
            if String.eqb (type n) "nam_model" then
              if passthrough || bNam then set_enabled n false else n
            else if String.eqb (type n) "ir_convolver" then
              if passthrough || bIr then set_enabled n false else n
            else n)
       (chain s)).

(** The loop that writes the trim into the first [input] node. *)
Fixpoint override_trim (v : Json) (ns : list NodeSpec) : list NodeSpec :=
  match ns with
  | [] => []
  | n :: rest =>
      if String.eqb (type n) "input"
      then set_param n "inputTrimDb" v :: rest
      else n :: override_trim v rest
  end.

(** The last resort of [initChainRuntime]: the default chain with amp and
    cab disabled. *)
Definition fallback_spec (sampleRate : Z) : ChainSpec :=
  let fb := defaultChainSpec sampleRate in
  set_chain fb
    (map (fun n =>
            if String.eqb (type n) "nam_model"
               || String.eqb (type n) "ir_convolver"
            then set_enabled n false else n)
       (chain fb)).

(** The chain [initChainRuntime] sets out to build. *)
Definition boot_spec (be : BootEnv) (sampleRate : Z) (b : BootSpec)
  (rt : RtParams F) : ChainSpec :=
  let spec := if gBootSpecValid b then gBootSpec b
              else defaultChainSpec sampleRate in
  let spec := set_sampleRate spec sampleRate in
  let spec := applyBypassFlagsToSpec be spec in
  let spec :=
    if env_ALSA_INPUT_TRIM_DB be then
      let v := clampf (cell_inputTrimDb rt) (fneg (of_Z 24)) (of_Z 24) in
      set_chain spec (override_trim (JFloat (to_double v)) (chain spec))
    else spec in
  match validateChainSpec spec no_error with
  | (None, _) => applyBypassFlagsToSpec be (defaultChainSpec sampleRate)
  | (Some _, _) => spec
  end.

(** [initChainRuntime(sampleRate, maxBlockFrames)]: [gChainState] and the
    realtime cells afterwards.  (The two threads it starts are not part
    of the state.) *)
Definition initChainRuntime (be : BootEnv) (sampleRate : Z)
  (maxBlockFrames : nat) (b : BootSpec) (st : ChainRuntimeState F)
  (rt : RtParams F) : ChainRuntimeState F * RtParams F :=
  let spec := boot_spec be sampleRate b rt in
  let c := {| ctx_sampleRate := sampleRate; maxBlockFrames := maxBlockFrames;
              inputTrimDb := true; inputTrimLin := true |} in
  let sock := match env_DSP_CONTROL_SOCK be with
              | Some sp => sp
              | None => socketPath st
              end in
  let booted (active : option (SignalChain F)) (last : ChainSpec) :=
    {| activeChain := active; pendingChain := pendingChain st;
       lastSpec := last; ctx := c; configPath := configPath st;
       socketPath := sock |} in
  match buildChain spec c (env_ALSA_NODE_TIMING be) rt with
  | (Ok built, rt) => (booted (Some (bc_chain built)) spec, rt)
  | (Err _, rt) =>
      let fb := fallback_spec sampleRate in
      match buildChain fb c (env_ALSA_NODE_TIMING be) rt with
      | (Ok fbBuilt, rt) => (booted (Some (bc_chain fbBuilt)) fb, rt)
      | (Err _, rt) => (booted (activeChain st) (lastSpec st), rt)
      end
  end.

End Boot.
End Boot.

(* ================================================================== *)
(** ** main_alsa.cpp: the swap ramps *)
(* ================================================================== *)
Module Ramp.
Import Convolver Nodes.

Section Ramp.
Context {F : Type} `{Float F}.

(** [applyFadeOut(buf, frames, ramp)]: the last [ramp] samples of the
    block go from full level to silence.  [frames] and [ramp] are
    [uint32_t]. *)
Definition applyFadeOut (buf : list F) (frames ramp : Z) : list F :=
  if (ramp =? 0) || (frames =? 0) then buf
  else
    let ramp := Z.min ramp frames in
    if ramp =? 1 then <[Z.to_nat (wrap_uint32 (frames - 1)) := f0]> buf
    else
      for_loop (Z.to_nat ramp)
        (fun i buf =>
           let t := fdiv (of_Z (Z.of_nat i)) (of_Z (wrap_uint32 (ramp - 1))) in
           let g := fsub f1 t in
           let j := Z.to_nat (wrap_uint32 (wrap_uint32 (frames - ramp)
                                           + Z.of_nat i)) in
           <[j := fmul (rd f0 buf j) g]> buf)
        buf.

(** [applyFadeIn(buf, frames, ramp)]: the first [ramp] samples go from
    silence to full level. *)
Definition applyFadeIn (buf : list F) (frames ramp : Z) : list F :=
  if (ramp =? 0) || (frames =? 0) then buf
  else
    let ramp := Z.min ramp frames in
    if ramp =? 1 then <[0%nat := f0]> buf
    else
      for_loop (Z.to_nat ramp)
        (fun i buf =>
           let t := fdiv (of_Z (Z.of_nat i)) (of_Z (wrap_uint32 (ramp - 1))) in
           <[i := fmul (rd f0 buf i) t]> buf)
        buf.

End Ramp.
End Ramp.

(* ================================================================== *)
(** ** Stand-ins for what lies outside the repository *)
(* ================================================================== *)
(** The engine calls libm, FFTW, the NAM loader and libsndfile.  The
    statements of Part II hold for whatever these do; to run the code on
    concrete inputs they are given here in a form that can be computed:
    the transforms by their defining sums in a library that is never
    short of memory, libm at the arguments where C fixes the result, and
    a machine without asset files. *)
Module Reference.
Import Convolver Nodes.

Section NaiveDFT.
Context {F : Type} `{FloatRing F}.
(** [tw n k] is the twiddle factor exp(-2 pi i k/n), as (re, im). *)
Variable tw : nat -> nat -> F * F.

Definition fsum (l : list F) : F := fold_left fadd l f0.

(** Bin [k] of the forward transform of [x]. *)
Definition dft_bin (n : nat) (x : list F) (k : nat) : F * F :=
  (fsum (imap (fun j xj => fmul xj (fst (tw n ((j * k) mod n)))) x),
   fsum (imap (fun j xj => fmul xj (snd (tw n ((j * k) mod n)))) x)).

Definition naive_r2c (n : nat) (x : list F) : list (F * F) :=
  map (dft_bin n x) (seq 0 (n / 2 + 1)).

(** Bin [k] of the Hermitian spectrum that the [n/2+1] stored bins stand
    for; the imaginary parts of bins 0 and n/2 are not read. *)
Definition hermitian (n : nat) (Y : list (F * F)) (k : nat) : F * F :=
  if (k =? 0)%nat || (2 * k =? n)%nat then (fst (rd c0 Y k), f0)
  else if (2 * k <? n)%nat then rd c0 Y k
  else let '(a, b) := rd c0 Y (n - k) in (a, fsub f0 b).

(** Sample [m] of the backward transform: the real part of
    sum_k Y[k] exp(+2 pi i k m/n), not divided by [n]. *)
Definition idft_sample (n : nat) (Y : list (F * F)) (m : nat) : F :=
  fsum (map (fun k =>
               let '(a, b) := hermitian n Y k in
               let '(c, s) := tw n ((k * m) mod n) in
               fadd (fmul a c) (fmul b s))
          (seq 0 n)).

Definition naive_c2r (n : nat) (Y : list (F * F)) : list F :=
  map (idft_sample n Y) (seq 0 n).

End NaiveDFT.

(** *** binary32 *)
Definition sf_one : spec_float := of_Z 1.
Definition sf_zero : spec_float := of_Z 0.

(** The twiddle factors that are exact in binary: the transforms of
    size 1, 2 and 4. *)
Definition tw_binary32 (n k : nat) : spec_float * spec_float :=
  match n, k with
  | 1%nat, _ => (sf_one, sf_zero)
  | 2%nat, 0%nat => (sf_one, sf_zero)
  | 2%nat, _ => (SFopp sf_one, sf_zero)
  | 4%nat, 0%nat => (sf_one, sf_zero)
  | 4%nat, 1%nat => (sf_zero, SFopp sf_one)
  | 4%nat, 2%nat => (SFopp sf_one, sf_zero)
  | 4%nat, _ => (sf_zero, sf_one)
  | _, _ => (S754_nan, S754_nan)
  end.

Definition fftw_binary32 : FFTW spec_float :=
  {| r2c := naive_r2c tw_binary32; c2r := naive_c2r tw_binary32;
     fftwf_malloc := fun _ _ => Some (fun _ => (sf_zero, sf_zero));
     fftwf_plan_dft_r2c_1d := fun _ => true;
     fftwf_plan_dft_c2r_1d := fun _ => true |}.

Definition is_zero (x : spec_float) : bool :=
  match x with S754_zero _ => true | _ => false end.

(** libm where ISO C (Annex F) fixes the result: pow(x, +-0) = 1,
    tanh(+-0) = +-0, cos(+-0) = 1.  Elsewhere this table has no entry. *)
Definition libm_annex_f : LibM spec_float :=
  {| powf := fun x y => if is_zero y then sf_one else S754_nan;
     tanhf := fun x => if is_zero x then x else S754_nan;
     cosf := fun x => if is_zero x then sf_one else S754_nan |}.

(** A machine on which no asset file can be opened and
    $ALSA_IR_MAX_SAMPLES is not set. *)
Definition no_assets : Externals spec_float :=
  {| get_dsp := fun _ => Err "No such file or directory";
     sf_open_read := fun _ => Err "System error.";
     env_ir_max_samples := None |}.

End Reference.

(* ================================================================== *)
(** * Part II: statements and proofs *)
(* ================================================================== *)

Local Open Scope list_scope.

(** ** Validation (signal_chain_schema.cpp) *)
Section SchemaProofs.
Import Schema.

(** The position of the first node of type [t], as the spec words it. *)
Fixpoint first_index (t : string) (nodes : list NodeSpec) : option nat :=
  match nodes with
  | [] => None
  | n :: rest =>
      if String.eqb (type n) t then Some 0%nat
      else option_map S (first_index t rest)
  end.

Lemma wrap_int32_small z : - 2 ^ 31 <= z < 2 ^ 31 -> wrap_int32 z = z.
Proof.
  intros Hz. unfold wrap_int32.
  rewrite Z.mod_small by lia. lia.
Qed.

Lemma hasType_first_index t nodes :
  hasType nodes t = true <-> is_Some (first_index t nodes).
Proof.
  induction nodes as [|n rest IH]; simpl.
  - split; [discriminate | intros [x Hx]; discriminate].
  - destruct (String.eqb (type n) t); [split; eauto|].
    rewrite IH. destruct (first_index t rest); simpl; split; eauto.
    all: intros [x Hx]; discriminate.
Qed.

Lemma first_index_lt t nodes k :
  first_index t nodes = Some k -> (k < length nodes)%nat.
Proof.
  revert k. induction nodes as [|n rest IH]; simpl; intros k Hk; [discriminate|].
  destruct (String.eqb (type n) t).
  - injection Hk as <-. lia.
  - destruct (first_index t rest) as [j|]; [|discriminate].
    injection Hk as <-. specialize (IH j eq_refl). lia.
Qed.

Lemma first_index_type t nodes k :
  first_index t nodes = Some k ->
  exists n, nodes !! k = Some n /\ type n = t.
Proof.
  revert k. induction nodes as [|n rest IH]; simpl; intros k Hk; [discriminate|].
  destruct (String.eqb (type n) t) eqn:E.
  - injection Hk as <-. exists n. split; [reflexivity|].
    by apply String.eqb_eq.
  - destruct (first_index t rest) as [j|]; [|discriminate].
    injection Hk as <-. exact (IH j eq_refl).
Qed.

(** What the index loop computes: an index found before stays, a missing
    one becomes the first position of the type at or after [i]. *)
Definition settle (idx : Z) (i : nat) (found : option nat) : Z :=
  if idx <? 0
  then match found with Some k => Z.of_nat (i + k) | None => idx end
  else idx.

Lemma findAmpCab_spec nodes : forall i a c,
  Z.of_nat (i + length nodes) <= 2 ^ 31 ->
  findAmpCab nodes i a c =
  (settle a i (first_index "nam_model" nodes),
   settle c i (first_index "ir_convolver" nodes)).
Proof.
  induction nodes as [|n rest IH]; intros i a c Hlen; simpl in *.
  - unfold settle. by destruct (a <? 0), (c <? 0).
  - assert (Hi : wrap_int32 (Z.of_nat i) = Z.of_nat i)
      by (apply wrap_int32_small; lia).
    rewrite IH by lia. rewrite Hi. unfold settle.
    f_equal.
    + destruct (String.eqb (type n) "nam_model"); simpl.
      * destruct (a <? 0) eqn:Ea; simpl; [|by rewrite Ea].
        replace (i + 0)%nat with i by lia.
        destruct (Z.of_nat i <? 0) eqn:Ei; [lia|done].
      * destruct (a <? 0); [|done].
        destruct (first_index "nam_model" rest); simpl; [|done].
        f_equal; lia.
    + destruct (String.eqb (type n) "ir_convolver"); simpl.
      * destruct (c <? 0) eqn:Ec; simpl; [|by rewrite Ec].
        replace (i + 0)%nat with i by lia.
        destruct (Z.of_nat i <? 0) eqn:Ei; [lia|done].
      * destruct (c <? 0); [|done].
        destruct (first_index "ir_convolver" rest); simpl; [|done].
        f_equal; lia.
Qed.

Lemma checkIds_None nodes : forall ids,
  checkIds nodes ids = None ->
  Forall (fun n => id n <> "" /\ type n <> "" /\ id n ∉ ids) nodes
  /\ NoDup (map id nodes).
Proof.
  induction nodes as [|n rest IH]; intros ids Hc; simpl in *.
  - split; constructor.
  - destruct (String.eqb (id n) "") eqn:E1; [discriminate|].
    destruct (bool_decide (id n ∈ ids)) eqn:E2; [discriminate|].
    destruct (String.eqb (type n) "") eqn:E3; [discriminate|].
    apply String.eqb_neq in E1, E3. apply bool_decide_eq_false in E2.
    destruct (IH _ Hc) as [Hall Hnd]. split.
    + constructor; [done|].
      eapply Forall_impl; [exact Hall|]. simpl.
      intros x (? & ? & Hx). repeat split; [done..|].
      intros Hin. apply Hx, elem_of_union. by right.
    + constructor; [|done].
      intros Hin. apply list_elem_of_fmap in Hin as (x & Hx & Hin).
      rewrite Forall_forall in Hall. destruct (Hall x Hin) as (_ & _ & Hni).
      apply Hni. rewrite <- Hx. apply elem_of_union. left.
      by apply elem_of_singleton.
Qed.

(** The invariants of a validated chain, in the words of the spec. *)
Definition chain_invariants (c : ChainSpec) : Prop :=
  version c = 1
  /\ (2 <= length (chain c))%nat
  /\ (exists n, head (chain c) = Some n /\ type n = "input")
  /\ (exists n, last (chain c) = Some n /\ type n = "output")
  /\ (exists amp cab,
        first_index "nam_model" (chain c) = Some amp
        /\ first_index "ir_convolver" (chain c) = Some cab
        /\ (amp < cab)%nat)
  /\ Forall (fun n => id n <> "") (chain c)
  /\ NoDup (map id (chain c)).

(** C2. Every chain [validateChainSpec] returns (rather than an error) is
    the chain it was given and has version 1, at least two nodes, an
    [input] first and an [output] last, a [nam_model] and an
    [ir_convolver] with the first [nam_model] strictly before the first
    [ir_convolver], and non-empty, pairwise distinct ids.  The length
    bound keeps every position within [int], the type of the two index
    variables. *)
Theorem validateChainSpec_invariants (spec v : ChainSpec)
  (err err' : ValidationError) :
  Z.of_nat (length (chain spec)) <= 2 ^ 31 ->
  validateChainSpec spec err = (Some v, err') ->
  v = spec /\ chain_invariants v.
Proof.
  intros Hlen Hv. unfold validateChainSpec, fail in Hv.
  destruct (version spec =? 1) eqn:Ever; simpl in Hv; [|discriminate].
  destruct (length (chain spec) <? 2)%nat eqn:Elen; [discriminate|].
  destruct (checkIds (chain spec) ∅) eqn:Eids; [discriminate|].
  destruct (String.eqb (front_type (chain spec)) "input") eqn:Ef;
    simpl in Hv; [|discriminate].
  destruct (String.eqb (back_type (chain spec)) "output") eqn:Eb;
    simpl in Hv; [|discriminate].
  destruct (hasType (chain spec) "nam_model") eqn:Ea; simpl in Hv;
    [|discriminate].
  destruct (hasType (chain spec) "ir_convolver") eqn:Ec; simpl in Hv;
    [|discriminate].
  rewrite findAmpCab_spec in Hv by (simpl; lia).
  apply hasType_first_index in Ea as [amp Hamp].
  apply hasType_first_index in Ec as [cab Hcab].
  rewrite Hamp, Hcab in Hv. unfold settle in Hv. simpl in Hv.
  destruct (_ || _) eqn:Eord in Hv; [discriminate|].
  injection Hv as <- _. split; [reflexivity|].
  apply Z.eqb_eq in Ever. apply Nat.ltb_ge in Elen.
  apply String.eqb_eq in Ef, Eb.
  apply checkIds_None in Eids as [Hall Hnd].
  repeat apply orb_false_elim in Eord as [Eord ?].
  repeat split; try done.
  - unfold front_type in Ef. destruct (chain spec) as [|n ?]; [done|].
    exists n. done.
  - unfold back_type in Eb. destruct (last (chain spec)) as [n|]; [|done].
    exists n. done.
  - exists amp, cab. repeat split; [done..|]. lia.
  - eapply Forall_impl; [exact Hall|]. simpl. tauto.
Qed.

Definition node (i t : string) : NodeSpec :=
  {| id := i; type := t; category := ""; enabled := true;
     params := JObject []; asset := None |}.

Definition four_nodes : ChainSpec :=
  {| version := 1; sampleRate := 48000;
     chain := [node "input" "input"; node "amp1" "nam_model";
               node "cab1" "ir_convolver"; node "output" "output"] |}.

Lemma validateChainSpec_invariants_witness :
  chain_invariants four_nodes.
Proof.
  refine (proj2 (validateChainSpec_invariants four_nodes four_nodes
                   {| message := "" |} {| message := "" |} _ _)).
  - simpl. lia.
  - reflexivity.
Defined.

(** *** The parse-and-validate pipeline *)

(** [parseChainJson] then [validateChainSpec], as every caller chains
    them. *)
Definition parse_and_validate (j : Json) : result ValidationError ChainSpec :=
  match parseChainJson j {| message := "" |} with
  | (None, e) => Err e
  | (Some parsed, e) =>
      match validateChainSpec parsed e with
      | (None, e) => Err e
      | (Some v, _) => Ok v
      end
  end.

Definition rejected (j : Json) : Prop := is_ok (parse_and_validate j) = false.

(** The conditions under which the pipeline refuses its input, stated on
    the JSON alone. *)
Definition has_string (k : string) (j : Json) : Prop :=
  exists s, get k j = Some (JString s).

Definition bad_node (jn : Json) : Prop :=
  is_object jn = false
  \/ ~ has_string "id" jn
  \/ ~ has_string "type" jn
  \/ (exists v, get "category" jn = Some v /\ is_string v = false)
  \/ (exists v, get "enabled" jn = Some v /\ is_boolean v = false)
  \/ (exists v, get "params" jn = Some v /\ is_object v = false)
  \/ (exists v, get "asset" jn = Some v /\ ~ has_string "path" v).

Fixpoint pos (t : string) (types : list string) : option nat :=
  match types with
  | [] => None
  | x :: rest =>
      if String.eqb x t then Some 0%nat else option_map S (pos t rest)
  end.

Definition invalid_chain (ids types : list string) : Prop :=
  (length ids < 2)%nat
  \/ In "" ids
  \/ ~ NoDup ids
  \/ In "" types
  \/ head types <> Some "input"
  \/ last types <> Some "output"
  \/ pos "nam_model" types = None
  \/ pos "ir_convolver" types = None
  \/ (exists a c, pos "nam_model" types = Some a
                  /\ pos "ir_convolver" types = Some c /\ (c <= a)%nat).

Definition json_id (jn : Json) : string := get_string (at_key "id" jn).
Definition json_type (jn : Json) : string := get_string (at_key "type" jn).

Definition canonical_shape (j : Json) : Prop :=
  contains "version" j = true
  /\ exists nodes, get "chain" j = Some (JArray nodes).

Definition canonical_reject (j : Json) : Prop :=
  (forall z, get "version" j = Some (JInt z) -> wrap_int32 z <> 1)
  \/ (exists v, get "sampleRate" j = Some v
                /\ forall z, v = JInt z -> wrap_int32 z <= 0)
  \/ Exists bad_node (items (at_key "chain" j))
  \/ invalid_chain (map json_id (items (at_key "chain" j)))
                   (map json_type (items (at_key "chain" j))).

Definition legacy_reject (j : Json) : Prop :=
  (exists a v, get "audio" j = Some a /\ get "inputTrimDb" a = Some v
               /\ is_number v = false)
  \/ (exists c v, get "chain" j = Some c /\ get "namModelPath" c = Some v
                  /\ is_string v = false)
  \/ (exists c v, get "chain" j = Some c /\ get "irPath" c = Some v
                  /\ is_string v = false).

Definition rejection_conditions (j : Json) : Prop :=
  is_object j = false
  \/ (canonical_shape j /\ canonical_reject j)
  \/ (is_object j = true /\ ~ canonical_shape j /\ legacy_reject j).

(** The conditions as the claim lists them; a missing version is one. *)
Definition claimed_conditions (j : Json) : Prop :=
  is_object j = false
  \/ (forall z, get "version" j = Some (JInt z) -> wrap_int32 z <> 1)
  \/ (forall nodes, get "chain" j <> Some (JArray nodes))
  \/ Exists bad_node (items (at_key "chain" j))
  \/ invalid_chain (map json_id (items (at_key "chain" j)))
                   (map json_type (items (at_key "chain" j))).

(** **** Accessors *)
Lemma contains_get k j : contains k j = true <-> is_Some (get k j).
Proof.
  unfold contains. destruct (get k j); split; eauto.
  - discriminate.
  - intros [x Hx]. discriminate.
Qed.

Lemma contains_false k j : contains k j = false <-> get k j = None.
Proof. unfold contains. destruct (get k j); split; congruence. Qed.

Lemma at_key_get k j v : get k j = Some v -> at_key k j = v.
Proof. unfold at_key. by intros ->. Qed.

Lemma has_string_dec k j :
  (has_string k j /\ contains k j = true /\ is_string (at_key k j) = true
   /\ get k j = Some (JString (get_string (at_key k j))))
  \/ (~ has_string k j
      /\ (contains k j = false \/ is_string (at_key k j) = false)).
Proof.
  unfold has_string, contains, at_key.
  destruct (get k j) as [v|] eqn:E.
  - destruct v; try (right; split; [intros [s Hs]; congruence | by right]).
    left. repeat split; eauto.
  - right. split; [intros [s Hs]; congruence | by left].
Qed.

(** **** One node *)
Lemma getString_Some k j err s e :
  getString j k err = (Some s, e) ->
  has_string k j /\ s = get_string (at_key k j) /\ e = err.
Proof.
  unfold getString. destruct (has_string_dec k j) as [(Hs & Hc & Hi & _)|(_ & [Hc|Hi])].
  - rewrite Hc, Hi. simpl. intros [= <- <-]. done.
  - rewrite Hc. simpl. discriminate.
  - destruct (contains k j); simpl; [rewrite Hi|]; discriminate.
Qed.

Lemma getString_None k j err e :
  getString j k err = (None, e) -> ~ has_string k j.
Proof.
  unfold getString. destruct (has_string_dec k j) as [(Hs & Hc & Hi & _)|(Hn & _)].
  - rewrite Hc, Hi. simpl. discriminate.
  - done.
Qed.

Lemma optional_field_dec k (test : Json -> bool) j :
  (contains k j && negb (test (at_key k j)) = true
   /\ exists v, get k j = Some v /\ test v = false)
  \/ (contains k j && negb (test (at_key k j)) = false
      /\ ~ exists v, get k j = Some v /\ test v = false).
Proof.
  unfold contains, at_key. destruct (get k j) as [v|]; simpl.
  - destruct (test v) eqn:E; simpl.
    + right. split; [done|]. intros (v' & [= <-] & Hv). congruence.
    + left. eauto.
  - right. split; [done|]. intros (v' & Hv & _). discriminate.
Qed.

Lemma parseNode_spec jn err :
  (bad_node jn /\ fst (parseNode jn err) = None)
  \/ (~ bad_node jn
      /\ exists n, parseNode jn err = (Some n, err)
                   /\ id n = json_id jn /\ type n = json_type jn).
Proof.
  unfold parseNode, fail.
  destruct (is_object jn) eqn:Eo; simpl; [|left; split; [by left|done]].
  destruct (getString jn "id" err) as [[i|] e1] eqn:E1.
  2:{ left. split; [|done]. right; left. by eapply getString_None. }
  apply getString_Some in E1 as (Hid & -> & ->).
  destruct (getString jn "type" err) as [[t|] e2] eqn:E2.
  2:{ left. split; [|done]. do 2 right; left. by eapply getString_None. }
  apply getString_Some in E2 as (Hty & -> & ->).
  destruct (optional_field_dec "category" is_string jn) as [[-> Hc]|[-> Hc]].
  { left. split; [|done]. do 3 right; by left. }
  destruct (optional_field_dec "enabled" is_boolean jn) as [[-> He]|[-> He]].
  { left. split; [|done]. do 4 right; by left. }
  destruct (optional_field_dec "params" is_object jn) as [[-> Hp]|[-> Hp]].
  { left. split; [|done]. do 5 right; by left. }
  assert (Hgood : forall (Ha : ~ exists v, get "asset" jn = Some v
                                           /\ ~ has_string "path" v),
             ~ bad_node jn).
  { intros Ha [?|[?|[?|[?|[?|[?|?]]]]]]; try done. congruence. }
  destruct (contains "asset" jn) eqn:Ea.
  - apply contains_get in Ea as [a Ha]. rewrite (at_key_get _ _ _ Ha).
    destruct (has_string_dec "path" a) as [(Hs & Hc' & Hi & _)|(Hn & Hor)].
    + assert (is_object a = true) as ->.
      { destruct Hs as [s Hs]. by destruct a. }
      rewrite Hc', Hi. simpl. right. split.
      * apply Hgood. intros (v & Hv & Hnv). congruence.
      * eexists. split; [reflexivity|].
        destruct (contains "params" jn), (contains "enabled" jn),
          (contains "category" jn); done.
    + left. split.
      * do 6 right. eauto.
      * destruct (is_object a); simpl; [|done].
        destruct Hor as [->| ->]; simpl; [done|].
        by rewrite orb_true_r.
  - right. apply contains_false in Ea. split.
    + apply Hgood. intros (v & Hv & _). congruence.
    + eexists. split; [reflexivity|].
      destruct (contains "params" jn), (contains "enabled" jn),
        (contains "category" jn); done.
Qed.

Lemma parseNodes_spec js : forall acc err,
  (Exists bad_node js /\ fst (parseNodes js acc err) = None)
  \/ (~ Exists bad_node js
      /\ exists ns, parseNodes js acc err = (Some (acc ++ ns), err)
                    /\ map id ns = map json_id js
                    /\ map type ns = map json_type js).
Proof.
  induction js as [|jn rest IH]; intros acc err; simpl.
  - right. split; [intros Hx; inversion Hx|].
    exists []. by rewrite app_nil_r.
  - destruct (parseNode_spec jn err) as [[Hb Hn]|[Hg (n & Hn & Hi & Ht)]].
    + left. split; [by apply Exists_cons_hd|].
      destruct (parseNode jn err) as [[?|] ?]; simpl in *; done.
    + rewrite Hn. destruct (IH (acc ++ [n]) err)
        as [[Hb Hr]|[Hr (ns & Hns & His & Hts)]].
      * left. split; [by apply Exists_cons_tl|done].
      * right. split.
        { rewrite Exists_cons. tauto. }
        exists (n :: ns). rewrite Hns, <- app_assoc. simpl.
        rewrite Hi, Ht, His, Hts. done.
Qed.

(** **** Validation *)
Lemma pos_first_index t nodes :
  pos t (map type nodes) = first_index t nodes.
Proof.
  induction nodes as [|n rest IH]; simpl; [done|].
  destruct (String.eqb (type n) t); [done|]. by rewrite IH.
Qed.

Lemma checkIds_complete nodes : forall ids,
  Forall (fun n => id n <> "" /\ type n <> "" /\ id n ∉ ids) nodes ->
  NoDup (map id nodes) ->
  checkIds nodes ids = None.
Proof.
  induction nodes as [|n rest IH]; intros ids Hall Hnd; simpl; [done|].
  apply Forall_cons in Hall as [(Hi & Ht & Hn) Hall].
  apply NoDup_cons in Hnd as [Hnin Hnd].
  apply String.eqb_neq in Hi, Ht. rewrite Hi, Ht.
  rewrite bool_decide_eq_false_2 by done.
  apply IH; [|done].
  rewrite Forall_forall in Hall |- *. intros x Hx.
  destruct (Hall x Hx) as (? & ? & Hxi). repeat split; [done..|].
  intros [Heq%elem_of_singleton|?]%elem_of_union; [|done].
  apply Hnin. rewrite <- Heq. apply list_elem_of_fmap. eauto.
Qed.

Lemma back_type_last nodes :
  last (map type nodes) = Some (back_type nodes) \/ nodes = [].
Proof.
  destruct nodes as [|n rest]; [by right|left].
  unfold back_type. change (map type (n :: rest)) with (type <$> n :: rest).
  rewrite fmap_last. destruct (last (n :: rest)) eqn:E; [done|].
  by apply last_None in E.
Qed.

(** What a returned chain satisfies, in the form the proofs below use:
    the chain is the argument, [err] is untouched, the invariants hold
    and no type is empty. *)
Lemma validated_chain (spec v : ChainSpec) (err err' : ValidationError) :
  Z.of_nat (length (chain spec)) <= 2 ^ 31 ->
  validateChainSpec spec err = (Some v, err') ->
  v = spec /\ err' = err /\ chain_invariants v
  /\ Forall (fun n => type n <> "") (chain v).
Proof.
  intros Hlen Hv. unfold validateChainSpec, fail in Hv.
  destruct (version spec =? 1) eqn:Ever; simpl in Hv; [|discriminate].
  destruct (length (chain spec) <? 2)%nat eqn:Elen; [discriminate|].
  destruct (checkIds (chain spec) ∅) eqn:Eids; [discriminate|].
  destruct (String.eqb (front_type (chain spec)) "input") eqn:Ef;
    simpl in Hv; [|discriminate].
  destruct (String.eqb (back_type (chain spec)) "output") eqn:Eb;
    simpl in Hv; [|discriminate].
  destruct (hasType (chain spec) "nam_model") eqn:Ea; simpl in Hv;
    [|discriminate].
  destruct (hasType (chain spec) "ir_convolver") eqn:Ec; simpl in Hv;
    [|discriminate].
  rewrite findAmpCab_spec in Hv by (simpl; lia).
  apply hasType_first_index in Ea as [amp Hamp].
  apply hasType_first_index in Ec as [cab Hcab].
  rewrite Hamp, Hcab in Hv. unfold settle in Hv. simpl in Hv.
  destruct (_ || _) eqn:Eord in Hv; [discriminate|].
  injection Hv as <- <-. split; [reflexivity|]. split; [reflexivity|].
  apply Z.eqb_eq in Ever. apply Nat.ltb_ge in Elen.
  apply String.eqb_eq in Ef, Eb.
  apply checkIds_None in Eids as [Hall Hnd].
  repeat apply orb_false_elim in Eord as [Eord ?].
  split.
  - repeat split; try done.
    + unfold front_type in Ef. destruct (chain spec) as [|n ?]; [done|].
      exists n. done.
    + unfold back_type in Eb. destruct (last (chain spec)) as [n|]; [|done].
      exists n. done.
    + exists amp, cab. repeat split; [done..|]. lia.
    + eapply Forall_impl; [exact Hall|]. simpl. tauto.
  - eapply Forall_impl; [exact Hall|]. simpl. tauto.
Qed.

Lemma validate_accepts spec err v e :
  Z.of_nat (length (chain spec)) <= 2 ^ 31 ->
  validateChainSpec spec err = (Some v, e) ->
  version spec = 1
  /\ ~ invalid_chain (map id (chain spec)) (map type (chain spec)).
Proof.
  intros Hlen Hv. pose proof Hv as Hv'.
  apply validated_chain in Hv' as
    (-> & _ & (Hver & Hl & (h & Hh & Hht) & (l & Hl' & Hlt)
               & (a & c & Ha & Hc & Hac) & Hids & Hnd) & _); [|done].
  split; [done|].
  unfold validateChainSpec, fail in Hv.
  destruct (negb _); [discriminate|].
  destruct (_ <? _)%nat; [discriminate|].
  destruct (checkIds (chain spec) ∅) eqn:Eids; [discriminate|].
  apply checkIds_None in Eids as [Hall _]. rewrite Forall_forall in Hall.
  unfold invalid_chain. rewrite !pos_first_index, Ha, Hc.
  intros [H|[H|[H|[H|[H|[H|[H|[H|H]]]]]]]]; try done.
  - rewrite length_map in H. lia.
  - apply in_map_iff in H as (n & Hn & Hin).
    rewrite Forall_forall in Hids. apply (Hids n); [|done].
    by apply list_elem_of_In.
  - apply in_map_iff in H as (n & Hn & Hin).
    apply list_elem_of_In in Hin. destruct (Hall n Hin) as (_ & Ht & _). done.
  - apply H. destruct (chain spec); simpl in *; congruence.
  - apply H. destruct (back_type_last (chain spec)) as [->|E].
    + unfold back_type. rewrite Hl'. by rewrite Hlt.
    + rewrite E in Hl. simpl in Hl. lia.
  - destruct H as (a' & c' & [= <-] & [= <-] & Hle). lia.
Qed.

Lemma checkIds_Some nodes msg : forall ids,
  checkIds nodes ids = Some msg ->
  In "" (map id nodes) \/ In "" (map type nodes)
  \/ ~ (NoDup (map id nodes)
        /\ Forall (fun n => id n ∉ ids) nodes).
Proof.
  induction nodes as [|n rest IH]; intros ids Hc; simpl in *; [discriminate|].
  destruct (String.eqb (id n) "") eqn:E1.
  { apply String.eqb_eq in E1. left. by left. }
  destruct (bool_decide (id n ∈ ids)) eqn:E2.
  { apply bool_decide_eq_true in E2. do 2 right.
    intros [_ Hall]. apply Forall_cons in Hall as [? _]. done. }
  destruct (String.eqb (type n) "") eqn:E3.
  { apply String.eqb_eq in E3. right. left. by left. }
  destruct (IH _ Hc) as [?|[?|Hn]]; [left; by right|right; left; by right|].
  do 2 right. intros [Hnd Hall]. apply Hn.
  apply NoDup_cons in Hnd as [Hnin Hnd].
  apply Forall_cons in Hall as [_ Hall]. split; [done|].
  rewrite Forall_forall in Hall |- *. intros x Hx.
  intros [Heq%elem_of_singleton|?]%elem_of_union; [|by apply (Hall x)].
  apply Hnin. rewrite <- Heq. apply list_elem_of_fmap. eauto.
Qed.

Lemma validate_rejects spec err e :
  Z.of_nat (length (chain spec)) <= 2 ^ 31 ->
  validateChainSpec spec err = (None, e) ->
  version spec <> 1
  \/ invalid_chain (map id (chain spec)) (map type (chain spec)).
Proof.
  intros Hlen. unfold validateChainSpec, fail.
  destruct (version spec =? 1) eqn:Ever; simpl.
  2:{ intros _. left. by apply Z.eqb_neq. }
  intros Hv. right. unfold invalid_chain.
  destruct (length (chain spec) <? 2)%nat eqn:Elen.
  { left. rewrite length_map. by apply Nat.ltb_lt. }
  destruct (checkIds (chain spec) ∅) eqn:Eids.
  { apply checkIds_Some in Eids as [?|[?|Hn]]; [tauto..|].
    do 2 right; left. intros Hnd. apply Hn. split; [done|].
    apply Forall_forall. intros x _. apply not_elem_of_empty. }
  destruct (String.eqb (front_type (chain spec)) "input") eqn:Ef; simpl in Hv.
  2:{ do 4 right; left. apply String.eqb_neq in Ef.
      unfold front_type in Ef. destruct (chain spec); simpl; congruence. }
  destruct (String.eqb (back_type (chain spec)) "output") eqn:Eb; simpl in Hv.
  2:{ do 5 right; left. apply String.eqb_neq in Eb.
      destruct (back_type_last (chain spec)) as [->|E]; [congruence|].
      by rewrite E. }
  rewrite !pos_first_index.
  destruct (hasType (chain spec) "nam_model") eqn:Ea; simpl in Hv.
  2:{ do 6 right; left.
      destruct (first_index "nam_model" (chain spec)) eqn:E; [|done].
      assert (hasType (chain spec) "nam_model" = true); [|congruence].
      apply hasType_first_index. eauto. }
  destruct (hasType (chain spec) "ir_convolver") eqn:Ec; simpl in Hv.
  2:{ do 7 right; left.
      destruct (first_index "ir_convolver" (chain spec)) eqn:E; [|done].
      assert (hasType (chain spec) "ir_convolver" = true); [|congruence].
      apply hasType_first_index. eauto. }
  do 8 right.
  rewrite findAmpCab_spec in Hv by (simpl; lia).
  apply hasType_first_index in Ea as [amp Hamp].
  apply hasType_first_index in Ec as [cab Hcab].
  rewrite Hamp, Hcab in Hv. unfold settle in Hv. simpl in Hv.
  exists amp, cab. repeat split; [done..|].
  destruct (_ || _) eqn:Eord in Hv; [|discriminate].
  apply orb_true_iff in Eord as [Eord|Eord]; [|lia].
  apply orb_true_iff in Eord as [Eord|Eord]; lia.
Qed.

(** **** The legacy shape *)
Lemma legacy_field_dec (o k : string) (test : Json -> bool) (j : Json) :
  let sub := at_key o j in
  let has := contains o j && is_object sub in
  (has && contains k sub && negb (test (at_key k sub)) = true
   /\ exists c v, get o j = Some c /\ get k c = Some v /\ test v = false)
  \/ (has && contains k sub && negb (test (at_key k sub)) = false
      /\ ~ exists c v, get o j = Some c /\ get k c = Some v /\ test v = false).
Proof.
  simpl. unfold contains, at_key.
  destruct (get o j) as [c|] eqn:Eo; simpl.
  2:{ right. split; [done|]. intros (c & v & [=] & _). }
  destruct (is_object c) eqn:Ec; simpl.
  2:{ right. split; [done|]. intros (c' & v & [= <-] & Hv & _).
      destruct c; simpl in *; congruence. }
  destruct (get k c) as [v|] eqn:Ek; simpl.
  2:{ right. split; [done|]. intros (c' & v & [= <-] & Hv & _). congruence. }
  destruct (test v) eqn:Et; simpl.
  - right. split; [done|]. intros (c' & v' & [= <-] & Hv & Ht). congruence.
  - left. split; [done|]. eauto.
Qed.

Lemma parseLegacy_spec j err :
  (legacy_reject j /\ fst (parseLegacy j err) = None)
  \/ (~ legacy_reject j
      /\ exists v, parseLegacy j err = (Some v, err)
                   /\ validateChainSpec v err = (Some v, err)).
Proof.
  unfold parseLegacy, fail.
  destruct (legacy_field_dec "audio" "inputTrimDb" is_number j)
    as [[E1 H1]|[E1 H1]]; simpl in E1; rewrite E1.
  { left. split; [by left|done]. }
  destruct (legacy_field_dec "chain" "namModelPath" is_string j)
    as [[E2 H2]|[E2 H2]]; simpl in E2; rewrite E2.
  { left. split; [right; by left|done]. }
  destruct (legacy_field_dec "chain" "irPath" is_string j)
    as [[E3 H3]|[E3 H3]]; simpl in E3; rewrite E3.
  { left. split; [right; by right|done]. }
  right. split; [intros [?|[?|?]]; done|].
  eexists. split; [reflexivity|].
  destruct (_ && contains "inputTrimDb" _),
    (_ && contains "namModelPath" _), (_ && contains "irPath" _);
    reflexivity.
Qed.

(** **** The canonical shape *)
Lemma canonical_shape_dec j :
  (canonical_shape j
   /\ contains "version" j && contains "chain" j
      && is_array (at_key "chain" j) = true)
  \/ (~ canonical_shape j
      /\ contains "version" j && contains "chain" j
         && is_array (at_key "chain" j) = false).
Proof.
  unfold canonical_shape, contains, at_key.
  destruct (get "version" j); simpl.
  2:{ right. split; [|done]. intros [? _]. done. }
  destruct (get "chain" j) as [c|]; simpl.
  2:{ right. split; [|done]. intros [_ [n ?]]. done. }
  destruct c; simpl; try (right; split; [intros [_ [n ?]]; done|done]).
  left. split; [|done]. eauto.
Qed.

Lemma parseCanonicalV1_spec j err :
  canonical_shape j ->
  Z.of_nat (length (items (at_key "chain" j))) <= 2 ^ 31 ->
  match parseCanonicalV1 j err with
  | (None, _) => canonical_reject j
  | (Some p, e) =>
      match validateChainSpec p e with
      | (None, _) => canonical_reject j
      | (Some _, _) => ~ canonical_reject j
      end
  end.
Proof.
  intros [Hver [nodes Hch]] Hlen. unfold parseCanonicalV1, fail.
  rewrite Hver. simpl. unfold canonical_reject.
  apply contains_get in Hver as [ver Hver].
  rewrite (at_key_get _ _ _ Hver), (at_key_get _ _ _ Hch) in *.
  assert (Hc : contains "chain" j = true) by (apply contains_get; eauto).
  rewrite Hc, Hver. simpl in *.
  destruct (is_number_integer ver) eqn:Ei; simpl.
  2:{ left. intros z [= ->]. done. }
  destruct ver as [| | z | | | |]; try discriminate. simpl.
  destruct (wrap_int32 z =? 1) eqn:Ev; simpl.
  2:{ left. intros z' [= <-]. by apply Z.eqb_neq. }
  apply Z.eqb_eq in Ev.
  (* the part after the sample rate *)
  assert (Hrest : forall sr,
    match
      match parseNodes nodes [] err with
      | (None, err0) => (None, err0)
      | (Some ns, err0) =>
          (Some {| version := wrap_int32 z; sampleRate := sr; chain := ns |},
           err0)
      end
    with
    | (None, _) =>
        Exists bad_node nodes
        \/ invalid_chain (map json_id nodes) (map json_type nodes)
    | (Some p, e) =>
        match validateChainSpec p e with
        | (None, _) =>
            Exists bad_node nodes
            \/ invalid_chain (map json_id nodes) (map json_type nodes)
        | (Some _, _) =>
            ~ Exists bad_node nodes
            /\ ~ invalid_chain (map json_id nodes) (map json_type nodes)
        end
    end).
  { intros sr.
    destruct (parseNodes_spec nodes [] err)
      as [[Hb Hn]|[Hg (ns & -> & His & Hts)]].
    - destruct (parseNodes nodes [] err) as [[?|] ?]; simpl in *; [done|].
      by left.
    - simpl.
      assert (Hl : Z.of_nat (length ns) <= 2 ^ 31).
      { rewrite <- (length_map id), His, length_map. done. }
      destruct (validateChainSpec _ err) as [[v|] e] eqn:Ev'.
      + apply validate_accepts in Ev' as [_ Hv]; [|done]. simpl in Hv.
        rewrite His, Hts in Hv. done.
      + apply validate_rejects in Ev'; [|done].
        destruct Ev' as [Hv|Hv]; simpl in Hv.
        * congruence.
        * rewrite His, Hts in Hv. by right. }
  assert (Hno : ~ (forall z0, Some (JInt z) = Some (JInt z0) -> wrap_int32 z0 <> 1)).
  { intros Hx. by apply (Hx z). }
  destruct (contains "sampleRate" j) eqn:Es.
  - apply contains_get in Es as [sr Hsr]. rewrite (at_key_get _ _ _ Hsr).
    destruct (is_number_integer sr) eqn:Esi; simpl.
    2:{ right; left. exists sr. split; [done|]. intros z0 ->. done. }
    destruct sr as [| | s | | | |]; try discriminate. simpl.
    destruct (wrap_int32 s <=? 0) eqn:Esr.
    { right; left. exists (JInt s). split; [done|]. intros z0 [= <-]. lia. }
    specialize (Hrest (wrap_uint32 (wrap_int32 s))).
    destruct (match parseNodes nodes [] err with (None, _) => _ | _ => _ end)
      as [[p|] e].
    + destruct (validateChainSpec p e) as [[?|] ?].
      * destruct Hrest as [Hr1 Hr2].
        intros [?|[(v0 & Hv & Hz)|[?|?]]]; try done.
        rewrite Hsr in Hv. injection Hv as <-.
        specialize (Hz s eq_refl). lia.
      * tauto.
    + tauto.
  - apply contains_false in Es.
    specialize (Hrest (sampleRate ChainSpec_default)).
    destruct (match parseNodes nodes [] err with (None, _) => _ | _ => _ end)
      as [[p|] e].
    + destruct (validateChainSpec p e) as [[?|] ?].
      * destruct Hrest as [Hr1 Hr2].
        intros [?|[(v0 & Hv & Hz)|[?|?]]]; try done. congruence.
      * tauto.
    + tauto.
Qed.

(** The claim as it is worded does not hold: the empty object has no
    version, and the pipeline takes it for a legacy description and
    returns the four-node chain. *)
Lemma missing_version_is_accepted :
  claimed_conditions (JObject []) /\ ~ rejected (JObject []).
Proof.
  split.
  - right; left. intros z Hz. discriminate.
  - unfold rejected. vm_compute. discriminate.
Qed.

(** C8 (amended). The pipeline refuses its input exactly when: the top
    level is not an object; or the object has the canonical shape (a
    [version] key and an array under [chain]) and its version is not the
    integer 1 (as an [int]), or [sampleRate] is there and is not a
    positive integer, or a node is malformed (not an object, [id] or
    [type] missing or not a string, an optional field of the wrong type),
    or the node list breaks an invariant (fewer than two nodes, an empty
    or repeated id, an empty type, first not [input], last not [output],
    no [nam_model], no [ir_convolver], or the first [ir_convolver] not
    after the first [nam_model]); or the object has any other shape, is
    read as a legacy description, and one of its legacy fields has the
    wrong type.  An object without [version] is of the last kind.  The
    bound on the number of nodes keeps every position within [int]. *)
Theorem parse_and_validate_rejects_iff (j : Json) :
  Z.of_nat (length (items (at_key "chain" j))) <= 2 ^ 31 ->
  rejected j <-> rejection_conditions j.
Proof.
  intros Hlen. unfold rejected, parse_and_validate, parseChainJson, fail.
  unfold rejection_conditions.
  destruct (is_object j) eqn:Eo; simpl; [|split; [by left|done]].
  destruct (canonical_shape_dec j) as [[Hc ->]|[Hc ->]].
  - pose proof (parseCanonicalV1_spec j {| message := "" |} Hc Hlen) as Hs.
    destruct (parseCanonicalV1 j _) as [[p|] e].
    + destruct (validateChainSpec p e) as [[v|] e']; simpl.
      * split; [done|]. intros [?|[[_ ?]|(_ & ? & _)]]; done.
      * split; [|done]. intros _. right; left. done.
    + simpl. split; [|done]. intros _. right; left. done.
  - destruct (parseLegacy_spec j {| message := "" |})
      as [[Hl Hn]|[Hl (v & -> & ->)]].
    + destruct (parseLegacy j _) as [[?|] ?]; simpl in *; [done|].
      split; [|done]. intros _. do 2 right. done.
    + simpl. split; [done|]. intros [?|[[? _]|(_ & _ & ?)]]; done.
Qed.

Lemma parse_and_validate_rejects_iff_witness :
  rejected (JObject [("version", JInt 2); ("chain", JArray [])])
  <-> rejection_conditions (JObject [("version", JInt 2); ("chain", JArray [])]).
Proof.
  apply parse_and_validate_rejects_iff. simpl. lia.
Defined.

End SchemaProofs.

(** ** Counted loops and buffers *)
Section LoopFacts.
Context {S : Type}.

Lemma for_range_empty lo hi (body : nat -> S -> S) s :
  (hi <= lo)%nat -> for_range lo hi body s = s.
Proof.
  intros Hle. unfold for_range.
  replace (hi - lo)%nat with 0%nat by lia. reflexivity.
Qed.

Lemma for_range_S lo hi (body : nat -> S -> S) s :
  (lo <= hi)%nat ->
  for_range lo (Datatypes.S hi) body s = body hi (for_range lo hi body s).
Proof.
  intros Hle. unfold for_range.
  replace (Datatypes.S hi - lo)%nat with (Datatypes.S (hi - lo)) by lia.
  rewrite seq_S, fold_left_app. simpl.
  replace (lo + (hi - lo))%nat with hi by lia. reflexivity.
Qed.

Lemma for_range_ext lo hi (body body' : nat -> S -> S) s :
  (forall i s, (lo <= i < hi)%nat -> body i s = body' i s) ->
  for_range lo hi body s = for_range lo hi body' s.
Proof.
  intros Hext. destruct (Nat.le_gt_cases hi lo) as [Hle|Hlt].
  - by rewrite !for_range_empty.
  - induction hi as [|hi IH]; [lia|].
    destruct (decide (lo = hi)) as [->|Hne].
    + rewrite !for_range_S by lia. rewrite !for_range_empty by lia.
      apply Hext. lia.
    + rewrite !for_range_S by lia. rewrite IH; [apply Hext; lia| |lia].
      intros i s' Hi. apply Hext. lia.
Qed.

(** A loop invariant: what holds of the state before the loop and is kept
    by every turn holds after it. *)
Lemma for_range_ind (P : nat -> S -> Prop) lo hi (body : nat -> S -> S) s :
  (lo <= hi)%nat ->
  P lo s ->
  (forall i s, (lo <= i < hi)%nat -> P i s -> P (Datatypes.S i) (body i s)) ->
  P hi (for_range lo hi body s).
Proof.
  intros Hle H0 Hstep. induction hi as [|hi IH].
  - assert (lo = 0)%nat as -> by lia. by rewrite for_range_empty.
  - destruct (decide (lo = Datatypes.S hi)) as [->|Hne].
    + by rewrite for_range_empty.
    + rewrite for_range_S by lia. apply Hstep; [lia|].
      apply IH; [lia|]. intros i s' Hi. apply Hstep. lia.
Qed.

End LoopFacts.

Section BufferFacts.
Context {A : Type}.
Implicit Types (buf dst src : list A).

(** A loop that stores [g i] at every index writes exactly the range. *)
Lemma write_loop_lookup (g : nat -> A) lo hi buf j :
  (lo <= hi)%nat ->
  for_range lo hi (fun i o => <[i := g i]> o) buf !! j =
  if decide ((lo <= j < hi)%nat /\ (j < length buf)%nat)
  then Some (g j) else buf !! j.
Proof.
  intros Hle.
  apply (proj2 (A := length (for_range lo hi (fun i o => <[i := g i]> o) buf)
                     = length buf)).
  pose (P := fun (h : nat) (o : list A) =>
    length o = length buf /\
    o !! j = if decide ((lo <= j < h)%nat /\ (j < length buf)%nat)
             then Some (g j) else buf !! j).
  apply (for_range_ind P); unfold P; [done| |].
  - split; [done|]. by rewrite decide_False by lia.
  - intros i o Hi [Hlen Hj]. split; [by rewrite length_insert|].
    destruct (decide (i = j)) as [->|Hne].
    + destruct (decide (j < length buf)%nat).
      * rewrite list_lookup_insert_eq by lia. by rewrite decide_True by lia.
      * rewrite list_insert_ge by lia. rewrite Hj.
        by rewrite !decide_False by lia.
    + rewrite list_lookup_insert_ne by done. rewrite Hj.
      destruct (decide ((lo <= j < i)%nat /\ (j < length buf)%nat)).
      * by rewrite decide_True by lia.
      * by rewrite decide_False by lia.
Qed.

Lemma write_loop_length (g : nat -> A) lo hi buf :
  length (for_range lo hi (fun i o => <[i := g i]> o) buf) = length buf.
Proof.
  destruct (Nat.le_gt_cases lo hi) as [Hle|Hlt].
  - apply (for_range_ind (fun _ o => length o = length buf)); [done..|].
    intros i o _ Hlen. by rewrite length_insert.
  - by rewrite for_range_empty by lia.
Qed.

Lemma memcpy_length dst src n :
  (n <= length src)%nat -> (n <= length dst)%nat ->
  length (memcpy dst src n) = length dst.
Proof.
  intros Hs Hd. unfold memcpy.
  rewrite length_app, length_take, length_drop. lia.
Qed.

Lemma memcpy_lookup dst src n j :
  (n <= length src)%nat ->
  memcpy dst src n !! j = if decide (j < n)%nat then src !! j else dst !! j.
Proof.
  intros Hs. unfold memcpy. case_decide.
  - rewrite lookup_app_l by (rewrite length_take; lia).
    by rewrite lookup_take_lt.
  - rewrite lookup_app_r by (rewrite length_take; lia).
    rewrite length_take, lookup_drop. f_equal. lia.
Qed.

Lemma memcpy_at_lookup dst src off n j :
  (off + n <= length src)%nat -> (off <= length dst)%nat ->
  memcpy_at dst src off n !! j =
  if decide (off <= j < off + n)%nat then src !! j else dst !! j.
Proof.
  intros Hs Hd. unfold memcpy_at.
  destruct (decide (j < off)%nat).
  - rewrite lookup_app_l by (rewrite length_take; lia).
    rewrite lookup_take_lt by lia. case_decide; [lia|done].
  - rewrite lookup_app_r by (rewrite length_take; lia).
    rewrite length_take, Nat.min_l by lia.
    destruct (decide (j < off + n)%nat).
    + rewrite lookup_app_l by (rewrite length_take, length_drop; lia).
      rewrite lookup_take_lt by lia. rewrite lookup_drop.
      case_decide; [f_equal; lia|lia].
    + rewrite lookup_app_r by (rewrite length_take, length_drop; lia).
      rewrite length_take, length_drop, Nat.min_l by lia.
      rewrite lookup_drop. case_decide; [lia|f_equal; lia].
Qed.

Lemma memcpy_at_length dst src off n :
  (off + n <= length src)%nat -> (off + n <= length dst)%nat ->
  length (memcpy_at dst src off n) = length dst.
Proof.
  intros Hs Hd. unfold memcpy_at.
  rewrite !length_app, !length_take, !length_drop. lia.
Qed.

Lemma rd_lookup (d : A) buf i x : buf !! i = Some x -> rd d buf i = x.
Proof. unfold rd. by intros ->. Qed.

Lemma lookup_rd (d : A) buf i :
  (i < length buf)%nat -> buf !! i = Some (rd d buf i).
Proof.
  intros Hi. unfold rd. destruct (buf !! i) eqn:E; [done|].
  apply lookup_ge_None in E. lia.
Qed.

Lemma rd_take (d : A) buf n i : (i < n)%nat -> rd d (take n buf) i = rd d buf i.
Proof. intros Hi. unfold rd. by rewrite lookup_take_lt. Qed.

End BufferFacts.

Section ClosedForms.
Context {A : Type}.
Implicit Types (buf dst src : list A).

(** A store loop over a range within the buffer, in closed form. *)
Lemma write_range_closed (g : nat -> A) lo hi buf :
  (lo <= hi)%nat -> (hi <= length buf)%nat ->
  for_range lo hi (fun i o => <[i := g i]> o) buf =
  take lo buf ++ map g (seq lo (hi - lo)) ++ drop hi buf.
Proof.
  intros Hle Hlen. apply list_eq. intros j.
  rewrite write_loop_lookup by done.
  destruct (decide (j < lo)%nat).
  - rewrite decide_False by lia.
    rewrite lookup_app_l by (rewrite length_take; lia).
    by rewrite lookup_take_lt.
  - rewrite lookup_app_r by (rewrite length_take; lia).
    rewrite length_take, Nat.min_l by lia.
    destruct (decide (j < hi)%nat).
    + rewrite decide_True by lia.
      rewrite lookup_app_l by (rewrite length_map, length_seq; lia).
      change (map g ?l) with (g <$> l). rewrite list_lookup_fmap.
      rewrite lookup_seq_lt by lia. simpl. do 2 f_equal. lia.
    + rewrite decide_False by lia.
      rewrite lookup_app_r by (rewrite length_map, length_seq; lia).
      rewrite length_map, length_seq, lookup_drop. f_equal. lia.
Qed.

Lemma write_loop_closed (g : nat -> A) n buf :
  (n <= length buf)%nat ->
  for_loop n (fun i o => <[i := g i]> o) buf = map g (seq 0 n) ++ drop n buf.
Proof.
  intros Hlen. unfold for_loop. rewrite write_range_closed by lia.
  rewrite take_0, Nat.sub_0_r. reflexivity.
Qed.

Lemma memcpy_take dst src n :
  (n <= length src)%nat -> take n (memcpy dst src n) = take n src.
Proof.
  intros Hs. unfold memcpy.
  rewrite take_app_le by (rewrite length_take; lia).
  by rewrite take_take, Nat.min_id.
Qed.

Lemma memcpy_drop dst src n :
  (n <= length src)%nat -> drop n (memcpy dst src n) = drop n dst.
Proof.
  intros Hs. unfold memcpy.
  rewrite drop_app_ge by (rewrite length_take; lia).
  rewrite length_take, Nat.min_l by lia. by rewrite Nat.sub_diag.
Qed.

Lemma closed_take (l : list A) n buf :
  length l = n -> take n (l ++ drop n buf) = l.
Proof. intros <-. by rewrite take_app_length. Qed.

Lemma closed_drop (l : list A) n buf :
  length l = n -> drop n (l ++ drop n buf) = drop n buf.
Proof. intros <-. by rewrite drop_app_length. Qed.

End ClosedForms.

(** ** Nodes (signal_chain_nodes.cpp) *)
Section NodeProofs.
Import Schema Convolver Nodes.
Context {F : Type} `{Float F} `{LibM F} `{FFTW F} `{!Externals F}.
Implicit Types (inb outb dst : list F) (sp : NodeStandardParams F).

(** The sample a gain-only node stores at [i]. *)
Definition mixed (sp : NodeStandardParams F) (wet : F -> F) (inb : list F)
  (i : nat) : F :=
  let x := rd f0 inb i in
  fadd (fmul x (mixDry sp)) (fmul (wet x) (mixWet sp)).

Lemma mix_loop_closed sp wet inb outb n :
  (n <= length outb)%nat ->
  mix_loop sp wet inb outb n = map (mixed sp wet inb) (seq 0 n) ++ drop n outb.
Proof. intros Hn. unfold mix_loop. by rewrite write_loop_closed. Qed.

(** *** The overdrive loop *)

(** The shaper: beyond +-1 the value is the bound itself, inside it is
    the cubic. *)
Definition shape (x : F) : F :=
  if flt f1 x then f1
  else if flt x (fneg f1) then fneg f1
  else fsub x (fmul (fmul (fmul (fconst 3333333 10000000) x) x) x).

(** The shaper as the claim words it: clamp to +-1, then the cubic. *)
Definition clamp_then_shape (x : F) : F :=
  let c := clampf x (fneg f1) f1 in
  fsub c (fmul (fmul (fmul (fconst 3333333 10000000) c) c) c).

(** The state of the one-pole filter after [k] samples, for a shaper
    [sh]. *)
Fixpoint lowpass (sh : F -> F) (pre a z0 : F) (inb : list F) (k : nat) : F :=
  match k with
  | O => z0
  | Datatypes.S k' =>
      let z := lowpass sh pre a z0 inb k' in
      fadd z (fmul a (fsub (sh (fmul (rd f0 inb k') pre)) z))
  end.

(** Output sample [i] of the overdrive: the crossfade of the filtered and
    the shaped signal, times the post gain, mixed with the dry input. *)
Definition overdrive_sample (sh : F -> F) (pre a tone post dry wetG z0 : F)
  (inb : list F) (i : nat) : F :=
  let x := rd f0 inb i in
  let y := sh (fmul x pre) in
  let z := lowpass sh pre a z0 inb (Datatypes.S i) in
  let wet := fmul (fadd (fmul z (fsub f1 tone)) (fmul y tone)) post in
  fadd (fmul x dry) (fmul wet wetG).

Definition od_sample (nd : OverdriveNode F) (inb : list F) (i : nat) : F :=
  let x := rd f0 inb i in
  let y := softclipFast (fmul x (pre_ nd)) in
  let z := lowpass softclipFast (pre_ nd) (a_ nd) (z1_ nd) inb (Datatypes.S i) in
  let wet :=
    fmul (fadd (fmul z (toneInv_ nd)) (fmul y (tone_ nd))) (od_postLin nd) in
  fadd (fmul x (mixDry (od_std nd))) (fmul wet (mixWet (od_std nd))).

Lemma overdrive_loop nd inb outb n :
  (n <= length outb)%nat ->
  for_loop n (overdrive_step nd inb) (z1_ nd, outb) =
  (lowpass softclipFast (pre_ nd) (a_ nd) (z1_ nd) inb n,
   map (od_sample nd inb) (seq 0 n) ++ drop n outb).
Proof.
  intros Hn. unfold for_loop.
  pose (P := fun (k : nat) (s : F * list F) =>
    (k <= n)%nat ->
    s = (lowpass softclipFast (pre_ nd) (a_ nd) (z1_ nd) inb k,
         map (od_sample nd inb) (seq 0 k) ++ drop k outb)).
  enough (Hp : P n (for_range 0 n (overdrive_step nd inb) (z1_ nd, outb)))
    by (apply Hp; lia).
  apply (for_range_ind P 0 n); unfold P; [lia| |].
  - intros _. by rewrite drop_0.
  - intros i s Hi IH Hle. rewrite IH by lia. unfold overdrive_step.
    f_equal. rewrite seq_S, map_app. simpl.
    rewrite <- app_assoc. simpl.
    rewrite insert_app_r_alt by (rewrite length_map, length_seq; lia).
    rewrite length_map, length_seq, Nat.sub_diag.
    rewrite (drop_S outb (rd f0 outb i) i) by (apply lookup_rd; lia).
    reflexivity.
Qed.

Lemma OverdriveNode_process_closed nd inb outb n :
  sp_enabled (od_std nd) = true -> (n <= length outb)%nat ->
  OverdriveNode_process nd inb outb n =
  (set_z1 nd (lowpass softclipFast (pre_ nd) (a_ nd) (z1_ nd) inb n),
   map (od_sample nd inb) (seq 0 n) ++ drop n outb).
Proof.
  intros Hen Hn. unfold OverdriveNode_process. rewrite Hen. simpl.
  by rewrite overdrive_loop.
Qed.

Lemma closed_lookup (g : nat -> F) n outb k :
  (k < n)%nat -> (map g (seq 0 n) ++ drop n outb) !! k = Some (g k).
Proof.
  intros Hk. rewrite lookup_app_l by (rewrite length_map, length_seq; lia).
  change (map g ?l) with (g <$> l). rewrite list_lookup_fmap.
  by rewrite lookup_seq_lt.
Qed.

(** C6 (amended). An enabled overdrive node, as its constructor builds it
    from [drive] and [tone] (each clamped to [0,1]), computes sample [k]
    from [x = in[k] * pre] with [pre = 1 + drive*20]; the shaper returns
    the bound +-1 itself when x is beyond +-1 and [x - 0.3333333 x^3]
    otherwise; the one-pole low-pass with [a = 0.02 + (1-tone)*0.2] runs
    on the shaped signal from state 0; the wet signal is
    [(z*(1-tone) + y*tone)] times the post gain of the node, and the
    output is [in[k]*dry + wet*mix].  Nothing past [n] is written, and the
    filter state is kept for the next block. *)
Theorem OverdriveNode_process_samples (i : string) (sp : NodeStandardParams F)
  (drive tone outDb : F) (inb outb : list F) (n : nat) :
  sp_enabled sp = true ->
  (n <= length inb)%nat -> (n <= length outb)%nat ->
  let d := clampf drive f0 f1 in
  let t := clampf tone f0 f1 in
  let pre := fadd f1 (fmul d (of_Z 20)) in
  let a := fadd (fconst 2 100) (fmul (fsub f1 t) (fconst 2 10)) in
  let nd := mkOverdriveNode i sp drive tone outDb in
  let r := OverdriveNode_process nd inb outb n in
  (forall k, (k < n)%nat ->
     snd r !! k =
     Some (overdrive_sample shape pre a t (od_postLin nd)
             (mixDry sp) (mixWet sp) f0 inb k))
  /\ drop n (snd r) = drop n outb
  /\ length (snd r) = length outb
  /\ z1_ (fst r) = lowpass shape pre a f0 inb n.
Proof.
  intros Hen Hin Hout d t pre a nd r. subst r.
  rewrite OverdriveNode_process_closed by done. simpl.
  repeat split.
  - intros k Hk. by rewrite closed_lookup.
  - apply closed_drop. by rewrite length_map, length_seq.
  - rewrite length_app, length_map, length_seq, length_drop. lia.
Qed.

(** *** The tail past the frame bound *)

Definition tail_passthrough (inb out' : list F) (B n : nat) : Prop :=
  forall i, (B <= i < n)%nat -> out' !! i = inb !! i.

Definition all_passthrough (inb out' : list F) (n : nat) : Prop :=
  forall i, (i < n)%nat -> out' !! i = inb !! i.

Lemma memcpy_all_passthrough inb outb n :
  (n <= length inb)%nat -> all_passthrough inb (memcpy outb inb n) n.
Proof.
  intros Hn i Hi. rewrite memcpy_lookup by done. by rewrite decide_True.
Qed.

Lemma all_tail inb out' B n :
  all_passthrough inb out' n -> tail_passthrough inb out' B n.
Proof. intros Hall i Hi. apply Hall. lia. Qed.

(** The loop [for (i = frames; i < nframes; i++) out[i] = in[i]] after a
    loop that stored the first [frames] samples. *)
Lemma tail_loop (g : nat -> F) inb outb frames n B :
  (n <= length inb)%nat -> (n <= length outb)%nat ->
  frames = (if (n <=? B)%nat then n else B) ->
  tail_passthrough inb
    (for_range frames n (fun i o => <[i := rd f0 inb i]> o)
       (for_loop frames (fun i o => <[i := g i]> o) outb)) B n.
Proof.
  intros Hin Hout Hf i Hi.
  assert (frames = B) as -> by (destruct (Nat.leb_spec n B); lia).
  rewrite write_loop_lookup by lia.
  unfold for_loop. rewrite write_loop_length.
  rewrite decide_True by lia. by rewrite <- lookup_rd by lia.
Qed.

Lemma NamModelNode_tail (nd : NamModelNode F) inb outb n :
  (n <= length inb)%nat -> (n <= length outb)%nat ->
  tail_passthrough inb (snd (NamModelNode_process nd inb outb n))
    (nam_maxFrames nd) n.
Proof.
  intros Hin Hout. unfold NamModelNode_process.
  destruct (model_ nd) as [m|]; simpl;
    [|by apply all_tail, memcpy_all_passthrough].
  destruct (sp_enabled (nam_std nd)); simpl;
    [|by apply all_tail, memcpy_all_passthrough].
  by apply tail_loop.
Qed.

Lemma IrConvolverNode_tail (nd : IrConvolverNode F) inb outb n :
  (n <= length inb)%nat -> (n <= length outb)%nat ->
  tail_passthrough inb (snd (IrConvolverNode_process nd inb outb n))
    (ir_maxFrames nd) n.
Proof.
  intros Hin Hout. unfold IrConvolverNode_process.
  destruct (negb (sp_enabled (ir_std nd)) || negb (ready (conv_ nd)));
    simpl; [by apply all_tail, memcpy_all_passthrough|].
  destruct (processBlock _ _ _ _) as [[ok o_] c]. simpl.
  by apply tail_loop.
Qed.

Lemma bypassed_all_passthrough spec t w rt inb outb n :
  (n <= length inb)%nat ->
  all_passthrough inb
    (snd (process rt (fst (bypassed spec t w)) inb outb n)) n.
Proof. intros Hin. simpl. by apply memcpy_all_passthrough. Qed.

Lemma parseStd_enabled spec : sp_enabled (parseStd spec) = enabled spec.
Proof.
  unfold parseStd. by destruct (is_object (params spec)).
Qed.

(** The trim an input node applies: the realtime cell when the context
    binds one, else the value computed from the spec. *)
Definition input_trim (spec : NodeSpec) (ctx : ProcessContext)
  (rt : RtParams F) : F :=
  if inputTrimLin ctx then cell_inputTrimLin rt
  else dbToLin (match numParam spec "inputTrimDb" with
                | Some v => clampf v (fneg (of_Z 24)) (of_Z 24)
                | None => f0
                end).

(** C7 (amended). For a node that [buildNode] returns for a context with
    bound [B], [process(in, out, n)] leaves the overflow tail untouched,
    [out[i] = in[i]] on [B, n), when the node is a [nam_model] or an
    [ir_convolver] (bypassed or not); a node whose spec is disabled
    copies all [n] samples.  An enabled [input], [output] or [overdrive]
    node has no bound: it applies its gain or shaping to every one of the
    [n] samples, the tail included. *)
Theorem buildNode_overflow_tail (spec : NodeSpec) (ctx : ProcessContext)
  (rt0 rt1 rt : RtParams F) (node : Node F) (warning : string)
  (inb outb : list F) (n : nat) :
  buildNode spec ctx rt0 = (Ok (node, warning), rt1) ->
  (n <= length inb)%nat -> (n <= length outb)%nat ->
  let out' := snd (process rt node inb outb n) in
  (type spec = "nam_model" \/ type spec = "ir_convolver" ->
   tail_passthrough inb out' (maxBlockFrames ctx) n)
  /\ (enabled spec = false -> all_passthrough inb out' n)
  /\ (enabled spec = true -> type spec = "input" ->
      forall i, (i < n)%nat ->
        out' !! i =
        Some (mixed (parseStd spec)
                (fun x => fmul (fmul x (input_trim spec ctx rt))
                            (levelLin (parseStd spec))) inb i))
  /\ (enabled spec = true -> type spec = "output" ->
      forall i, (i < n)%nat ->
        out' !! i =
        Some (mixed (parseStd spec)
                (fun x => fmul x (levelLin (parseStd spec))) inb i))
  /\ (enabled spec = true -> type spec = "overdrive" ->
      exists nd, node = NOverdrive nd /\
        forall i, (i < n)%nat -> out' !! i = Some (od_sample nd inb i)).
Proof.
  intros Hb Hin Hout out'. subst out'. unfold buildNode in Hb.
  destruct (String.eqb (type spec) "input") eqn:E1.
  { apply String.eqb_eq in E1. injection Hb as <- _ _.
    repeat split; try (intros; congruence); [intros [?|?]; congruence|..].
    - intros Hen. simpl. unfold InputNode_process. simpl.
      rewrite parseStd_enabled, Hen. simpl.
      by apply memcpy_all_passthrough.
    - intros Hen _ i Hi. simpl. unfold InputNode_process. simpl.
      rewrite parseStd_enabled, Hen. simpl.
      rewrite mix_loop_closed by done. by rewrite closed_lookup. }
  destruct (String.eqb (type spec) "output") eqn:E2.
  { apply String.eqb_eq in E2. injection Hb as <- _ _.
    repeat split; try (intros; congruence); [intros [?|?]; congruence|..].
    - intros Hen. simpl. unfold OutputNode_process. simpl.
      rewrite parseStd_enabled, Hen. simpl.
      by apply memcpy_all_passthrough.
    - intros Hen _ i Hi. simpl. unfold OutputNode_process. simpl.
      rewrite parseStd_enabled, Hen. simpl.
      rewrite mix_loop_closed by done. by rewrite closed_lookup. }
  destruct (String.eqb (type spec) "overdrive") eqn:E3.
  { apply String.eqb_eq in E3. injection Hb as <- _ _.
    repeat split; try (intros; congruence); [intros [?|?]; congruence|..].
    - intros Hen. simpl. unfold OverdriveNode_process. simpl.
      rewrite parseStd_enabled, Hen. simpl.
      by apply memcpy_all_passthrough.
    - intros Hen _. eexists. split; [reflexivity|]. intros i Hi.
      simpl. rewrite OverdriveNode_process_closed;
        [|by simpl; rewrite parseStd_enabled|done].
      simpl. by rewrite closed_lookup. }
  apply String.eqb_neq in E1, E2, E3.
  destruct (String.eqb (type spec) "nam_model") eqn:E4.
  { apply String.eqb_eq in E4. injection Hb as Hb _.
    unfold build_nam in Hb.
    assert (Hcases :
      (enabled spec = false \/ has_asset_path spec = false) /\
        (exists w, (node, warning) = bypassed spec "nam_model" w)
      \/ enabled spec = true /\ exists nd, node = NNamModel nd
           /\ nam_maxFrames nd = maxBlockFrames ctx).
    { destruct (enabled spec); simpl in Hb.
      - destruct (has_asset_path spec); simpl in Hb.
        + destruct (get_dsp _) as [[m|]|]; try discriminate.
          injection Hb as <- _. right. split; [done|]. eauto.
        + injection Hb as <- <-. left. split; [by right|]. eauto.
      - injection Hb as <- <-. left. split; [by left|]. eauto. }
    repeat split; try (intros; congruence).
    - intros _. destruct Hcases as [[_ [w Hw]]|[_ (nd & -> & <-)]].
      + injection Hw as -> _.
        by apply all_tail, memcpy_all_passthrough.
      + by apply NamModelNode_tail.
    - intros Hen. destruct Hcases as [[_ [w Hw]]|[? _]]; [|congruence].
      injection Hw as -> _. by apply memcpy_all_passthrough. }
  destruct (String.eqb (type spec) "ir_convolver") eqn:E5; [|discriminate].
  apply String.eqb_eq in E5. injection Hb as Hb _.
  unfold build_ir in Hb.
  assert (Hcases :
    (exists w, (node, warning) = bypassed spec "ir_convolver" w)
    \/ enabled spec = true /\ exists nd, node = NIrConvolver nd
         /\ ir_maxFrames nd = maxBlockFrames ctx).
  { destruct (enabled spec); simpl in Hb.
    - destruct (has_asset_path spec); simpl in Hb.
      + destruct (load_ir_mono _) as [ir|]; [|discriminate].
        destruct (negb _); [discriminate|].
        destruct (_ && _); destruct (init _ _) as [[|] conv];
          simpl in Hb; try discriminate;
          injection Hb as <- _; right; split; eauto.
      + injection Hb as <- <-. left. eauto.
    - injection Hb as <- <-. left. eauto. }
  repeat split; try (intros; congruence).
  - intros _. destruct Hcases as [[w Hw]|[_ (nd & -> & <-)]].
    + injection Hw as -> _. by apply all_tail, memcpy_all_passthrough.
    + by apply IrConvolverNode_tail.
  - intros Hen. destruct Hcases as [[w Hw]|[? _]]; [|congruence].
    injection Hw as -> _. by apply memcpy_all_passthrough.
Qed.

(** *** The standard parameters *)

(** The parameter keys the manifest lists, over all node types. *)
Definition manifest_param_keys (manifest : Json) : list string :=
  concat (map (fun t => map (fun p => get_string (at_key "key" p))
                          (items (at_key "params" t)))
            (items (at_key "types" manifest))).

(** The gain [process] applies to the wet signal of a node: the standard
    level for the gain-only nodes (for the input node beside its trim)
    and for the convolver, the post gain the constructor computed for
    the overdrive and the amp model. *)
Definition post_gain (node : Node F) : F :=
  match node with
  | NPassthrough nd => levelLin (pt_std nd)
  | NInput nd => levelLin (in_std nd)
  | NOutput nd => levelLin (out_std nd)
  | NOverdrive nd => od_postLin nd
  | NNamModel nd => nam_postLin nd
  | NIrConvolver nd => levelLin (ir_std nd)
  end.

(** What the builder makes of the standard level, by node class. *)
Definition built_post_gain (spec : NodeSpec) (node : Node F) : F :=
  let level := levelLin (parseStd spec) in
  match node with
  | NOverdrive _ =>
      fmul (dbToLin (default f0 (numParam spec "levelDb"))) level
  | NNamModel _ =>
      fmul (dbToLin (default f0 (numParam spec "postGainDb"))) level
  | _ => level
  end.

Lemma buildNode_post_gain spec ctx rt0 rt1 node warning :
  buildNode spec ctx rt0 = (Ok (node, warning), rt1) ->
  post_gain node = built_post_gain spec node.
Proof.
  unfold buildNode, build_nam, build_ir, bypassed.
  repeat match goal with
         | |- context [if ?b then _ else _] => destruct b; simpl
         | |- context [match ?x with _ => _ end] => destruct x; simpl
         end;
    intros Hb; try discriminate; injection Hb as <-; intros; done.
Qed.

Lemma buildNode_overdrive_std spec ctx rt0 rt1 nd warning :
  buildNode spec ctx rt0 = (Ok (NOverdrive nd, warning), rt1) ->
  od_std nd = parseStd spec.
Proof.
  unfold buildNode, build_nam, build_ir, bypassed.
  repeat match goal with
         | |- context [if ?b then _ else _] => destruct b; simpl
         | |- context [match ?x with _ => _ end] => destruct x; simpl
         end;
    intros Hb; try discriminate; injection Hb as <-; intros; done.
Qed.

(** C10. A numeric [outputGainDb] in the params of a node spec is what
    [parseStd] takes as the standard level, whatever [levelDb] says: the
    level is that value clamped to [-48, +24] dB.  On the node built
    from the spec the gain of the wet signal is this level for the
    input, the output, the convolver and a bypassed node, and this level
    times the gain of [postGainDb] for the amp model; for the overdrive
    it is this level times the gain of [levelDb], which the builder
    hands to the node a second time as its own output gain, so that
    there [levelDb] is not overridden: every output sample of an enabled
    overdrive is computed with that product as the post gain.  The
    manifest lists no key [outputGainDb]. *)
Theorem outputGainDb_post_gain (spec : NodeSpec) (kvs : list (string * Json))
  (v : Json) (ctx : ProcessContext) (rt0 rt1 : RtParams F) (node : Node F)
  (warning : string) :
  params spec = JObject kvs ->
  assoc "outputGainDb" kvs = Some v ->
  is_number v = true ->
  buildNode spec ctx rt0 = (Ok (node, warning), rt1) ->
  let level :=
    clampf (of_double (get_double v)) (fneg (of_Z 48)) (of_Z 24) in
  levelDb (parseStd spec) = level
  /\ levelLin (parseStd spec) = dbToLin level
  /\ post_gain node =
     match node with
     | NOverdrive _ =>
         fmul (dbToLin (default f0 (numParam spec "levelDb"))) (dbToLin level)
     | NNamModel _ =>
         fmul (dbToLin (default f0 (numParam spec "postGainDb")))
           (dbToLin level)
     | _ => dbToLin level
     end
  /\ (forall (nd : OverdriveNode F) (rt : RtParams F) (inb outb : list F)
             (n i : nat),
        node = NOverdrive nd -> enabled spec = true ->
        (n <= length outb)%nat -> (i < n)%nat ->
        od_postLin nd
        = fmul (dbToLin (default f0 (numParam spec "levelDb"))) (dbToLin level)
        /\ snd (process rt node inb outb n) !! i = Some (od_sample nd inb i))
  /\ "outputGainDb" ∉ manifest_param_keys nodeTypeManifest.
Proof.
  intros Hp Hk Hv Hb level.
  assert (Hl : levelDb (parseStd spec) = level
               /\ levelLin (parseStd spec) = dbToLin level).
  { assert (Hn : num_at (JObject kvs) "outputGainDb"
                   = Some (of_double (get_double v))).
    { unfold num_at, contains, at_key, get. rewrite Hk. cbn. by rewrite Hv. }
    unfold parseStd. rewrite Hp. cbn [is_object]. rewrite Hn.
    destruct (num_at (JObject kvs) "levelDb"),
      (num_at (JObject kvs) "mix"); done. }
  destruct Hl as [Hl1 Hl2].
  assert (Hg : post_gain node =
     match node with
     | NOverdrive _ =>
         fmul (dbToLin (default f0 (numParam spec "levelDb"))) (dbToLin level)
     | NNamModel _ =>
         fmul (dbToLin (default f0 (numParam spec "postGainDb")))
           (dbToLin level)
     | _ => dbToLin level
     end).
  { rewrite (buildNode_post_gain _ _ _ _ _ _ Hb). unfold built_post_gain.
    rewrite Hl2. by destruct node. }
  split; [done|]. split; [done|]. split; [done|]. split.
  - intros nd rt inb outb n i -> Hen Hn Hi. split; [exact Hg|].
    apply buildNode_overdrive_std in Hb.
    cbn [process Node_INode lift OverdriveNode_INode fst snd].
    rewrite OverdriveNode_process_closed;
      [|by rewrite Hb, parseStd_enabled|done].
    cbn [snd]. by rewrite closed_lookup.
  - intros Hin. vm_compute in Hin.
    repeat (apply elem_of_cons in Hin as [Hin|Hin]; [discriminate|]).
    by apply elem_of_nil in Hin.
Qed.

End NodeProofs.

(** ** The nodes on binary32 *)
Section Binary32.
Import Schema Convolver Nodes.

(** ISO C, Annex F: [pow(x, +0)] is 1 for every [x]. *)
Definition pow_zero_law (libm : LibM spec_float) : Prop :=
  forall x, powf x (S754_zero false) = Reference.sf_one.

Definition overdrive_spec (ps : list (string * Json)) : NodeSpec :=
  {| id := "od"; type := "overdrive"; category := "fx"; enabled := true;
     params := JObject ps; asset := None |}.

Definition ctx1 : ProcessContext :=
  {| ctx_sampleRate := 48000; maxBlockFrames := 1;
     inputTrimDb := false; inputTrimLin := false |}.

Definition rt_unity : RtParams spec_float :=
  {| cell_inputTrimDb := Reference.sf_zero;
     cell_inputTrimLin := Reference.sf_one |}.

Definition unity_std : NodeStandardParams spec_float :=
  {| sp_enabled := true; levelDb := Reference.sf_zero; mix := Reference.sf_one;
     levelLin := Reference.sf_one; mixWet := Reference.sf_one;
     mixDry := Reference.sf_zero |}.

Lemma parseStd_unity (libm : LibM spec_float) ps :
  pow_zero_law libm ->
  assoc "levelDb" ps = None -> assoc "outputGainDb" ps = None ->
  assoc "mix" ps = None ->
  parseStd (overdrive_spec ps) = unity_std.
Proof.
  intros Hpow H1 H2 H3. unfold parseStd, num_at, contains, at_key. simpl.
  rewrite H1, H2, H3. simpl. unfold unity_std, dbToLin. f_equal.
  apply Hpow.
Qed.

(** The overdrive at full drive and full tone, level at its default. *)
Definition full_drive : NodeSpec :=
  overdrive_spec [("drive", dbl 1 1); ("tone", dbl 1 1)].

Definition full_drive_node : OverdriveNode spec_float :=
  {| od_id := "od"; od_std := unity_std;
     drive_ := Reference.sf_one; tone_ := Reference.sf_one;
     outDb_ := Reference.sf_zero;
     pre_ := of_Z 21; od_postLin := Reference.sf_one;
     a_ := fconst 2 100; toneInv_ := Reference.sf_zero;
     z1_ := Reference.sf_zero |}.

Lemma buildNode_full_drive (libm : LibM spec_float) (fftw : FFTW spec_float)
  (ext : Externals spec_float) (rt : RtParams spec_float) :
  pow_zero_law libm ->
  buildNode full_drive ctx1 rt = (Ok (NOverdrive full_drive_node, ""), rt).
Proof.
  intros Hpow.
  assert (Hstd : parseStd full_drive = unity_std)
    by (by apply parseStd_unity).
  change (buildNode full_drive ctx1 rt) with
    (Ok (E := string)
        (NOverdrive (mkOverdriveNode "od" (parseStd full_drive)
                       Reference.sf_one Reference.sf_one Reference.sf_zero),
         ""), rt).
  rewrite Hstd. unfold mkOverdriveNode, dbToLin.
  change (fdiv Reference.sf_zero (of_Z 20)) with (S754_zero false).
  rewrite Hpow. reflexivity.
Qed.

(** The claim as worded fails on the code: with drive 1 the input 1.0 is
    multiplied by 21, beyond the bound; [process] yields 1.0, where a
    clamp followed by the cubic would yield 0.6666667. *)
Lemma overdrive_beyond_bound_is_not_shaped :
  exists (spec : NodeSpec) (x : spec_float),
    forall (libm : LibM spec_float) (fftw : FFTW spec_float)
           (ext : Externals spec_float),
      pow_zero_law libm ->
      exists nd,
        buildNode spec ctx1 rt_unity = (Ok (NOverdrive nd, ""), rt_unity)
        /\ flt f1 (fmul x (pre_ nd)) = true
        /\ snd (process rt_unity (NOverdrive nd) [x] [f0] 1)
           = [Reference.sf_one]
        /\ overdrive_sample clamp_then_shape (pre_ nd) (a_ nd) (tone_ nd)
             (od_postLin nd) (mixDry (od_std nd)) (mixWet (od_std nd))
             f0 [x] 0
           = S754_finite false 11184811 (-24)
        /\ snd (process rt_unity (NOverdrive nd) [x] [f0] 1) !! 0%nat
           <> Some (overdrive_sample clamp_then_shape (pre_ nd) (a_ nd)
                      (tone_ nd) (od_postLin nd) (mixDry (od_std nd))
                      (mixWet (od_std nd)) f0 [x] 0).
Proof.
  exists full_drive, Reference.sf_one. intros libm fftw ext Hpow.
  exists full_drive_node. split; [by apply buildNode_full_drive|].
  repeat split; try (vm_compute; reflexivity).
  vm_compute. discriminate.
Qed.

(** The overdrive with every parameter at its default. *)
Definition default_overdrive_node : OverdriveNode spec_float :=
  {| od_id := "od"; od_std := unity_std;
     drive_ := fconst 6 10; tone_ := fconst 5 10;
     outDb_ := Reference.sf_zero;
     pre_ := of_Z 13; od_postLin := Reference.sf_one;
     a_ := fadd (fconst 2 100) (fmul (fconst 5 10) (fconst 2 10));
     toneInv_ := fconst 5 10;
     z1_ := Reference.sf_zero |}.

Lemma buildNode_default_overdrive (libm : LibM spec_float)
  (fftw : FFTW spec_float) (ext : Externals spec_float)
  (rt : RtParams spec_float) :
  pow_zero_law libm ->
  buildNode (overdrive_spec []) ctx1 rt
  = (Ok (NOverdrive default_overdrive_node, ""), rt).
Proof.
  intros Hpow.
  assert (Hstd : parseStd (overdrive_spec []) = unity_std)
    by (by apply parseStd_unity).
  change (buildNode (overdrive_spec []) ctx1 rt) with
    (Ok (E := string)
        (NOverdrive (mkOverdriveNode "od" (parseStd (overdrive_spec []))
                       (fconst 6 10) (fconst 5 10) Reference.sf_zero),
         ""), rt).
  rewrite Hstd. unfold mkOverdriveNode, dbToLin.
  change (fdiv Reference.sf_zero (of_Z 20)) with (S754_zero false).
  rewrite Hpow. reflexivity.
Qed.

(** The claim as worded fails on the code: an overdrive node built for
    blocks of one frame and asked for two shapes the second sample like
    the first. *)
Lemma overdrive_processes_the_tail :
  exists (spec : NodeSpec) (inb : list spec_float) (i n : nat),
    forall (libm : LibM spec_float) (fftw : FFTW spec_float)
           (ext : Externals spec_float),
      pow_zero_law libm ->
      exists node,
        buildNode spec ctx1 rt_unity = (Ok (node, ""), rt_unity)
        /\ (maxBlockFrames ctx1 <= i < n)%nat
        /\ (n <= length inb)%nat
        /\ snd (process rt_unity node inb [f0; f0] n) !! i <> inb !! i.
Proof.
  exists (overdrive_spec []), [Reference.sf_one; Reference.sf_one], 1%nat, 2%nat.
  intros libm fftw ext Hpow.
  exists (NOverdrive default_overdrive_node).
  split; [by apply buildNode_default_overdrive|].
  split; [simpl; lia|]. split; [simpl; lia|].
  vm_compute. discriminate.
Qed.

(** C: [pow(10, 1)] is 10. *)
Definition pow_ten_law (libm : LibM spec_float) : Prop :=
  let ten : spec_float := of_Z (FloatRing := float_ring) 10 in
  powf ten Reference.sf_one = ten.

(** An overdrive with no drive, full tone, [levelDb] at 20 dB and
    [outputGainDb] at 0 dB. *)
Definition both_levels : NodeSpec :=
  overdrive_spec [("drive", dbl 0 1); ("levelDb", dbl 20 1);
                  ("outputGainDb", dbl 0 1); ("tone", dbl 1 1)].

Definition both_levels_node : OverdriveNode spec_float :=
  {| od_id := "od"; od_std := unity_std;
     drive_ := Reference.sf_zero; tone_ := Reference.sf_one;
     outDb_ := of_Z 20;
     pre_ := Reference.sf_one; od_postLin := of_Z 10;
     a_ := fconst 2 100; toneInv_ := Reference.sf_zero;
     z1_ := Reference.sf_zero |}.

Lemma buildNode_both_levels (libm : LibM spec_float) (fftw : FFTW spec_float)
  (ext : Externals spec_float) (rt : RtParams spec_float) :
  pow_zero_law libm -> pow_ten_law libm ->
  buildNode both_levels ctx1 rt = (Ok (NOverdrive both_levels_node, ""), rt).
Proof.
  intros Hpow Hten.
  assert (Hstd : parseStd both_levels = unity_std).
  { unfold parseStd, num_at, contains, at_key. simpl.
    unfold unity_std, dbToLin. f_equal. apply Hpow. }
  change (buildNode both_levels ctx1 rt) with
    (Ok (E := string)
        (NOverdrive (mkOverdriveNode "od" (parseStd both_levels)
                       Reference.sf_zero Reference.sf_one (of_Z 20)),
         ""), rt).
  rewrite Hstd. unfold mkOverdriveNode, dbToLin.
  change (fdiv (of_Z 20) (of_Z 20)) with Reference.sf_one.
  unfold pow_ten_law in Hten. cbv zeta in Hten. rewrite Hten. reflexivity.
Qed.

(** The run in which the claim fails: the overdrive built from a spec
    with [levelDb] at 20 dB and [outputGainDb] at 0 dB has the standard
    level 1 and the post gain 10; for the input 0.5 [process] yields
    4.5833335, ten times the 0.45833334 that a post gain of 0 dB
    yields. *)
Lemma overdrive_level_is_not_overridden :
  exists (spec : NodeSpec) (x : spec_float),
    forall (libm : LibM spec_float) (fftw : FFTW spec_float)
           (ext : Externals spec_float),
      pow_zero_law libm -> pow_ten_law libm ->
      exists nd,
        buildNode spec ctx1 rt_unity = (Ok (NOverdrive nd, ""), rt_unity)
        /\ numParam spec "levelDb" = Some (of_Z 20)
        /\ numParam spec "outputGainDb" = Some (of_Z 0)
        /\ levelLin (parseStd spec) = of_Z 1
        /\ od_postLin nd = of_Z 10
        /\ snd (process rt_unity (NOverdrive nd) [x] [f0] 1)
           = [S754_finite false 9611947 (-21)]
        /\ overdrive_sample shape (pre_ nd) (a_ nd) (tone_ nd)
             (levelLin (parseStd spec)) (mixDry (od_std nd))
             (mixWet (od_std nd)) f0 [x] 0
           = S754_finite false 15379115 (-25)
        /\ snd (process rt_unity (NOverdrive nd) [x] [f0] 1) !! 0%nat
           <> Some (overdrive_sample shape (pre_ nd) (a_ nd) (tone_ nd)
                      (levelLin (parseStd spec)) (mixDry (od_std nd))
                      (mixWet (od_std nd)) f0 [x] 0).
Proof.
  exists both_levels, (fconst 5 10). intros libm fftw ext Hpow Hten.
  exists both_levels_node. split; [by apply buildNode_both_levels|].
  assert (Hstd : parseStd both_levels = unity_std).
  { unfold parseStd, num_at, contains, at_key. simpl.
    unfold unity_std, dbToLin. f_equal. apply Hpow. }
  rewrite Hstd.
  repeat split; try (vm_compute; reflexivity).
  vm_compute. discriminate.
Qed.

Lemma outputGainDb_post_gain_witness :
  let spec := both_levels in
  let node : Node spec_float :=
    NOverdrive
      (mkOverdriveNode (H0 := Reference.libm_annex_f) "od"
         (parseStd (H0 := Reference.libm_annex_f) spec)
         Reference.sf_zero Reference.sf_one (of_Z 20)) in
  let level : spec_float :=
    clampf (of_double (get_double (dbl 0 1))) (fneg (of_Z 48)) (of_Z 24) in
  levelDb (parseStd (H0 := Reference.libm_annex_f) spec) = level
  /\ levelLin (parseStd (H0 := Reference.libm_annex_f) spec)
     = dbToLin (H0 := Reference.libm_annex_f) level
  /\ post_gain node =
     fmul (dbToLin (H0 := Reference.libm_annex_f)
             (default f0 (numParam spec "levelDb")))
       (dbToLin (H0 := Reference.libm_annex_f) level)
  /\ (forall (nd : OverdriveNode spec_float) (rt : RtParams spec_float)
             (inb outb : list spec_float) (n i : nat),
        node = NOverdrive nd -> enabled spec = true ->
        (n <= length outb)%nat -> (i < n)%nat ->
        od_postLin nd
        = fmul (dbToLin (H0 := Reference.libm_annex_f)
                  (default f0 (numParam spec "levelDb")))
            (dbToLin (H0 := Reference.libm_annex_f) level)
        /\ snd (process (INode := Node_INode (H0 := Reference.libm_annex_f)
                                    (H1 := Reference.fftw_binary32))
                  rt node inb outb n) !! i
           = Some (od_sample nd inb i))
  /\ "outputGainDb" ∉ manifest_param_keys nodeTypeManifest.
Proof.
  refine (outputGainDb_post_gain (H0 := Reference.libm_annex_f)
            (H1 := Reference.fftw_binary32)
            (Externals0 := Reference.no_assets)
            both_levels _ (dbl 0 1) ctx1 rt_unity rt_unity _ "" _ _ _ _).
  - reflexivity.
  - reflexivity.
  - reflexivity.
  - vm_compute. reflexivity.
Defined.

End Binary32.

(** ** The contract of [INode::process] *)
Section NodeFrames.
Import Schema Convolver Nodes.
Context {F : Type} `{Float F} `{LibM F} `{FFTW F}.
Implicit Types (x inb outb dst : list F).

Lemma two_loops_closed (g h : nat -> F) frames n outb :
  (frames <= n)%nat -> (n <= length outb)%nat ->
  for_range frames n (fun i o => <[i := h i]> o)
    (for_loop frames (fun i o => <[i := g i]> o) outb)
  = (map g (seq 0 frames) ++ map h (seq frames (n - frames))) ++ drop n outb.
Proof.
  intros Hf Hn. rewrite write_loop_closed by lia.
  rewrite write_range_closed;
    [|done|rewrite length_app, length_map, length_seq, length_drop; lia].
  rewrite take_app_length' by (by rewrite length_map, length_seq).
  rewrite drop_app_ge by (rewrite length_map, length_seq; lia).
  rewrite length_map, length_seq, drop_drop, <- app_assoc.
  do 3 f_equal. lia.
Qed.

Lemma two_loops_length (g h : nat -> F) frames n :
  (frames <= n)%nat ->
  length (map g (seq 0 frames) ++ map h (seq frames (n - frames))) = n.
Proof.
  intros Hf. rewrite length_app, !length_map, !length_seq. lia.
Qed.

Lemma frames_le n B : ((if (n <=? B)%nat then n else B) <= n)%nat.
Proof. destruct (Nat.leb_spec n B); lia. Qed.

(** [process] writes exactly [n] samples, and neither they nor the state
    the node is left in depend on what the destination held. *)
Lemma process_framed (rt : RtParams F) (nd : Node F) x n :
  (n <= length x)%nat ->
  exists nd' ys,
    length ys = n /\
    forall dst, (n <= length dst)%nat ->
      process rt nd x dst n = (nd', ys ++ drop n dst).
Proof.
  intros Hx.
  assert (Hcopy : forall (N : Type) (inj : N -> Node F) (k : N),
    exists nd' ys, length ys = n /\
      forall dst, (n <= length dst)%nat ->
        lift inj (k, memcpy dst x n) = (nd', ys ++ drop n dst)).
  { intros N inj k. exists (inj k), (take n x).
    split; [rewrite length_take; lia|done]. }
  assert (Hmix : forall (N : Type) (inj : N -> Node F) (k : N) sp wet,
    exists nd' ys, length ys = n /\
      forall dst, (n <= length dst)%nat ->
        lift inj (k, mix_loop sp wet x dst n) = (nd', ys ++ drop n dst)).
  { intros N inj k sp wet. exists (inj k), (map (mixed sp wet x) (seq 0 n)).
    split; [by rewrite length_map, length_seq|].
    intros dst Hd. by rewrite mix_loop_closed. }
  destruct nd as [nd|nd|nd|nd|nd|nd]; simpl.
  - unfold PassthroughNode_process.
    destruct (negb (sp_enabled (pt_std nd))); [apply Hcopy|apply Hmix].
  - unfold InputNode_process.
    destruct (negb (sp_enabled (in_std nd))); [apply Hcopy|apply Hmix].
  - unfold OutputNode_process.
    destruct (negb (sp_enabled (out_std nd))); [apply Hcopy|apply Hmix].
  - unfold OverdriveNode_process.
    destruct (sp_enabled (od_std nd)) eqn:Hen; simpl; [|apply Hcopy].
    eexists _, (map (od_sample nd x) (seq 0 n)).
    split; [by rewrite length_map, length_seq|].
    intros dst Hd. rewrite overdrive_loop by done. unfold lift. simpl.
    reflexivity.
  - unfold NamModelNode_process.
    destruct (model_ nd) as [m|]; [|apply Hcopy].
    destruct (negb (sp_enabled (nam_std nd))); [apply Hcopy|].
    eexists _, _. split; [|intros dst Hd].
    2:{ rewrite two_loops_closed by (done || apply frames_le).
        unfold lift. simpl. reflexivity. }
    apply two_loops_length, frames_le.
  - unfold IrConvolverNode_process.
    destruct (negb (sp_enabled (ir_std nd)) || negb (ready (conv_ nd)));
      [apply Hcopy|].
    destruct (processBlock _ _ _ _) as [[ok o_] c].
    eexists _, _. split; [|intros dst Hd].
    2:{ rewrite two_loops_closed by (done || apply frames_le).
        unfold lift. simpl. reflexivity. }
    apply two_loops_length, frames_le.
Qed.

Lemma wrap_int32_le z : 0 <= z -> wrap_int32 z <= z.
Proof.
  intros Hz. unfold wrap_int32.
  destruct (Z.lt_ge_cases z (2 ^ 31)) as [Hlt|Hge].
  - rewrite Z.mod_small by lia. lia.
  - pose proof (Z.mod_pos_bound (z + 2 ^ 31) (2 ^ 32)). lia.
Qed.

Lemma processBlock_take (c : FFTConvolverPartitioned F) x o n k :
  (k <= n)%nat ->
  processBlock c (take n x) o (wrap_int32 (Z.of_nat k))
  = processBlock c x o (wrap_int32 (Z.of_nat k)).
Proof.
  intros Hk. unfold processBlock.
  destruct (negb (mReady c) || negb (wrap_int32 (Z.of_nat k) =? mBlock c))
    eqn:E; [done|].
  apply orb_false_elim in E as [_ E]. apply negb_false_iff, Z.eqb_eq in E.
  assert (Hb : (Z.to_nat (mBlock c) <= n)%nat).
  { rewrite <- E. pose proof (wrap_int32_le (Z.of_nat k)). lia. }
  assert (Hm : memcpy (mTimeIn c) (take n x) (Z.to_nat (mBlock c))
               = memcpy (mTimeIn c) x (Z.to_nat (mBlock c))).
  { unfold memcpy. by rewrite take_take, Nat.min_l by done. }
  by rewrite Hm.
Qed.

(** A loop that reads [take n x] below [n] is the loop that reads [x]. *)
Ltac untake n x :=
  repeat match goal with
  | |- context [for_range ?lo ?hi ?body ?s] =>
      lazymatch body with context [take n x] => idtac end;
      match eval pattern (take n x) in body with
      | ?f _ =>
          let Hin := fresh in
          assert (Hin : for_range lo hi body s = for_range lo hi (f x) s)
            by (apply for_range_ext; intros; cbv beta;
                unfold overdrive_step; rewrite ?rd_take by lia; reflexivity);
          rewrite Hin; clear Hin
      end
  end.

(** [process] reads the first [n] samples of its input and no more. *)
Lemma process_take (rt : RtParams F) (nd : Node F) x dst n :
  process rt nd (take n x) dst n = process rt nd x dst n.
Proof.
  assert (Hcopy : memcpy dst (take n x) n = memcpy dst x n).
  { unfold memcpy. by rewrite take_take, Nat.min_id. }
  destruct nd as [nd|nd|nd|nd|nd|nd]; simpl.
  - unfold PassthroughNode_process, mix_loop, for_loop. rewrite Hcopy.
    by untake n x.
  - unfold InputNode_process, mix_loop, for_loop. rewrite Hcopy.
    by untake n x.
  - unfold OutputNode_process, mix_loop, for_loop. rewrite Hcopy.
    by untake n x.
  - unfold OverdriveNode_process, for_loop. rewrite Hcopy.
    by untake n x.
  - unfold NamModelNode_process, for_loop. rewrite Hcopy.
    destruct (model_ nd) as [m|]; [|done].
    destruct (negb (sp_enabled (nam_std nd))); [done|].
    pose proof (frames_le n (nam_maxFrames nd)) as Hf.
    by untake n x.
  - unfold IrConvolverNode_process, for_loop. rewrite Hcopy.
    destruct (negb (sp_enabled (ir_std nd)) || negb (ready (conv_ nd)));
      [done|].
    pose proof (frames_le n (ir_maxFrames nd)) as Hf.
    rewrite processBlock_take by done.
    destruct (processBlock _ _ _ _) as [[ok o_] c].
    assert (Hm : forall k, (k <= n)%nat ->
              memcpy o_ (take n x) k = memcpy o_ x k).
    { intros k Hk. unfold memcpy. by rewrite take_take, Nat.min_l by done. }
    rewrite Hm by done. by untake n x.
Qed.

End NodeFrames.

(** ** The pipeline (signal_chain.cpp) *)
Section ChainProofs.
Import Schema Convolver Nodes Chain.
Context {F : Type} `{Float F} `{LibM F} `{FFTW F}.
Implicit Types (x inb outb dst : list F) (nodes : list (Node F)).

(** One node on a block of [n] samples: the node afterwards and the [n]
    samples it produced. *)
Definition node_run (rt : RtParams F) (nd : Node F) (x : list F) (n : nat)
  : Node F * list F :=
  let r := process rt nd x (replicate n f0) n in (fst r, take n (snd r)).

(** The nodes in sequence, each fed what the one before produced. *)
Fixpoint pipeline (rt : RtParams F) (nodes : list (Node F)) (x : list F)
  (n : nat) : list (Node F) * list F :=
  match nodes with
  | [] => ([], x)
  | nd :: rest =>
      let r := node_run rt nd x n in
      let '(rest', y) := pipeline rt rest (snd r) n in
      (fst r :: rest', y)
  end.

Lemma node_run_spec rt nd x dst n :
  (n <= length x)%nat -> (n <= length dst)%nat ->
  process rt nd x dst n
  = (fst (node_run rt nd x n), snd (node_run rt nd x n) ++ drop n dst)
  /\ length (snd (node_run rt nd x n)) = n.
Proof.
  intros Hx Hd. destruct (process_framed rt nd x n Hx) as (nd' & ys & Hl & Hp).
  unfold node_run. rewrite (Hp (replicate n f0)) by (by rewrite length_replicate).
  rewrite (Hp dst Hd). simpl.
  rewrite take_app_length' by done. done.
Qed.

Lemma node_run_take rt nd x n :
  node_run rt nd (take n x) n = node_run rt nd x n.
Proof. unfold node_run. by rewrite process_take. Qed.

Lemma pipeline_snoc rt nodes nd x n :
  pipeline rt (nodes ++ [nd]) x n
  = (fst (pipeline rt nodes x n)
       ++ [fst (node_run rt nd (snd (pipeline rt nodes x n)) n)],
     snd (node_run rt nd (snd (pipeline rt nodes x n)) n)).
Proof.
  revert x. induction nodes as [|nd0 rest IH]; intros x; simpl; [done|].
  rewrite IH. by destruct (pipeline rt rest _ n).
Qed.

Lemma pipeline_length rt nodes x n :
  length (fst (pipeline rt nodes x n)) = length nodes.
Proof.
  revert x. induction nodes as [|nd rest IH]; intros x; simpl; [done|].
  specialize (IH (snd (node_run rt nd x n))).
  destruct (pipeline rt rest _ n). simpl in *. by rewrite IH.
Qed.

Lemma pipeline_out_length rt nodes x n :
  (n <= length x)%nat -> nodes <> [] ->
  length (snd (pipeline rt nodes x n)) = n.
Proof.
  intros Hx Hne. induction nodes as [|nd rest IH] using rev_ind; [done|].
  rewrite pipeline_snoc. simpl.
  destruct (decide (rest = [])) as [->|Hr].
  - simpl. unfold node_run. simpl.
    destruct (node_run_spec rt nd x (replicate n f0) n) as [_ Hl];
      [done|by rewrite length_replicate|]. exact Hl.
  - specialize (IH Hr).
    destruct (node_run_spec rt nd (snd (pipeline rt rest x n))
                (replicate n f0) n) as [_ Hl];
      [lia|by rewrite length_replicate|]. exact Hl.
Qed.

Lemma deref_assign p (v : list F) (bufs : list F * list F) :
  deref p (assign p v bufs) = v.
Proof. by destruct p. Qed.

(** The state of the ping-pong loop once the first [i] nodes have run:
    [a] points at what node [i-1] produced. *)
Definition after_nodes (rt : RtParams F) (nodes : list (Node F))
  (inb : list F) (frames M : nat) (i : nat)
  (nodes_i : list (Node F)) (bufs : list F * list F) (a b : Scratch)
  : Prop :=
  a <> b
  /\ length (fst bufs) = M /\ length (snd bufs) = M
  /\ nodes_i = fst (pipeline rt (take i nodes) inb frames) ++ drop i nodes
  /\ take frames (deref a bufs) = snd (pipeline rt (take i nodes) inb frames).

Lemma call_node_spec rt nodes inb frames M i nodes_i bufs a b x nd :
  (frames <= M)%nat -> nodes !! i = Some nd ->
  a <> b ->
  length (fst bufs) = M -> length (snd bufs) = M ->
  nodes_i = fst (pipeline rt (take i nodes) inb frames) ++ drop i nodes ->
  (frames <= length x)%nat ->
  node_run rt nd x frames
  = node_run rt nd (snd (pipeline rt (take i nodes) inb frames)) frames ->
  after_nodes rt nodes inb frames M (Datatypes.S i)
    (fst (call_node rt i x b frames (nodes_i, bufs)))
    (snd (call_node rt i x b frames (nodes_i, bufs))) b a.
Proof.
  intros Hf Hnd Hab Hl1 Hl2 -> Hx Hrun.
  assert (Hi : (i < length nodes)%nat) by (by eapply lookup_lt_Some).
  unfold call_node.
  assert (Hlen : length (fst (pipeline rt (take i nodes) inb frames)) = i).
  { rewrite pipeline_length, length_take. lia. }
  rewrite lookup_app_r by lia. rewrite Hlen, Nat.sub_diag, lookup_drop.
  rewrite Nat.add_0_r, Hnd.
  destruct (node_run_spec rt nd x (deref b bufs) frames) as [Hp Hlen'];
    [done|destruct b; simpl; lia|].
  rewrite Hp. unfold after_nodes.
  rewrite (take_S_r nodes i nd Hnd), pipeline_snoc. cbn [fst snd].
  repeat split.
  - done.
  - destruct b; cbn [fst snd assign deref] in *; [|done].
    rewrite length_app, Hlen', length_drop. lia.
  - destruct b; cbn [fst snd assign deref] in *; [done|].
    rewrite length_app, Hlen', length_drop. lia.
  - rewrite insert_app_r_alt by lia. rewrite Hlen, Nat.sub_diag.
    rewrite (drop_S nodes nd i Hnd). cbn [insert list_insert].
    rewrite <- app_assoc. cbn [app]. by rewrite Hrun.
  - rewrite deref_assign. rewrite take_app_length' by done. by rewrite Hrun.
Qed.

Lemma pingpong_loop rt (c : SignalChain F) us inb frames M nodes1 bufs1 bk :
  (frames <= M)%nat -> (1 <= length (nodes_ c))%nat ->
  after_nodes rt (nodes_ c) inb frames M 1 nodes1 bufs1 PA PB ->
  exists nodes' bufs' a b bk',
    for_range 1 (length (nodes_ c)) (pingpong_step rt c us frames)
      (nodes1, bufs1, (PA, PB), bk) = (nodes', bufs', (a, b), bk')
    /\ after_nodes rt (nodes_ c) inb frames M (length (nodes_ c))
         nodes' bufs' a b.
Proof.
  intros Hf HL Hinit.
  pose (P := fun (i : nat)
    (s : list (Node F) * (list F * list F) * (Scratch * Scratch)
         * list TimingBucket) =>
    after_nodes rt (nodes_ c) inb frames M i
      (fst (fst (fst s))) (snd (fst (fst s)))
      (fst (snd (fst s))) (snd (snd (fst s)))).
  assert (HP : P (length (nodes_ c))
    (for_range 1 (length (nodes_ c)) (pingpong_step rt c us frames)
       (nodes1, bufs1, (PA, PB), bk))).
  { apply (for_range_ind P); [done|exact Hinit|].
    intros i [[[nodes_i bufs] [a b]] bk_i] Hi Hs. unfold P in *.
    cbn [fst snd] in Hs. destruct Hs as (Hab & Hl1 & Hl2 & Hn & Ht).
    destruct (lookup_lt_is_Some_2 (nodes_ c) i) as [nd Hnd]; [lia|].
    unfold pingpong_step.
    pose proof (call_node_spec rt (nodes_ c) inb frames M i nodes_i bufs
                  a b (deref a bufs) nd Hf Hnd) as Hc.
    destruct (call_node rt i (deref a bufs) b frames (nodes_i, bufs))
      as [nodes' bufs']. cbn [fst snd] in *.
    apply Hc; try done.
    - destruct a; cbn [deref]; lia.
    - rewrite <- Ht. symmetry. apply node_run_take. }
  destruct (for_range 1 _ _ _) as [[[nodes' bufs'] [a b]] bk'].
  by exists nodes', bufs', a, b, bk'.
Qed.

(** The constructor sizes both scratch buffers to the bound of the
    context. *)
Lemma mkSignalChain_scratch (s : Schema.ChainSpec) (nodes : list (Node F))
  (ctx : ProcessContext) (timing : bool) :
  let c := mkSignalChain s nodes ctx timing in
  ctx_ c = ctx /\ nodes_ c = nodes
  /\ length (bufA_ c) = maxBlockFrames ctx
  /\ length (bufB_ c) = maxBlockFrames ctx.
Proof.
  unfold mkSignalChain. destruct timing.
  - destruct (for_loop _ _ _) as [[? ?] ?]. simpl.
    by rewrite !length_replicate.
  - simpl. by rewrite !length_replicate.
Qed.

(** C3. [process(in, out, k)] of a chain with scratch buffers of [M]
    frames.  With no nodes the input is copied to the output.  Otherwise
    the first [min(k, M)] samples of [out] are what the nodes produce in
    sequence, the first from the input and each next one from the output
    of the one before, and every node is left in the state that run puts
    it in; the samples from [min(k, M)] up to [k] are those of the input;
    nothing past [k] is written, so [k] samples are, and the scratch
    buffers keep their size. *)
Theorem SignalChain_process_spec (rt : RtParams F) (us : nat -> Z)
  (c : SignalChain F) (inb outb : list F) (k : nat) :
  (k <= length inb)%nat -> (k <= length outb)%nat ->
  length (bufA_ c) = maxBlockFrames (ctx_ c) ->
  length (bufB_ c) = maxBlockFrames (ctx_ c) ->
  let M := maxBlockFrames (ctx_ c) in
  let frames := min k M in
  let r := SignalChain_process rt us c inb outb k in
  (nodes_ c = [] -> snd r = take k inb ++ drop k outb)
  /\ (nodes_ c <> [] ->
      take frames (snd r) = snd (pipeline rt (nodes_ c) inb frames)
      /\ nodes_ (fst r) = fst (pipeline rt (nodes_ c) inb frames))
  /\ (forall i, (frames <= i < k)%nat -> snd r !! i = inb !! i)
  /\ drop k (snd r) = drop k outb
  /\ length (snd r) = length outb
  /\ length (bufA_ (fst r)) = M /\ length (bufB_ (fst r)) = M.
Proof.
  intros Hin Hout HA HB M frames r. subst r.
  unfold SignalChain_process.
  assert (Hfr : (if (k <=? maxBlockFrames (ctx_ c))%nat then k
                 else maxBlockFrames (ctx_ c)) = frames).
  { unfold frames, M. destruct (Nat.leb_spec k (maxBlockFrames (ctx_ c))); lia. }
  rewrite Hfr. clear Hfr.
  destruct (nodes_ c) as [|nd0 rest] eqn:Hnodes.
  { cbn [fst snd]. repeat split; try done.
    - intros i Hi. rewrite memcpy_lookup by done. by rewrite decide_True by lia.
    - by apply memcpy_drop.
    - by apply memcpy_length. }
  rewrite <- Hnodes.
  assert (Hf : (frames <= M)%nat) by (unfold frames; lia).
  assert (Hfk : (frames <= k)%nat) by (unfold frames; lia).
  assert (Hnd0 : nodes_ c !! 0%nat = Some nd0) by (by rewrite Hnodes).
  pose proof (call_node_spec rt (nodes_ c) inb frames M 0 (nodes_ c)
                (bufA_ c, bufB_ c) PB PA inb nd0 Hf Hnd0) as H0'.
  destruct (call_node rt 0 inb PA frames (nodes_ c, (bufA_ c, bufB_ c)))
    as [nodes1 bufs1]. cbn [fst snd] in H0'.
  assert (Hinit : after_nodes rt (nodes_ c) inb frames M 1 nodes1 bufs1 PA PB).
  { apply H0'; try done. lia. }
  clear H0'.
  destruct (pingpong_loop rt c us inb frames M nodes1 bufs1
              (if nodeTimingEnabled_ c
               then record_timing c 0 (us 0%nat) (timingBuckets_ c)
               else timingBuckets_ c) Hf) as
    (nodes' & bufs' & a & b & bk' & -> & Hab & Hl1 & Hl2 & Hn & Ht);
    [rewrite Hnodes; simpl; lia|done|].
  rewrite firstn_all in Hn, Ht. rewrite drop_all, app_nil_r in Hn.
  assert (Hla : (frames <= length (deref a bufs'))%nat)
    by (destruct a; cbn [deref]; lia).
  set (o1 := memcpy outb (deref a bufs') frames).
  assert (Ho1 : length o1 = length outb) by (apply memcpy_length; lia).
  assert (Hcases :
    (if (frames <? k)%nat then memcpy_at o1 inb frames (k - frames) else o1)
    = take frames (deref a bufs') ++ take (k - frames) (drop frames inb)
      ++ drop k outb).
  { destruct (Nat.ltb_spec frames k) as [Hlt|Hge].
    - unfold memcpy_at, o1. rewrite memcpy_take by done.
      rewrite <- drop_drop, memcpy_drop by lia.
      rewrite drop_drop. by replace (frames + (k - frames))%nat with k by lia.
    - assert (frames = k) as Hfk' by lia. unfold o1, memcpy.
      rewrite Hfk', Nat.sub_diag, take_0. done. }
  cbn [fst snd nodes_ bufA_ bufB_]. rewrite Hcases, Ht.
  assert (Hpl : length (snd (pipeline rt (nodes_ c) inb frames)) = frames).
  { apply pipeline_out_length; [lia|]. by rewrite Hnodes. }
  assert (Hmid : length (take (k - frames) (drop frames inb)) = (k - frames)%nat).
  { rewrite length_take, length_drop. lia. }
  split; [intros E; rewrite E in Hnodes; discriminate|].
  repeat split; try done.
  - by rewrite take_app_length' by done.
  - intros i Hi. rewrite lookup_app_r by lia. rewrite Hpl.
    rewrite lookup_app_l by lia.
    rewrite lookup_take_lt by lia. rewrite lookup_drop. f_equal. lia.
  - rewrite app_assoc. rewrite drop_app_length'; [done|].
    rewrite length_app. lia.
  - rewrite !length_app, length_drop. lia.
Qed.

End ChainProofs.

(** ** Runs on binary32 with the stand-in libraries *)

Section Binary32Runs.
Import Schema Convolver Nodes Chain.

(** A machine with one model file, [amp.nam]: a model for 48 kHz that
    answers each block with the block itself. *)
Definition echo_model : NamDSP spec_float :=
  {| dsp_expected_sr := double_of_Z 48000;
     dsp_has_input_level := false;
     dsp_input_level := S754_zero false;
     dsp_fed := [];
     dsp_respond := fun fed => last fed |}.

Definition one_model : Externals spec_float :=
  {| get_dsp := fun path =>
       if String.eqb path "amp.nam" then Ok (Some echo_model)
       else Err "No such file or directory";
     sf_open_read := fun _ => Err "System error.";
     env_ir_max_samples := None |}.

Definition amp_spec : NodeSpec :=
  {| id := "amp1"; type := "nam_model"; category := "amp"; enabled := true;
     params := JObject [("preGainDb", dbl 0 1)];
     asset := Some {| path := "amp.nam" |} |}.

#[local] Existing Instance Reference.libm_annex_f.
#[local] Existing Instance Reference.fftw_binary32.
#[local] Existing Instance one_model.

Definition amp_node : NamModelNode spec_float :=
  mkNamModelNode "amp1" unity_std (Some echo_model) 48000 1
    Reference.sf_zero Reference.sf_zero (fconst 90 100) true false true.

Lemma buildNode_amp :
  buildNode amp_spec ctx1 rt_unity = (Ok (NNamModel amp_node, ""), rt_unity).
Proof. vm_compute. reflexivity. Qed.

Lemma OverdriveNode_process_samples_witness :
  let inb : list spec_float := [fconst 1 100; fconst 1 2] in
  let outb : list spec_float := [f0; f0; f0] in
  let d : spec_float := clampf (fconst 6 10) f0 f1 in
  let t : spec_float := clampf (fconst 5 10) f0 f1 in
  let pre := fadd f1 (fmul d (of_Z 20)) in
  let a := fadd (fconst 2 100) (fmul (fsub f1 t) (fconst 2 10)) in
  let nd := mkOverdriveNode "od" unity_std (fconst 6 10) (fconst 5 10) f0 in
  let r := OverdriveNode_process nd inb outb 2 in
  (forall k, (k < 2)%nat ->
     snd r !! k =
     Some (overdrive_sample shape pre a t (od_postLin nd)
             (mixDry unity_std) (mixWet unity_std) f0 inb k))
  /\ drop 2 (snd r) = drop 2 outb
  /\ length (snd r) = length outb
  /\ z1_ (fst r) = lowpass shape pre a f0 inb 2.
Proof.
  intros inb outb.
  refine (OverdriveNode_process_samples "od" unity_std (fconst 6 10)
            (fconst 5 10) f0 inb outb 2 eq_refl _ _); simpl; lia.
Defined.

Lemma buildNode_overflow_tail_witness :
  let inb : list spec_float := [fconst 1 2; fconst 1 4] in
  let outb : list spec_float := [f0; f0; f0] in
  let out' := snd (process rt_unity (NNamModel amp_node) inb outb 2) in
  (type amp_spec = "nam_model" \/ type amp_spec = "ir_convolver" ->
   tail_passthrough inb out' (maxBlockFrames ctx1) 2)
  /\ (enabled amp_spec = false -> all_passthrough inb out' 2)
  /\ (enabled amp_spec = true -> type amp_spec = "input" ->
      forall i, (i < 2)%nat ->
        out' !! i =
        Some (mixed (parseStd amp_spec)
                (fun x => fmul (fmul x (input_trim amp_spec ctx1 rt_unity))
                            (levelLin (parseStd amp_spec))) inb i))
  /\ (enabled amp_spec = true -> type amp_spec = "output" ->
      forall i, (i < 2)%nat ->
        out' !! i =
        Some (mixed (parseStd amp_spec)
                (fun x => fmul x (levelLin (parseStd amp_spec))) inb i))
  /\ (enabled amp_spec = true -> type amp_spec = "overdrive" ->
      exists nd, NNamModel amp_node = NOverdrive nd /\
        forall i, (i < 2)%nat -> out' !! i = Some (od_sample nd inb i)).
Proof.
  intros inb outb.
  refine (buildNode_overflow_tail amp_spec ctx1 rt_unity rt_unity rt_unity
            (NNamModel amp_node) "" inb outb 2 buildNode_amp _ _);
    simpl; lia.
Defined.

(** A chain of the overdrive and the amp with scratch buffers of one
    frame. *)
Definition od_amp_chain : SignalChain spec_float :=
  mkSignalChain
    {| version := 1; sampleRate := 48000;
       chain := [overdrive_spec []; amp_spec] |}
    [NOverdrive default_overdrive_node; NNamModel amp_node] ctx1 true.

Lemma SignalChain_process_spec_witness :
  let inb : list spec_float := [fconst 1 100; fconst 1 4] in
  let outb : list spec_float := [f0; f0; f0] in
  let c := od_amp_chain in
  let M := maxBlockFrames (ctx_ c) in
  let frames := min 2 M in
  let r := SignalChain_process rt_unity (fun _ => 7) c inb outb 2 in
  (nodes_ c = [] -> snd r = take 2 inb ++ drop 2 outb)
  /\ (nodes_ c <> [] ->
      take frames (snd r) = snd (pipeline rt_unity (nodes_ c) inb frames)
      /\ nodes_ (fst r) = fst (pipeline rt_unity (nodes_ c) inb frames))
  /\ (forall i, (frames <= i < 2)%nat -> snd r !! i = inb !! i)
  /\ drop 2 (snd r) = drop 2 outb
  /\ length (snd r) = length outb
  /\ length (bufA_ (fst r)) = M /\ length (bufB_ (fst r)) = M.
Proof.
  intros inb outb c.
  refine (SignalChain_process_spec rt_unity (fun _ => 7) c inb outb 2
            _ _ _ _).
  - simpl. lia.
  - simpl. lia.
  - vm_compute. reflexivity.
  - vm_compute. reflexivity.
Defined.

End Binary32Runs.

(** ** The control server (chain_control_server.cpp) *)

Section ControlProofs.
Import Schema Convolver Nodes Chain Control.
Context {F : Type} `{Float F} `{LibM F} `{FFTW F} `{!Externals F}.

(** A request object whose [cmd] is the string [c]. *)
Definition request_for (c : string) (req : Json) : Prop :=
  is_object req = true /\ contains "cmd" req = true
  /\ at_key "cmd" req = JString c.

(** The three handles of the runtime state are what they were. *)
Definition untouched (st st' : ChainRuntimeState F) : Prop :=
  Control.activeChain st' = Control.activeChain st
  /\ pendingChain st' = pendingChain st
  /\ lastSpec st' = lastSpec st.

Lemma string_length_append (a b : string) :
  String.length (a ++ b)%string = (String.length a + String.length b)%nat.
Proof. induction a as [|c a IH]; simpl; [done|by rewrite IH]. Qed.

Lemma tmp_is_another_file (path : string) :
  (path ++ ".tmp")%string <> path.
Proof.
  intros E. apply (f_equal String.length) in E.
  rewrite string_length_append in E. simpl in E. lia.
Qed.

Lemma persist_failure_keeps_file env path s d e d' :
  persistChainToDisk env path s d = (Err e, d') ->
  d' !! path = d !! path.
Proof.
  unfold persistChainToDisk. intros E.
  pose proof (tmp_is_another_file path) as Hne.
  destruct (fs_fault env); try (inversion E; subst; done).
  - destruct (_ <? _)%nat; inversion E; subst.
    by apply lookup_insert_ne.
  - inversion E; subst. by apply lookup_insert_ne.
Qed.

(** The text [persistChainToDisk] writes for a spec. *)
Definition chain_text (env : Env) (s : ChainSpec) : string :=
  (dump2 env (chainSpecToJson s) ++ String "010" "")%string.

(** The flush of the file did not fail short of the text. *)
Definition flushed (env : Env) (s : ChainSpec) : Prop :=
  forall k, fs_fault env = FsFlushFails k ->
    (String.length (chain_text env s) <= k)%nat.

Lemma string_take_length n (s : string) :
  String.length (string_take n s) = min n (String.length s).
Proof.
  unfold string_take. revert n.
  induction s as [|c s IH]; intros [|n]; simpl; try done.
  by rewrite IH.
Qed.

Lemma string_take_all n (s : string) :
  (String.length s <= n)%nat -> string_take n s = s.
Proof.
  unfold string_take. revert n.
  induction s as [|c s IH]; intros [|n]; simpl; intros Hn; try done; [lia|].
  rewrite IH; [done|lia].
Qed.

Lemma string_take_short n (s : string) :
  (n < String.length s)%nat -> string_take n s <> s.
Proof.
  intros Hn E. apply (f_equal String.length) in E.
  rewrite string_take_length in E. lia.
Qed.

Lemma persist_success_writes_file env path s d u d' :
  flushed env s ->
  persistChainToDisk env path s d = (Ok u, d') ->
  d' !! path = Some (dump2 env (chainSpecToJson s) ++ String "010" "")%string
  /\ d' !! (path ++ ".tmp")%string = None.
Proof.
  unfold persistChainToDisk. intros Hfl E.
  pose proof (tmp_is_another_file path) as Hne.
  assert (Hd : forall text : string,
    <[path := text]> (delete (path ++ ".tmp")%string d) !! path = Some text
    /\ <[path := text]> (delete (path ++ ".tmp")%string d)
         !! (path ++ ".tmp")%string = None).
  { intros text. split; [by apply lookup_insert_eq|].
    etrans; [by apply lookup_insert_ne|]. by apply lookup_delete_eq. }
  destruct (fs_fault env) eqn:Ef; try (inversion E; subst; by apply Hd).
  - destruct (_ <? _)%nat; inversion E; subst. apply Hd.
  - inversion E; subst.
    rewrite string_take_all by (by apply (Hfl flushed0)). apply Hd.
Qed.

(** A flush that fails leaves the head of the text under the final name,
    and the call reports success. *)
Lemma persist_lost_flush env path s d k :
  fs_fault env = FsFlushFails k ->
  persistChainToDisk env path s d
  = (Ok tt, <[path := string_take k (chain_text env s)]>
              (delete (path ++ ".tmp")%string d)).
Proof. intros Ef. unfold persistChainToDisk. by rewrite Ef. Qed.

Section SetChain.
Variables (env : Env) (w : World F) (req : Json).

Let st := state w.
Let src := at_key "chain" req.
Let sized (parsed : ChainSpec) : ChainSpec :=
  set_sampleRate parsed (ctx_sampleRate (ctx st)).

(** Some step of a [set_chain] request fails: the [chain] field is
    missing, the description does not parse, the parsed spec does not
    validate, a node does not build, or the file cannot be written. *)
Definition step_fails : Prop :=
  contains "chain" req = false
  \/ (exists verr, parseChainJson src no_error = (None, verr))
  \/ (exists parsed verr verr',
        parseChainJson src no_error = (Some parsed, verr)
        /\ validateChainSpec (sized parsed) verr = (None, verr'))
  \/ (exists parsed verr validated verr' e rt',
        parseChainJson src no_error = (Some parsed, verr)
        /\ validateChainSpec (sized parsed) verr = (Some validated, verr')
        /\ buildChain validated (ctx st) (env_node_timing env) (rt w)
           = (Err e, rt'))
  \/ (exists parsed verr validated verr' built rt' e d',
        parseChainJson src no_error = (Some parsed, verr)
        /\ validateChainSpec (sized parsed) verr = (Some validated, verr')
        /\ buildChain validated (ctx st) (env_node_timing env) (rt w)
           = (Ok built, rt')
        /\ persistChainToDisk env (configPath st) validated (disk w)
           = (Err e, d')).

(** Every step succeeds, with [validated] the spec and [built] the chain. *)
Definition all_succeed (validated : ChainSpec) (built : BuildChainResult F)
  : Prop :=
  contains "chain" req = true
  /\ exists parsed verr verr' rt' d',
       parseChainJson src no_error = (Some parsed, verr)
       /\ validateChainSpec (sized parsed) verr = (Some validated, verr')
       /\ buildChain validated (ctx st) (env_node_timing env) (rt w)
          = (Ok built, rt')
       /\ persistChainToDisk env (configPath st) validated (disk w)
          = (Ok tt, d').

End SetChain.

(** What the handler does with a [set_chain] request, step by step. *)
Lemma handleRequest_set_chain_steps (env : Env) (w : World F) (req : Json) :
  request_for "set_chain" req ->
  let st := state w in
  let path := configPath st in
  handleRequest env w req =
    if negb (contains "chain" req) then (resp_error "missing chain", w)
    else
      match parseChainJson (at_key "chain" req) no_error with
      | (None, verr) => (resp_error (message verr), w)
      | (Some parsed, verr) =>
        match validateChainSpec
                (set_sampleRate parsed (ctx_sampleRate (ctx st))) verr with
        | (None, verr) => (resp_error (message verr), w)
        | (Some validated, _) =>
          match buildChain validated (ctx st) (env_node_timing env) (rt w) with
          | (Err buildErr, rt') =>
              (resp_error buildErr,
               {| state := st; rt := rt'; disk := disk w |})
          | (Ok built, rt') =>
            match persistChainToDisk env path validated (disk w) with
            | (Err persistErr, d') =>
                (resp_error ("persist failed: " ++ persistErr)%string,
                 {| state := st; rt := rt'; disk := d' |})
            | (Ok _, d') =>
                (resp_ok (bc_warning built),
                 {| state := set_pending st validated (bc_chain built);
                    rt := rt'; disk := d' |})
            end
          end
        end
      end.
Proof.
  intros (Hobj & Hcmd & Hset) st path.
  unfold handleRequest. rewrite Hobj, Hcmd, Hset. reflexivity.
Qed.

(** [get_chain] serialises the spec of the active chain. *)
Lemma handleRequest_get_chain (env : Env) (w : World F) (req : Json) :
  request_for "get_chain" req ->
  handleRequest env w req =
    (match Control.activeChain (state w) with
     | None => resp_error "no active chain"
     | Some current =>
         JObject [("chain", chainSpecToJson (spec current));
                  ("ok", JBool true)]
     end, w).
Proof.
  intros (Hobj & Hcmd & Hget).
  unfold handleRequest. rewrite Hobj, Hcmd, Hget. simpl.
  by destruct (Control.activeChain (state w)).
Qed.

Lemma resp_error_is_not_ok (msg warning : string) :
  resp_error msg <> resp_ok warning.
Proof. unfold resp_error, resp_ok. by destruct (negb _). Qed.

(** C5. A [set_chain] request one of whose steps fails where the handler
    looks (no [chain] field, a description that does not parse, a spec
    that does not validate, a node that does not build, a file that
    cannot be created, written in full or renamed) is answered with
    ok = false and an error, and the active handle, the pending handle
    and the last accepted spec are what they were, as is the
    configuration file.  When every step reports success the answer is
    ok = true (with the warning when there is one), the built chain is
    the pending handle, the active handle is what it was, and the file
    holds the validated spec provided the flush did not fail.  One of
    the two is the case, and an answer with ok = true is given only in
    the second.  A flush that fails in [fclose] is not among the
    failures the handler sees: the request is answered with ok = true
    and the chain is published although the configuration file holds
    only the head of the text.  A line that is not JSON is answered with
    an error without the state being touched. *)
Theorem handleRequest_set_chain (env : Env) (w : World F) (req : Json) :
  request_for "set_chain" req ->
  let r := handleRequest env w req in
  let st := state w in
  let st' := state (snd r) in
  let path := configPath st in
  (step_fails env w req ->
     (exists msg, fst r = resp_error msg)
     /\ untouched st st'
     /\ disk (snd r) !! path = disk w !! path)
  /\ (forall validated built, all_succeed env w req validated built ->
        fst r = resp_ok (bc_warning built)
        /\ pendingChain st' = Some (bc_chain built)
        /\ Control.activeChain st' = Control.activeChain st
        /\ lastSpec st' = validated
        /\ (flushed env validated ->
            disk (snd r) !! path = Some (chain_text env validated))
        /\ (forall k, fs_fault env = FsFlushFails k ->
              (k < String.length (chain_text env validated))%nat ->
              disk (snd r) !! path
              = Some (string_take k (chain_text env validated))
              /\ disk (snd r) !! path <> Some (chain_text env validated)))
  /\ (step_fails env w req
      \/ exists validated built, all_succeed env w req validated built)
  /\ ((exists warning, fst r = resp_ok warning) ->
      exists validated built, all_succeed env w req validated built)
  /\ (forall line what, json_parse env line = Err what ->
        serve_line env w line = (resp_error ("parse error: " ++ what)%string, w)).
Proof.
  intros Hreq r st st' path.
  assert (Hr : r = handleRequest env w req) by done.
  rewrite handleRequest_set_chain_steps in Hr by done.
  cbv zeta in Hr. fold st in Hr. fold path in Hr.
  clearbody r. subst st'.
  assert (Hline : forall line what, json_parse env line = Err what ->
    serve_line env w line
    = (resp_error ("parse error: " ++ what)%string, w)).
  { intros line what E. unfold serve_line. by rewrite E. }
  unfold step_fails, all_succeed. fold st. fold path.
  destruct (contains "chain" req) eqn:Hc; simpl in Hr.
  2:{ subst r. simpl. split; [|split; [|split; [|split; [|exact Hline]]]].
      - intros _. split; [by eexists|done].
      - by intros ? ? [? _].
      - left. by left.
      - intros [wn Hw]. by apply resp_error_is_not_ok in Hw. }
  destruct (parseChainJson (at_key "chain" req) no_error) as [[parsed|] verr]
    eqn:Hp.
  2:{ subst r. simpl. split; [|split; [|split; [|split; [|exact Hline]]]].
      - intros _. split; [by eexists|done].
      - intros ? ? (_ & ? & ? & ? & ? & ? & ? & _). done.
      - left. right. left. by eexists.
      - intros [wn Hw]. by apply resp_error_is_not_ok in Hw. }
  destruct (validateChainSpec _ verr) as [[validated|] verr'] eqn:Hv.
  2:{ subst r. simpl. split; [|split; [|split; [|split; [|exact Hline]]]].
      - intros _. split; [by eexists|done].
      - intros ? ? (_ & ? & ? & ? & ? & ? & E1 & E2 & _).
        inversion E1; subst. rewrite Hv in E2. done.
      - left. right. right. left. by eexists _, _, _.
      - intros [wn Hw]. by apply resp_error_is_not_ok in Hw. }
  destruct (buildChain validated _ _ _) as [[built|e] rt'] eqn:Hb.
  2:{ subst r. simpl. split; [|split; [|split; [|split; [|exact Hline]]]].
      - intros _. split; [by eexists|done].
      - intros ? ? (_ & ? & ? & ? & ? & ? & E1 & E2 & E3 & _).
        inversion E1; subst. rewrite Hv in E2. inversion E2; subst.
        rewrite Hb in E3. done.
      - left. right. right. right. left. by eexists _, _, _, _, _, _.
      - intros [wn Hw]. by apply resp_error_is_not_ok in Hw. }
  destruct (persistChainToDisk env path validated (disk w)) as [[[]|e] d']
    eqn:Hd.
  2:{ subst r. simpl. split; [|split; [|split; [|split; [|exact Hline]]]].
      - intros _. split; [by eexists|]. split; [done|].
        by eapply persist_failure_keeps_file.
      - intros ? ? (_ & ? & ? & ? & ? & ? & E1 & E2 & E3 & E4).
        inversion E1; subst. rewrite Hv in E2. inversion E2; subst.
        rewrite Hb in E3. inversion E3; subst. rewrite Hd in E4. done.
      - left. right. right. right. right. by eexists _, _, _, _, _, _, _, _.
      - intros [wn Hw]. by apply resp_error_is_not_ok in Hw. }
  subst r. simpl.
  assert (Hall : true = true
    /\ exists parsed0 verr0 verr0' rt0' d0',
         (Some parsed, verr) = (Some parsed0, verr0)
         /\ validateChainSpec
              (set_sampleRate parsed0 (ctx_sampleRate (ctx st))) verr0
            = (Some validated, verr0')
         /\ buildChain validated (ctx st) (env_node_timing env) (rt w)
            = (Ok built, rt0')
         /\ persistChainToDisk env path validated (disk w) = (Ok (), d0')).
  { split; [done|]. by eexists _, _, _, _, _. }
  split; [|split; [|split; [|split; [|exact Hline]]]].
  - intros [E|[[? E]|[(? & ? & ? & E1 & E2)|[(? & ? & ? & ? & ? & ? & E1 & E2 & E3)
      |(? & ? & ? & ? & ? & ? & ? & ? & E1 & E2 & E3 & E4)]]]]; try done.
    + inversion E1; subst. rewrite Hv in E2. done.
    + inversion E1; subst. rewrite Hv in E2. inversion E2; subst.
      rewrite Hb in E3. done.
    + inversion E1; subst. rewrite Hv in E2. inversion E2; subst.
      rewrite Hb in E3. inversion E3; subst. rewrite Hd in E4. done.
  - intros validated0 built0 (_ & ? & ? & ? & ? & ? & E1 & E2 & E3 & E4).
    inversion E1; subst. rewrite Hv in E2. inversion E2; subst.
    rewrite Hb in E3. inversion E3; subst.
    split; [done|]. split; [done|]. split; [done|]. split; [done|]. split.
    + intros Hfl.
      by destruct (persist_success_writes_file _ _ _ _ _ _ Hfl Hd).
    + intros k Ef Hk. rewrite (persist_lost_flush _ _ _ _ k Ef) in Hd.
      injection Hd as <-. cbn [disk snd].
      assert (Hlk : <[path := string_take k (chain_text env validated0)]>
                      (delete (path ++ ".tmp")%string (disk w)) !! path
                    = Some (string_take k (chain_text env validated0)))
        by apply lookup_insert_eq.
      rewrite Hlk.
      split; [done|]. intros [= E]. by apply string_take_short in E.
  - right. by exists validated, built.
  - intros _. by exists validated, built.
Qed.

(** C9. [get_chain] does not return the accepted spec: right after a
    [set_chain] that succeeded, whose spec is now the last accepted one,
    the answer to [get_chain] is still the spec of the chain that is
    active, or the error [no active chain] when none is; the accepted
    spec is returned only once the audio thread has made its chain the
    active one. *)
Theorem get_chain_after_set_chain (env : Env) (w : World F)
  (set get : Json) (validated : ChainSpec) (built : BuildChainResult F) :
  request_for "set_chain" set -> all_succeed env w set validated built ->
  request_for "get_chain" get ->
  let w' := snd (handleRequest env w set) in
  fst (handleRequest env w set) = resp_ok (bc_warning built)
  /\ lastSpec (state w') = validated
  /\ fst (handleRequest env w' get) =
     match Control.activeChain (state w) with
     | None => resp_error "no active chain"
     | Some current =>
         JObject [("chain", chainSpecToJson (spec current));
                  ("ok", JBool true)]
     end.
Proof.
  intros Hset (Hc & parsed & verr & verr' & rt' & d' & Hp & Hv & Hb & Hd)
    Hget w'.
  rewrite (handleRequest_get_chain env w' get) by done. subst w'.
  rewrite (handleRequest_set_chain_steps env w set) by done. cbv zeta.
  rewrite Hc. simpl. rewrite Hp, Hv, Hb, Hd. simpl. done.
Qed.

End ControlProofs.

(** ** Requests on binary32 with the stand-in libraries *)

Section ControlRuns.
Import Schema Convolver Nodes Chain Control.
#[local] Existing Instance Reference.libm_annex_f.
#[local] Existing Instance Reference.fftw_binary32.
#[local] Existing Instance Reference.no_assets.

(** A server whose file system works; what [dump] prints is of no
    concern here. *)
Definition env_fine : Env :=
  {| dump2 := fun _ => "{}";
     json_parse := fun _ => Err "syntax error";
     env_node_timing := false;
     fs_fault := FsFine |}.

Definition plain (i t : string) : Json :=
  JObject [("id", JString i); ("type", JString t)].

(** [{"cmd":"set_chain","chain":{"version":1,"chain":[...]}}] with an
    overdrive before the amp. *)
Definition set_five : Json :=
  JObject [("cmd", JString "set_chain");
           ("chain",
            JObject [("version", JInt 1);
                     ("chain",
                      JArray [plain "input" "input"; plain "od" "overdrive";
                              plain "amp1" "nam_model";
                              plain "cab1" "ir_convolver";
                              plain "output" "output"])])].

Definition get_request : Json := JObject [("cmd", JString "get_chain")].

Definition ctx48 : ProcessContext :=
  {| ctx_sampleRate := 48000; maxBlockFrames := 2;
     inputTrimDb := false; inputTrimLin := false |}.

Definition plain_node (i t c : string) : NodeSpec :=
  {| id := i; type := t; category := c; enabled := true;
     params := JObject []; asset := None |}.

(** The chain every legacy description converts to. *)
Definition spec_legacy : ChainSpec :=
  {| version := 1; sampleRate := 48000;
     chain := [plain_node "input" "input" "utility";
               plain_node "amp1" "nam_model" "amp";
               plain_node "cab1" "ir_convolver" "cab";
               plain_node "output" "output" "utility"] |}.

(** The chain of [set_five]. *)
Definition spec_five : ChainSpec :=
  {| version := 1; sampleRate := 48000;
     chain := [plain_node "input" "input" ""; plain_node "od" "overdrive" "";
               plain_node "amp1" "nam_model" "";
               plain_node "cab1" "ir_convolver" "";
               plain_node "output" "output" ""] |}.

Definition built_from (s : ChainSpec) : BuildChainResult spec_float :=
  match fst (buildChain s ctx48 false rt_unity) with
  | Ok b => b
  | Err e => {| bc_chain := mkSignalChain s [] ctx48 false; bc_warning := e |}
  end.

(** The engine after start-up from a legacy configuration: its chain is
    active, nothing is pending. *)
Definition w_legacy : World spec_float :=
  {| state := {| Control.activeChain := Some (bc_chain (built_from spec_legacy));
                 pendingChain := None;
                 lastSpec := spec_legacy;
                 ctx := ctx48;
                 configPath := "/opt/pedal/config/chain.json";
                 socketPath := "/tmp/pedal-dsp.sock" |};
     rt := rt_unity;
     disk := ∅ |}.

Lemma set_five_is_set_chain : request_for "set_chain" set_five.
Proof. by repeat split. Qed.

Lemma set_five_succeeds :
  all_succeed env_fine w_legacy set_five spec_five (built_from spec_five).
Proof.
  split; [reflexivity|].
  exists spec_five, no_error, no_error, rt_unity,
    (<["/opt/pedal/config/chain.json" := String.append "{}" (String "010" "")]>
       (delete "/opt/pedal/config/chain.json.tmp" (∅ : Disk))).
  repeat split; vm_compute; reflexivity.
Qed.

(** The same server on a disk that takes the text into the stream's
    buffer and fails to flush it. *)
Definition env_lost : Env :=
  {| dump2 := fun _ => "{}";
     json_parse := fun _ => Err "syntax error";
     env_node_timing := false;
     fs_fault := FsFlushFails 0 |}.

Lemma handleRequest_set_chain_witness :
  let env := env_lost in
  let w := w_legacy in
  let req := set_five in
  let r := handleRequest env w req in
  let st := state w in
  let st' := state (snd r) in
  let path := configPath st in
  (step_fails env w req ->
     (exists msg, fst r = resp_error msg)
     /\ untouched st st'
     /\ disk (snd r) !! path = disk w !! path)
  /\ (forall validated built, all_succeed env w req validated built ->
        fst r = resp_ok (bc_warning built)
        /\ pendingChain st' = Some (bc_chain built)
        /\ Control.activeChain st' = Control.activeChain st
        /\ lastSpec st' = validated
        /\ (flushed env validated ->
            disk (snd r) !! path = Some (chain_text env validated))
        /\ (forall k, fs_fault env = FsFlushFails k ->
              (k < String.length (chain_text env validated))%nat ->
              disk (snd r) !! path
              = Some (string_take k (chain_text env validated))
              /\ disk (snd r) !! path <> Some (chain_text env validated)))
  /\ (step_fails env w req
      \/ exists validated built, all_succeed env w req validated built)
  /\ ((exists warning, fst r = resp_ok warning) ->
      exists validated built, all_succeed env w req validated built)
  /\ (forall line what, json_parse env line = Err what ->
        serve_line env w line = (resp_error ("parse error: " ++ what)%string, w)).
Proof.
  exact (handleRequest_set_chain env_lost w_legacy set_five
           set_five_is_set_chain).
Defined.

(** The run in which the claim fails: the chain of [set_five] validates
    and builds, the text is taken by the stream and lost at the flush;
    the answer is ok = true, the chain is published as pending and
    recorded as the last accepted spec, and the configuration file is
    empty. *)
Lemma lost_flush_is_answered_ok :
  let r := handleRequest env_lost w_legacy set_five in
  let path := "/opt/pedal/config/chain.json" in
  at_key "ok" (fst r) = JBool true
  /\ get "error" (fst r) = None
  /\ pendingChain (state (snd r)) = Some (bc_chain (built_from spec_five))
  /\ pendingChain (state (snd r)) <> pendingChain (state w_legacy)
  /\ lastSpec (state (snd r)) = spec_five
  /\ chain_text env_lost spec_five = String.append "{}" (String "010" "")
  /\ disk (snd r) !! path = Some EmptyString
  /\ disk (snd r) !! path <> Some (chain_text env_lost spec_five).
Proof.
  cbv zeta. repeat split; try (vm_compute; reflexivity);
    vm_compute; discriminate.
Qed.

Lemma get_request_is_get_chain : request_for "get_chain" get_request.
Proof. by repeat split. Qed.

Lemma get_chain_after_set_chain_witness :
  let w' := snd (handleRequest env_fine w_legacy set_five) in
  fst (handleRequest env_fine w_legacy set_five)
  = resp_ok (bc_warning (built_from spec_five))
  /\ lastSpec (state w') = spec_five
  /\ fst (handleRequest env_fine w' get_request) =
     match Control.activeChain (state w_legacy) with
     | None => resp_error "no active chain"
     | Some current =>
         JObject [("chain", chainSpecToJson (spec current));
                  ("ok", JBool true)]
     end.
Proof.
  exact (get_chain_after_set_chain env_fine w_legacy set_five get_request
           spec_five (built_from spec_five) set_five_is_set_chain
           set_five_succeeds get_request_is_get_chain).
Defined.

(** The engine before any chain is active. *)
Definition w_fresh : World spec_float :=
  {| state := {| Control.activeChain := None; pendingChain := None;
                 lastSpec := spec_legacy; ctx := ctx48;
                 configPath := "/opt/pedal/config/chain.json";
                 socketPath := "/tmp/pedal-dsp.sock" |};
     rt := rt_unity;
     disk := ∅ |}.

(** Two runs in which [get_chain] right after an accepted [set_chain]
    does not answer with the accepted spec: with a chain active it
    answers with the spec of that chain, which is another one; with
    none active it answers with an error. *)
Lemma get_chain_misses_the_accepted_spec :
  let accepted :=
    JObject [("chain", chainSpecToJson spec_five); ("ok", JBool true)] in
  (let w' := snd (handleRequest env_fine w_legacy set_five) in
   fst (handleRequest env_fine w_legacy set_five)
   = resp_ok (bc_warning (built_from spec_five))
   /\ lastSpec (state w') = spec_five
   /\ fst (handleRequest env_fine w' get_request)
      = JObject [("chain", chainSpecToJson spec_legacy); ("ok", JBool true)]
   /\ fst (handleRequest env_fine w' get_request) <> accepted)
  /\ (let w' := snd (handleRequest env_fine w_fresh set_five) in
      fst (handleRequest env_fine w_fresh set_five)
      = resp_ok (bc_warning (built_from spec_five))
      /\ lastSpec (state w') = spec_five
      /\ fst (handleRequest env_fine w' get_request)
         = resp_error "no active chain").
Proof.
  cbv zeta. repeat split; try (vm_compute; reflexivity).
  vm_compute. discriminate.
Qed.

End ControlRuns.

(** ** The chain hand-over (main_alsa.cpp) *)

Section SwapProofs.
Import Swap.
Context {Chain : Type}.
Implicit Types (sh : Shared Chain) (au : AudioState Chain)
  (burst : list Chain) (arrivals : list (list Chain)).

(** What the coalescing loop takes out of the cell, exchange after
    exchange, until it finds the cell empty; and the arrivals it leaves. *)
Fixpoint drained (arrivals : list (list Chain))
  : list Chain * list (list Chain) :=
  match arrivals with
  | [] => ([], [])
  | [] :: rest => ([], rest)
  | burst :: rest => (burst ++ fst (drained rest), snd (drained rest))
  end.

(** What a pick-up that finds the cell full takes after that, and what
    it leaves. *)
Definition picked (arrivals : list (list Chain)) : list Chain :=
  match arrivals with
  | [] => []
  | a0 :: rest => a0 ++ fst (drained rest)
  end.
Definition unseen (arrivals : list (list Chain)) : list (list Chain) :=
  match arrivals with
  | [] => []
  | _ :: rest => snd (drained rest)
  end.

(** The audio loop between two blocks with nothing in flight. *)
Definition settled (au : AudioState Chain) : Prop :=
  swapState au = Idle /\ swapNext au = None
  /\ deferredSwap au = None /\ deferredRetire au = None.

Lemma publish_all_last burst (cell : option Chain) :
  publish_all burst cell
  = match last burst with Some c => Some c | None => cell end.
Proof.
  revert cell. induction burst as [|c burst IH]; intros cell; [done|].
  unfold publish_all in *. simpl. rewrite IH. unfold publish.
  rewrite last_cons. by destruct (last burst).
Qed.

Lemma coalesce_spec arrivals (p : Chain) :
  coalesce arrivals p
  = (default p (last (fst (drained arrivals))), snd (drained arrivals)).
Proof.
  revert p. induction arrivals as [|burst rest IH]; intros p; [done|].
  simpl. rewrite publish_all_last.
  destruct burst as [|c burst]; [done|].
  destruct (last (c :: burst)) as [newer|] eqn:El.
  2:{ rewrite last_cons in El. by destruct (last burst). }
  rewrite IH. cbn [fst snd]. f_equal.
  rewrite last_app. destruct (last (fst (drained rest))); [done|].
  by rewrite El.
Qed.

Lemma pick_up_spec arrivals (b : Chain) :
  pick_up arrivals (Some b) None
  = (Some (default b (last (picked arrivals))), None, unseen arrivals).
Proof.
  unfold pick_up. destruct arrivals as [|a0 rest]; simpl.
  - done.
  - rewrite publish_all_last.
    destruct (last a0) as [c|] eqn:El.
    + rewrite coalesce_spec. cbn [fst snd]. do 2 f_equal.
      rewrite last_app. destruct (last (fst (drained rest))); [done|].
      by rewrite El.
    + rewrite coalesce_spec. cbn [fst snd]. do 2 f_equal.
      rewrite last_app. destruct (last (fst (drained rest))); [done|].
      by rewrite El.
Qed.

Lemma run_app (evs1 evs2 : list (Event Chain)) s :
  run (evs1 ++ evs2) s = run evs2 (run evs1 s).
Proof. apply fold_left_app. Qed.

Lemma run_publish burst sh au (trace : list (option Chain)) :
  run (map EvPublish burst) (sh, au, trace)
  = (set_pendingCell sh (publish_all burst (g_pendingChain sh)), au, trace).
Proof.
  revert sh. induction burst as [|c burst IH]; intros sh.
  - by destruct sh.
  - change (run (map EvPublish (c :: burst)) (sh, au, trace))
      with (run (map EvPublish burst)
              (set_pendingCell sh (publish c (g_pendingChain sh)), au, trace)).
    rewrite IH. by destruct sh.
Qed.

(** The ring after the audio thread has handed it [old]. *)
Definition enqueued (old : option Chain) (r : RetireRing Chain)
  : RetireRing Chain :=
  match old with
  | None => r
  | Some a =>
      {| gRetireQueue :=
           <[Z.to_nat (wrap_uint32 (gRetireWrite r mod kRetireQueueSize))
             := Some a]> (gRetireQueue r);
         gRetireWrite := wrap_uint64 (gRetireWrite r + 1);
         gRetireRead := gRetireRead r;
         gRetireQueueFull := gRetireQueueFull r |}
  end.

Lemma retire_with_space (old : option Chain) (r : RetireRing Chain) :
  old = None \/ retireQueueHasSpace r = true ->
  retireChainFromAudioThread old r = (true, None, enqueued old r).
Proof.
  intros Hs. destruct old as [a|]; [|done].
  destruct Hs as [?|Hs]; [done|].
  unfold retireChainFromAudioThread, retireQueueHasSpace in *.
  apply Z.ltb_lt in Hs.
  destruct (Z.geb_spec (wrap_uint64 (gRetireWrite r - gRetireRead r))
              kRetireQueueSize); [lia|done].
Qed.

#[local] Arguments retireChainFromAudioThread : simpl never.
#[local] Arguments retireQueueHasSpace : simpl never.

(** Whether a swap goes through the two-block ramp. *)
Definition ramping (cfg : PeriodConfig) (au : AudioState Chain) : bool :=
  negb (passthrough cfg) && (0 <? swapRampSamples cfg)
  && is_some (activeChain au).

(** The state in which a period that installs [latest] leaves the shared
    handles and the audio loop. *)
Definition installed (cfg : PeriodConfig) (latest : Chain) sh au
  : Shared Chain * AudioState Chain :=
  ({| g_activeChain := Some latest; g_pendingChain := None;
      ring := enqueued (activeChain au) (ring sh) |},
   {| activeChain := Some latest; deferredRetire := None;
      deferredSwap := None; swapNext := None;
      swapState := if ramping cfg au then FadeIn else Idle;
      chainSwapCount := wrap_uint64 (chainSwapCount au + 1) |}).

(** The chain that processes the block of that period: none in
    passthrough mode, the old one when the swap is ramped, the new one
    otherwise. *)
Definition processes (cfg : PeriodConfig) (latest : Chain) au
  : option Chain :=
  if passthrough cfg then None
  else if ramping cfg au then activeChain au else Some latest.

Lemma period_installs cfg arrivals sh au (b : Chain) :
  settled au ->
  activeChain au = None \/ retireQueueHasSpace (ring sh) = true ->
  g_pendingChain sh = Some b ->
  let latest := default b (last (picked arrivals)) in
  audio_period cfg arrivals sh au
  = (installed cfg latest sh au, processes cfg latest au, unseen arrivals).
Proof.
  intros (Hst & Hsn & Hds & Hdr) Hspace Hcell latest.
  destruct au as [act dr ds sn st cnt]. destruct sh as [gact gpend rg].
  simpl in *. subst st sn ds dr gpend.
  unfold audio_period. cbn [deferredRetire deferredSwap g_pendingChain].
  rewrite pick_up_spec. fold latest.
  unfold swap_request, installed, processes, ramping.
  cbn [activeChain deferredRetire ring set_pendingCell set_deferredSwap
       g_activeChain g_pendingChain swapNext swapState chainSwapCount
       deferredSwap].
  destruct cfg as [pt ramp]. cbn [passthrough swapRampSamples].
  assert (Hcan : negb (is_some act)
                 || negb (is_some (@None Chain)) && retireQueueHasSpace rg
                 = true).
  { destruct act; [|done]. destruct Hspace as [? | ->]; done. }
  rewrite Hcan. cbn [negb].
  assert (Hret : retireChainFromAudioThread act rg
                 = (true, None, enqueued act rg)).
  { apply retire_with_space. destruct Hspace; [by left|by right]. }
  destruct act as [a|]; cbn [is_some negb andb orb].
  2:{ rewrite !andb_false_r. unfold install, ramp_step. cbn.
      rewrite Hret. destruct pt, (0 <? ramp); reflexivity. }
  rewrite !andb_true_r.
  assert (Hsp : retireQueueHasSpace rg = true) by (by destruct Hspace).
  destruct pt; cbn [negb andb].
  { unfold install, ramp_step. cbn. rewrite Hret. reflexivity. }
  destruct (0 <? ramp) eqn:Hr.
  - unfold ramp_step, set_swapNext, install. cbn. rewrite Hr. cbn.
    rewrite Hsp. cbn. rewrite Hret. reflexivity.
  - unfold install, ramp_step. cbn. rewrite Hret, Hr. reflexivity.
Qed.

Lemma burst_period cfg arrivals sh au (trace : list (option Chain))
  burst (earlier : list Chain) (latest : Chain) :
  settled au ->
  activeChain au = None \/ retireQueueHasSpace (ring sh) = true ->
  burst <> [] ->
  burst ++ picked arrivals = earlier ++ [latest] ->
  run (map EvPublish burst ++ [EvPeriod cfg arrivals]) (sh, au, trace)
  = (set_pendingCell (fst (installed cfg latest sh au))
       (publish_all (concat (unseen arrivals)) None),
     snd (installed cfg latest sh au),
     trace ++ [processes cfg latest au]).
Proof.
  intros Hset Hspace Hne Hall.
  rewrite run_app, run_publish.
  destruct (last burst) as [b|] eqn:Hb.
  2:{ apply last_None in Hb. done. }
  assert (Hlatest : default b (last (picked arrivals)) = latest).
  { apply (f_equal last) in Hall. rewrite last_snoc, last_app, Hb in Hall.
    destruct (last (picked arrivals)); by inversion Hall. }
  rewrite publish_all_last, Hb.
  change (run [EvPeriod cfg arrivals] ?s) with (step (EvPeriod cfg arrivals) s).
  unfold step.
  rewrite (period_installs cfg arrivals _ au b Hset);
    [|by destruct sh|by destruct sh].
  rewrite Hlatest. by destruct sh.
Qed.

(** The audio loop between two ramps: a swap held back for want of room
    in the ring may be in hand. *)
Definition idle (au : AudioState Chain) : Prop :=
  swapState au = Idle /\ swapNext au = None /\ deferredRetire au = None.

(** What the coalescing loop takes out of the cell after the first
    exchange of the pick-up: each of these displaces the handle the
    audio thread has in hand. *)
Definition taken_by_drain (arrivals : list (list Chain)) : list Chain :=
  match arrivals with
  | [] => []
  | _ :: rest => fst (drained rest)
  end.

Lemma pick_up_full arrivals (b : Chain) (ds : option Chain) :
  exists d',
    pick_up arrivals (Some b) ds
    = (Some (default b (last (picked arrivals))), d', unseen arrivals).
Proof.
  destruct ds as [d|]; [|eexists; apply pick_up_spec].
  unfold pick_up. destruct arrivals as [|a0 rest]; simpl.
  - by eexists.
  - rewrite publish_all_last.
    destruct (last a0) as [c|] eqn:El.
    + rewrite coalesce_spec. cbn [fst snd]. eexists. do 2 f_equal.
      rewrite last_app. destruct (last (fst (drained rest))); [done|].
      by rewrite El.
    + rewrite coalesce_spec. cbn [fst snd]. eexists. do 2 f_equal.
      rewrite last_app. destruct (last (fst (drained rest))); [done|].
      by rewrite El.
Qed.

Lemma period_installs_idle cfg arrivals sh au (b : Chain) :
  idle au ->
  activeChain au = None \/ retireQueueHasSpace (ring sh) = true ->
  g_pendingChain sh = Some b ->
  let latest := default b (last (picked arrivals)) in
  audio_period cfg arrivals sh au
  = (installed cfg latest sh au, processes cfg latest au, unseen arrivals).
Proof.
  intros (Hst & Hsn & Hdr) Hspace Hcell latest.
  destruct au as [act dr ds sn st cnt]. destruct sh as [gact gpend rg].
  simpl in *. subst st sn dr gpend.
  unfold audio_period. cbn [deferredRetire deferredSwap g_pendingChain].
  destruct (pick_up_full arrivals b ds) as [d' ->]. fold latest.
  unfold swap_request, installed, processes, ramping.
  cbn [activeChain deferredRetire ring set_pendingCell set_deferredSwap
       g_activeChain g_pendingChain swapNext swapState chainSwapCount
       deferredSwap].
  destruct cfg as [pt ramp]. cbn [passthrough swapRampSamples].
  assert (Hcan : negb (is_some act)
                 || negb (is_some (@None Chain)) && retireQueueHasSpace rg
                 = true).
  { destruct act; [|done]. destruct Hspace as [? | ->]; done. }
  rewrite Hcan. cbn [negb].
  assert (Hret : retireChainFromAudioThread act rg
                 = (true, None, enqueued act rg)).
  { apply retire_with_space. destruct Hspace; [by left|by right]. }
  destruct act as [a|]; cbn [is_some negb andb orb].
  2:{ rewrite !andb_false_r. unfold install, ramp_step. cbn.
      rewrite Hret. destruct pt, (0 <? ramp); reflexivity. }
  rewrite !andb_true_r.
  assert (Hsp : retireQueueHasSpace rg = true) by (by destruct Hspace).
  destruct pt; cbn [negb andb].
  { unfold install, ramp_step. cbn. rewrite Hret. reflexivity. }
  destruct (0 <? ramp) eqn:Hr.
  - unfold ramp_step, set_swapNext, install. cbn. rewrite Hr. cbn.
    rewrite Hsp. cbn. rewrite Hret. reflexivity.
  - unfold install, ramp_step. cbn. rewrite Hret, Hr. reflexivity.
Qed.

Lemma burst_period_idle cfg arrivals sh au (trace : list (option Chain))
  burst (earlier : list Chain) (latest : Chain) :
  idle au ->
  activeChain au = None \/ retireQueueHasSpace (ring sh) = true ->
  burst <> [] ->
  burst ++ picked arrivals = earlier ++ [latest] ->
  run (map EvPublish burst ++ [EvPeriod cfg arrivals]) (sh, au, trace)
  = (set_pendingCell (fst (installed cfg latest sh au))
       (publish_all (concat (unseen arrivals)) None),
     snd (installed cfg latest sh au),
     trace ++ [processes cfg latest au]).
Proof.
  intros Hset Hspace Hne Hall.
  rewrite run_app, run_publish.
  destruct (last burst) as [b|] eqn:Hb.
  2:{ apply last_None in Hb. done. }
  assert (Hlatest : default b (last (picked arrivals)) = latest).
  { apply (f_equal last) in Hall. rewrite last_snoc, last_app, Hb in Hall.
    destruct (last (picked arrivals)); by inversion Hall. }
  rewrite publish_all_last, Hb.
  change (run [EvPeriod cfg arrivals] ?s) with (step (EvPeriod cfg arrivals) s).
  unfold step.
  rewrite (period_installs_idle cfg arrivals _ au b Hset);
    [|by destruct sh|by destruct sh].
  rewrite Hlatest. by destruct sh.
Qed.

(** *** Chains that are in no slot *)

(** The slots of the hand-over from which a chain can become active. *)
Definition holds (e : Chain) sh au : Prop :=
  g_pendingChain sh = Some e \/ activeChain au = Some e
  \/ deferredSwap au = Some e \/ swapNext au = Some e.

Definition publishes (e : Chain) (ev : Event Chain) : Prop :=
  match ev with
  | EvPublish c => c = e
  | EvPeriod _ arrivals => e ∈ concat arrivals
  | EvRetirePass => False
  end.

Lemma publish_all_absent (e : Chain) burst (cell : option Chain) :
  cell <> Some e -> e ∉ burst -> publish_all burst cell <> Some e.
Proof.
  intros Hc Hb. rewrite publish_all_last.
  destruct (last burst) as [c|] eqn:El; [|done].
  intros [= ->]. apply Hb. by apply last_Some_elem_of.
Qed.

Lemma coalesce_absent (e : Chain) arrivals (p : Chain) :
  p <> e -> e ∉ concat arrivals ->
  fst (coalesce arrivals p) <> e /\ e ∉ concat (snd (coalesce arrivals p)).
Proof.
  revert p. induction arrivals as [|burst rest IH]; intros p Hp Ha.
  - simpl. split; [done|]. apply not_elem_of_nil.
  - simpl in Ha. apply not_elem_of_app in Ha as [Hb Hr]. simpl.
    destruct (publish_all burst None) as [newer|] eqn:En.
    + apply IH; [|done]. intros ->.
      by apply (publish_all_absent e burst None).
    + done.
Qed.

Lemma pick_up_absent (e : Chain) arrivals (cell ds : option Chain) :
  cell <> Some e -> ds <> Some e -> e ∉ concat arrivals ->
  fst (fst (pick_up arrivals cell ds)) <> Some e
  /\ snd (fst (pick_up arrivals cell ds)) <> Some e
  /\ e ∉ concat (snd (pick_up arrivals cell ds)).
Proof.
  intros Hc Hd Ha. unfold pick_up.
  assert (Hex : fst (exchange arrivals cell) <> Some e
                /\ e ∉ concat (snd (exchange arrivals cell))).
  { destruct arrivals as [|a0 rest]; simpl; [done|].
    simpl in Ha. apply not_elem_of_app in Ha as [Hb Hr].
    split; [by apply publish_all_absent|done]. }
  destruct (exchange arrivals cell) as [got rest] eqn:Ex.
  destruct Hex as [Hg Hr]. cbn [fst snd] in Hg, Hr.
  destruct ds as [d|].
  - destruct got as [x|].
    + pose proof (coalesce_absent e rest x ltac:(congruence) Hr) as [H1 H2].
      destruct (coalesce rest x) as [p rest']. cbn [fst snd] in *.
      split; [congruence|]. split; [done|done].
    + pose proof (coalesce_absent e rest d ltac:(congruence) Hr) as [H1 H2].
      destruct (coalesce rest d) as [p rest']. cbn [fst snd] in *.
      split; [congruence|]. split; [done|done].
  - destruct got as [x|].
    + pose proof (coalesce_absent e rest x ltac:(congruence) Hr) as [H1 H2].
      destruct (coalesce rest x) as [p rest']. cbn [fst snd] in *.
      split; [congruence|]. split; [done|done].
    + cbn [fst snd]. done.
Qed.

Lemma swap_request_without (e : Chain) cfg (pending : option Chain) sh au :
  pending <> Some e -> ~ holds e sh au ->
  ~ holds e (fst (swap_request cfg pending sh au))
      (snd (swap_request cfg pending sh au)).
Proof.
  intros Hp Hh. unfold swap_request.
  destruct pending as [p|]; [|done].
  destruct (negb _); [|destruct (_ && _)]; unfold install;
    try destruct (retireChainFromAudioThread _ _) as [[? ?] ?];
    unfold holds in *; simpl in *; intuition congruence.
Qed.

Lemma ramp_step_without (e : Chain) cfg sh au :
  ~ holds e sh au ->
  ~ holds e (fst (ramp_step cfg sh au)) (snd (ramp_step cfg sh au)).
Proof.
  intros Hh. unfold ramp_step.
  destruct (_ && _); [|done].
  destruct (swapState au); [done| |];
    [destruct (swapNext au) as [n|] eqn:En; [|done];
     destruct (_ || _); unfold install;
     try destruct (retireChainFromAudioThread _ _) as [[? ?] ?]|];
    unfold holds in *; simpl in *; intuition congruence.
Qed.

Lemma period_without (e : Chain) cfg arrivals sh au :
  ~ holds e sh au -> e ∉ concat arrivals ->
  let r := audio_period cfg arrivals sh au in
  ~ holds e (fst (fst (fst r))) (snd (fst (fst r)))
  /\ snd (fst r) <> Some e
  /\ e ∉ concat (snd r).
Proof.
  intros Hh Ha. cbv zeta. unfold audio_period.
  set (r0 := match deferredRetire au with
             | Some _ =>
                 let '(_, dr, r) :=
                   retireChainFromAudioThread (deferredRetire au) (ring sh) in
                 (set_ring sh r, set_deferredRetire au dr)
             | None => (sh, au)
             end).
  assert (H0 : ~ holds e (fst r0) (snd r0)).
  { subst r0. destruct (deferredRetire au); [|done].
    destruct (retireChainFromAudioThread _ _) as [[? ?] ?]. done. }
  destruct r0 as [sh0 au0]. cbn [fst snd] in H0.
  assert (Hp : g_pendingChain sh0 <> Some e) by (intros E; apply H0; by left).
  assert (Hds : deferredSwap au0 <> Some e)
    by (intros E; apply H0; right; right; by left).
  destruct (pick_up_absent e arrivals (g_pendingChain sh0) (deferredSwap au0)
              Hp Hds Ha) as (H1 & H2 & H3).
  destruct (pick_up arrivals (g_pendingChain sh0) (deferredSwap au0))
    as [[pending deferred] rest].
  cbn [fst snd] in H1, H2, H3.
  assert (H4 : ~ holds e (set_pendingCell sh0 None)
                 (set_deferredSwap au0 deferred)).
  { unfold holds in *. simpl. intuition congruence. }
  pose proof (swap_request_without e cfg pending _ _ H1 H4) as H5.
  destruct (swap_request cfg pending (set_pendingCell sh0 None)
              (set_deferredSwap au0 deferred)) as [sh2 au2].
  cbn [fst snd] in H5.
  pose proof (ramp_step_without e cfg sh2 au2 H5) as H6.
  destruct (ramp_step cfg sh2 au2) as [sh3 au3].
  cbn [fst snd] in *.
  split; [done|]. split; [|done].
  destruct (negb (passthrough cfg)); [|done].
  intros E. apply H5. right. by left.
Qed.

Lemma step_without (e : Chain) (ev : Event Chain) sh au
  (trace : list (option Chain)) :
  ~ holds e sh au -> ~ publishes e ev ->
  let s' := step ev (sh, au, trace) in
  ~ holds e (fst (fst s')) (snd (fst s'))
  /\ exists more, snd s' = trace ++ more /\ Some e ∉ more.
Proof.
  intros Hh Hp. destruct ev as [c|cfg arrivals|]; cbv zeta.
  - simpl. split; [|exists []; split; [by rewrite app_nil_r|apply not_elem_of_nil]].
    unfold holds, publish in *. simpl in *.
    intros [[= E]|?]; [by apply Hp|]. apply Hh. by right.
  - simpl in Hp. unfold step.
    pose proof (period_without e cfg arrivals sh au Hh Hp) as (H1 & H2 & H3).
    destruct (audio_period cfg arrivals sh au) as [[[sh' au'] processed] rest].
    cbn [fst snd] in *. split.
    + unfold holds in *. cbn [set_pendingCell g_pendingChain].
      intros [E|E]; [|apply H1; by right].
      revert E. apply publish_all_absent; [|done].
      intros E. apply H1. by left.
    + exists [processed]. split; [done|].
      intros Hin. apply list_elem_of_singleton in Hin. congruence.
  - simpl. split; [done|].
    exists []. split; [by rewrite app_nil_r|apply not_elem_of_nil].
Qed.

Lemma run_without (e : Chain) (evs : list (Event Chain)) sh au
  (trace : list (option Chain)) :
  ~ holds e sh au -> Forall (fun ev => ~ publishes e ev) evs ->
  let s' := run evs (sh, au, trace) in
  ~ holds e (fst (fst s')) (snd (fst s'))
  /\ exists later, snd s' = trace ++ later /\ Some e ∉ later.
Proof.
  cbv zeta.
  revert sh au trace. induction evs as [|ev evs IH]; intros sh au trace Hh Hf.
  - split; [done|].
    exists []. split; [by rewrite app_nil_r|apply not_elem_of_nil].
  - inversion Hf as [|? ? Hev Hrest]; subst.
    change (run (ev :: evs) (sh, au, trace))
      with (run evs (step ev (sh, au, trace))).
    pose proof (step_without e ev sh au trace Hh Hev) as [H1 (more & H2 & H3)].
    destruct (step ev (sh, au, trace)) as [[sh' au'] trace'].
    cbn [fst snd] in *. subst trace'.
    destruct (IH sh' au' (trace ++ more) H1 Hrest) as (H0 & later & H4 & H5).
    split; [done|].
    exists (more ++ later). split; [by rewrite H4, app_assoc|].
    by apply not_elem_of_app.
Qed.

(** C4 (amended). Between two ramps (state Idle, no next chain held, no
    retire deferred) and with room in the ring for the active chain,
    whether or not a swap deferred earlier is still in hand, a burst of
    chains published before a period, together with those published
    while the pick-up drains the cell, ends with the period installing
    the latest one: it is the active chain, the counter has gone up by
    one, the block of that period went through the latest chain (through
    the old one when the swap is ramped, through none in passthrough
    mode), nothing is left in flight, and the cell holds only what was
    published after the drain.  No other chain, be it an earlier chain
    of the burst or the deferred handle, is the active chain at any
    later time or processes a block in any later period, unless it is
    published again.  When no handle was displaced
    on the audio thread (no deferred swap in hand, nothing taken by the
    drain after the first exchange) the ring has received the chain that
    was active and nothing else: the chains that the control thread
    overwrote in the cell are not sent to retirement. *)
Theorem burst_installs_latest cfg arrivals sh au
  (trace : list (option Chain)) burst (earlier : list Chain)
  (latest : Chain) :
  idle au ->
  activeChain au = None \/ retireQueueHasSpace (ring sh) = true ->
  burst <> [] ->
  burst ++ picked arrivals = earlier ++ [latest] ->
  let s1 :=
    run (map EvPublish burst ++ [EvPeriod cfg arrivals]) (sh, au, trace) in
  let sh1 := fst (fst s1) in
  let au1 := snd (fst s1) in
  activeChain au1 = Some latest /\ g_activeChain sh1 = Some latest
  /\ chainSwapCount au1 = wrap_uint64 (chainSwapCount au + 1)
  /\ snd s1 = trace ++ [processes cfg latest au]
  /\ deferredSwap au1 = None /\ swapNext au1 = None
  /\ deferredRetire au1 = None
  /\ g_pendingChain sh1 = publish_all (concat (unseen arrivals)) None
  /\ (forall (e : Chain) (evs : list (Event Chain)),
        e <> latest -> e ∉ concat (unseen arrivals) ->
        Forall (fun ev => ~ publishes e ev) evs ->
        activeChain (snd (fst (run evs s1))) <> Some e
        /\ exists later,
             snd (run evs s1) = snd s1 ++ later /\ Some e ∉ later)
  /\ (deferredSwap au = None -> taken_by_drain arrivals = [] ->
      ring sh1 = enqueued (activeChain au) (ring sh)).
Proof.
  intros Hset Hspace Hne Hall s1 sh1 au1.
  assert (Hs1 : s1 = run (map EvPublish burst ++ [EvPeriod cfg arrivals])
                       (sh, au, trace)) by done.
  rewrite (burst_period_idle _ _ _ _ _ _ earlier latest) in Hs1 by done.
  subst sh1 au1. rewrite Hs1. cbn [fst snd installed set_pendingCell
    activeChain g_activeChain chainSwapCount ring deferredRetire
    deferredSwap swapNext g_pendingChain].
  do 8 (split; [reflexivity|]). split; [|intros _ _; reflexivity].
  intros e evs Hne' Hun Hevs.
  match goal with
  | |- context [run evs (?sh', ?au', ?tr')] =>
      destruct (run_without e evs sh' au' tr') as [Hfree Hlater];
        [|done|split; [|done]]
  end.
  - unfold holds. cbn [g_pendingChain activeChain deferredSwap swapNext].
    intros [E|[E|[E|E]]]; try congruence.
    revert E. apply publish_all_absent; done.
  - intros E. apply Hfree. right. by left.
Qed.

End SwapProofs.

(** ** A burst on the hand-over, with chains known by name *)

Section SwapRuns.
Import Swap.

Definition empty_ring : RetireRing string :=
  {| gRetireQueue := replicate 128 None; gRetireWrite := 0;
     gRetireRead := 0; gRetireQueueFull := 0 |}.

(** Chain [A] is active, nothing is pending or in flight. *)
Definition sh_A : Shared string :=
  {| g_activeChain := Some "A"; g_pendingChain := None; ring := empty_ring |}.
Definition au_A : AudioState string :=
  {| activeChain := Some "A"; deferredRetire := None; deferredSwap := None;
     swapNext := None; swapState := Idle; chainSwapCount := 0 |}.

Definition no_ramp : PeriodConfig :=
  {| passthrough := false; swapRampSamples := 0 |}.

(** The ring with a chain waiting in every slot. *)
Definition full_ring : RetireRing string :=
  {| gRetireQueue := replicate 128 (Some "old"); gRetireWrite := 128;
     gRetireRead := 0; gRetireQueueFull := 0 |}.

(** [B] then [C] are published, a period runs, the retire thread makes a
    pass. *)
Definition burst_BC : list (Event string) :=
  [EvPublish "B"; EvPublish "C"; EvPeriod no_ramp []; EvRetirePass].

Definition ring_after (n : nat) : RetireRing string :=
  ring (fst (fst (run (take n burst_BC) (sh_A, au_A, [])))).

(** The claim as worded fails on the code: [B], published and then
    overwritten by [C] before the period, is in the pending cell after
    its publication and in no slot of the ring after any of the events;
    the one chain the ring receives, and the retire thread drops, is
    [A].  And with the ring full the period installs none of the two:
    [A] stays active and processes the block, the counter stays, and [C]
    is held back. *)
Lemma coalesced_chain_is_not_retired :
  (let held :=
     run (take 3 burst_BC)
       ({| g_activeChain := Some "A"; g_pendingChain := None;
           ring := full_ring |}, au_A, []) in
   activeChain (snd (fst held)) = Some "A"
   /\ chainSwapCount (snd (fst held)) = 0
   /\ deferredSwap (snd (fst held)) = Some "C"
   /\ snd held = [Some "A"])
  /\ g_pendingChain (fst (fst (run (take 1 burst_BC) (sh_A, au_A, []))))
  = Some "B"
  /\ activeChain (snd (fst (run (take 3 burst_BC) (sh_A, au_A, []))))
     = Some "C"
  /\ snd (run (take 3 burst_BC) (sh_A, au_A, [])) = [Some "C"]
  /\ (forall n, Some "B" ∉ gRetireQueue (ring_after n))
  /\ gRetireQueue (ring_after 3) = <[0%nat := Some "A"]> (replicate 128 None)
  /\ gRetireWrite (ring_after 3) = 1
  /\ gRetireRead (ring_after 4) = 1
  /\ gRetireQueue (ring_after 4) = replicate 128 None.
Proof.
  split; [repeat split; vm_compute; reflexivity|].
  split; [vm_compute; reflexivity|].
  split; [vm_compute; reflexivity|].
  split; [vm_compute; reflexivity|].
  split; [|split; [vm_compute; reflexivity|];
           split; [vm_compute; reflexivity|];
           split; vm_compute; reflexivity].
  intros n.
  assert (Hn : forall k, (k <= 4)%nat ->
            Some "B" ∉ gRetireQueue (ring_after k)).
  { intros k Hk.
    assert (k = 0 \/ k = 1 \/ k = 2 \/ k = 3 \/ k = 4)%nat
      as [->|[->|[->|[->| ->]]]] by lia;
      apply (bool_decide_unpack _); vm_compute; reflexivity. }
  destruct (decide (n <= 4)%nat) as [Hle|Hgt]; [by apply Hn|].
  unfold ring_after. rewrite take_ge by (simpl; lia).
  by apply (Hn 4%nat).
Qed.

(** As [au_A], with a swap to [P] held back earlier for want of room. *)
Definition au_held : AudioState string :=
  {| activeChain := Some "A"; deferredRetire := None;
     deferredSwap := Some "P"; swapNext := None; swapState := Idle;
     chainSwapCount := 0 |}.

Lemma burst_installs_latest_witness :
  (let arrivals := [["D"]; []; ["E"]] in
   let s1 :=
     run (map EvPublish ["B"; "C"] ++ [EvPeriod no_ramp arrivals])
       (sh_A, au_A, []) in
   let sh1 := fst (fst s1) in
   let au1 := snd (fst s1) in
   activeChain au1 = Some "D" /\ g_activeChain sh1 = Some "D"
   /\ chainSwapCount au1 = wrap_uint64 (chainSwapCount au_A + 1)
   /\ snd s1 = [] ++ [processes no_ramp "D" au_A]
   /\ deferredSwap au1 = None /\ swapNext au1 = None
   /\ deferredRetire au1 = None
   /\ g_pendingChain sh1 = publish_all (concat (unseen arrivals)) None
   /\ (forall (e : string) (evs : list (Event string)),
         e <> "D" -> e ∉ concat (unseen arrivals) ->
         Forall (fun ev => ~ publishes e ev) evs ->
         activeChain (snd (fst (run evs s1))) <> Some e
         /\ exists later,
              snd (run evs s1) = snd s1 ++ later /\ Some e ∉ later)
   /\ (deferredSwap au_A = None -> taken_by_drain arrivals = [] ->
       ring sh1 = enqueued (activeChain au_A) (ring sh_A)))
  /\ (let arrivals := [[]; ["D"]; []] in
      let s1 :=
        run (map EvPublish ["B"; "C"] ++ [EvPeriod no_ramp arrivals])
          (sh_A, au_held, []) in
      let sh1 := fst (fst s1) in
      let au1 := snd (fst s1) in
      activeChain au1 = Some "D" /\ g_activeChain sh1 = Some "D"
      /\ chainSwapCount au1 = wrap_uint64 (chainSwapCount au_held + 1)
      /\ snd s1 = [] ++ [processes no_ramp "D" au_held]
      /\ deferredSwap au1 = None /\ swapNext au1 = None
      /\ deferredRetire au1 = None
      /\ g_pendingChain sh1 = publish_all (concat (unseen arrivals)) None
      /\ (forall (e : string) (evs : list (Event string)),
            e <> "D" -> e ∉ concat (unseen arrivals) ->
            Forall (fun ev => ~ publishes e ev) evs ->
            activeChain (snd (fst (run evs s1))) <> Some e
            /\ exists later,
                 snd (run evs s1) = snd s1 ++ later /\ Some e ∉ later)
      /\ (deferredSwap au_held = None -> taken_by_drain arrivals = [] ->
          ring sh1 = enqueued (activeChain au_held) (ring sh_A))).
Proof.
  split.
  - refine (burst_installs_latest no_ramp [["D"]; []; ["E"]] sh_A au_A []
              ["B"; "C"] ["B"; "C"] "D" _ _ _ _).
    + unfold idle. simpl. auto.
    + right. vm_compute. reflexivity.
    + discriminate.
    + reflexivity.
  - refine (burst_installs_latest no_ramp [[]; ["D"]; []] sh_A au_held []
              ["B"; "C"] ["B"; "C"] "D" _ _ _ _).
    + unfold idle. simpl. auto.
    + right. vm_compute. reflexivity.
    + discriminate.
    + reflexivity.
Defined.

End SwapRuns.

(** ** The partitioned convolver (fft_convolver.cpp) *)

Section LoopForms.
Context {A : Type}.

(** A loop that rewrites every slot from its own content. *)
Lemma update_loop_closed (d : A) (g : nat -> A -> A) n (buf : list A) :
  (n <= length buf)%nat ->
  for_loop n (fun i o => <[i := g i (rd d o i)]> o) buf
  = map (fun i => g i (rd d buf i)) (seq 0 n) ++ drop n buf.
Proof.
  intros Hn. unfold for_loop.
  pose (P := fun (k : nat) (o : list A) =>
    (k <= length buf)%nat ->
    o = map (fun i => g i (rd d buf i)) (seq 0 k) ++ drop k buf).
  enough (Hp : P n (for_range 0 n (fun i o => <[i := g i (rd d o i)]> o) buf))
    by (by apply Hp).
  apply (for_range_ind P); unfold P; [lia|by rewrite drop_0|].
  intros i o Hi IH Hle. rewrite IH by lia.
  rewrite seq_S, map_app. simpl.
  set (l1 := map (fun i0 => g i0 (rd d buf i0)) (seq 0 i)).
  assert (Hlen : length l1 = i)
    by (unfold l1; by rewrite length_map, length_seq).
  assert (Hrd : rd d (l1 ++ drop i buf) i = rd d buf i).
  { unfold rd. rewrite lookup_app_r by lia.
    rewrite Hlen, Nat.sub_diag.
    rewrite lookup_drop. by rewrite Nat.add_0_r. }
  rewrite Hrd. rewrite insert_app_r_alt by lia.
  rewrite Hlen, Nat.sub_diag.
  destruct (drop i buf) as [|x rest] eqn:Hd.
  { apply (f_equal length) in Hd. rewrite length_drop in Hd. simpl in Hd. lia. }
  simpl. rewrite <- app_assoc. simpl.
  do 2 f_equal.
  assert (Hd' : drop (Datatypes.S i) buf = drop 1 (drop i buf))
    by (rewrite drop_drop; f_equal; lia).
  rewrite Hd', Hd. reflexivity.
Qed.

Lemma fold_left_map {St B : Type} (f : St -> A -> St) (h : B -> A)
  (l : list B) (s : St) :
  fold_left f (map h l) s = fold_left (fun s x => f s (h x)) l s.
Proof. revert s. induction l as [|x l IH]; intros s; [done|]. apply IH. Qed.

End LoopForms.

Lemma for_range_shift {St : Type} lo hi (body : nat -> St -> St) (s : St) :
  for_range lo hi body s
  = for_range 0 (hi - lo) (fun i => body (lo + i)%nat) s.
Proof.
  unfold for_range. rewrite Nat.sub_0_r.
  replace (seq lo (hi - lo)) with (map (Nat.add lo) (seq 0 (hi - lo))).
  - by rewrite fold_left_map.
  - change (map ?f ?l) with (f <$> l). rewrite fmap_add_seq.
    by rewrite Nat.add_0_r.
Qed.


Section ConvolverProofs.
Import Convolver.
Context {F : Type} `{FloatRing F} `{FFTW F}.

(** Arithmetic without rounding, as far as the round trip uses it. *)
Record exact_arith : Prop := {
  add_0_l : forall x : F, fadd f0 x = x;
  add_0_r : forall x : F, fadd x f0 = x;
  sub_0_r : forall x : F, fsub x f0 = x;
  mul_1_l : forall x : F, fmul (of_Z 1) x = x;
  mul_0_l : forall x : F, fmul f0 x = f0;
  scale_back : forall (n : Z) (x : F), 0 < n ->
    fmul (fmul (of_Z n) x) (fdiv (of_Z 1) (of_Z n)) = x
}.

(** What FFTW documents of its real transforms of size [n]: [n/2+1]
    bins; the spectrum of the unit impulse is 1 in every bin, that of
    silence is 0; the backward transform of a forward transform is the
    signal times [n]. *)
Record fftw_contract (n : nat) : Prop := {
  r2c_length : forall x : list F,
    length x = n -> length (r2c n x) = (n / 2 + 1)%nat;
  r2c_impulse :
    r2c n (of_Z 1 :: replicate (n - 1) f0)
    = replicate (n / 2 + 1) (of_Z 1, f0);
  r2c_zero : r2c n (replicate n f0) = replicate (n / 2 + 1) c0;
  c2r_r2c : forall x : list F,
    length x = n -> c2r n (r2c n x) = map (fmul (of_Z (Z.of_nat n))) x
}.

(** Block [k] of the impulse response, and the same followed by a block
    of zeros, which is what goes through the forward plan. *)
Definition block_of (h : list F) (b k : nat) : list F :=
  map (fun i => rd f0 h (k * b + i)) (seq 0 b).
Definition padded (h : list F) (b k : nat) : list F :=
  map (fun i => if (i <? b)%nat then rd f0 h (k * b + i) else f0)
    (seq 0 (2 * b)).

Definition ones (b : nat) : list (F * F) := replicate (b + 1) (of_Z 1, f0).
Definition zeros (b : nat) : list (F * F) := replicate (b + 1) c0.

(** The number of partitions, [ceil(L / b)]. *)
Definition partitions (h : list F) (b : nat) : nat :=
  ((length h + b - 1) / b)%nat.

(** The convolver for [h] once [j] blocks of the impulse stream have
    gone through it. *)
Definition fed (h : list F) (b j : nat) (c : FFTConvolverPartitioned F)
  : Prop :=
  let P := partitions h b in
  mBlock c = Z.of_nat b /\ mFFT c = Z.of_nat (2 * b)
  /\ mBins c = Z.of_nat (b + 1) /\ mParts c = Z.of_nat P
  /\ mWrite c = Z.of_nat (if (j <? P)%nat then j else 0)
  /\ mReady c = true
  /\ length (mTimeIn c) = (2 * b)%nat
  /\ mOverlap c = replicate b f0
  /\ length (mFreqY c) = (b + 1)%nat
  /\ mH c = map (fun k => r2c (2 * b) (padded h b k)) (seq 0 P)
  /\ mX c = map (fun i => if (i =? 0)%nat && (0 <? j)%nat
                          then ones b else zeros b) (seq 0 P).

Lemma padded_length h b k : length (padded h b k) = (2 * b)%nat.
Proof. unfold padded. by rewrite length_map, length_seq. Qed.

Lemma insert_map_seq {A : Type} (f g : nat -> A) (v : A) k n :
  (forall i, (i < n)%nat -> g i = if decide (i = k) then v else f i) ->
  <[k := v]> (map f (seq 0 n)) = map g (seq 0 n).
Proof.
  intros Hg. apply list_eq. intros i.
  change (map ?f ?l) with (f <$> l).
  destruct (decide (i < n)%nat) as [Hi|Hi].
  - rewrite (list_lookup_fmap g), lookup_seq_lt by done. simpl.
    rewrite Hg by done. destruct (decide (i = k)) as [->|Hne].
    + rewrite list_lookup_insert_eq; [done|].
      by rewrite length_fmap, length_seq.
    + rewrite list_lookup_insert_ne by done.
      by rewrite list_lookup_fmap, lookup_seq_lt.
  - rewrite !(proj2 (lookup_ge_None _ _)); [done| |].
    + rewrite length_fmap, length_seq. lia.
    + rewrite length_insert, length_fmap, length_seq. lia.
Qed.

(** The store loop of [init] puts block [k] at the head of the zeroed
    buffer. *)
Lemma partition_fill (h : list F) (b k : nat) (timeIn : list F) :
  length timeIn = (2 * b)%nat -> (k * b <= length h)%nat ->
  for_range (k * b) (min (k * b + b) (length h))
    (fun i t => <[(i - k * b)%nat := rd f0 h i]> t) (fill f0 timeIn)
  = padded h b k.
Proof.
  intros Hlen Hk. rewrite for_range_shift.
  set (m := (min (k * b + b) (length h) - k * b)%nat).
  assert (Hm : (m <= b)%nat) by lia.
  rewrite (for_range_ext _ _ _
             (fun i t => <[i := rd f0 h (k * b + i)]> t)).
  2:{ intros i s _. f_equal. lia. }
  fold (for_loop m (fun i t => <[i := rd f0 h (k * b + i)]> t)
          (fill f0 timeIn)).
  unfold fill. rewrite write_loop_closed by (rewrite length_replicate; lia).
  rewrite Hlen. unfold padded. apply list_eq. intros i.
  change (map ?f ?l) with (f <$> l).
  destruct (decide (i < 2 * b)%nat) as [Hi|Hi].
  2:{ rewrite !(proj2 (lookup_ge_None _ _)); [done| |].
      - rewrite length_fmap, length_seq. lia.
      - rewrite length_app, length_fmap, length_seq, length_drop,
          length_replicate. lia. }
  rewrite (list_lookup_fmap _ (seq 0 (2 * b))), lookup_seq_lt by done.
  simpl. destruct (decide (i < m)%nat) as [Him|Him].
  - rewrite lookup_app_l by (rewrite length_fmap, length_seq; lia).
    rewrite list_lookup_fmap, lookup_seq_lt by done. simpl.
    destruct (Nat.ltb_spec i b); [done|lia].
  - rewrite lookup_app_r by (rewrite length_fmap, length_seq; lia).
    rewrite length_fmap, length_seq, lookup_drop.
    rewrite lookup_replicate_2 by lia.
    destruct (Nat.ltb_spec i b); [|done].
    unfold rd. rewrite (proj2 (lookup_ge_None _ _)); [done|lia].
Qed.

Lemma partitions_bounds (h : list F) (b : nat) :
  (0 < b)%nat -> h <> [] ->
  (0 < partitions h b)%nat
  /\ ((partitions h b - 1) * b < length h)%nat
  /\ (length h <= partitions h b * b)%nat.
Proof.
  intros Hb Hh. unfold partitions.
  assert (HL : (0 < length h)%nat) by (destruct h; [done|simpl; lia]).
  pose proof (Nat.div_mod_eq (length h + b - 1) b) as Hd.
  pose proof (Nat.mod_upper_bound (length h + b - 1) b) as Hm.
  set (q := ((length h + b - 1) / b)%nat) in *.
  set (r := ((length h + b - 1) mod b)%nat) in *.
  assert (0 < q)%nat by (destruct q; [lia|lia]).
  split; [done|]. split; nia.
Qed.

Lemma memset_all {A : Type} (z : A) (l : list A) n :
  length l = n -> memset_at z l 0 n = replicate n z.
Proof.
  intros Hl. unfold memset_at. rewrite take_0, Nat.sub_0_r, Hl, Nat.min_id.
  simpl. rewrite drop_ge by lia. by rewrite app_nil_r.
Qed.

Lemma memcpy_all {A : Type} (dst src : list A) n :
  length dst = n -> length src = n -> memcpy dst src n = src.
Proof.
  intros Hd Hs. unfold memcpy. rewrite take_ge, drop_ge by lia.
  by rewrite app_nil_r.
Qed.

(** The state of the loop of [init] over the partitions, [k] of them
    done. *)
Definition partitions_done (h : list F) (b k : nat)
  (s : list F * list (list (F * F)) * list (list (F * F))) : Prop :=
  let P := partitions h b in
  length (fst (fst s)) = (2 * b)%nat
  /\ length (snd (fst s)) = P
  /\ (forall i, (i < P)%nat -> length (rd [] (snd (fst s)) i) = (b + 1)%nat)
  /\ snd s = map (fun i => if (i <? k)%nat then r2c (2 * b) (padded h b i)
                           else zeros b) (seq 0 P).

Lemma init_partition_step (h : list F) (b : nat) (block fft bins : Z) k s :
  fftw_contract (2 * b) ->
  Z.to_nat block = b -> Z.to_nat fft = (2 * b)%nat ->
  Z.to_nat bins = (b + 1)%nat ->
  (0 < b)%nat -> h <> [] -> (k < partitions h b)%nat ->
  partitions_done h b k s ->
  partitions_done h b (Datatypes.S k) (init_partition h block fft bins k s).
Proof.
  intros Hc Hblock Hfft Hbins Hb Hh Hk.
  destruct (partitions_bounds h b Hb Hh) as (HP & Hlo & Hhi).
  destruct s as [[timeIn X] Hs]. unfold partitions_done. cbn [fst snd].
  intros (Hlt & HlX & HX & HHs).
  unfold init_partition. rewrite Hblock, Hfft, Hbins.
  assert (Hkb : (k * b <= length h)%nat) by nia.
  rewrite (partition_fill h b k timeIn Hlt Hkb). cbn [fst snd].
  assert (Hr : length (r2c (2 * b) (padded h b k)) = (b + 1)%nat).
  { rewrite (r2c_length _ Hc) by apply padded_length.
    f_equal. rewrite Nat.mul_comm. by rewrite Nat.div_mul by lia. }
  split; [apply padded_length|].
  split; [by rewrite length_insert|].
  split.
  { intros i Hi. destruct (decide (i = 0)%nat) as [->|Hne].
    - unfold rd. rewrite list_lookup_insert_eq by lia. done.
    - unfold rd. rewrite list_lookup_insert_ne by done. by apply HX. }
  assert (Hx0 : rd [] (<[0%nat := r2c (2 * b) (padded h b k)]> X) 0
                = r2c (2 * b) (padded h b k)).
  { unfold rd. by rewrite list_lookup_insert_eq by lia. }
  rewrite Hx0.
  assert (Hhk : rd [] Hs k = zeros b).
  { rewrite HHs. unfold rd. change (map ?f ?l) with (f <$> l).
    rewrite list_lookup_fmap, lookup_seq_lt by done. simpl.
    by rewrite Nat.ltb_irrefl. }
  rewrite Hhk.
  rewrite memcpy_all; [|by unfold zeros; rewrite length_replicate|done].
  rewrite HHs. apply insert_map_seq. intros i Hi.
  destruct (decide (i = k)) as [->|Hne].
  - destruct (Nat.ltb_spec k (Datatypes.S k)); [done|lia].
  - destruct (Nat.ltb_spec i (Datatypes.S k)), (Nat.ltb_spec i k);
      try done; lia.
Qed.

Lemma partitions_Z (h : list F) (b : nat) :
  (0 < b)%nat -> h <> [] ->
  Z.of_nat (length h) + Z.of_nat b <= 2 ^ 31 ->
  wrap_int32
    (wrap_uint64 (Z.of_nat (length h) + Z.of_nat b - 1) / Z.of_nat b)
  = Z.of_nat (partitions h b).
Proof.
  intros Hb Hh Hbound.
  assert (HL : (0 < length h)%nat) by (destruct h; [done|simpl; lia]).
  unfold wrap_uint64. rewrite Z.mod_small by lia.
  unfold partitions. rewrite Nat2Z.inj_div.
  replace (Z.of_nat (length h + b - 1))
    with (Z.of_nat (length h) + Z.of_nat b - 1) by lia.
  apply wrap_int32_small.
  split.
  - pose proof (Z.div_pos (Z.of_nat (length h) + Z.of_nat b - 1)
                  (Z.of_nat b)). lia.
  - apply Z.div_lt_upper_bound; nia.
Qed.

(** Every allocation of an [init] for [parts] partitions returns a
    block, and both plans of size [n] are created. *)
Definition fftw_serves (parts bins n : nat) : Prop :=
  (forall k, (k <= 2 * parts)%nat -> is_Some (fftwf_malloc k bins))
  /\ fftwf_plan_dft_r2c_1d n = true /\ fftwf_plan_dft_c2r_1d n = true.

Lemma allocated_length n (p : option (nat -> F * F)) :
  is_Some p -> length (allocated n p) = n.
Proof. intros [g ->]. simpl. by rewrite length_map, length_seq. Qed.

Lemma insert_next_replicate {A : Type} (z e : A) k parts :
  (k < parts)%nat ->
  <[k := z]> (replicate k z ++ replicate (parts - k) e)
  = replicate (Datatypes.S k) z ++ replicate (parts - Datatypes.S k) e.
Proof.
  intros Hk. rewrite insert_app_r_alt by (rewrite length_replicate; lia).
  rewrite length_replicate, Nat.sub_diag.
  replace (parts - k)%nat with (Datatypes.S (parts - Datatypes.S k)) by lia.
  simpl. rewrite (cons_middle z), app_assoc, <- replicate_cons_app.
  reflexivity.
Qed.

(** The allocation loop of [init]: it runs to its end when every one of
    its allocations returns a block, and then leaves zeroed spectra. *)
Lemma init_allocate_loop (parts bins : nat) :
  let r := for_loop parts (init_allocate bins)
             (true, replicate parts [], replicate parts []) in
  (fst (fst r) = true
   <-> forall j, (1 <= j <= 2 * parts)%nat -> is_Some (fftwf_malloc j bins))
  /\ (fst (fst r) = true ->
      snd (fst r) = replicate parts (replicate bins c0)
      /\ snd r = replicate parts (replicate bins c0)).
Proof.
  cbv zeta. unfold for_loop.
  pose (zs := replicate bins c0).
  pose (Q := fun (k : nat)
                 (s : bool * list (list (F * F)) * list (list (F * F))) =>
    (fst (fst s) = true
     <-> forall j, (1 <= j <= 2 * k)%nat -> is_Some (fftwf_malloc j bins))
    /\ (fst (fst s) = true ->
        snd (fst s) = replicate k zs ++ replicate (parts - k) []
        /\ snd s = replicate k zs ++ replicate (parts - k) [])).
  enough (HQ : Q parts (for_range 0 parts (init_allocate bins)
                          (true, replicate parts [], replicate parts []))).
  { destruct HQ as [H1 H2]. split; [done|]. intros Hok.
    destruct (H2 Hok) as [-> ->].
    rewrite Nat.sub_diag. simpl. by rewrite app_nil_r. }
  apply (for_range_ind Q); [lia| |].
  - unfold Q. cbn [fst snd]. rewrite Nat.sub_0_r. split; [|done].
    split; [intros _ j Hj; lia|done].
  - intros k [[ok Hs] X] Hk [IH1 IH2]. unfold Q in *. cbn [fst snd] in *.
    unfold init_allocate. destruct ok; cbn [negb].
    2:{ cbn [fst snd]. split; [|done]. split; [done|].
        intros Hall. apply IH1. intros j Hj. apply Hall. lia. }
    destruct (IH2 eq_refl) as [-> ->].
    assert (IH : forall j, (1 <= j <= 2 * k)%nat ->
                   is_Some (fftwf_malloc j bins)) by (by apply IH1).
    assert (Hlen : length (replicate k zs ++ replicate (parts - k)
                             ([] : list (F * F))) = parts).
    { rewrite length_app, !length_replicate. lia. }
    destruct (fftwf_malloc (2 * k + 1) bins) as [gh|] eqn:Eh.
    2:{ cbn [fst snd]. split; [|done]. split; [done|]. intros Hall.
        destruct (Hall (2 * k + 1)%nat ltac:(lia)) as [? E].
        rewrite Eh in E. done. }
    destruct (fftwf_malloc (2 * k + 2) bins) as [gx|] eqn:Ex.
    2:{ cbn [fst snd]. split; [|done]. split; [done|]. intros Hall.
        destruct (Hall (2 * k + 2)%nat ltac:(lia)) as [? E].
        rewrite Ex in E. done. }
    cbn [fst snd]. split.
    + split; [|done]. intros _ j Hj.
      destruct (decide (j <= 2 * k)%nat) as [?|?]; [apply IH; lia|].
      assert (j = 2 * k + 1 \/ j = 2 * k + 2)%nat as [-> | ->] by lia;
        by eexists.
    + intros _.
      assert (Hz : forall g : nat -> F * F,
        <[k := memset_at c0
                 (rd [] (<[k := allocated bins (Some g)]>
                           (replicate k zs ++ replicate (parts - k) [])) k)
                 0 bins]>
          (<[k := allocated bins (Some g)]>
             (replicate k zs ++ replicate (parts - k) []))
        = replicate (Datatypes.S k) zs
          ++ replicate (parts - Datatypes.S k) []).
      { intros g. unfold rd. rewrite list_lookup_insert_eq by lia.
        cbn [default]. rewrite memset_all
          by (apply allocated_length; by eexists).
        rewrite list_insert_insert_eq. apply insert_next_replicate. lia. }
      by rewrite !Hz.
Qed.

(** [init] succeeds and leaves the convolver with the spectra of the
    blocks of [h] and an empty history. *)
Lemma init_fed (h : list F) (b : nat) :
  fftw_contract (2 * b) ->
  fftw_serves (partitions h b) (b + 1) (2 * b) ->
  (0 < b)%nat -> h <> [] ->
  Z.of_nat (length h) + Z.of_nat b <= 2 ^ 31 ->
  Z.of_nat b < 2 ^ 30 ->
  fst (init h (Z.of_nat b)) = true /\ fed h b 0 (snd (init h (Z.of_nat b))).
Proof.
  intros Hc (Hm & Hpf & Hpi) Hb Hh Hbound Hsmall.
  destruct (partitions_bounds h b Hb Hh) as (HP & Hlo & Hhi).
  unfold init.
  destruct (Z.leb_spec (Z.of_nat b) 0) as [?|_]; [lia|].
  rewrite (partitions_Z h b Hb Hh Hbound).
  destruct (Z.leb_spec (Z.of_nat (partitions h b)) 0) as [?|_]; [lia|].
  rewrite (wrap_int32_small (2 * Z.of_nat b)) by lia.
  assert (Hfft : Z.to_nat (2 * Z.of_nat b) = (2 * b)%nat) by lia.
  assert (Hq : Z.quot (2 * Z.of_nat b) 2 + 1 = Z.of_nat (b + 1)).
  { rewrite Z.mul_comm, Z.quot_mul by lia. lia. }
  rewrite Hq, Hfft, !Nat2Z.id.
  set (P := partitions h b) in *.
  destruct (Hm 0%nat ltac:(lia)) as [g0 Eg]. rewrite Eg.
  pose proof (init_allocate_loop P (b + 1)) as Hloop. cbv zeta in Hloop.
  destruct (for_loop P (init_allocate (b + 1)) _) as [[ok Hs0] X0].
  cbn [fst snd] in Hloop. destruct Hloop as [Hiff Hres].
  assert (ok = true) as -> by (apply Hiff; intros j Hj; apply Hm; lia).
  destruct (Hres eq_refl) as [-> ->]. cbn [negb].
  rewrite Hpf, Hpi. cbn [negb orb].
  pose (Q := fun k s => partitions_done h b k s).
  assert (HQ : Q P
    (for_loop P
       (init_partition h (Z.of_nat b) (2 * Z.of_nat b) (Z.of_nat (b + 1)))
       (replicate (2 * b) f0, replicate P (replicate (b + 1) c0),
        replicate P (replicate (b + 1) c0)))).
  { unfold for_loop. apply (for_range_ind Q); [lia| |].
    - unfold Q, partitions_done. cbn [fst snd]. fold P.
      rewrite !length_replicate. split; [done|]. split; [done|].
      split.
      + intros i Hi. unfold rd. rewrite lookup_replicate_2 by done.
        simpl. by rewrite length_replicate.
      + apply list_eq. intros i. change (map ?f ?l) with (f <$> l).
        destruct (decide (i < P)%nat).
        * rewrite lookup_replicate_2 by done.
          by rewrite list_lookup_fmap, lookup_seq_lt.
        * rewrite !(proj2 (lookup_ge_None _ _)); [done| |].
          -- rewrite length_fmap, length_seq. lia.
          -- rewrite length_replicate. lia.
    - intros k s Hk HQ. unfold Q in *.
      apply init_partition_step; try done; lia. }
  destruct (for_loop P _ _) as [[timeIn X] Hs].
  unfold Q, partitions_done in HQ. cbn [fst snd] in HQ.
  destruct HQ as (Hlt & HlX & HX & HHs). fold P in HlX, HX, HHs.
  cbn [fst snd]. unfold fed. fold P.
  cbn [mBlock mFFT mBins mParts mWrite mReady mTimeIn mOverlap mFreqY mH mX].
  split; [done|].
  split_and!; try done.
  - lia.
  - by destruct (P <=? 0)%nat; destruct (0 <? P)%nat.
  - apply allocated_length. by eexists.
  - rewrite HHs. apply map_ext_in. intros k Hk. apply in_seq in Hk.
    destruct (Nat.ltb_spec k P); [done|lia].
  - rewrite (update_loop_closed [] (fun _ l => memset_at c0 l 0 (b + 1)))
      by lia.
    rewrite drop_ge by lia. rewrite app_nil_r.
    apply map_ext_in. intros k Hk. apply in_seq in Hk.
    rewrite memset_all by (apply HX; lia).
    change (0 <? 0)%nat with false. by rewrite andb_false_r.
Qed.

(** The input stream: the unit impulse, then silence. *)
Definition impulse (b : nat) : list F := of_Z 1 :: replicate (b - 1) f0.
Definition silence (b : nat) : list F := replicate b f0.
Definition stream_block (b j : nat) : list F :=
  if (j =? 0)%nat then impulse b else silence b.

Lemma map_rd_seq {A : Type} (d : A) (l : list A) :
  map (rd d l) (seq 0 (length l)) = l.
Proof.
  apply list_eq. intros i. change (map ?f ?l) with (f <$> l).
  destruct (decide (i < length l)%nat) as [Hi|Hi].
  - rewrite list_lookup_fmap, lookup_seq_lt by done. simpl.
    by rewrite <- lookup_rd.
  - rewrite !(proj2 (lookup_ge_None _ _)); [done|lia|].
    rewrite length_fmap, length_seq. lia.
Qed.

Lemma rd_map_seq {A : Type} (d : A) (f : nat -> A) n i :
  (i < n)%nat -> rd d (map f (seq 0 n)) i = f i.
Proof.
  intros Hi. unfold rd. change (map ?f ?l) with (f <$> l).
  by rewrite list_lookup_fmap, lookup_seq_lt.
Qed.

Lemma rd_replicate {A : Type} (d x : A) n i :
  (i < n)%nat -> rd d (replicate n x) i = x.
Proof. intros Hi. unfold rd. by rewrite lookup_replicate_2. Qed.

Lemma map_const_seq {A : Type} (f : nat -> A) (x : A) n :
  (forall i, (i < n)%nat -> f i = x) -> map f (seq 0 n) = replicate n x.
Proof.
  intros Hf. apply list_eq. intros i. change (map ?f ?l) with (f <$> l).
  destruct (decide (i < n)%nat) as [Hi|Hi].
  - rewrite list_lookup_fmap, lookup_seq_lt, lookup_replicate_2 by done.
    simpl. by rewrite Hf.
  - rewrite !(proj2 (lookup_ge_None _ _)); [done| |].
    + rewrite length_replicate. lia.
    + rewrite length_fmap, length_seq. lia.
Qed.

Section Exact.
Hypothesis arith : exact_arith.

Lemma cmul_acc_one (hk : F * F) : cmul_acc c0 (of_Z 1, f0) hk = hk.
Proof.
  destruct hk as [br bi]. unfold cmul_acc, c0. cbn [fst snd].
  rewrite !(mul_1_l arith), !(mul_0_l arith), (sub_0_r arith),
    (add_0_r arith), !(add_0_l arith). done.
Qed.

Lemma cmul_acc_zero (y hk : F * F) : cmul_acc y c0 hk = y.
Proof.
  destruct hk as [br bi], y as [yr yi]. unfold cmul_acc, c0. cbn [fst snd].
  rewrite !(mul_0_l arith), (sub_0_r arith), (add_0_l arith),
    !(add_0_r arith). done.
Qed.

(** One turn of the accumulation, for a history slot that holds the
    spectrum of the impulse or that of silence. *)
Lemma accumulate_bins_one (b : nat) (Hk : list (F * F)) :
  length Hk = (b + 1)%nat ->
  for_loop (b + 1)
    (fun i Y => <[i := cmul_acc (rd c0 Y i) (rd c0 (ones b) i) (rd c0 Hk i)]> Y)
    (zeros b) = Hk.
Proof.
  intros Hl.
  rewrite (update_loop_closed c0
             (fun i y => cmul_acc y (rd c0 (ones b) i) (rd c0 Hk i)))
    by (unfold zeros; rewrite length_replicate; lia).
  rewrite drop_ge by (unfold zeros; rewrite length_replicate; lia).
  rewrite app_nil_r. etrans; [|apply (map_rd_seq c0 Hk)]. rewrite Hl.
  apply map_ext_in. intros i Hi. apply in_seq in Hi.
  unfold ones, zeros. rewrite !rd_replicate by lia. apply cmul_acc_one.
Qed.

Lemma accumulate_bins_zero (b : nat) (Y Hk : list (F * F)) :
  length Y = (b + 1)%nat ->
  for_loop (b + 1)
    (fun i Y => <[i := cmul_acc (rd c0 Y i) (rd c0 (zeros b) i) (rd c0 Hk i)]> Y)
    Y = Y.
Proof.
  intros Hl.
  rewrite (update_loop_closed c0
             (fun i y => cmul_acc y (rd c0 (zeros b) i) (rd c0 Hk i)))
    by lia.
  rewrite drop_ge by lia.
  rewrite app_nil_r. etrans; [|apply (map_rd_seq c0 Y)]. rewrite Hl.
  apply map_ext_in. intros i Hi. apply in_seq in Hi.
  unfold zeros. rewrite !rd_replicate by lia. apply cmul_acc_zero.
Qed.

(** The history slot that partition [k] meets when the write index is
    [j]. *)
Definition slot (P j k : nat) : nat :=
  if (k <=? j)%nat then (j - k)%nat else (j + P - k)%nat.

Lemma accumulate_fed (b P j : nat) (c : FFTConvolverPartitioned F)
  (X : list (list (F * F))) (Hf : nat -> list (F * F)) :
  mParts c = Z.of_nat P -> mBins c = Z.of_nat (b + 1) ->
  mWrite c = Z.of_nat j -> (j < P)%nat ->
  mH c = map Hf (seq 0 P) ->
  (forall k, (k < P)%nat -> length (Hf k) = (b + 1)%nat) ->
  (forall k, (k < P)%nat ->
     rd [] X (slot P j k) = if (k =? j)%nat then ones b else zeros b) ->
  accumulate c X (zeros b) = Hf j.
Proof.
  intros HP Hbins Hw Hj HH Hlen HX. unfold accumulate.
  rewrite HP, Hbins, Hw, HH, !Nat2Z.id.
  pose (Q := fun (k : nat) (Y : list (F * F)) =>
    Y = if (j <? k)%nat then Hf j else zeros b).
  assert (HQ : Q P
    (for_loop P
       (fun k Y =>
          let idx := Z.of_nat j - Z.of_nat k in
          let idx := if idx <? 0 then idx + Z.of_nat P else idx in
          let Xk := rd [] X (Z.to_nat idx) in
          let Hk := rd [] (map Hf (seq 0 P)) k in
          for_loop (b + 1)
            (fun i Y =>
               <[i := cmul_acc (rd c0 Y i) (rd c0 Xk i) (rd c0 Hk i)]> Y) Y)
       (zeros b))).
  { unfold for_loop at 1. apply (for_range_ind Q); [lia|done|].
    intros k Y Hk HY. unfold Q in *. cbv zeta.
    assert (Hidx : Z.to_nat (if Z.of_nat j - Z.of_nat k <? 0
                             then Z.of_nat j - Z.of_nat k + Z.of_nat P
                             else Z.of_nat j - Z.of_nat k) = slot P j k).
    { unfold slot. destruct (Z.ltb_spec (Z.of_nat j - Z.of_nat k) 0),
        (Nat.leb_spec k j); lia. }
    rewrite Hidx, (HX k) by lia. rewrite rd_map_seq by lia.
    destruct (Nat.eqb_spec k j) as [->|Hne].
    - rewrite Nat.ltb_irrefl in HY. subst Y.
      rewrite accumulate_bins_one by (apply Hlen; lia).
      destruct (Nat.ltb_spec j (Datatypes.S j)); [done|lia].
    - rewrite accumulate_bins_zero.
      + rewrite HY. destruct (Nat.ltb_spec j k), (Nat.ltb_spec j (Datatypes.S k));
          try done; lia.
      + rewrite HY. destruct (j <? k)%nat; [apply Hlen; lia|].
        unfold zeros. by rewrite length_replicate. }
  unfold Q in HQ. rewrite HQ.
  destruct (Nat.ltb_spec j P); [done|lia].
Qed.

Lemma stream_block_length (b j : nat) :
  (0 < b)%nat -> length (stream_block b j) = b.
Proof.
  intros Hb. unfold stream_block, impulse, silence.
  destruct (j =? 0)%nat; simpl; rewrite length_replicate; lia.
Qed.

Lemma stream_spectrum (b j : nat) (timeIn : list F) :
  fftw_contract (2 * b) -> (0 < b)%nat ->
  length timeIn = (2 * b)%nat ->
  r2c (2 * b) (memset_at f0 (memcpy timeIn (stream_block b j) b) b b)
  = if (j =? 0)%nat then ones b else zeros b.
Proof.
  intros Hc Hb Hlen.
  assert (Hhalf : (2 * b / 2 + 1 = b + 1)%nat).
  { f_equal. rewrite Nat.mul_comm. by rewrite Nat.div_mul by lia. }
  assert (Hsb : length (stream_block b j) = b)
    by (by apply stream_block_length).
  assert (Hin : memset_at f0 (memcpy timeIn (stream_block b j) b) b b
                = stream_block b j ++ replicate b f0).
  { unfold memset_at, memcpy.
    rewrite (take_ge (stream_block b j)) by lia.
    rewrite take_app_length' by done.
    rewrite drop_app_ge by lia. rewrite drop_drop.
    rewrite length_app, length_drop, Hsb, Hlen.
    rewrite drop_ge by lia.
    replace (b `min` (b + (2 * b - b) - b))%nat with b by lia.
    by rewrite app_nil_r. }
  rewrite Hin. unfold stream_block.
  destruct (j =? 0)%nat.
  - unfold impulse. rewrite <- app_comm_cons, <- replicate_add.
    replace (b - 1 + b)%nat with (2 * b - 1)%nat by lia.
    rewrite (r2c_impulse _ Hc). by rewrite Hhalf.
  - unfold silence. rewrite <- replicate_add.
    replace (b + b)%nat with (2 * b)%nat by lia.
    rewrite (r2c_zero _ Hc). by rewrite Hhalf.
Qed.

(** One block of the impulse stream through [processBlock]. *)
Lemma processBlock_fed (h : list F) (b j : nat)
  (c : FFTConvolverPartitioned F) (outb : list F) :
  fftw_contract (2 * b) -> (0 < b)%nat -> h <> [] ->
  (j < partitions h b)%nat -> fed h b j c -> length outb = b ->
  let r := processBlock c (stream_block b j) outb (Z.of_nat b) in
  fst (fst r) = true /\ snd (fst r) = block_of h b j
  /\ fed h b (Datatypes.S j) (snd r).
Proof.
  intros Hc Hb Hh Hj Hfed Hout r. subst r.
  destruct (partitions_bounds h b Hb Hh) as (HP & Hlo & Hhi).
  unfold fed in Hfed. cbv zeta in Hfed.
  set (P := partitions h b) in *.
  destruct Hfed as (HB & HF & Hbins & Hparts & Hw & Hr & Hlt & Hov & HlY
                    & HH & HX).
  assert (Hjp : (j <? P)%nat = true) by (by apply Nat.ltb_lt).
  rewrite Hjp in Hw.
  unfold processBlock. rewrite Hr, HB, Z.eqb_refl. cbn [negb orb].
  rewrite HF, Hbins, !Nat2Z.id.
  rewrite (stream_spectrum b j (mTimeIn c) Hc Hb Hlt).
  rewrite memset_all by done. fold (zeros b).
  set (Xj := if (j =? 0)%nat then ones b else zeros b).
  set (X' := <[Z.to_nat (mWrite c) := Xj]> (mX c)).
  assert (HX' : X' = map (fun i => if (i =? 0)%nat && (0 <? Datatypes.S j)%nat
                                   then ones b else zeros b) (seq 0 P)).
  { unfold X'. rewrite HX, Hw, Nat2Z.id. apply insert_map_seq.
    intros i Hi. unfold Xj. destruct (decide (i = j)) as [->|Hne].
    - by rewrite andb_true_r.
    - destruct i, j; try done; lia. }
  assert (Hacc : accumulate c X' (zeros b) = r2c (2 * b) (padded h b j)).
  { apply (accumulate_fed b P j c X'
             (fun k => r2c (2 * b) (padded h b k))); try done.
    - intros k Hk. rewrite (r2c_length _ Hc) by apply padded_length.
      f_equal. rewrite Nat.mul_comm. by rewrite Nat.div_mul by lia.
    - intros k Hk. rewrite HX'. unfold slot.
      destruct (Nat.leb_spec k j).
      + rewrite rd_map_seq by lia.
        destruct (Nat.eqb_spec k j) as [->|Hne].
        * by rewrite Nat.sub_diag.
        * destruct (Nat.eqb_spec (j - k) 0); [lia|done].
      + rewrite rd_map_seq by lia.
        destruct (Nat.eqb_spec k j) as [->|Hne]; [lia|].
        destruct (Nat.eqb_spec (j + P - k) 0); [lia|done]. }
  rewrite Hacc. rewrite (c2r_r2c _ Hc) by apply padded_length.
  set (N := of_Z (Z.of_nat (2 * b))).
  set (inv := fdiv (of_Z 1) N).
  assert (Hto : forall i, (i < 2 * b)%nat ->
            fmul (rd f0 (map (fmul N) (padded h b j)) i) inv
            = if (i <? b)%nat then rd f0 h (j * b + i) else f0).
  { intros i Hi. unfold rd at 1. change (map ?f ?l) with (f <$> l).
    unfold padded. change (map ?f ?l) with (f <$> l).
    rewrite !list_lookup_fmap, lookup_seq_lt by done. simpl.
    unfold inv, N. apply (scale_back arith). lia. }
  cbn [fst snd].
  split; [done|]. split.
  - rewrite write_loop_closed by lia.
    rewrite drop_ge by lia. rewrite app_nil_r. unfold block_of.
    apply map_ext_in. intros i Hi. apply in_seq in Hi.
    rewrite Hto by lia. rewrite Hov, rd_replicate by lia.
    rewrite (add_0_r arith).
    destruct (Nat.ltb_spec i b); [done|lia].
  - unfold fed. cbv zeta. fold P.
    cbn [mBlock mFFT mBins mParts mWrite mReady mTimeIn mOverlap mFreqY mH mX].
    split; [done|]. split; [done|]. split; [done|]. split; [done|].
    split.
    { rewrite Hw, Hparts.
      destruct (Z.geb_spec (Z.of_nat j + 1) (Z.of_nat P)),
        (Nat.ltb_spec (Datatypes.S j) P); lia. }
    split; [done|]. split.
    { unfold memset_at.
      rewrite !length_app, length_take, length_replicate, length_drop.
      unfold memcpy. rewrite !length_app, length_take, length_drop.
      rewrite stream_block_length by done. lia. }
    split.
    { rewrite write_loop_closed by (rewrite Hov, length_replicate; lia).
      rewrite drop_ge by (rewrite Hov, length_replicate; lia).
      rewrite app_nil_r. apply map_const_seq. intros i Hi.
      rewrite Hto by lia. destruct (Nat.ltb_spec (i + b) b); [lia|done]. }
    split.
    { rewrite (r2c_length _ Hc) by apply padded_length.
      f_equal. rewrite Nat.mul_comm. by rewrite Nat.div_mul by lia. }
    split; [done|exact HX'].
Qed.

(** The caller: block after block through [processBlock], into one
    output buffer. *)
Fixpoint process_stream (c : FFTConvolverPartitioned F)
  (blocks : list (list F)) (outb : list F) (n : Z) : list (bool * list F) :=
  match blocks with
  | [] => []
  | x :: rest =>
      let '(ok, o, c') := processBlock c x outb n in
      (ok, o) :: process_stream c' rest o n
  end.

Lemma block_of_length h b k : length (block_of h b k) = b.
Proof. unfold block_of. by rewrite length_map, length_seq. Qed.

Lemma process_stream_fed (h : list F) (b n j : nat)
  (c : FFTConvolverPartitioned F) (outb : list F) :
  fftw_contract (2 * b) -> (0 < b)%nat -> h <> [] ->
  (j + n <= partitions h b)%nat -> fed h b j c -> length outb = b ->
  let outs :=
    process_stream c (map (stream_block b) (seq j n)) outb (Z.of_nat b) in
  map fst outs = replicate n true
  /\ map snd outs = map (block_of h b) (seq j n).
Proof.
  intros Hc Hb Hh. revert j c outb.
  induction n as [|n IH]; intros j c outb Hj Hfed Hout; [done|].
  cbn [seq map process_stream].
  destruct (processBlock_fed h b j c outb Hc Hb Hh) as (Hok & Ho & Hfed');
    [lia|done|done|].
  destruct (processBlock c (stream_block b j) outb (Z.of_nat b))
    as [[ok o] c'].
  cbn [fst snd] in Hok, Ho, Hfed'. subst ok o.
  destruct (IH (Datatypes.S j) c' (block_of h b j)) as [IH1 IH2];
    [lia|done|apply block_of_length|].
  cbn [map fst snd replicate]. by rewrite IH1, IH2.
Qed.

Lemma concat_blocks (h : list F) (b P : nat) :
  concat (map (block_of h b) (seq 0 P)) = map (rd f0 h) (seq 0 (P * b)).
Proof.
  induction P as [|P IH]; [done|].
  rewrite seq_S, map_app, concat_app, IH.
  replace (Datatypes.S P * b)%nat with (P * b + b)%nat by lia.
  rewrite seq_app, map_app. f_equal.
  cbn [map concat Nat.add]. rewrite app_nil_r.
  assert (Hs : seq (P * b) b = Nat.add (P * b) <$> seq 0 b)
    by (by rewrite fmap_add_seq, Nat.add_0_r).
  rewrite Hs. unfold block_of. change (map ?f ?l) with (f <$> l).
  by rewrite <- list_fmap_compose.
Qed.

Lemma map_rd_pad (h : list F) (n : nat) :
  (length h <= n)%nat ->
  map (rd f0 h) (seq 0 n) = h ++ replicate (n - length h) f0.
Proof.
  intros Hn. apply list_eq. intros i. change (map ?f ?l) with (f <$> l).
  destruct (decide (i < n)%nat) as [Hi|Hi].
  - rewrite list_lookup_fmap, lookup_seq_lt by done. simpl.
    destruct (decide (i < length h)%nat).
    + rewrite lookup_app_l by done. symmetry. by apply lookup_rd.
    + rewrite lookup_app_r by lia. rewrite lookup_replicate_2 by lia.
      unfold rd. by rewrite (proj2 (lookup_ge_None _ _)) by lia.
  - rewrite !(proj2 (lookup_ge_None _ _)); [done| |].
    + rewrite length_app, length_replicate. lia.
    + rewrite length_fmap, length_seq. lia.
Qed.

End Exact.

(** The round trip of the convolver in arithmetic without rounding.
    With operations that do not round, transforms that keep FFTW's
    contract and a library that serves every allocation and plan, a
    convolver initialised from an impulse response [h] of length L >= 1
    with block size b answers the unit impulse block followed by blocks
    of zeros, over the first ceil(L/b) blocks, with the blocks of [h]:
    every call succeeds, block j of the output is h[j*b .. j*b+b) with
    zeros past the end of [h], and together the blocks are [h] followed
    by zeros up to the block boundary.  This is the algorithm of the
    partitioned convolution; binary32 does not satisfy [exact_arith],
    and what rounding does to the result is not stated here. *)
Lemma impulse_round_trip (h : list F) (b : nat) (outb : list F) :
  exact_arith -> fftw_contract (2 * b) ->
  fftw_serves (partitions h b) (b + 1) (2 * b) ->
  (0 < b)%nat -> h <> [] ->
  Z.of_nat (length h) + Z.of_nat b <= 2 ^ 31 ->
  Z.of_nat b < 2 ^ 30 ->
  length outb = b ->
  let P := partitions h b in
  let c := snd (init h (Z.of_nat b)) in
  let outs :=
    process_stream c (map (stream_block b) (seq 0 P)) outb (Z.of_nat b) in
  fst (init h (Z.of_nat b)) = true
  /\ map fst outs = replicate P true
  /\ map snd outs = map (block_of h b) (seq 0 P)
  /\ concat (map snd outs) = h ++ replicate (P * b - length h) f0.
Proof.
  intros Ha Hc Hs Hb Hh Hbound Hsmall Hout P c outs.
  destruct (init_fed h b Hc Hs Hb Hh Hbound Hsmall) as [Hok Hfed].
  destruct (partitions_bounds h b Hb Hh) as (HP & Hlo & Hhi).
  destruct (process_stream_fed Ha h b P 0 c outb Hc Hb Hh) as [H1 H2];
    [done|done|done|].
  fold outs in H1, H2.
  split; [done|]. split; [done|]. split; [done|].
  rewrite H2, concat_blocks. by apply map_rd_pad.
Qed.

End ConvolverProofs.


(** ** The round trip on the rationals and on binary32 *)

Section ExactRuns.
Import QArith Qcanon.
Import Convolver.
Local Open Scope Z_scope.

(** The rationals, where no operation rounds. *)
Definition exact_Qc : FloatRing Qc :=
  {| of_Z := fun z => Q2Qc (inject_Z z);
     fadd := Qcplus; fsub := Qcminus; fmul := Qcmult; fdiv := Qcdiv |}.

(** The twiddle factors of the transforms of size 2 and 4, which are
    rational. *)
Definition tw_Qc (n k : nat) : Qc * Qc :=
  match n, k with
  | 2%nat, 0%nat => (1%Qc, 0%Qc)
  | 2%nat, _ => ((-1)%Qc, 0%Qc)
  | 4%nat, 0%nat => (1%Qc, 0%Qc)
  | 4%nat, 1%nat => (0%Qc, (-1)%Qc)
  | 4%nat, 2%nat => ((-1)%Qc, 0%Qc)
  | 4%nat, _ => (0%Qc, 1%Qc)
  | _, _ => (1%Qc, 0%Qc)
  end.

Definition fftw_Qc : FFTW Qc :=
  {| r2c := Reference.naive_r2c (H := exact_Qc) tw_Qc;
     c2r := Reference.naive_c2r (H := exact_Qc) tw_Qc;
     fftwf_malloc := fun _ _ => Some (fun _ => (0%Qc, 0%Qc));
     fftwf_plan_dft_r2c_1d := fun _ => true;
     fftwf_plan_dft_c2r_1d := fun _ => true |}.

Lemma of_Z_nonzero (n : Z) : 0 < n -> Q2Qc (inject_Z n) <> 0%Qc.
Proof.
  intros Hn E. apply (f_equal this) in E.
  assert (Hq : (inject_Z n == 0)%Q).
  { rewrite <- (Qred_correct (inject_Z n)). simpl in E. rewrite E.
    reflexivity. }
  unfold Qeq in Hq. simpl in Hq. lia.
Qed.

Lemma exact_Qc_arith : exact_arith (H := exact_Qc).
Proof.
  split; unfold f0; cbn [of_Z fadd fsub fmul fdiv exact_Qc].
  - intros x. change (Q2Qc (inject_Z 0)) with 0%Qc. ring.
  - intros x. change (Q2Qc (inject_Z 0)) with 0%Qc. ring.
  - intros x. change (Q2Qc (inject_Z 0)) with 0%Qc. ring.
  - intros x. change (Q2Qc (inject_Z 1)) with 1%Qc. ring.
  - intros x. change (Q2Qc (inject_Z 0)) with 0%Qc. ring.
  - intros n x Hn. change (Q2Qc (inject_Z 1)) with 1%Qc. field.
    by apply of_Z_nonzero.
Qed.

Lemma fftw_Qc_contract :
  fftw_contract (H := exact_Qc) (H0 := fftw_Qc) 4.
Proof.
  split.
  - intros x _. cbn [r2c fftw_Qc]. unfold Reference.naive_r2c.
    by rewrite length_map, length_seq.
  - cbn. unfold Reference.dft_bin, Reference.fsum, f0. cbn.
    change (Q2Qc (inject_Z 0)) with 0%Qc.
    change (Q2Qc (inject_Z 1)) with 1%Qc.
    repeat (f_equal; try ring).
  - cbn. unfold Reference.dft_bin, Reference.fsum, c0, f0. cbn.
    change (Q2Qc (inject_Z 0)) with 0%Qc.
    repeat (f_equal; try ring).
  - intros x Hx.
    destruct x as [|x0 [|x1 [|x2 [|x3 [|]]]]]; try discriminate.
    cbn. unfold Reference.idft_sample, Reference.hermitian,
      Reference.dft_bin, Reference.fsum, rd, c0, f0. cbn.
    change (Q2Qc (inject_Z 0)) with 0%Qc.
    assert (H4 : Q2Qc (inject_Z (Z.of_nat 4)) = (1 + 1 + 1 + 1)%Qc)
      by (by apply Qc_is_canon).
    rewrite H4.
    repeat (f_equal; try ring).
Qed.

(** The impulse response 1/4, 1/2, -1/4, 1/8. *)
Definition h_Qc : list Qc :=
  [Q2Qc (1 # 4); Q2Qc (1 # 2); Q2Qc (-1 # 4); Q2Qc (1 # 8)].

End ExactRuns.

Section RoundTripBinary32.
Import Convolver.
#[local] Existing Instance Reference.fftw_binary32.

(** The same on binary32, where for this impulse response and the
    transform of size 4 every operation happens to be exact. *)
Lemma impulse_round_trip_binary32 :
  let h : list spec_float :=
    [fconst 1 4; fconst 1 2; fneg (fconst 1 4); fconst 1 8] in
  let outs :=
    process_stream (snd (init h 2)) (map (stream_block 2) (seq 0 2))
      [f0; f0] 2 in
  map fst outs = [true; true]
  /\ concat (map snd outs) = h.
Proof. split; vm_compute; reflexivity. Qed.

End RoundTripBinary32.

(** ** The round trip with blocks of four, on Q(sqrt 2) *)

Section Sqrt2Runs.
Import QArith Qcanon.
Import Convolver.
Local Open Scope Z_scope.

(** [a + b sqrt 2] with rational [a] and [b]: the field in which the
    transform of size 8 is exact. *)
Definition Qsqrt2 : Type := (Qc * Qc)%type.

Definition s2_add (x y : Qsqrt2) : Qsqrt2 :=
  ((fst x + fst y)%Qc, (snd x + snd y)%Qc).
Definition s2_sub (x y : Qsqrt2) : Qsqrt2 :=
  ((fst x - fst y)%Qc, (snd x - snd y)%Qc).
Definition s2_mul (x y : Qsqrt2) : Qsqrt2 :=
  ((fst x * fst y + (1 + 1) * (snd x * snd y))%Qc,
   (fst x * snd y + snd x * fst y)%Qc).
Definition s2_inv (y : Qsqrt2) : Qsqrt2 :=
  let n := (fst y * fst y - (1 + 1) * (snd y * snd y))%Qc in
  ((fst y / n)%Qc, (- snd y / n)%Qc).
Definition s2_div (x y : Qsqrt2) : Qsqrt2 := s2_mul x (s2_inv y).

Definition exact_Qsqrt2 : FloatRing Qsqrt2 :=
  {| of_Z := fun z => (Q2Qc (inject_Z z), 0%Qc);
     fadd := s2_add; fsub := s2_sub; fmul := s2_mul; fdiv := s2_div |}.

Definition s2 (a b : Q) : Qsqrt2 := (Q2Qc a, Q2Qc b).

(** exp(-2 pi i k/8), with sqrt(2)/2 = 0 + (1/2) sqrt 2. *)
Definition tw_Qsqrt2 (n k : nat) : Qsqrt2 * Qsqrt2 :=
  match n, k with
  | 8%nat, 0%nat => (s2 1 0, s2 0 0)
  | 8%nat, 1%nat => (s2 0 (1 # 2), s2 0 (-1 # 2))
  | 8%nat, 2%nat => (s2 0 0, s2 (-1) 0)
  | 8%nat, 3%nat => (s2 0 (-1 # 2), s2 0 (-1 # 2))
  | 8%nat, 4%nat => (s2 (-1) 0, s2 0 0)
  | 8%nat, 5%nat => (s2 0 (-1 # 2), s2 0 (1 # 2))
  | 8%nat, 6%nat => (s2 0 0, s2 1 0)
  | 8%nat, _ => (s2 0 (1 # 2), s2 0 (1 # 2))
  | _, _ => (s2 1 0, s2 0 0)
  end.

Definition fftw_Qsqrt2 : FFTW Qsqrt2 :=
  {| r2c := Reference.naive_r2c (H := exact_Qsqrt2) tw_Qsqrt2;
     c2r := Reference.naive_c2r (H := exact_Qsqrt2) tw_Qsqrt2;
     fftwf_malloc :=
       fun _ _ => Some (fun _ => (of_Z (FloatRing := exact_Qsqrt2) 0,
                                  of_Z (FloatRing := exact_Qsqrt2) 0));
     fftwf_plan_dft_r2c_1d := fun _ => true;
     fftwf_plan_dft_c2r_1d := fun _ => true |}.

Lemma exact_Qsqrt2_arith : exact_arith (H := exact_Qsqrt2).
Proof.
  split; unfold f0; cbn [of_Z fadd fsub fmul fdiv exact_Qsqrt2].
  - intros [a b]. unfold s2_add. cbn [fst snd].
    change (Q2Qc (inject_Z 0)) with 0%Qc. f_equal; ring.
  - intros [a b]. unfold s2_add. cbn [fst snd].
    change (Q2Qc (inject_Z 0)) with 0%Qc. f_equal; ring.
  - intros [a b]. unfold s2_sub. cbn [fst snd].
    change (Q2Qc (inject_Z 0)) with 0%Qc. f_equal; ring.
  - intros [a b]. unfold s2_mul. cbn [fst snd].
    change (Q2Qc (inject_Z 1)) with 1%Qc. f_equal; ring.
  - intros [a b]. unfold s2_mul. cbn [fst snd].
    change (Q2Qc (inject_Z 0)) with 0%Qc. f_equal; ring.
  - intros n [a b] Hn. unfold s2_div, s2_mul, s2_inv. cbn [fst snd].
    change (Q2Qc (inject_Z 1)) with 1%Qc.
    pose proof (of_Z_nonzero n Hn) as Hz.
    f_equal; field; done.
Qed.

Ltac s2_unfold :=
  lazy -[Qcplus Qcmult Qcminus Qcopp Qcdiv Qcinv Q2Qc inject_Z Z.of_nat];
  change (Q2Qc (inject_Z 0)) with 0%Qc;
  change (Q2Qc (inject_Z 1)) with 1%Qc;
  change (Q2Qc 0) with 0%Qc; change (Q2Qc 1) with 1%Qc.

Ltac by_components :=
  repeat match goal with
         | |- _ :: _ = _ :: _ => f_equal
         | |- (_, _) = (_, _) => f_equal
         end.

Lemma fftw_Qsqrt2_contract :
  fftw_contract (H := exact_Qsqrt2) (H0 := fftw_Qsqrt2) 8.
Proof.
  assert (H8 : Q2Qc (inject_Z (Z.of_nat 8))
               = (1 + 1 + 1 + 1 + 1 + 1 + 1 + 1)%Qc)
    by (by apply Qc_is_canon).
  assert (Hh : Q2Qc (1 # 2) = (1 / (1 + 1))%Qc) by (by apply Qc_is_canon).
  assert (Hm : Q2Qc (-1 # 2) = (- (1 / (1 + 1)))%Qc)
    by (by apply Qc_is_canon).
  assert (Hm1 : Q2Qc (-1) = (- (1))%Qc) by (by apply Qc_is_canon).
  assert (H2 : (1 + 1)%Qc <> 0%Qc) by done.
  split.
  - intros x _. cbn [r2c fftw_Qsqrt2]. unfold Reference.naive_r2c.
    by rewrite length_map, length_seq.
  - s2_unfold. rewrite ?Hh, ?Hm, ?Hm1. by_components; field; done.
  - s2_unfold. rewrite ?Hh, ?Hm, ?Hm1. by_components; field; done.
  - intros x Hx.
    destruct x as [|[a0 b0] [|[a1 b1] [|[a2 b2] [|[a3 b3] [|[a4 b4]
      [|[a5 b5] [|[a6 b6] [|[a7 b7] [|]]]]]]]]]; try discriminate.
    clear Hx. s2_unfold. rewrite ?H8, ?Hh, ?Hm, ?Hm1.
    by_components; field; done.
Qed.

#[local] Existing Instance exact_Qc.
#[local] Existing Instance fftw_Qc.
#[local] Existing Instance exact_Qsqrt2.
#[local] Existing Instance fftw_Qsqrt2.

(** The impulse response 0.25, 0.5, -0.25, 0.125. *)
Definition h_Qsqrt2 : list Qsqrt2 :=
  [s2 (1 # 4) 0; s2 (1 # 2) 0; s2 (-1 # 4) 0; s2 (1 # 8) 0].

(** Two runs: on the rationals in two blocks of two, and on Q(sqrt 2)
    in one block of four. *)
Lemma impulse_round_trip_runs :
  (let P := partitions h_Qc 2 in
   let c := snd (init h_Qc (Z.of_nat 2)) in
   let outs :=
     process_stream c (map (stream_block 2) (seq 0 P)) [f0; f0]
       (Z.of_nat 2) in
   fst (init h_Qc (Z.of_nat 2)) = true
   /\ map fst outs = replicate P true
   /\ map snd outs = map (block_of h_Qc 2) (seq 0 P)
   /\ concat (map snd outs) = h_Qc ++ replicate (P * 2 - length h_Qc) f0)
  /\
  (let P := partitions h_Qsqrt2 4 in
   let c := snd (init h_Qsqrt2 (Z.of_nat 4)) in
   let outs :=
     process_stream c (map (stream_block 4) (seq 0 P)) [f0; f0; f0; f0]
       (Z.of_nat 4) in
   fst (init h_Qsqrt2 (Z.of_nat 4)) = true
   /\ map fst outs = replicate P true
   /\ map snd outs = map (block_of h_Qsqrt2 4) (seq 0 P)
   /\ concat (map snd outs)
      = h_Qsqrt2 ++ replicate (P * 4 - length h_Qsqrt2) f0).
Proof.
  split.
  - refine (impulse_round_trip h_Qc 2 [f0; f0] exact_Qc_arith
              fftw_Qc_contract _ _ _ _ _ _).
    + by repeat split; [intros k _; eexists|..].
    + lia.
    + discriminate.
    + simpl. lia.
    + simpl. lia.
    + reflexivity.
  - refine (impulse_round_trip h_Qsqrt2 4 [f0; f0; f0; f0]
              exact_Qsqrt2_arith fftw_Qsqrt2_contract _ _ _ _ _ _).
    + by repeat split; [intros k _; eexists|..].
    + lia.
    + discriminate.
    + simpl. lia.
    + simpl. lia.
    + reflexivity.
Defined.

End Sqrt2Runs.

(* ================================================================== *)
(** * Part III: further properties of the engine *)
(* ================================================================== *)

Section SchemaRoundTrip.
Import Schema.

(** What [parseNode] makes of [params]: an object is kept, anything else
    was written as the empty object. *)
Definition written (n : NodeSpec) : NodeSpec :=
  set_params n (if is_object (params n) then params n else JObject []).

Lemma parseNode_nodeToJson n err :
  parseNode (nodeToJson n) err = (Some (written n), err).
Proof.
  destruct n as [i t c e p a]. unfold written, nodeToJson, set_params. simpl.
  assert (Hp : is_object (if is_object p then p else JObject []) = true)
    by (by destruct p).
  destruct a as [[pa]|], (String.eqb c "") eqn:Ec; simpl;
    unfold parseNode, getString, contains, at_key; simpl;
    rewrite ?Hp; simpl; try apply String.eqb_eq in Ec; subst; done.
Qed.

Lemma parseNodes_nodeToJson ns acc err :
  parseNodes (map nodeToJson ns) acc err = (Some (acc ++ map written ns)%list, err).
Proof.
  revert acc. induction ns as [|n ns IH]; intros acc; simpl.
  - by rewrite app_nil_r.
  - rewrite parseNode_nodeToJson, IH. by rewrite <- app_assoc.
Qed.

Lemma written_id n : is_object (params n) = true -> written n = n.
Proof. destruct n. unfold written, set_params. simpl. by intros ->. Qed.

Lemma map_written_id ns :
  Forall (fun n => is_object (params n) = true) ns -> map written ns = ns.
Proof.
  induction 1 as [|n ns Hn _ IH]; simpl; [done|].
  rewrite written_id by done. by rewrite IH.
Qed.

Lemma parse_written (s : ChainSpec) (err : ValidationError) :
  version s = 1 ->
  0 < sampleRate s < 2 ^ 31 ->
  parseChainJson (chainSpecToJson s) err
  = (Some {| version := 1; sampleRate := sampleRate s;
             chain := map written (chain s) |}, err).
Proof.
  intros Hv Hsr.
  assert (Hw : wrap_int32 (sampleRate s) = sampleRate s).
  { unfold wrap_int32. rewrite Z.mod_small; lia. }
  assert (Hu : wrap_uint32 (sampleRate s) = sampleRate s).
  { unfold wrap_uint32. rewrite Z.mod_small; lia. }
  unfold parseChainJson, chainSpecToJson, parseCanonicalV1, contains, at_key.
  simpl. rewrite Hv. simpl. rewrite Hw.
  destruct (sampleRate s <=? 0) eqn:E0; [lia|].
  rewrite parseNodes_nodeToJson, Hu. done.
Qed.

Lemma parse_written_objects (s : ChainSpec) (err : ValidationError) :
  version s = 1 ->
  0 < sampleRate s < 2 ^ 31 ->
  Forall (fun n => is_object (params n) = true) (chain s) ->
  parseChainJson (chainSpecToJson s) err = (Some s, err).
Proof.
  intros Hv Hsr Hall. rewrite parse_written by done.
  rewrite map_written_id by done. destruct s. simpl in *. by subst.
Qed.

(** The sample rates [get<int>()] turns into a number that is not
    positive: 0, and those from 2^31 on. *)
Lemma parse_written_rate (s : ChainSpec) (err : ValidationError) :
  version s = 1 ->
  sampleRate s = 0 \/ 2 ^ 31 <= sampleRate s < 2 ^ 32 ->
  parseChainJson (chainSpecToJson s) err
  = (None, {| message := "'sampleRate' must be > 0" |}).
Proof.
  intros Hv Hsr.
  unfold parseChainJson, chainSpecToJson, parseCanonicalV1, contains, at_key.
  simpl. rewrite Hv. simpl.
  assert (Hw : wrap_int32 (sampleRate s) <= 0).
  { unfold wrap_int32. destruct Hsr as [-> | Hsr]; [done|].
    replace (sampleRate s + 2 ^ 31)
      with (sampleRate s - 2 ^ 31 + 1 * 2 ^ 32) by lia.
    rewrite Z.mod_add by lia. rewrite Z.mod_small; lia. }
  destruct (wrap_int32 (sampleRate s) <=? 0) eqn:E0; [done|lia].
Qed.

(** X1. [parseChainJson] reads back what [chainSpecToJson] wrote.  For a
    spec of version 1 whose sample rate is positive and below 2^31 the
    text parses, without an error message, to the spec itself when every
    node's [params] is an object, and in general to the spec with each
    [params] that is not an object replaced by the empty object (ids,
    types, categories, enabled flags and asset paths come back as they
    were).  A sample rate of 0, or one from 2^31 on (the field is a
    [uint32_t], read back with [get<int>()]), is written but not read
    back: the parse fails with "'sampleRate' must be > 0". *)
Theorem parseChainJson_chainSpecToJson (s : ChainSpec) (err : ValidationError) :
  version s = 1 ->
  0 <= sampleRate s < 2 ^ 32 ->
  (0 < sampleRate s < 2 ^ 31 ->
   parseChainJson (chainSpecToJson s) err
   = (Some {| version := 1; sampleRate := sampleRate s;
              chain := map written (chain s) |}, err)
   /\ (Forall (fun n => is_object (params n) = true) (chain s) ->
       parseChainJson (chainSpecToJson s) err = (Some s, err)))
  /\ (~ 0 < sampleRate s < 2 ^ 31 ->
      parseChainJson (chainSpecToJson s) err
      = (None, {| message := "'sampleRate' must be > 0" |})).
Proof.
  intros Hv Hr. split.
  - intros Hsr. split; [by apply parse_written|].
    by apply parse_written_objects.
  - intros Hsr. apply parse_written_rate; [done|lia].
Qed.

Definition rt_node : NodeSpec :=
  {| id := "amp1"; type := "nam_model"; category := "amp"; enabled := false;
     params := JObject [("levelDb", JInt 3)];
     asset := Some {| path := "/m.nam" |} |}.
Definition rt_spec : ChainSpec :=
  {| version := 1; sampleRate := 44100;
     chain := [rt_node; set_params rt_node JNull] |}.

Lemma parseChainJson_chainSpecToJson_witness :
  (0 < sampleRate rt_spec < 2 ^ 31 ->
   parseChainJson (chainSpecToJson rt_spec) {| message := "" |}
   = (Some {| version := 1; sampleRate := sampleRate rt_spec;
              chain := map written (chain rt_spec) |}, {| message := "" |})
   /\ (Forall (fun n => is_object (params n) = true) (chain rt_spec) ->
       parseChainJson (chainSpecToJson rt_spec) {| message := "" |}
       = (Some rt_spec, {| message := "" |})))
  /\ (~ 0 < sampleRate rt_spec < 2 ^ 31 ->
      parseChainJson (chainSpecToJson rt_spec) {| message := "" |}
      = (None, {| message := "'sampleRate' must be > 0" |})).
Proof.
  refine (parseChainJson_chainSpecToJson rt_spec {| message := "" |} _ _).
  - reflexivity.
  - simpl; lia.
Defined.
End SchemaRoundTrip.

Section ValidateComplete.
Import Schema.

Lemma first_index_bound t nodes k :
  first_index t nodes = Some k -> (k < length nodes)%nat.
Proof.
  revert k. induction nodes as [|n ns IH]; intros k; simpl; [done|].
  destruct (String.eqb _ _).
  - intros [= <-]. lia.
  - destruct (first_index t ns) as [j|]; simpl; [|done].
    intros [= <-]. specialize (IH j eq_refl). lia.
Qed.

Lemma invariants_accepted (spec : ChainSpec) (err : ValidationError) :
  Z.of_nat (length (chain spec)) <= 2 ^ 31 ->
  chain_invariants spec ->
  Forall (fun n => type n <> "") (chain spec) ->
  validateChainSpec spec err = (Some spec, err).
Proof.
  intros Hlen (Hver & Hl & (h & Hh & Hht) & (l & Hl' & Hlt)
               & (a & c & Ha & Hc & Hac) & Hids & Hnd) Hty.
  unfold validateChainSpec, fail. rewrite Hver. simpl.
  destruct (length (chain spec) <? 2)%nat eqn:E; [apply Nat.ltb_lt in E; lia|].
  rewrite checkIds_complete; [|
    rewrite Forall_forall in Hids, Hty; apply Forall_forall; intros n Hn;
    repeat split; [by apply Hids|by apply Hty|set_solver] | done].
  assert (Ef : front_type (chain spec) = "input").
  { unfold front_type. destruct (chain spec); simpl in Hh; [done|].
    by injection Hh as ->. }
  assert (Eb : back_type (chain spec) = "output").
  { unfold back_type. by rewrite Hl'. }
  rewrite Ef, Eb. simpl.
  assert (Hta : hasType (chain spec) "nam_model" = true)
    by (apply hasType_first_index; by rewrite Ha).
  assert (Htc : hasType (chain spec) "ir_convolver" = true)
    by (apply hasType_first_index; by rewrite Hc).
  rewrite Hta, Htc. simpl.
  rewrite findAmpCab_spec by (simpl; lia). rewrite Ha, Hc.
  unfold settle. simpl.
  destruct (_ || _) eqn:Eord; [|done].
  apply first_index_bound in Ha, Hc.
  repeat (apply orb_true_iff in Eord as [Eord|Eord]); lia.
Qed.

(** X2. [validateChainSpec] accepts exactly the chains that satisfy the
    invariants of a validated chain and have no node with an empty type:
    such a spec is returned unchanged and [err] is left as it was; any
    other spec is refused (nothing is returned).  The length bound keeps
    the positions within [int]. *)
Theorem validateChainSpec_accepts_iff (spec : ChainSpec)
  (err : ValidationError) :
  Z.of_nat (length (chain spec)) <= 2 ^ 31 ->
  (validateChainSpec spec err = (Some spec, err)
   <-> chain_invariants spec /\ Forall (fun n => type n <> "") (chain spec))
  /\ (fst (validateChainSpec spec err) = None
      \/ validateChainSpec spec err = (Some spec, err)).
Proof.
  intros Hlen. split; [split|].
  - intros Hv. by apply validated_chain in Hv as (_ & _ & ? & ?).
  - intros [? ?]. by apply invariants_accepted.
  - destruct (validateChainSpec spec err) as [[v|] e] eqn:Hv; [|by left].
    right. by apply validated_chain in Hv as (-> & -> & _).
Qed.

Lemma validateChainSpec_accepts_iff_witness :
  (validateChainSpec four_nodes {| message := "" |}
   = (Some four_nodes, {| message := "" |})
   <-> chain_invariants four_nodes
       /\ Forall (fun n => type n <> "") (chain four_nodes))
  /\ (fst (validateChainSpec four_nodes {| message := "" |}) = None
      \/ validateChainSpec four_nodes {| message := "" |}
         = (Some four_nodes, {| message := "" |})).
Proof.
  refine (validateChainSpec_accepts_iff four_nodes {| message := "" |} _).
  simpl; lia.
Defined.
End ValidateComplete.

Section BuildProofs.
Import Schema Convolver Nodes Chain.
Context {F : Type} `{Float F} `{LibM F} `{FFTW F} `{!Externals F}.

Lemma build_nam_id_type spec ctx node w :
  build_nam spec ctx = Ok (node, w) ->
  node_id node = id spec /\ node_type node = "nam_model".
Proof.
  unfold build_nam, bypassed.
  repeat case_match; intros [= <- _]; done.
Qed.

Lemma build_ir_id_type spec ctx node w :
  build_ir spec ctx = Ok (node, w) ->
  node_id node = id spec /\ node_type node = "ir_convolver".
Proof.
  unfold build_ir, bypassed.
  repeat case_match; intros [= <- _]; done.
Qed.

Lemma buildNode_id_type spec ctx rt node w rt' :
  buildNode spec ctx rt = (Ok (node, w), rt') ->
  node_id node = id spec /\ node_type node = type spec.
Proof.
  unfold buildNode.
  destruct (String.eqb (type spec) "input") eqn:E1;
    [apply String.eqb_eq in E1; intros [= <- _ _]; done|].
  destruct (String.eqb (type spec) "output") eqn:E2;
    [apply String.eqb_eq in E2; intros [= <- _ _]; done|].
  destruct (String.eqb (type spec) "overdrive") eqn:E3;
    [apply String.eqb_eq in E3; intros [= <- _ _]; done|].
  destruct (String.eqb (type spec) "nam_model") eqn:E4.
  { apply String.eqb_eq in E4. intros [= Hb _].
    apply build_nam_id_type in Hb. by rewrite E4. }
  destruct (String.eqb (type spec) "ir_convolver") eqn:E5; [|done].
  apply String.eqb_eq in E5. intros [= Hb _].
  apply build_ir_id_type in Hb. by rewrite E5.
Qed.

Lemma buildNodes_id_type specs ctx acc ws rt nodes w rt' :
  buildNodes specs ctx acc ws rt = (Ok (nodes, w), rt') ->
  map node_id nodes = map node_id acc ++ map id specs
  /\ map node_type nodes = map node_type acc ++ map type specs.
Proof.
  revert acc ws rt. induction specs as [|ns rest IH]; intros acc ws rt; simpl.
  - intros [= <- _ _]. by rewrite !app_nil_r.
  - destruct (buildNode ns ctx rt) as [[[node warning]|e] rt1] eqn:Hb;
      [|done].
    intros Hrest. apply IH in Hrest as [Hi Ht].
    apply buildNode_id_type in Hb as [Hni Hnt].
    rewrite !map_app, <- !app_assoc in Hi, Ht. cbn [map app] in Hi, Ht.
    rewrite Hni in Hi. by rewrite Hnt in Ht.
Qed.

Lemma buildNodes_first_failure specs ctx acc ws rt e rt' :
  buildNodes specs ctx acc ws rt = (Err e, rt') ->
  exists pre ns post nodeErr,
    specs = pre ++ ns :: post
    /\ e = ("Failed to build node '" ++ id ns ++ "' (" ++ type ns ++ "): "
           ++ nodeErr)%string
    /\ (exists rt0 rt1, buildNode ns ctx rt0 = (Err nodeErr, rt1))
    /\ exists nodes w rt0,
         buildNodes pre ctx acc ws rt = (Ok (nodes, w), rt0)
         /\ buildNode ns ctx rt0 = (Err nodeErr, rt').
Proof.
  revert acc ws rt. induction specs as [|ns rest IH]; intros acc ws rt; simpl;
    [done|].
  destruct (buildNode ns ctx rt) as [[[node warning]|ne] rt1] eqn:Hb.
  - intros Hrest. apply IH in Hrest
      as (pre & n & post & nodeErr & -> & -> & Hf & nodes & w & rt0 & Hp & Hn).
    exists (ns :: pre), n, post, nodeErr. repeat split; [done|].
    exists nodes, w, rt0. simpl. rewrite Hb. done.
  - intros [= <- <-]. exists [], ns, rest, ne. repeat split.
    + by exists rt, rt1.
    + exists acc, ws, rt. done.
Qed.

Lemma buildChain_ok s ctx timing rt built rt' :
  buildChain s ctx timing rt = (Ok built, rt') ->
  spec (bc_chain built) = s
  /\ map node_id (nodes_ (bc_chain built)) = map id (chain s)
  /\ map node_type (nodes_ (bc_chain built)) = map type (chain s)
  /\ ctx_ (bc_chain built) = ctx.
Proof.
  unfold buildChain.
  destruct (buildNodes (chain s) ctx [] "" rt) as [[[nodes w]|e] rt1] eqn:Hb;
    [|done].
  intros [= <- _]. apply buildNodes_id_type in Hb as [Hi Ht].
  simpl in Hi, Ht. unfold spec, mkSignalChain.
  destruct timing; [destruct (for_loop _ _ _) as [[? ?] ?]|]; done.
Qed.

(** X3. A chain that [buildChain] returns mirrors the spec it was built
    from: [spec()] is that spec, and its nodes are as many as the spec's
    entries, in the same order, each with the id and the type of its
    entry (a bypassed amp or cab keeps its type); its context is the one
    given.  When [buildChain] fails, the nodes before some entry were
    built, that entry's [buildNode] failed, and the error names its id
    and type and carries the node's message. *)
Theorem buildChain_mirrors_spec (s : ChainSpec) (ctx : ProcessContext)
  (timing : bool) (rt : RtParams F) :
  match buildChain s ctx timing rt with
  | (Ok built, _) =>
      spec (bc_chain built) = s
      /\ map node_id (nodes_ (bc_chain built)) = map id (chain s)
      /\ map node_type (nodes_ (bc_chain built)) = map type (chain s)
      /\ ctx_ (bc_chain built) = ctx
  | (Err e, rt') =>
      exists pre ns post nodeErr nodes w rt0,
        chain s = pre ++ ns :: post
        /\ buildNodes pre ctx [] "" rt = (Ok (nodes, w), rt0)
        /\ buildNode ns ctx rt0 = (Err nodeErr, rt')
        /\ e = ("Failed to build node '" ++ id ns ++ "' (" ++ type ns
                ++ "): " ++ nodeErr)%string
  end.
Proof.
  destruct (buildChain s ctx timing rt) as [[built|e] rt'] eqn:Hb.
  - by eapply buildChain_ok.
  - unfold buildChain in Hb.
    destruct (buildNodes (chain s) ctx [] "" rt) as [[[nodes w]|e'] rt1]
      eqn:Hn; [done|].
    injection Hb as <- <-.
    apply buildNodes_first_failure in Hn
      as (pre & n & post & nodeErr & Hs & -> & _ & nodes & w & rt0 & Hp & Hn).
    by exists pre, n, post, nodeErr, nodes, w, rt0.
Qed.
End BuildProofs.

Section BypassProofs.
Import Schema Convolver Nodes Chain.
Context {F : Type} `{Float F} `{LibM F} `{FFTW F} `{!Externals F}.

(** The warning of a bypassed amp or cab. *)
Definition bypass_warning (spec : NodeSpec) : string :=
  if enabled spec then type spec ++ " missing asset.path (bypassing)" else "".

Lemma bypassed_builds (spec : NodeSpec) (ctx : ProcessContext)
  (rt : RtParams F) :
  type spec = "nam_model" \/ type spec = "ir_convolver" ->
  enabled spec = false \/ has_asset_path spec = false ->
  buildNode spec ctx rt
  = (Ok (bypassed spec (type spec) (bypass_warning spec)), rt).
Proof.
  intros Ht Hoff. unfold buildNode, bypass_warning.
  destruct Ht as [Ht|Ht]; rewrite Ht; simpl;
    [unfold build_nam|unfold build_ir];
    (destruct (enabled spec) eqn:Ee; simpl;
     [destruct Hoff as [? | ->]; [done|]; simpl|]); reflexivity.
Qed.

(** X4. An amp ([nam_model]) or cab ([ir_convolver]) entry that is
    disabled, or has no asset path (none, or the empty string), always
    builds, without its asset being opened and without the realtime
    cells being touched: the node keeps the entry's id and type, its
    [process] copies the block from input to output whatever the
    parameters say, and the build carries a warning exactly when the
    entry was enabled. *)
Theorem bypassed_node_copies_input (spec : NodeSpec) (ctx : ProcessContext)
  (rt : RtParams F) :
  type spec = "nam_model" \/ type spec = "ir_convolver" ->
  enabled spec = false \/ has_asset_path spec = false ->
  exists node w,
    buildNode spec ctx rt = (Ok (node, w), rt)
    /\ node_id node = id spec
    /\ node_type node = type spec
    /\ (w = "" <-> enabled spec = false)
    /\ forall rt' inb outb k,
         process rt' node inb outb k = (node, memcpy outb inb k).
Proof.
  intros Ht Hoff. rewrite bypassed_builds by done.
  eexists _, _. split; [reflexivity|]. unfold bypass_warning.
  repeat split; try done.
  - destruct (enabled spec); [|done]. destruct Ht as [-> | ->]; done.
  - by intros ->.
Qed.
End BypassProofs.

Section BootProofs.
Import Schema Convolver Nodes Chain Control Boot.
Context {F : Type} `{Float F} `{LibM F} `{FFTW F} `{!Externals F}.

(** [validateChainSpec] returns its argument or nothing. *)
Lemma validate_returns_arg s err v e :
  validateChainSpec s err = (Some v, e) -> v = s /\ e = err.
Proof.
  unfold validateChainSpec, fail.
  repeat case_match; intros [= <- <-]; done.
Qed.

(** It looks at the version, the ids and the types only. *)
Definition same_shape (s s' : ChainSpec) : Prop :=
  version s = version s'
  /\ map id (chain s) = map id (chain s')
  /\ map type (chain s) = map type (chain s').

Lemma checkIds_shape ns ns' ids :
  map id ns = map id ns' -> map type ns = map type ns' ->
  checkIds ns ids = checkIds ns' ids.
Proof.
  revert ns' ids. induction ns as [|n ns IH]; intros [|n' ns'] ids; simpl;
    try done.
  intros [= Hi His] [= Ht Hts]. rewrite Hi, Ht. by rewrite (IH ns').
Qed.

Lemma hasType_shape ns ns' t :
  map type ns = map type ns' -> hasType ns t = hasType ns' t.
Proof.
  revert ns'. induction ns as [|n ns IH]; intros [|n' ns']; simpl; try done.
  intros [= Ht Hts]. rewrite Ht. by rewrite (IH ns').
Qed.

Lemma findAmpCab_shape ns ns' i a c :
  map type ns = map type ns' -> findAmpCab ns i a c = findAmpCab ns' i a c.
Proof.
  revert ns' i a c. induction ns as [|n ns IH]; intros [|n' ns'] i a c; simpl;
    try done.
  intros [= Ht Hts]. rewrite Ht. by apply IH.
Qed.

Lemma back_type_shape ns ns' :
  map type ns = map type ns' -> back_type ns = back_type ns'.
Proof.
  unfold back_type. intros Ht.
  assert (E : type <$> last ns = type <$> last ns').
  { rewrite <- !fmap_last. change (last (map type ns) = last (map type ns')).
    by rewrite Ht. }
  destruct (last ns), (last ns'); simpl in E; congruence.
Qed.

Lemma front_type_shape ns ns' :
  map type ns = map type ns' -> front_type ns = front_type ns'.
Proof. destruct ns, ns'; simpl; congruence. Qed.

Lemma validate_shape s s' err err' :
  same_shape s s' ->
  is_Some (fst (validateChainSpec s err))
  -> validateChainSpec s' err' = (Some s', err').
Proof.
  intros (Hv & Hi & Ht). unfold validateChainSpec, fail.
  assert (Hl : length (chain s) = length (chain s')).
  { by rewrite <- (length_map id), Hi, length_map. }
  rewrite Hv, Hl, (checkIds_shape _ _ _ Hi Ht), (front_type_shape _ _ Ht),
    (back_type_shape _ _ Ht), !(hasType_shape _ _ _ Ht),
    (findAmpCab_shape _ _ _ _ _ Ht).
  repeat case_match; simpl; intros [? ?]; done.
Qed.

Lemma map_preserved {A B} (f : A -> B) (g : A -> A) (l : list A) :
  (forall x, f (g x) = f x) -> map f (map g l) = map f l.
Proof. intros Hfg. rewrite map_map. by apply map_ext. Qed.

Lemma applyBypassFlagsToSpec_shape be s :
  same_shape s (applyBypassFlagsToSpec be s).
Proof.
  unfold same_shape, applyBypassFlagsToSpec. simpl.
  split; [done|].
  split; symmetry; apply map_preserved; intros n; repeat case_match; done.
Qed.

Lemma override_trim_shape v ns :
  map id (override_trim v ns) = map id ns
  /\ map type (override_trim v ns) = map type ns.
Proof.
  induction ns as [|n ns [IHi IHt]]; simpl; [done|].
  destruct (String.eqb (type n) "input"); simpl; [done|].
  by rewrite IHi, IHt.
Qed.

Lemma same_shape_sym s s' : same_shape s s' -> same_shape s' s.
Proof. intros (? & ? & ?). by repeat split. Qed.

Lemma same_shape_trans s1 s2 s3 :
  same_shape s1 s2 -> same_shape s2 s3 -> same_shape s1 s3.
Proof.
  intros (? & ? & ?) (? & ? & ?). repeat split; congruence.
Qed.

(** The flag [applyBypassFlagsToSpec] applies to a node of type [t]. *)
Definition bypass_flag (be : BootEnv) (t : string) : bool :=
  if String.eqb t "nam_model" then passthroughMode be || bypassNam be
  else if String.eqb t "ir_convolver" then passthroughMode be || bypassIr be
  else false.

(** X5. [applyBypassFlagsToSpec] changes nothing but [enabled] flags:
    version and sample rate are kept, every node keeps its id, type,
    category, params and asset, and its [enabled] becomes false when the
    node is a [nam_model] and passthrough or bypassNam is set, or an
    [ir_convolver] and passthrough or bypassIr is set, and is otherwise
    what it was.  The result validates if and only if the argument
    does. *)
Theorem applyBypassFlagsToSpec_spec (be : BootEnv) (s : ChainSpec)
  (err : ValidationError) :
  let s' := applyBypassFlagsToSpec be s in
  version s' = version s
  /\ sampleRate s' = sampleRate s
  /\ chain s'
     = map (fun n =>
              set_enabled n (enabled n && negb (bypass_flag be (type n))))
         (chain s)
  /\ (validateChainSpec s' err = (Some s', err)
      <-> validateChainSpec s err = (Some s, err)).
Proof.
  simpl. split; [done|]. split; [done|]. split.
  - unfold applyBypassFlagsToSpec. simpl. apply map_ext. intros [i t c e p a].
    unfold bypass_flag, set_enabled. simpl.
    destruct (String.eqb t "nam_model"), (String.eqb t "ir_convolver"),
      (passthroughMode be), (bypassNam be), (bypassIr be), e; done.
  - pose proof (applyBypassFlagsToSpec_shape be s) as Hs.
    split; intros Hv.
    + eapply validate_shape; [apply same_shape_sym, Hs|]. by rewrite Hv.
    + eapply validate_shape; [exact Hs|]. by rewrite Hv.
Qed.

Lemma default_valid sr err :
  validateChainSpec (defaultChainSpec sr) err = (Some (defaultChainSpec sr), err).
Proof. reflexivity. Qed.

Lemma boot_spec_valid be sr b rt :
  validateChainSpec (boot_spec be sr b rt) no_error
  = (Some (boot_spec be sr b rt), no_error).
Proof.
  unfold boot_spec. cbv zeta.
  match goal with
  | |- context [match validateChainSpec ?s no_error with _ => _ end] =>
      destruct (validateChainSpec s no_error) as [[v|] e] eqn:Hv
  end.
  - by destruct (validate_returns_arg _ _ _ _ Hv) as [-> ->].
  - apply (validate_shape (defaultChainSpec sr) _ no_error);
      [apply applyBypassFlagsToSpec_shape|].
    by rewrite default_valid.
Qed.

Lemma boot_spec_sampleRate be sr b rt : sampleRate (boot_spec be sr b rt) = sr.
Proof.
  unfold boot_spec. repeat case_match; done.
Qed.

(** The nodes that build whatever the machine holds. *)
Definition always_builds (n : NodeSpec) : Prop :=
  In (type n) ["input"; "output"; "overdrive"]
  \/ ((type n = "nam_model" \/ type n = "ir_convolver")
      /\ (enabled n = false \/ has_asset_path n = false)).

Lemma buildNode_always n ctx rt :
  always_builds n -> exists r rt', buildNode n ctx rt = (Ok r, rt').
Proof.
  intros [Ht|[Ht Hoff]].
  - unfold buildNode. simpl in Ht.
    destruct Ht as [<-|[<-|[<-|[]]]]; simpl; by eexists _, _.
  - rewrite bypassed_builds by done. by eexists _, _.
Qed.

Lemma buildNodes_always specs ctx acc ws rt :
  Forall always_builds specs ->
  exists r rt', buildNodes specs ctx acc ws rt = (Ok r, rt').
Proof.
  intros Hall. revert acc ws rt.
  induction Hall as [|n ns Hn _ IH]; intros acc ws rt; simpl.
  - by eexists _, _.
  - destruct (buildNode_always n ctx rt Hn) as ([node w] & rt' & ->).
    apply IH.
Qed.

Lemma fallback_builds sr ctx timing rt :
  exists built rt', buildChain (fallback_spec sr) ctx timing rt = (Ok built, rt').
Proof.
  unfold buildChain.
  destruct (buildNodes_always (chain (fallback_spec sr)) ctx [] "" rt)
    as ([nodes w] & rt' & ->).
  - simpl. repeat constructor; unfold always_builds; simpl; tauto.
  - by eexists _, _.
Qed.

(** X6. [initChainRuntime] always leaves the engine with an active
    chain, whatever the configuration, the flags, the environment and
    the asset files are: the chain's spec is [lastSpec], its nodes have
    the types of that spec in order, [lastSpec] validates and carries
    the sample rate given, and the context holds the sample rate and
    block size given with both realtime cells bound.  (The branch that
    reports a fatal failure to build the fallback chain is never taken:
    the fallback has its amp and cab disabled, and such nodes build
    without their assets.)  The pending handle is not touched. *)
Theorem initChainRuntime_boots (be : BootEnv) (sampleRate : Z)
  (maxBlockFrames : nat) (b : BootSpec) (st : ChainRuntimeState F)
  (rt : RtParams F) :
  let st' := fst (initChainRuntime be sampleRate maxBlockFrames b st rt) in
  exists c,
    activeChain st' = Some c
    /\ spec c = lastSpec st'
    /\ map node_type (nodes_ c) = map type (chain (lastSpec st'))
    /\ validateChainSpec (lastSpec st') no_error
       = (Some (lastSpec st'), no_error)
    /\ Schema.sampleRate (lastSpec st') = sampleRate
    /\ ctx st' = {| ctx_sampleRate := sampleRate;
                    Nodes.maxBlockFrames := maxBlockFrames;
                    inputTrimDb := true; inputTrimLin := true |}
    /\ ctx_ c = ctx st'
    /\ pendingChain st' = pendingChain st.
Proof.
  simpl. unfold initChainRuntime.
  set (c := {| ctx_sampleRate := sampleRate |}).
  destruct (buildChain (boot_spec be sampleRate b rt) c _ rt)
    as [[built|e] rt1] eqn:Hb.
  - apply buildChain_ok in Hb as (Hs & _ & Ht & Hc).
    exists (bc_chain built). simpl. repeat split; try done.
    + apply boot_spec_valid.
    + apply boot_spec_sampleRate.
  - destruct (fallback_builds sampleRate c (env_ALSA_NODE_TIMING be) rt1)
      as (fb & rt2 & Hfb).
    rewrite Hfb. apply buildChain_ok in Hfb as (Hs & _ & Ht & Hc).
    exists (bc_chain fb). simpl. repeat split; done.
Qed.
End BootProofs.

Section ParsedParams.
Import Schema.

Definition params_are_objects (ns : list NodeSpec) : Prop :=
  Forall (fun n => is_object (params n) = true) ns.

Lemma parseNode_params jn err n e :
  parseNode jn err = (Some n, e) -> is_object (params n) = true.
Proof.
  unfold parseNode, fail.
  destruct (is_object jn); simpl; [|done].
  destruct (getString jn "id" err) as [[i|] e1]; [|done].
  destruct (getString jn "type" e1) as [[t|] e2]; [|done].
  destruct (contains "category" jn && _); [done|].
  destruct (contains "enabled" jn && _); [done|].
  destruct (contains "params" jn) eqn:Ec;
    [destruct (is_object (at_key "params" jn)) eqn:Eo; simpl; [|done]|simpl];
    destruct (contains "asset" jn);
    repeat (match goal with
            | |- context [if ?b then _ else _] => destruct b
            end; simpl; try done);
    intros [= <- _]; simpl; done.
Qed.

Lemma parseNodes_params js acc err ns e :
  params_are_objects acc ->
  parseNodes js acc err = (Some ns, e) -> params_are_objects ns.
Proof.
  revert acc err. induction js as [|jn js IH]; intros acc err Hacc; simpl.
  - by intros [= <- _].
  - destruct (parseNode jn err) as [[n|] e1] eqn:Hn; [|done].
    apply IH. apply Forall_app. split; [done|].
    apply Forall_singleton. by eapply parseNode_params.
Qed.

Lemma parseChainJson_params j err s e :
  parseChainJson j err = (Some s, e) -> params_are_objects (chain s).
Proof.
  unfold parseChainJson, fail.
  destruct (negb (is_object j)); [done|].
  destruct (_ && _).
  - unfold parseCanonicalV1, fail.
    destruct (negb (contains "version" j) || _); [done|].
    destruct (negb (get_int (at_key "version" j) =? 1)); [done|].
    assert (Hafter : forall sr,
      (if negb (contains "chain" j) || negb (is_array (at_key "chain" j))
       then (None, {| message := "Missing/invalid 'chain' (must be array)" |})
       else
         match parseNodes (items (at_key "chain" j)) [] err with
         | (None, err0) => (None, err0)
         | (Some ns, err0) =>
             (Some {| version := get_int (at_key "version" j);
                      sampleRate := sr; chain := ns |}, err0)
         end) = (Some s, e) -> params_are_objects (chain s)).
    { intros sr. destruct (_ || _); [done|].
      destruct (parseNodes _ _ _) as [[ns|] e1] eqn:Hns; [|done].
      intros [= <- _]. simpl. eapply parseNodes_params; [|exact Hns].
      constructor. }
    destruct (contains "sampleRate" j); [|apply Hafter].
    destruct (negb (is_number_integer (at_key "sampleRate" j))); [done|].
    destruct (_ <=? _); [done|]. apply Hafter.
  - unfold parseLegacy, fail, set_param, legacy_node, set_asset, set_params.
    repeat (match goal with
            | |- context [if ?b then _ else _] => destruct b
            end; simpl; try done);
      intros [= <- _]; simpl; repeat constructor.
Qed.

Lemma validate_version s err v e :
  validateChainSpec s err = (Some v, e) -> version s = 1.
Proof.
  unfold validateChainSpec, fail.
  destruct (version s =? 1) eqn:E; simpl; [|done]. intros _. lia.
Qed.
End ParsedParams.

Section RestartProofs.
Import Schema Convolver Nodes Chain Control Boot.
Context {F : Type} `{Float F} `{LibM F} `{FFTW F} `{!Externals F}.

(** What [initChainRuntime] does to the spec it starts from: the sample
    rate, the bypass flags, the trim of the environment. *)
Definition normalised (be : BootEnv) (sampleRate : Z) (rt : RtParams F)
  (s : ChainSpec) : ChainSpec :=
  let s := applyBypassFlagsToSpec be (set_sampleRate s sampleRate) in
  if env_ALSA_INPUT_TRIM_DB be then
    set_chain s
      (override_trim
         (JFloat (to_double
                    (clampf (cell_inputTrimDb rt) (fneg (of_Z 24)) (of_Z 24))))
         (chain s))
  else s.

Lemma normalised_shape be sr rt s : same_shape s (normalised be sr rt s).
Proof.
  unfold normalised. cbv zeta.
  pose proof (applyBypassFlagsToSpec_shape be (set_sampleRate s sr)) as Hs.
  assert (Hr : same_shape s (set_sampleRate s sr)) by by repeat split.
  destruct (env_ALSA_INPUT_TRIM_DB be).
  - eapply same_shape_trans; [exact Hr|].
    eapply same_shape_trans; [exact Hs|].
    destruct (override_trim_shape
      (JFloat (to_double
                 (clampf (cell_inputTrimDb rt) (fneg (of_Z 24)) (of_Z 24))))
      (chain (applyBypassFlagsToSpec be (set_sampleRate s sr)))) as [Hi Ht].
    unfold same_shape, set_chain. cbn [chain version]. by rewrite Hi, Ht.
  - by eapply same_shape_trans.
Qed.

Lemma loadConfig_init be d :
  let b := loadConfig be d BootSpec_init in
  (gBootSpecValid b = true /\
   exists err, validateChainSpec (gBootSpec b) err = (Some (gBootSpec b), err))
  \/ b = BootSpec_init.
Proof.
  unfold loadConfig.
  repeat case_match; try (by right). left. simpl. split; [done|].
  match goal with
  | Hval : validateChainSpec _ _ = (Some _, _) |- _ =>
      destruct (validate_returns_arg _ _ _ _ Hval) as [-> ->];
      eexists; exact Hval
  end.
Qed.

(** X7. The chain the engine sets out to build at start-up is the
    configured one.  After [loadConfig] from the initial globals, the
    spec [initChainRuntime] builds is the loaded chain when the file
    gave a valid one, else the default chain, with the run's sample
    rate, the bypass flags and the trim of the environment applied: the
    branch that replaces a chain found invalid after this normalisation
    is never taken, and the ids and types are those of the chain
    started from. *)
Theorem boot_spec_is_the_config (be : BootEnv) (d : Disk) (sampleRate : Z)
  (rt : RtParams F) :
  let b := loadConfig be d BootSpec_init in
  let start := if gBootSpecValid b then gBootSpec b
               else defaultChainSpec sampleRate in
  boot_spec be sampleRate b rt = normalised be sampleRate rt start
  /\ map id (chain (boot_spec be sampleRate b rt)) = map id (chain start)
  /\ map type (chain (boot_spec be sampleRate b rt)) = map type (chain start).
Proof.
  cbv zeta. set (b := loadConfig be d BootSpec_init).
  set (start := if gBootSpecValid b then gBootSpec b
                else defaultChainSpec sampleRate).
  assert (Hstart : exists err,
            validateChainSpec start err = (Some start, err)).
  { destruct (loadConfig_init be d) as [[Hb Hv]|Hb]; fold b in Hb; subst start.
    - fold b in Hv. by rewrite Hb.
    - rewrite Hb. simpl. exists no_error. apply default_valid. }
  destruct Hstart as [err Hstart].
  pose proof (normalised_shape be sampleRate rt start) as Hs.
  assert (E : boot_spec be sampleRate b rt
              = normalised be sampleRate rt start).
  { unfold boot_spec. fold start. cbv zeta.
    change (match validateChainSpec (normalised be sampleRate rt start)
                    no_error with
            | (Some _, _) => normalised be sampleRate rt start
            | (None, _) =>
                applyBypassFlagsToSpec be (defaultChainSpec sampleRate)
            end = normalised be sampleRate rt start).
    rewrite (validate_shape start _ err no_error Hs); [done|].
    by rewrite Hstart. }
  rewrite E. destruct Hs as (_ & Hi & Ht). by rewrite Hi, Ht.
Qed.

(** X8. An accepted [set_chain] whose file reached the disk survives a
    restart.  When the server runs on the configuration path that
    [loadConfig] reads, the engine's sample rate is positive and below
    2^31, the flush of the file did not fail, and the JSON library
    reads back the text it dumped for the accepted spec, then after a
    [set_chain] answered with ok = true, [loadConfig] on the disk as the
    request left it sets the boot spec to [lastSpec], the accepted
    chain, and marks it valid. *)
Theorem accepted_chain_is_loaded_at_boot (env : Env) (be : BootEnv)
  (w : World F) (req : Json) (b : BootSpec) :
  request_for "set_chain" req ->
  configPath (state w) = config_path ->
  0 < ctx_sampleRate (ctx (state w)) < 2 ^ 31 ->
  let r := handleRequest env w req in
  let accepted := lastSpec (state (snd r)) in
  at_key "ok" (fst r) = JBool true ->
  flushed env accepted ->
  stream_read be (dump2 env (chainSpecToJson accepted) ++ String "010" "")
  = Ok (chainSpecToJson accepted) ->
  loadConfig be (disk (snd r)) b
  = {| gBootSpec := accepted; gBootSpecValid := true |}.
Proof.
  intros Hreq Hpath Hsr. cbv zeta.
  rewrite (handleRequest_set_chain_steps env w req Hreq). cbv zeta.
  destruct (negb (contains "chain" req)); [done|].
  destruct (parseChainJson (at_key "chain" req) no_error)
    as [[parsed|] verr] eqn:Hp; [|done].
  destruct (validateChainSpec _ verr) as [[validated|] verr'] eqn:Hv; [|done].
  destruct (buildChain validated _ _ _) as [[built|e] rt'] eqn:Hb; [|done].
  destruct (persistChainToDisk env _ validated (disk w))
    as [[[]|e] d'] eqn:Hd; [|done].
  simpl. intros _ Hfl Hread.
  apply persist_success_writes_file in Hd as [Hd _]; [|done].
  destruct (validate_returns_arg _ _ _ _ Hv) as [-> ->].
  unfold loadConfig. rewrite <- Hpath, Hd, Hread.
  rewrite parse_written_objects.
  - rewrite (validate_shape _ _ verr no_error
               (ltac:(by repeat split) : same_shape _ _)); [done|].
    by rewrite Hv.
  - by apply validate_version in Hv.
  - done.
  - simpl. by eapply parseChainJson_params.
Qed.
End RestartProofs.

Section ProtocolProofs.
Import Schema Convolver Nodes Chain Control.
Context {F : Type} `{Float F} `{LibM F} `{FFTW F} `{!Externals F}.

Lemma resp_ok_ok warning : get "ok" (resp_ok warning) = Some (JBool true).
Proof. unfold resp_ok. by destruct (negb _). Qed.

(** X9. What every answer of [handleRequest] has in common.  The answer
    is either an error answer (ok = false with an error text) or has
    ok = true and no error field.  Any request other than a well-formed
    [set_chain] (not an object, no string [cmd], [list_types],
    [get_chain], an unknown command) leaves the whole world as it was:
    state, realtime cells and disk.  An error answer leaves the three
    handles of the state and the configuration file as they were.  No
    request changes the active chain, the context or the two paths. *)
Theorem handleRequest_protocol (env : Env) (w : World F) (req : Json) :
  let r := handleRequest env w req in
  let st := state w in
  let st' := state (snd r) in
  ((exists msg, fst r = resp_error msg)
   \/ (get "ok" (fst r) = Some (JBool true) /\ get "error" (fst r) = None))
  /\ (~ request_for "set_chain" req -> snd r = w)
  /\ ((exists msg, fst r = resp_error msg) ->
      untouched st st'
      /\ disk (snd r) !! configPath st = disk w !! configPath st)
  /\ Control.activeChain st' = Control.activeChain st
  /\ ctx st' = ctx st
  /\ configPath st' = configPath st
  /\ socketPath st' = socketPath st.
Proof.
  cbv zeta.
  destruct (is_object req) eqn:Hobj.
  2:{ unfold handleRequest. rewrite Hobj. simpl.
      repeat split; try done; by left; eexists. }
  destruct (contains "cmd" req) eqn:Hc.
  2:{ unfold handleRequest. rewrite Hobj, Hc. simpl.
      repeat split; try done; by left; eexists. }
  destruct (is_string (at_key "cmd" req)) eqn:Hs.
  2:{ unfold handleRequest. rewrite Hobj, Hc, Hs. simpl.
      repeat split; try done; by left; eexists. }
  destruct (at_key "cmd" req) as [| | | |cmd| |] eqn:Hcmd; try done.
  destruct (String.eqb cmd "set_chain") eqn:Eset.
  - apply String.eqb_eq in Eset. subst cmd.
    assert (Hreq : request_for "set_chain" req) by done.
    rewrite (handleRequest_set_chain_steps env w req Hreq). cbv zeta.
    destruct (negb (contains "chain" req));
      [repeat split; try done; by left; eexists|].
    destruct (parseChainJson (at_key "chain" req) no_error)
      as [[parsed|] verr];
      [|repeat split; try done; by left; eexists].
    destruct (validateChainSpec _ verr) as [[validated|] verr'];
      [|repeat split; try done; by left; eexists].
    destruct (buildChain validated _ _ _) as [[built|e] rt'];
      [|repeat split; try done; by left; eexists].
    destruct (persistChainToDisk env _ validated (disk w))
      as [[[]|e] d'] eqn:Hd.
    + simpl. split; [right; split; [apply resp_ok_ok|]|].
      { unfold resp_ok. by destruct (negb _). }
      split; [done|]. split; [|done].
      intros [msg Hmsg]. symmetry in Hmsg. by apply resp_error_is_not_ok in Hmsg.
    + apply persist_failure_keeps_file in Hd. simpl.
      repeat split; try done; by left; eexists.
  - unfold handleRequest. rewrite Hobj, Hc, Hcmd. simpl. rewrite Eset.
    destruct (String.eqb cmd "list_types");
      [repeat split; try done; try (by right); by intros [? ?]|].
    destruct (String.eqb cmd "get_chain").
    + destruct (Control.activeChain (state w)) eqn:Ea; simpl;
        repeat split; try done; try (by right); by left; eexists.
    + repeat split; try done; by left; eexists.
Qed.
End ProtocolProofs.

Section TrimProofs.
Import Schema Convolver Nodes Chain Control.
Context {F : Type} `{Float F} `{LibM F} `{FFTW F} `{!Externals F}.

(** The trim an [input] node is built with, and the realtime cells after
    the node has been built for a context that binds them. *)
Definition spec_trim (n : NodeSpec) : F :=
  match numParam n "inputTrimDb" with
  | Some v => clampf v (fneg (of_Z 24)) (of_Z 24)
  | None => f0
  end.

Definition seeded (n : NodeSpec) : RtParams F :=
  {| cell_inputTrimDb := spec_trim n;
     cell_inputTrimLin := dbToLin (spec_trim n) |}.

Lemma buildNode_rt_other n ctx rt :
  String.eqb (type n) "input" = false -> snd (buildNode n ctx rt) = rt.
Proof.
  intros E. unfold buildNode. rewrite E. repeat case_match; done.
Qed.

Lemma buildNodes_rt_no_input specs ctx acc ws rt :
  hasType specs "input" = false ->
  snd (buildNodes specs ctx acc ws rt) = rt.
Proof.
  revert acc ws rt. induction specs as [|n ns IH]; intros acc ws rt; simpl;
    [done|].
  destruct (String.eqb (type n) "input") eqn:E; [done|]. intros Hns.
  pose proof (buildNode_rt_other n ctx rt E) as Hrt.
  destruct (buildNode n ctx rt) as [[[node warning]|e] rt1]; simpl in Hrt;
    subst rt1; [|done].
  by apply IH.
Qed.

Lemma buildChain_rt s ctx timing rt :
  snd (buildChain s ctx timing rt) = snd (buildNodes (chain s) ctx [] "" rt).
Proof.
  unfold buildChain.
  by destruct (buildNodes _ _ _ _ _) as [[[? ?]|?] ?].
Qed.

Lemma buildChain_seeds s ctx timing rt n rest :
  chain s = n :: rest ->
  type n = "input" ->
  hasType rest "input" = false ->
  inputTrimDb ctx = true ->
  inputTrimLin ctx = true ->
  snd (buildChain s ctx timing rt) = seeded n.
Proof.
  intros Hs Ht Hrest Hd Hl. rewrite buildChain_rt, Hs. simpl.
  unfold buildNode. rewrite Ht, Hd, Hl. simpl.
  by rewrite buildNodes_rt_no_input.
Qed.

Lemma validate_front s err v e :
  validateChainSpec s err = (Some v, e) -> front_type (chain s) = "input".
Proof.
  unfold validateChainSpec, fail.
  destruct (negb (version s =? 1)); [done|].
  destruct (length (chain s) <? 2)%nat; [done|].
  destruct (checkIds (chain s) ∅); [done|].
  destruct (String.eqb (front_type (chain s)) "input") eqn:E; [|done].
  intros _. by apply String.eqb_eq.
Qed.

(** X10. A [set_chain] request changes the live input trim as soon as
    its chain has been validated, whether or not the request is then
    accepted.  For a request whose chain parses and validates, with one
    [input] node (the first, as validation demands) and the realtime
    cells bound in the context, the cells after the request hold the
    trim of that node (its [inputTrimDb] clamped to [-24, 24], 0 without
    one) and its linear gain, also when a later node fails to build or
    the file cannot be written and the answer is an error. *)
Theorem set_chain_seeds_trim (env : Env) (w : World F) (req : Json)
  (parsed validated : ChainSpec) (verr verr' : ValidationError)
  (n : NodeSpec) (rest : list NodeSpec) :
  request_for "set_chain" req ->
  contains "chain" req = true ->
  parseChainJson (at_key "chain" req) no_error = (Some parsed, verr) ->
  validateChainSpec
    (set_sampleRate parsed (ctx_sampleRate (ctx (state w)))) verr
  = (Some validated, verr') ->
  chain validated = n :: rest ->
  hasType rest "input" = false ->
  inputTrimDb (ctx (state w)) = true ->
  inputTrimLin (ctx (state w)) = true ->
  type n = "input"
  /\ rt (snd (handleRequest env w req)) = seeded n.
Proof.
  intros Hreq Hc Hp Hv Hch Hrest Hd Hl.
  assert (Ht : type n = "input").
  { destruct (validate_returns_arg _ _ _ _ Hv) as [-> _].
    apply validate_front in Hv. simpl in Hv, Hch. by rewrite Hch in Hv. }
  split; [exact Ht|].
  rewrite (handleRequest_set_chain_steps env w req Hreq). cbv zeta.
  rewrite Hc, Hp, Hv. simpl.
  pose proof (buildChain_seeds validated (ctx (state w)) (env_node_timing env)
                (rt w) n rest Hch Ht Hrest Hd Hl) as Hseed.
  destruct (buildChain validated _ _ _) as [[built|e] rt']; simpl in Hseed;
    subst rt'; [|done].
  by destruct (persistChainToDisk _ _ _ _) as [[[]|?] ?].
Qed.
End TrimProofs.

Section RingProofs.
Import Swap.
Context {Chain : Type}.
Implicit Types (r : RetireRing Chain) (q : list (option Chain)).

(** How many handles wait in the ring, and the slot of an index. *)
Definition occupancy r : Z := wrap_uint64 (gRetireWrite r - gRetireRead r).
Definition ring_slot (i : Z) : nat :=
  Z.to_nat (wrap_uint32 (i mod kRetireQueueSize)).

(** The ring between two operations: its indices are 64-bit values at
    most a ring apart, and every slot outside the window from read to
    write is empty. *)
Definition ring_ok r : Prop :=
  length (gRetireQueue r) = Z.to_nat kRetireQueueSize
  /\ 0 <= gRetireRead r < 2 ^ 64
  /\ 0 <= gRetireWrite r < 2 ^ 64
  /\ occupancy r <= kRetireQueueSize
  /\ forall k, occupancy r <= k < kRetireQueueSize ->
       gRetireQueue r !! ring_slot (gRetireRead r + k) = Some None.

Lemma slot_mod i : ring_slot i = Z.to_nat (i mod 128).
Proof.
  unfold ring_slot, wrap_uint32, kRetireQueueSize.
  rewrite (Z.mod_small (i mod 128)); [done|].
  pose proof (Z.mod_pos_bound i 128). lia.
Qed.

Lemma slot_lt i : (ring_slot i < 128)%nat.
Proof. rewrite slot_mod. pose proof (Z.mod_pos_bound i 128). lia. Qed.

Lemma mod_64_128 x : (x mod 2 ^ 64) mod 128 = x mod 128.
Proof. apply Z.mod_mod_divide. exists (2 ^ 57). reflexivity. Qed.

Lemma slot_wrap i : ring_slot (wrap_uint64 i) = ring_slot i.
Proof. rewrite !slot_mod. unfold wrap_uint64. by rewrite mod_64_128. Qed.

Lemma slot_add_wrap a b : ring_slot (a + wrap_uint64 b) = ring_slot (a + b).
Proof.
  rewrite !slot_mod. unfold wrap_uint64. f_equal.
  rewrite Z.add_mod by lia. rewrite mod_64_128.
  by rewrite <- Z.add_mod by lia.
Qed.

Lemma slot_inj a k d :
  0 <= k < 128 -> 0 <= d < 128 ->
  ring_slot (a + k) = ring_slot (a + d) -> k = d.
Proof.
  intros Hk Hd. rewrite !slot_mod. intros E.
  pose proof (Z.mod_pos_bound (a + k) 128).
  pose proof (Z.mod_pos_bound (a + d) 128).
  assert (E' : (a + k) mod 128 = (a + d) mod 128) by lia.
  apply Z.cong_iff_0 in E'.
  replace (a + k - (a + d)) with (k - d) in E' by lia.
  apply Z.mod_divide in E' as [c Hc]; lia.
Qed.

Lemma occupancy_range r : 0 <= occupancy r < 2 ^ 64.
Proof. unfold occupancy, wrap_uint64. apply Z.mod_pos_bound. lia. Qed.

Lemma slot_write r :
  ring_slot (gRetireWrite r) = ring_slot (gRetireRead r + occupancy r).
Proof.
  unfold occupancy. rewrite slot_add_wrap. f_equal. lia.
Qed.

Lemma wrap_succ_sub w rd :
  wrap_uint64 (w - rd) < 2 ^ 64 - 1 ->
  wrap_uint64 (wrap_uint64 (w + 1) - rd) = wrap_uint64 (w - rd) + 1.
Proof.
  unfold wrap_uint64. intros Hd.
  rewrite Zminus_mod_idemp_l.
  replace (w + 1 - rd) with ((w - rd) + 1) by lia.
  rewrite <- Zplus_mod_idemp_l.
  pose proof (Z.mod_pos_bound (w - rd) (2 ^ 64)).
  rewrite (Z.mod_small (_ + 1)); lia.
Qed.

Lemma wrap_sub_succ w rd :
  0 < wrap_uint64 (w - rd) ->
  wrap_uint64 (w - wrap_uint64 (rd + 1)) = wrap_uint64 (w - rd) - 1.
Proof.
  unfold wrap_uint64. intros Hd.
  rewrite Zminus_mod_idemp_r.
  replace (w - (rd + 1)) with ((w - rd) - 1) by lia.
  rewrite <- Zminus_mod_idemp_l.
  pose proof (Z.mod_pos_bound (w - rd) (2 ^ 64)).
  rewrite (Z.mod_small (_ - 1)); lia.
Qed.

Lemma wrap_zero_eq w rd :
  0 <= rd < 2 ^ 64 -> 0 <= w < 2 ^ 64 ->
  wrap_uint64 (w - rd) = 0 -> rd = w.
Proof.
  unfold wrap_uint64. intros Hr Hw E.
  apply Z.mod_divide in E as [c Hc]; lia.
Qed.

(** X11. Handing a chain to the retire ring never overwrites a chain
    that waits there.  On a ring in order: when there is room the handle
    goes into the slot of the write index, which was empty, every other
    slot is as it was, one more handle waits, the caller's handle is
    reset and the call returns true; when the ring is full nothing in it
    changes, the caller keeps its handle, the overflow counter goes up
    by one and the call returns false.  Either way the ring is in order
    afterwards and the read index is not touched. *)
Theorem retire_ring_never_overwrites (c : Chain) r :
  ring_ok r ->
  let '(ok, old, r') := retireChainFromAudioThread (Some c) r in
  ring_ok r'
  /\ gRetireRead r' = gRetireRead r
  /\ if ok then
       old = None
       /\ gRetireQueue r !! ring_slot (gRetireWrite r) = Some None
       /\ gRetireQueue r'
          = <[ring_slot (gRetireWrite r) := Some c]> (gRetireQueue r)
       /\ occupancy r' = occupancy r + 1
       /\ gRetireQueueFull r' = gRetireQueueFull r
     else
       old = Some c
       /\ occupancy r = kRetireQueueSize
       /\ gRetireQueue r' = gRetireQueue r
       /\ gRetireWrite r' = gRetireWrite r
       /\ gRetireQueueFull r' = wrap_uint64 (gRetireQueueFull r + 1).
Proof.
  intros (Hlen & Hrd & Hw & Hocc & Hfree).
  unfold retireChainFromAudioThread. fold (occupancy r).
  destruct (Z.geb_spec (occupancy r) kRetireQueueSize) as [Hfull|Hspace].
  - split; [|split; [done|]].
    + unfold ring_ok. change (occupancy _) with (occupancy r). by simpl.
    + repeat split; try done. lia.
  - pose proof (occupancy_range r) as Hor.
    fold (ring_slot (gRetireWrite r)).
    unfold kRetireQueueSize in *.
    assert (Hocc' : wrap_uint64 (wrap_uint64 (gRetireWrite r + 1)
                                 - gRetireRead r) = occupancy r + 1).
    { apply wrap_succ_sub. fold (occupancy r). lia. }
    assert (Hslot : gRetireQueue r !! ring_slot (gRetireWrite r) = Some None).
    { rewrite slot_write. apply Hfree. lia. }
    split; [|split; [done|]].
    + unfold ring_ok, occupancy, kRetireQueueSize.
      cbn [gRetireQueue gRetireWrite gRetireRead gRetireQueueFull].
      rewrite Hocc'.
      split; [by rewrite length_insert|]. split; [done|].
      split; [unfold wrap_uint64; apply Z.mod_pos_bound; lia|].
      split; [lia|]. intros k Hk.
      rewrite list_lookup_insert_ne.
      * apply Hfree. lia.
      * rewrite slot_write. intros E. apply slot_inj in E; lia.
    + by repeat split.
Qed.

Lemma slot_succ rd k :
  ring_slot (wrap_uint64 (rd + 1) + k) = ring_slot (rd + (k + 1)).
Proof.
  rewrite Z.add_comm, slot_add_wrap. f_equal. lia.
Qed.

Lemma retire_drain_spec (n : nat) : forall q rd w,
  0 <= rd < 2 ^ 64 -> 0 <= w < 2 ^ 64 ->
  wrap_uint64 (w - rd) = Z.of_nat n ->
  snd (retire_drain n q rd w) = w
  /\ length (fst (retire_drain n q rd w)) = length q
  /\ (forall k, 0 <= k < Z.of_nat n -> (ring_slot (rd + k) < length q)%nat ->
        fst (retire_drain n q rd w) !! ring_slot (rd + k) = Some None)
  /\ (forall j, q !! j = Some None ->
        fst (retire_drain n q rd w) !! j = Some None).
Proof.
  induction n as [|n IH]; intros q rd w Hrd Hw Hd.
  - simpl. split; [by apply wrap_zero_eq|]. split; [done|].
    split; [lia|done].
  - cbn [retire_drain].
    destruct (Z.eqb_spec rd w) as [->|Hne].
    { rewrite Z.sub_diag in Hd. unfold wrap_uint64 in Hd.
      rewrite Z.mod_0_l in Hd by lia. lia. }
    fold (ring_slot rd).
    assert (Hrd1 : 0 <= wrap_uint64 (rd + 1) < 2 ^ 64)
      by (unfold wrap_uint64; apply Z.mod_pos_bound; lia).
    assert (Hd1 : wrap_uint64 (w - wrap_uint64 (rd + 1)) = Z.of_nat n)
      by (rewrite wrap_sub_succ; lia).
    destruct (IH (<[ring_slot rd := None]> q) _ w Hrd1 Hw Hd1)
      as (Hsnd & Hlen & Hreset & Hkeep).
    rewrite length_insert in Hlen, Hreset.
    split; [done|]. split; [done|]. split.
    + intros k Hk Hin. destruct (decide (k = 0)) as [->|Hk0].
      * apply Hkeep. rewrite Z.add_0_r in *. by apply list_lookup_insert_eq.
      * replace k with ((k - 1) + 1) by lia. rewrite <- slot_succ.
        apply Hreset; [lia|]. rewrite slot_succ.
        by replace (k - 1 + 1) with k by lia.
    + intros j Hj. apply Hkeep.
      destruct (decide (j = ring_slot rd)) as [->|Hjs].
      * apply list_lookup_insert_eq. by eapply lookup_lt_Some.
      * by rewrite list_lookup_insert_ne.
Qed.

Lemma slot_cover rd (j : nat) :
  (j < 128)%nat ->
  exists k, 0 <= k < 128 /\ ring_slot (rd + k) = j.
Proof.
  intros Hj. exists ((Z.of_nat j - rd) mod 128).
  split; [apply Z.mod_pos_bound; lia|].
  rewrite slot_mod, Zplus_mod_idemp_r.
  replace (rd + (Z.of_nat j - rd)) with (Z.of_nat j) by lia.
  rewrite Z.mod_small by lia. lia.
Qed.

Lemma retire_pass_closed r :
  ring_ok r ->
  retire_thread_pass r
  = {| gRetireQueue := replicate (Z.to_nat kRetireQueueSize) None;
       gRetireWrite := gRetireWrite r; gRetireRead := gRetireWrite r;
       gRetireQueueFull := gRetireQueueFull r |}.
Proof.
  intros (Hlen & Hrd & Hw & Hocc & Hfree).
  unfold retire_thread_pass. fold (occupancy r).
  pose proof (occupancy_range r) as Hor.
  destruct (retire_drain_spec (Z.to_nat (occupancy r)) (gRetireQueue r)
              (gRetireRead r) (gRetireWrite r) Hrd Hw)
    as (Hsnd & Hlen' & Hreset & Hkeep).
  { rewrite Z2Nat.id; [done|lia]. }
  destruct (retire_drain _ _ _ _) as [q rd'] eqn:Hdrain.
  simpl in Hsnd, Hlen', Hreset, Hkeep. subst rd'. f_equal.
  apply list_eq. intros j. unfold kRetireQueueSize in *.
  destruct (decide (j < 128)%nat) as [Hj|Hj].
  - rewrite lookup_replicate_2 by lia.
    destruct (slot_cover (gRetireRead r) j Hj) as (k & Hk & <-).
    destruct (decide (k < occupancy r)).
    + apply Hreset; [lia|]. rewrite Hlen. apply slot_lt.
    + apply Hkeep, Hfree. lia.
  - rewrite !lookup_ge_None_2; [done|rewrite length_replicate; lia|lia].
Qed.

Lemma retire_pass_space r :
  ring_ok r -> retireQueueHasSpace (retire_thread_pass r) = true.
Proof.
  intros Hok. rewrite retire_pass_closed by done.
  unfold retireQueueHasSpace. simpl. by rewrite Z.sub_diag.
Qed.

(** X12. A pass of the retire thread over a ring in order releases every
    chain that waits in it: afterwards all 128 slots are empty, the read
    index has caught up with the write index (which the pass does not
    move), the overflow counter is what it was, and the ring is in order
    again with room for a whole ring of handles. *)
Theorem retire_thread_pass_empties r :
  ring_ok r ->
  let r' := retire_thread_pass r in
  gRetireQueue r' = replicate (Z.to_nat kRetireQueueSize) None
  /\ gRetireRead r' = gRetireWrite r
  /\ gRetireWrite r' = gRetireWrite r
  /\ gRetireQueueFull r' = gRetireQueueFull r
  /\ occupancy r' = 0
  /\ retireQueueHasSpace r' = true
  /\ ring_ok r'.
Proof.
  intros Hok. cbv zeta. rewrite retire_pass_closed by done.
  destruct Hok as (Hlen & Hrd & Hw & Hocc & Hfree).
  assert (Hocc0 : occupancy
            {| gRetireQueue := replicate (Z.to_nat kRetireQueueSize) None;
               gRetireWrite := gRetireWrite r;
               gRetireRead := gRetireWrite r;
               gRetireQueueFull := gRetireQueueFull r |} = 0).
  { unfold occupancy. simpl. by rewrite Z.sub_diag. }
  do 4 (split; [done|]). split; [exact Hocc0|].
  split; [unfold retireQueueHasSpace; simpl; by rewrite Z.sub_diag|].
  unfold ring_ok. rewrite Hocc0.
  cbn [gRetireQueue gRetireWrite gRetireRead gRetireQueueFull].
  split; [by rewrite length_replicate|]. split; [done|]. split; [done|].
  split; [done|]. intros k Hk.
  apply lookup_replicate_2. apply slot_lt.
Qed.
End RingProofs.

Section DeferralProofs.
Import Swap.
Context {Chain : Type}.
Implicit Types (sh : Shared Chain) (au : AudioState Chain).

#[local] Arguments retireChainFromAudioThread : simpl never.
#[local] Arguments retireQueueHasSpace : simpl never.

(** The audio loop holding a swap request it could not carry out. *)
Definition holding (a p : Chain) (n : Z) : AudioState Chain :=
  {| activeChain := Some a; deferredRetire := None; deferredSwap := Some p;
     swapNext := None; swapState := Idle; chainSwapCount := n |}.

Definition played (cfg : PeriodConfig) (a : Chain) : option Chain :=
  if passthrough cfg then None else Some a.

Lemma period_defers cfg sh (a p : Chain) n ds :
  retireQueueHasSpace (ring sh) = false ->
  (g_pendingChain sh = Some p /\ ds = None)
  \/ (g_pendingChain sh = None /\ ds = Some p) ->
  audio_period cfg [] sh
    {| activeChain := Some a; deferredRetire := None; deferredSwap := ds;
       swapNext := None; swapState := Idle; chainSwapCount := n |}
  = (set_pendingCell sh None, holding a p n, played cfg a, []).
Proof.
  intros Hfull Hcell. destruct sh as [gact gpend rg]. simpl in *.
  unfold audio_period, holding, played.
  destruct Hcell as [[-> ->]|[-> ->]]; cbn; rewrite Hfull; cbn;
    unfold ramp_step; cbn;
    destruct (passthrough cfg), (0 <? swapRampSamples cfg); reflexivity.
Qed.

Lemma periods_defer cfg sh (a p : Chain) cnt (k : nat) trace :
  retireQueueHasSpace (ring sh) = false ->
  g_pendingChain sh = None ->
  run (replicate k (EvPeriod cfg [])) (sh, holding a p cnt, trace)
  = (sh, holding a p cnt, trace ++ replicate k (played cfg a)).
Proof.
  intros Hfull Hcell. revert trace.
  induction k as [|k IH]; intros trace; [by rewrite app_nil_r|].
  change (run (replicate (S k) (EvPeriod cfg [])) (sh, holding a p cnt, trace))
    with (run (replicate k (EvPeriod cfg []))
            (step (EvPeriod cfg []) (sh, holding a p cnt, trace))).
  unfold step.
  unfold holding at 1.
  rewrite (period_defers cfg sh a p cnt (Some p) Hfull
             (or_intror (conj Hcell eq_refl))).
  assert (Hsh : set_pendingCell (set_pendingCell sh None)
                  (publish_all (concat [])
                     (g_pendingChain (set_pendingCell sh None))) = sh).
  { destruct sh. simpl in *. by subst. }
  rewrite Hsh, IH. by rewrite <- app_assoc.
Qed.

Lemma period_installs_held cfg sh (a p : Chain) cnt :
  retireQueueHasSpace (ring sh) = true ->
  g_pendingChain sh = None ->
  audio_period cfg [] sh (holding a p cnt)
  = (installed cfg p sh (holding a p cnt),
     processes cfg p (holding a p cnt), []).
Proof.
  intros Hspace Hcell. destruct sh as [gact gpend rg]. simpl in *.
  subst gpend. unfold audio_period, holding, installed, processes, ramping.
  assert (Hret : retireChainFromAudioThread (Some a) rg
                 = (true, None, enqueued (Some a) rg))
    by (apply retire_with_space; by right).
  cbn [deferredRetire deferredSwap g_pendingChain pick_up exchange coalesce
       set_pendingCell set_deferredSwap swap_request activeChain is_some
       ring negb orb andb swapNext swapState chainSwapCount g_activeChain].
  rewrite Hspace.
  cbn [negb orb andb set_deferredSwap activeChain deferredRetire swapNext
       swapState chainSwapCount is_some].
  destruct cfg as [pt ramp]. cbn [passthrough swapRampSamples].
  rewrite !andb_true_r.
  destruct pt; cbn [negb andb].
  { unfold install, ramp_step. cbn. rewrite Hret. reflexivity. }
  destruct (0 <? ramp) eqn:Hr.
  - unfold ramp_step, set_swapNext, install. cbn. rewrite Hr. cbn.
    rewrite Hspace. cbn. rewrite Hret. reflexivity.
  - unfold install, ramp_step. cbn. rewrite Hret, Hr. reflexivity.
Qed.

(** X13. A swap request that meets a full retire ring is not lost.
    With a chain [a] active, nothing in flight and the ring full, the
    period that picks up the pending chain [p] keeps [a] active and holds
    [p] as the deferred swap; so does every further period while the
    ring stays full (each block is processed by [a], the swap counter
    does not move, the ring is not touched).  After a pass of the retire
    thread the next period installs [p]: it is the active chain, the
    counter has gone up by one, and [a] is the one handle in the ring. *)
Theorem full_ring_defers_the_swap cfg sh au (a p : Chain)
  (trace : list (option Chain)) (k : nat) :
  settled au ->
  activeChain au = Some a ->
  ring_ok (ring sh) ->
  retireQueueHasSpace (ring sh) = false ->
  g_pendingChain sh = Some p ->
  let held := run (replicate (S k) (@EvPeriod Chain cfg [])) (sh, au, trace) in
  let done := run [EvRetirePass; @EvPeriod Chain cfg []] held in
  activeChain (snd (fst held)) = Some a
  /\ deferredSwap (snd (fst held)) = Some p
  /\ chainSwapCount (snd (fst held)) = chainSwapCount au
  /\ ring (fst (fst held)) = ring sh
  /\ snd held = trace ++ replicate (S k) (played cfg a)
  /\ activeChain (snd (fst done)) = Some p
  /\ g_activeChain (fst (fst done)) = Some p
  /\ deferredSwap (snd (fst done)) = None
  /\ chainSwapCount (snd (fst done)) = wrap_uint64 (chainSwapCount au + 1)
  /\ ring (fst (fst done))
     = enqueued (Some a) (retire_thread_pass (ring sh)).
Proof.
  intros (Hst & Hsn & Hds & Hdr) Hact Hok Hfull Hcell.
  destruct au as [act dr ds sn st cnt].
  cbn [swapState swapNext deferredSwap deferredRetire activeChain]
    in Hst, Hsn, Hds, Hdr, Hact.
  subst act dr ds sn st. cbn [chainSwapCount].
  assert (Hheld : run (replicate (S k) (@EvPeriod Chain cfg []))
            (sh, {| activeChain := Some a; deferredRetire := None;
                    deferredSwap := None; swapNext := None;
                    swapState := Idle; chainSwapCount := cnt |}, trace)
          = (set_pendingCell sh None, holding a p cnt,
             trace ++ replicate (S k) (played cfg a))).
  { change (replicate (S k) (@EvPeriod Chain cfg []))
      with ([@EvPeriod Chain cfg []] ++ replicate k (@EvPeriod Chain cfg [])).
    rewrite run_app.
    change (run [@EvPeriod Chain cfg []] ?s) with (step (@EvPeriod Chain cfg []) s).
    unfold step.
    rewrite (period_defers cfg sh a p cnt None Hfull
               (or_introl (conj Hcell eq_refl))).
    assert (Hsh : set_pendingCell (set_pendingCell sh None)
                    (publish_all (concat [])
                       (g_pendingChain (set_pendingCell sh None)))
                  = set_pendingCell sh None) by by destruct sh.
    rewrite Hsh, periods_defer by (by destruct sh).
    by rewrite <- app_assoc. }
  cbv zeta. rewrite Hheld. cbn [fst snd].
  split; [done|]. split; [done|]. split; [done|].
  split; [by destruct sh|]. split; [done|].
  pose proof (retire_pass_space (ring sh) Hok) as Hspace.
  change (run [EvRetirePass; @EvPeriod Chain cfg []] ?s)
    with (step (@EvPeriod Chain cfg []) (step EvRetirePass s)).
  unfold step at 2. unfold step.
  rewrite period_installs_held; [|by destruct sh..].
  cbn [fst snd installed set_pendingCell activeChain g_activeChain
       deferredSwap chainSwapCount ring holding set_ring].
  repeat split; by destruct sh.
Qed.
End DeferralProofs.

Section FadeInProofs.
Import Swap.
Context {Chain : Type}.
Implicit Types (sh : Shared Chain) (au : AudioState Chain).

#[local] Arguments retireChainFromAudioThread : simpl never.
#[local] Arguments retireQueueHasSpace : simpl never.

(** The audio loop with [c] left in [swapNext] and no ramp under way. *)
Definition stranded (b c : Chain) (n : Z) : AudioState Chain :=
  {| activeChain := Some b; deferredRetire := None; deferredSwap := None;
     swapNext := Some c; swapState := Idle; chainSwapCount := n |}.

Lemma period_fade_in cfg sh (b c : Chain) n :
  passthrough cfg = false ->
  (0 <? swapRampSamples cfg) = true ->
  retireQueueHasSpace (ring sh) = true ->
  g_pendingChain sh = Some c ->
  audio_period cfg [] sh
    {| activeChain := Some b; deferredRetire := None; deferredSwap := None;
       swapNext := None; swapState := FadeIn; chainSwapCount := n |}
  = (set_pendingCell sh None, stranded b c n, Some b, []).
Proof.
  intros Hpt Hramp Hspace Hcell. destruct sh as [gact gpend rg].
  simpl in *. subst gpend. unfold audio_period, stranded.
  cbn. rewrite Hspace, Hpt, Hramp. cbn.
  unfold ramp_step. cbn. rewrite Hpt, Hramp. reflexivity.
Qed.

Lemma period_stranded cfg sh (b c : Chain) n :
  passthrough cfg = false ->
  g_pendingChain sh = None ->
  audio_period cfg [] sh (stranded b c n) = (sh, stranded b c n, Some b, []).
Proof.
  intros Hpt Hcell. destruct sh as [gact gpend rg].
  simpl in *. subst gpend. unfold audio_period, stranded.
  cbn. rewrite Hpt. cbn. unfold ramp_step. cbn. rewrite Hpt.
  by destruct (0 <? swapRampSamples cfg).
Qed.

Lemma periods_stranded cfg sh (b c : Chain) n (k : nat) trace :
  passthrough cfg = false ->
  g_pendingChain sh = None ->
  run (replicate k (EvPeriod cfg [])) (sh, stranded b c n, trace)
  = (sh, stranded b c n, trace ++ replicate k (Some b)).
Proof.
  intros Hpt Hcell. revert trace.
  induction k as [|k IH]; intros trace; [by rewrite app_nil_r|].
  change (run (replicate (S k) (EvPeriod cfg [])) (sh, stranded b c n, trace))
    with (run (replicate k (EvPeriod cfg []))
            (step (EvPeriod cfg []) (sh, stranded b c n, trace))).
  unfold step. rewrite period_stranded by done.
  assert (Hsh : set_pendingCell sh
                  (publish_all (concat []) (g_pendingChain sh)) = sh).
  { destruct sh. simpl in *. by subst. }
  rewrite Hsh, IH. by rewrite <- app_assoc.
Qed.

(** X14. With the swap ramp on, a request that arrives in the period
    after a ramped swap is stranded.  From a settled loop with [a]
    active and room in the ring: [b] is published and a period installs
    it at the end of its fade-out (state FadeIn); [c] is published and
    the next period stores it in [swapNext] while the fade-in completes.
    From then on, for any number of periods without a new request, [b]
    stays the active chain and processes every block, [c] stays in
    [swapNext], the pending cell and the deferred swap are empty and the
    swap counter stands at one swap: [c] is never installed. *)
Theorem request_during_fade_in_is_stranded cfg sh au (a b c : Chain)
  (trace : list (option Chain)) (k : nat) :
  passthrough cfg = false ->
  0 < swapRampSamples cfg ->
  settled au ->
  activeChain au = Some a ->
  g_pendingChain sh = None ->
  retireQueueHasSpace (ring sh) = true ->
  retireQueueHasSpace (enqueued (Some a) (ring sh)) = true ->
  let s :=
    run ([EvPublish b; EvPeriod cfg []; EvPublish c; EvPeriod cfg []]
         ++ replicate k (EvPeriod cfg []))
      (sh, au, trace) in
  activeChain (snd (fst s)) = Some b
  /\ g_activeChain (fst (fst s)) = Some b
  /\ swapNext (snd (fst s)) = Some c
  /\ swapState (snd (fst s)) = Idle
  /\ deferredSwap (snd (fst s)) = None
  /\ g_pendingChain (fst (fst s)) = None
  /\ chainSwapCount (snd (fst s)) = wrap_uint64 (chainSwapCount au + 1)
  /\ snd s = trace ++ [Some a; Some b] ++ replicate k (Some b).
Proof.
  intros Hpt Hramp Hset Hact Hcell Hspace Hspace'.
  assert (Hr : (0 <? swapRampSamples cfg) = true) by (apply Z.ltb_lt; lia).
  cbv zeta.
  change ([EvPublish b; EvPeriod cfg []; EvPublish c; EvPeriod cfg []]
          ++ replicate k (EvPeriod cfg []))
    with ((map EvPublish [b] ++ [@EvPeriod Chain cfg []])
          ++ (EvPublish c :: EvPeriod cfg [] :: replicate k (EvPeriod cfg []))).
  rewrite run_app.
  rewrite (burst_period cfg [] sh au trace [b] [] b Hset
             (or_intror Hspace)); [|done|done].
  destruct au as [act dr ds sn st cnt].
  destruct Hset as (Hst & Hsn & Hds & Hdr).
  cbn [swapState swapNext deferredSwap deferredRetire activeChain]
    in Hst, Hsn, Hds, Hdr, Hact, Hspace'.
  subst act dr ds sn st.
  unfold installed, processes, ramping.
  cbn [fst snd activeChain is_some set_pendingCell unseen concat publish_all
       fold_left ring g_activeChain g_pendingChain chainSwapCount].
  rewrite Hpt, Hr. cbn [negb andb].
  change (run (EvPublish c :: EvPeriod cfg [] :: ?l) ?s)
    with (run l (step (EvPeriod cfg []) (step (EvPublish c) s))).
  unfold step at 2. unfold step.
  cbn [set_pendingCell publish g_activeChain g_pendingChain ring].
  rewrite (period_fade_in cfg _ b c); [|done..].
  cbn [set_pendingCell publish_all concat fold_left g_activeChain
       g_pendingChain ring].
  rewrite periods_stranded; [|done..].
  cbn [fst snd stranded activeChain g_activeChain swapNext swapState
       deferredSwap g_pendingChain chainSwapCount].
  repeat split. by rewrite <- !app_assoc.
Qed.
End FadeInProofs.

Section TimingProofs.
Import Schema Convolver Nodes Chain Snapshot.
Context {F : Type} `{Float F} `{LibM F} `{FFTW F} `{!Externals F}.

(** The timing tables of a chain: every node has a bucket, and the
    bucket is the one of its type. *)
Definition tables_ok (nodes : list (Node F)) (types : list string)
  (nodeToBucket : list Z) : Prop :=
  length nodeToBucket = length nodes
  /\ NoDup types
  /\ (forall i n, nodes !! i = Some n ->
        exists b, nodeToBucket !! i = Some (Z.of_nat b)
                  /\ types !! b = Some (node_type n))
  /\ (forall t, t ∈ types -> exists n, n ∈ nodes /\ node_type n = t).

(** The invariant of the constructor's loop after [i] nodes. *)
Definition tables_upto (nodes : list (Node F)) (i : nat)
  (s : gmap string Z * list string * list Z) : Prop :=
  let '(typeToBucket, types, nodeToBucket) := s in
  length nodeToBucket = length nodes
  /\ NoDup types
  /\ (length types <= i)%nat
  /\ (forall t idx, typeToBucket !! t = Some idx <->
        exists b, idx = Z.of_nat b /\ types !! b = Some t)
  /\ (forall j n, (j < i)%nat -> nodes !! j = Some n ->
        exists b, nodeToBucket !! j = Some (Z.of_nat b)
                  /\ types !! b = Some (node_type n))
  /\ (forall t, t ∈ types ->
        exists j n, (j < i)%nat /\ nodes !! j = Some n /\ node_type n = t).

Lemma bucket_step_keeps nodes i s :
  Z.of_nat (length nodes) < 2 ^ 32 ->
  (i < length nodes)%nat ->
  tables_upto nodes i s -> tables_upto nodes (S i) (bucket_step nodes i s).
Proof.
  intros Hsize Hi. destruct s as [[m types] n2b].
  intros (Hlen & Hnd & Hty & Hm & Hdone & Hsrc).
  unfold bucket_step.
  destruct (nodes !! i) as [n|] eqn:Hn.
  2:{ apply lookup_ge_None in Hn. lia. }
  destruct (m !! node_type n) as [idx|] eqn:Hidx.
  - apply Hm in Hidx as Hb. destruct Hb as (b & -> & Hb).
    cbn [default]. rewrite (proj2 (Hm _ _) (ex_intro _ b (conj eq_refl Hb))).
    cbn [default].
    split; [by rewrite length_insert|]. split; [done|]. split; [lia|].
    split; [done|]. split.
    + intros j n' Hj Hn'. destruct (decide (j = i)) as [->|Hne].
      * rewrite Hn in Hn'. injection Hn' as <-. exists b.
        split; [|done]. apply list_lookup_insert_eq. lia.
      * rewrite list_lookup_insert_ne by done. apply Hdone; [lia|done].
    + intros t Ht. destruct (Hsrc t Ht) as (j & n' & Hj & Hn' & Hnt).
      exists j, n'. split; [lia|done].
  - assert (Hnew : node_type n ∉ types).
    { intros Hin. apply list_elem_of_lookup in Hin as [b Hb].
      rewrite (proj2 (Hm _ _) (ex_intro _ b (conj eq_refl Hb))) in Hidx.
      done. }
    assert (Hw : wrap_uint32 (Z.of_nat (length types))
                 = Z.of_nat (length types)).
    { unfold wrap_uint32. apply Z.mod_small. lia. }
    rewrite Hw, lookup_insert_eq. cbn [default].
    split; [by rewrite length_insert|].
    split; [apply NoDup_app; split; [done|]; split;
              [by intros t Ht ->%list_elem_of_singleton|apply NoDup_singleton]|].
    split; [rewrite length_app; simpl; lia|]. split; [|split].
    + intros t idx. destruct (decide (t = node_type n)) as [->|Hne].
      * rewrite lookup_insert_eq. split.
        -- intros [= <-]. exists (length types). split; [done|].
           by rewrite lookup_app_r, Nat.sub_diag by lia.
        -- intros (b & -> & Hb). f_equal.
           destruct (decide (b < length types)%nat).
           ++ rewrite lookup_app_l in Hb by done.
              exfalso. apply Hnew. by eapply list_elem_of_lookup_2.
           ++ apply lookup_lt_Some in Hb. rewrite length_app in Hb.
              simpl in Hb. f_equal. lia.
      * rewrite lookup_insert_ne by done. rewrite Hm. split.
        -- intros (b & -> & Hb). exists b. split; [done|].
           rewrite lookup_app_l; [done|]. by eapply lookup_lt_Some.
        -- intros (b & -> & Hb). exists b. split; [done|].
           destruct (decide (b < length types)%nat).
           ++ by rewrite lookup_app_l in Hb.
           ++ rewrite lookup_app_r in Hb by lia.
              apply list_lookup_singleton_Some in Hb as [_ <-]. done.
    + intros j n' Hj Hn'. destruct (decide (j = i)) as [->|Hne].
      * rewrite Hn in Hn'. injection Hn' as <-. exists (length types).
        split; [apply list_lookup_insert_eq; lia|].
        by rewrite lookup_app_r, Nat.sub_diag by lia.
      * rewrite list_lookup_insert_ne by done.
        destruct (Hdone j n') as (b & Hb & Hbt); [lia|done|].
        exists b. split; [done|].
        rewrite lookup_app_l; [done|]. by eapply lookup_lt_Some.
    + intros t Ht. apply elem_of_app in Ht as [Ht|Ht].
      * destruct (Hsrc t Ht) as (j & n' & Hj & Hn' & Hnt).
        exists j, n'. split; [lia|done].
      * apply list_elem_of_singleton in Ht as ->. exists i, n.
        split; [lia|done].
Qed.

Lemma constructor_tables nodes :
  Z.of_nat (length nodes) < 2 ^ 32 ->
  tables_upto nodes (length nodes)
    (for_loop (length nodes) (bucket_step nodes)
       (∅, [], replicate (length nodes) 0)).
Proof.
  intros Hsize. unfold for_loop.
  apply (for_range_ind (tables_upto nodes)); [lia| |].
  - unfold tables_upto. split; [by rewrite length_replicate|].
    split; [constructor|]. split; [simpl; lia|]. split; [|split].
    + intros t idx. rewrite lookup_empty. split; [done|].
      by intros (b & _ & Hb).
    + intros j n Hj. lia.
    + intros t Ht. by apply elem_of_nil in Ht.
  - intros i s Hi. apply bucket_step_keeps; [done|lia].
Qed.

Lemma mkSignalChain_tables_ok (s : ChainSpec) (nodes : list (Node F))
  (ctx : ProcessContext) :
  Z.of_nat (length nodes) < 2 ^ 32 ->
  let c := mkSignalChain s nodes ctx true in
  tables_ok (nodes_ c) (timingTypes_ c) (nodeToBucket_ c)
  /\ length (timingBuckets_ c) = length (timingTypes_ c).
Proof.
  intros Hsize. cbv zeta. pose proof (constructor_tables nodes Hsize) as Ht.
  unfold mkSignalChain.
  destruct (for_loop _ _ _) as [[m types] n2b].
  destruct Ht as (Hlen & Hnd & Hty & Hm & Hdone & Hsrc).
  cbn [nodes_ timingTypes_ nodeToBucket_ timingBuckets_].
  split; [|by rewrite length_replicate].
  split; [done|]. split; [done|]. split.
  - intros i n Hn. apply Hdone; [|done]. by eapply lookup_lt_Some.
  - intros t Ht. destruct (Hsrc t Ht) as (j & n & _ & Hn & Hnt).
    exists n. split; [by eapply list_elem_of_lookup_2|done].
Qed.

(** X15. The timing tables the constructor builds when node timing is
    on (fewer than 2^32 nodes): there is one bucket per node type, the
    types being listed without repetitions, every node is mapped to a
    bucket and that bucket is the one of the node's type, every listed
    type is the type of some node, and all counters start at zero. *)
Theorem mkSignalChain_timing_tables (s : ChainSpec) (nodes : list (Node F))
  (ctx : ProcessContext) :
  Z.of_nat (length nodes) < 2 ^ 32 ->
  let c := mkSignalChain s nodes ctx true in
  tables_ok (nodes_ c) (timingTypes_ c) (nodeToBucket_ c)
  /\ timingBuckets_ c
     = replicate (length (timingTypes_ c))
         {| calls := 0; sumUs := 0; maxUs := 0 |}
  /\ (length (timingTypes_ c) <= length nodes)%nat
  /\ nodes_ c = nodes
  /\ nodeTimingEnabled_ c = true.
Proof.
  intros Hsize. cbv zeta. pose proof (constructor_tables nodes Hsize) as Ht.
  unfold mkSignalChain.
  destruct (for_loop _ _ _) as [[m types] n2b].
  destruct Ht as (Hlen & Hnd & Hty & Hm & Hdone & Hsrc).
  cbn [nodes_ timingTypes_ nodeToBucket_ timingBuckets_ nodeTimingEnabled_].
  split; [|done].
  split; [done|]. split; [done|]. split.
  - intros i n Hn. apply Hdone; [|done]. by eapply lookup_lt_Some.
  - intros t Ht. destruct (Hsrc t Ht) as (j & n & _ & Hn & Hnt).
    exists n. split; [by eapply list_elem_of_lookup_2|done].
Qed.

(** How many nodes of a type a chain has. *)
Definition count_type (t : string) (nodes : list (Node F)) : nat :=
  length (filter (fun n => node_type n = t) nodes).

Lemma for_loop_first {S : Type} (n : nat) (body : nat -> S -> S) (s : S) :
  for_loop (Datatypes.S n) body s = for_range 1 (Datatypes.S n) body (body 0%nat s).
Proof.
  unfold for_loop, for_range. rewrite !Nat.sub_0_r.
  replace (Datatypes.S n - 1)%nat with n by lia. reflexivity.
Qed.

Lemma pingpong_buckets rt c us frames lo hi init :
  snd (for_range lo hi (pingpong_step rt c us frames) init)
  = for_range lo hi
      (fun i b => if nodeTimingEnabled_ c then record_timing c i (us i) b
                  else b)
      (snd init).
Proof.
  destruct (Nat.le_gt_cases lo hi) as [Hle|Hlt].
  2:{ by rewrite !for_range_empty by lia. }
  induction hi as [|hi IH].
  - by rewrite !for_range_empty by lia.
  - destruct (decide (lo = Datatypes.S hi)) as [->|Hne].
    + by rewrite !for_range_empty by lia.
    + rewrite !for_range_S by lia. rewrite <- IH by lia.
      destruct (for_range lo hi _ init) as [[[nodes bufs] [a b]] buckets].
      unfold pingpong_step. cbn [snd].
      by destruct (call_node _ _ _ _ _ _).
Qed.

Lemma process_buckets rt us c inb outb k :
  timingBuckets_ (fst (SignalChain_process rt us c inb outb k))
  = if nodeTimingEnabled_ c
    then for_loop (length (nodes_ c))
           (fun i b => record_timing c i (us i) b) (timingBuckets_ c)
    else timingBuckets_ c.
Proof.
  unfold SignalChain_process.
  destruct (nodes_ c) as [|n0 rest] eqn:Hnodes.
  { simpl. by destruct (nodeTimingEnabled_ c). }
  rewrite <- Hnodes.
  destruct (call_node _ _ _ _ _ _) as [nodes1 bufs1].
  match goal with
  | |- context [for_range 1 ?hi ?body ?init] =>
      pose proof (pingpong_buckets rt c us
        (if (k <=? Nodes.maxBlockFrames (ctx_ c))%nat then k
         else Nodes.maxBlockFrames (ctx_ c)) 1 hi init) as Hb;
      destruct (for_range 1 hi body init) as [[[nodes2 bufs2] [a b]] buckets2]
  end.
  cbn [snd fst timingBuckets_] in Hb |- *. rewrite Hb.
  rewrite Hnodes. cbn [length]. rewrite for_loop_first.
  destruct (nodeTimingEnabled_ c); [done|].
  clear. generalize (timingBuckets_ c). intros b.
  induction (length rest) as [|m IH]; [by rewrite for_range_empty by lia|].
  by rewrite for_range_S by lia.
Qed.

Lemma record_loop_calls (c : SignalChain F) us (i : nat) :
  tables_ok (nodes_ c) (timingTypes_ c) (nodeToBucket_ c) ->
  length (timingBuckets_ c) = length (timingTypes_ c) ->
  (i <= length (nodes_ c))%nat ->
  let B := for_loop i (fun j b => record_timing c j (us j) b)
             (timingBuckets_ c) in
  length B = length (timingBuckets_ c)
  /\ forall b t bk, timingTypes_ c !! b = Some t ->
       timingBuckets_ c !! b = Some bk ->
       0 <= calls bk < 2 ^ 64 ->
       exists bk', B !! b = Some bk'
         /\ calls bk'
            = wrap_uint64 (calls bk
                           + Z.of_nat (count_type t (take i (nodes_ c)))).
Proof.
  intros (Hlen & Hnd & Hnode & _) Hbk. cbv zeta.
  induction i as [|i IH]; intros Hi.
  - unfold for_loop. rewrite for_range_empty by lia. split; [done|].
    intros b t bk _ Hb Hr. exists bk. split; [done|].
    unfold count_type, wrap_uint64. rewrite take_0, filter_nil.
    change (Z.of_nat (length [])) with 0.
    rewrite Z.add_0_r. symmetry. by apply Z.mod_small.
  - destruct IH as [IHlen IHcalls]; [lia|].
    unfold for_loop in *. rewrite for_range_S by lia.
    set (B := for_range 0 i _ _) in *.
    destruct (lookup_lt_is_Some_2 (nodes_ c) i) as [n Hn]; [lia|].
    destruct (Hnode i n Hn) as (bi & Hbi & Hti).
    unfold record_timing.
    assert (Hrd : match nodeToBucket_ c with
                  | [] => 0
                  | _ => rd 0 (nodeToBucket_ c) i
                  end = Z.of_nat bi).
    { unfold rd. rewrite Hbi. destruct (nodeToBucket_ c); [done|done]. }
    rewrite Hrd, Nat2Z.id.
    destruct (lookup_lt_is_Some_2 B bi) as [bkt Hbkt].
    { rewrite IHlen, Hbk. by eapply lookup_lt_Some. }
    rewrite Hbkt. split; [by rewrite length_insert|].
    intros b t bk Ht Hb Hr.
    destruct (IHcalls b t bk Ht Hb Hr) as (bk' & Hbk' & Hcalls).
    rewrite (take_S_r _ _ _ Hn). unfold count_type in *.
    rewrite filter_app, length_app.
    destruct (decide (b = bi)) as [->|Hne].
    + rewrite Hti in Ht. injection Ht as <-.
      rewrite filter_cons_True, filter_nil by done. cbn [length].
      rewrite Hbkt in Hbk'. injection Hbk' as <-.
      eexists. split; [apply list_lookup_insert_eq; by eapply lookup_lt_Some|].
      cbn [calls]. rewrite Hcalls. unfold wrap_uint64.
      rewrite Zplus_mod_idemp_l.
      apply (f_equal (fun z => z mod 2 ^ 64)). lia.
    + rewrite list_lookup_insert_ne by done. exists bk'. split; [done|].
      rewrite filter_cons_False, filter_nil;
        [cbn [length]; by rewrite Nat.add_0_r|].
      intros E. apply Hne. eapply NoDup_lookup; [exact Hnd|exact Ht|].
      by rewrite <- E.
Qed.

(** X16. With node timing on and the tables in order, one call of
    [process] adds to the call counter of each type's bucket the number
    of nodes of that type in the chain (modulo 2^64), whatever the block
    and the durations measured; the number of buckets does not
    change. *)
Theorem process_counts_calls (rt : RtParams F) (us : nat -> Z)
  (c : SignalChain F) (inb outb : list F) (k : nat) :
  nodeTimingEnabled_ c = true ->
  tables_ok (nodes_ c) (timingTypes_ c) (nodeToBucket_ c) ->
  length (timingBuckets_ c) = length (timingTypes_ c) ->
  let c' := fst (SignalChain_process rt us c inb outb k) in
  length (timingBuckets_ c') = length (timingBuckets_ c)
  /\ forall b t bk, timingTypes_ c !! b = Some t ->
       timingBuckets_ c !! b = Some bk ->
       0 <= calls bk < 2 ^ 64 ->
       exists bk', timingBuckets_ c' !! b = Some bk'
         /\ calls bk'
            = wrap_uint64 (calls bk + Z.of_nat (count_type t (nodes_ c))).
Proof.
  intros Hen Hok Hbk. cbv zeta. rewrite process_buckets, Hen.
  pose proof (record_loop_calls c us (length (nodes_ c)) Hok Hbk
                (Nat.le_refl _)) as Hloop.
  cbv zeta in Hloop. by rewrite firstn_all in Hloop.
Qed.
End TimingProofs.

Section SnapshotProofs.
Import Schema Convolver Nodes Chain Snapshot.
Context {F : Type} `{Float F} `{LibM F} `{FFTW F} `{!Externals F}.

(** The entry a snapshot writes for bucket [i] of chain [c]. *)
Definition stat_of (c : SignalChain F) (i : nat) : NodeTimingStat :=
  let b := rd TimingBucket_default (timingBuckets_ c) i in
  {| stat_type := Some (rd "" (timingTypes_ c) i);
     stat_calls := calls b; stat_sumUs := sumUs b; stat_maxUs := maxUs b |}.

Lemma replicate_snoc_drop {A : Type} (z : A) (l : list A) (i : nat) :
  (i < length l)%nat ->
  <[i := z]> (replicate i z ++ drop i l) = replicate (S i) z ++ drop (S i) l.
Proof.
  intros Hi.
  rewrite insert_app_r_alt by (rewrite length_replicate; lia).
  rewrite length_replicate, Nat.sub_diag.
  destruct (drop i l) as [|x rest] eqn:Hd.
  { apply (f_equal length) in Hd. rewrite length_drop in Hd. simpl in Hd. lia. }
  assert (Hrest : drop (S i) l = rest).
  { rewrite <- (Nat.add_1_l i), Nat.add_comm, <- drop_drop, Hd. done. }
  rewrite Hrest. simpl.
  change (z :: rest) with ([z] ++ rest). rewrite app_assoc. f_equal.
  by rewrite <- replicate_S_end.
Qed.

(** X17. [snapshotNodeTiming] on an array of at least [cap] entries.
    With timing off or [cap] = 0 it returns 0 and touches neither the
    array nor the chain.  Otherwise it returns n = min(cap, number of
    buckets), the first n entries of the array are the type and the
    three counters of buckets 0..n-1 as they were before the call, the
    entries from n on are untouched, and the chain is unchanged unless
    [reset] is set, in which case exactly the n buckets copied are
    zeroed (buckets from n on keep their counts). *)
Theorem snapshotNodeTiming_spec (c : SignalChain F)
  (o : list NodeTimingStat) (cap : nat) (reset : bool) :
  (cap <= length o)%nat ->
  let '(n, out, c') := snapshotNodeTiming c (Some o) cap reset in
  if nodeTimingEnabled_ c && (0 <? cap)%nat then
    n = min cap (length (timingBuckets_ c))
    /\ out = Some (map (stat_of c) (seq 0 n) ++ drop n o)
    /\ c' = set_timingBuckets c
              (if reset
               then replicate n TimingBucket_default
                    ++ drop n (timingBuckets_ c)
               else timingBuckets_ c)
  else n = 0%nat /\ out = Some o /\ c' = c.
Proof.
  intros Hcap. unfold snapshotNodeTiming.
  destruct (nodeTimingEnabled_ c) eqn:Hen; cbn [negb orb andb]; [|done].
  destruct cap as [|cap']; [done|]. set (cap := S cap') in *.
  change ((cap =? 0)%nat) with false. change ((0 <? cap)%nat) with true.
  cbv iota.
  set (n := min cap (length (timingBuckets_ c))).
  pose (P := fun (i : nat) (s : list NodeTimingStat * list TimingBucket) =>
    s = (map (stat_of c) (seq 0 i) ++ drop i o,
         if reset
         then replicate i TimingBucket_default ++ drop i (timingBuckets_ c)
         else timingBuckets_ c)).
  assert (HP : P n (for_loop n
    (fun i '(o0, buckets) =>
       let b := rd TimingBucket_default buckets i in
       let o1 :=
         <[i := {| stat_type := Some (rd "" (timingTypes_ c) i);
                   stat_calls := calls b; stat_sumUs := sumUs b;
                   stat_maxUs := maxUs b |}]> o0 in
       let buckets0 :=
         if reset then <[i := TimingBucket_default]> buckets else buckets in
       (o1, buckets0))
    (o, timingBuckets_ c))).
  { unfold for_loop. apply (for_range_ind P); [lia| |].
    - unfold P. simpl. rewrite !drop_0. by destruct reset.
    - intros i [o0 B] Hi HPi. unfold P in *. injection HPi as -> ->.
      assert (Hrd : rd TimingBucket_default
                (if reset
                 then replicate i TimingBucket_default
                      ++ drop i (timingBuckets_ c)
                 else timingBuckets_ c) i
              = rd TimingBucket_default (timingBuckets_ c) i).
      { destruct reset; [|done]. unfold rd.
        rewrite lookup_app_r by (rewrite length_replicate; lia).
        rewrite length_replicate, Nat.sub_diag, lookup_drop.
        by rewrite Nat.add_0_r. }
      cbv zeta. rewrite Hrd. fold (stat_of c i). f_equal.
      + rewrite seq_S, map_app, <- app_assoc. simpl.
        rewrite insert_app_r_alt by (rewrite length_map, length_seq; lia).
        rewrite length_map, length_seq, Nat.sub_diag. f_equal.
        destruct (drop i o) as [|x rest] eqn:Hd.
        { apply (f_equal length) in Hd. rewrite length_drop in Hd.
          simpl in Hd. lia. }
        simpl. f_equal.
        rewrite <- (Nat.add_1_l i), Nat.add_comm, <- drop_drop, Hd. done.
      + destruct reset; [|done]. apply replicate_snoc_drop. lia. }
  unfold P in HP. rewrite HP. done.
Qed.
End SnapshotProofs.

Section IrNodeProofs.
Import Schema Convolver Nodes.
Context {F : Type} `{Float F} `{LibM F} `{FFTW F} `{!Externals F}.

Lemma init_ok ir blockSize conv :
  init ir blockSize = (true, conv) ->
  mBlock conv = blockSize /\ mReady conv = true /\ 0 < blockSize.
Proof.
  unfold init.
  destruct (Z.leb_spec blockSize 0) as [|Hb]; [done|].
  repeat (case_match; try done).
  intros [= <-]. simpl. split; [done|]. split; [done|lia].
Qed.

Lemma build_ir_convolver spec ctx nd w :
  build_ir spec ctx = Ok (NIrConvolver nd, w) ->
  sp_enabled (ir_std nd) = true
  /\ ready (conv_ nd) = true
  /\ mBlock (conv_ nd) = wrap_int32 (Z.of_nat (maxBlockFrames ctx))
  /\ ir_maxFrames nd = maxBlockFrames ctx
  /\ ir_out nd = replicate (maxBlockFrames ctx) f0
  /\ ir_std nd = parseStd spec.
Proof.
  unfold build_ir, bypassed.
  destruct (enabled spec) eqn:Een; simpl; [|done].
  destruct (negb (has_asset_path spec)); [done|].
  destruct (load_ir_mono _) as [ir|e]; [|done].
  destruct (negb _); [done|].
  cbv zeta.
  match goal with
  | |- context [if ?b then (ir_trim _ _, _) else _] => destruct b
  end;
    (destruct (init _ _) as [ok conv] eqn:Hinit;
     destruct ok; simpl; [|done]; intros [= <- _];
     apply init_ok in Hinit as (Hb & Hr & _); simpl;
     by rewrite parseStd_enabled).
Qed.

(** X18. A convolver node passes a short block through unconvolved.  For
    every [ir_convolver] node the builder returns with a live convolver
    (block size below 2^31), a call of [process] with fewer frames than
    the block size it was built for does not run the convolution: the
    convolver refuses the block, its state is left as it was, and each
    output sample is the dry mix [in*dry + (in*level)*wet] of the input
    sample; nothing past the block is written. *)
Theorem ir_node_short_block (spec : NodeSpec) (ctx : ProcessContext)
  (rt rt' : RtParams F) (nd : IrConvolverNode F) (w : string)
  (inb outb : list F) (k : nat) :
  buildNode spec ctx rt = (Ok (NIrConvolver nd, w), rt') ->
  Z.of_nat (maxBlockFrames ctx) < 2 ^ 31 ->
  (k < maxBlockFrames ctx)%nat ->
  (k <= length inb)%nat ->
  (k <= length outb)%nat ->
  IrConvolverNode_process nd inb outb k
  = (set_ir_state nd (conv_ nd) (memcpy (ir_out nd) inb k),
     map (mixed (ir_std nd) (fun x => fmul x (levelLin (ir_std nd))) inb)
       (seq 0 k) ++ drop k outb).
Proof.
  intros Hb Hsize Hk Hin Hout.
  assert (Hbi : build_ir spec ctx = Ok (NIrConvolver nd, w)).
  { unfold buildNode in Hb.
    repeat (match type of Hb with
            | (if ?b then _ else _) = _ => destruct b; [try discriminate|]
            end).
    - unfold build_nam, bypassed in Hb. repeat case_match; discriminate.
    - by injection Hb.
    - discriminate. }
  destruct (build_ir_convolver spec ctx nd w Hbi)
    as (Hen & Hr & Hblock & Hmax & Hout_ & _).
  unfold IrConvolverNode_process. rewrite Hen, Hr. cbn [negb orb].
  rewrite Hmax.
  destruct (Nat.leb_spec k (maxBlockFrames ctx)) as [_|?]; [|lia].
  unfold processBlock. unfold ready in Hr. rewrite Hr. cbn [negb orb].
  assert (Hne : (wrap_int32 (Z.of_nat k) =? mBlock (conv_ nd)) = false).
  { apply Z.eqb_neq. rewrite Hblock.
    unfold wrap_int32. rewrite !Z.mod_small; lia. }
  rewrite Hne. cbn [negb].
  rewrite for_range_empty by lia. f_equal.
  rewrite write_loop_closed by done. f_equal.
  apply map_ext_in. intros i Hi. apply in_seq in Hi.
  unfold mixed. do 3 f_equal. unfold rd.
  rewrite memcpy_lookup by done. by rewrite decide_True by lia.
Qed.
End IrNodeProofs.

Section ManifestProofs.
Import Schema Convolver Nodes.
Context {F : Type} `{Float F} `{LibM F} `{FFTW F} `{!Externals F}.

(** The node types the manifest announces. *)
Definition manifest_types : list string :=
  map (fun j => get_string (at_key "type" j))
    (items (at_key "types" nodeTypeManifest)).

Definition unknown_type (spec : NodeSpec) : string :=
  "Unknown node type: " ++ type spec.

Lemma build_nam_known spec ctx e :
  build_nam spec ctx = Err e -> e <> unknown_type spec.
Proof.
  unfold build_nam, bypassed, unknown_type.
  repeat case_match; intros [= <-]; discriminate.
Qed.

Lemma build_ir_known spec ctx e :
  build_ir spec ctx = Err e -> e <> unknown_type spec.
Proof.
  unfold build_ir, bypassed, unknown_type.
  destruct (negb (enabled spec)); [done|].
  destruct (negb (has_asset_path spec)); [done|].
  destruct (load_ir_mono _) as [ir|le]; [|intros [= <-]; discriminate].
  destruct (negb _); [intros [= <-]; discriminate|].
  cbv zeta.
  match goal with
  | |- context [if ?b then (ir_trim _ _, _) else _] => destruct b
  end;
    (destruct (init _ _) as [ok conv]; destruct ok; simpl; [done|];
     intros [= <-]; discriminate).
Qed.

(** X19. The manifest and the builder agree on the node types.  The
    manifest lists overdrive, nam_model, ir_convolver, input and output;
    [buildNode] fails with "Unknown node type: T" (leaving the realtime
    cells alone) for every type T that is not listed, and for a listed
    type it never fails with that message. *)
Theorem buildNode_knows_the_manifest (spec : NodeSpec) (ctx : ProcessContext)
  (rt : RtParams F) :
  manifest_types
  = ["overdrive"; "nam_model"; "ir_convolver"; "input"; "output"]
  /\ (type spec ∈ manifest_types ->
      fst (buildNode spec ctx rt) <> Err (unknown_type spec))
  /\ (type spec ∉ manifest_types ->
      buildNode spec ctx rt = (Err (unknown_type spec), rt)).
Proof.
  split; [reflexivity|].
  change manifest_types
    with ["overdrive"; "nam_model"; "ir_convolver"; "input"; "output"].
  unfold buildNode. split.
  - intros Hin.
    destruct (String.eqb_spec (type spec) "input") as [|E1]; [done|].
    destruct (String.eqb_spec (type spec) "output") as [|E2]; [done|].
    destruct (String.eqb_spec (type spec) "overdrive") as [|E3]; [done|].
    destruct (String.eqb_spec (type spec) "nam_model") as [|E4].
    { simpl. destruct (build_nam spec ctx) as [r|be] eqn:Hb; [done|].
      apply build_nam_known in Hb. congruence. }
    destruct (String.eqb_spec (type spec) "ir_convolver") as [|E5].
    { simpl. destruct (build_ir spec ctx) as [r|be] eqn:Hb; [done|].
      apply build_ir_known in Hb. congruence. }
    exfalso. revert Hin. rewrite !elem_of_cons, elem_of_nil.
    intros [E|[E|[E|[E|[E|[]]]]]]; done.
  - intros Hnot.
    assert (Hne : forall t, t ∈ ["overdrive"; "nam_model"; "ir_convolver";
                                 "input"; "output"] ->
                            String.eqb (type spec) t = false).
    { intros t Ht. apply String.eqb_neq. intros E. by rewrite E in Hnot. }
    rewrite !Hne; [done|set_solver..].
Qed.
End ManifestProofs.

Section RangeProofs.
Import Schema Convolver Nodes.

Lemma clampf_within (v lo hi : spec_float) :
  SFltb lo lo = false -> SFltb hi hi = false -> SFltb hi lo = false ->
  flt (clampf v lo hi) lo = false /\ flt hi (clampf v lo hi) = false.
Proof.
  intros Hlo Hhi Hhl. unfold clampf. simpl.
  destruct (SFltb v lo) eqn:E1; [done|].
  destruct (SFltb hi v) eqn:E2; done.
Qed.

(** X20. In binary32, whatever [params] holds, the standard parameters
    [parseStd] returns are within their bounds: the level is not below
    -48 nor above 24 dB and the mix is not below 0 nor above 1 (no
    comparison finds them outside; a NaN would pass as it is), the
    linear level is the level converted, the wet gain is the mix, the
    dry gain is 1 - mix, and [enabled] is the spec's. *)
Theorem parseStd_within_bounds (libm : LibM spec_float) (spec : NodeSpec) :
  let p := parseStd spec in
  flt (levelDb p) (fneg (of_Z 48)) = false
  /\ flt (of_Z 24) (levelDb p) = false
  /\ flt (mix p) f0 = false
  /\ flt f1 (mix p) = false
  /\ levelLin p = dbToLin (levelDb p)
  /\ mixWet p = mix p
  /\ mixDry p = fsub f1 (mix p)
  /\ sp_enabled p = enabled spec.
Proof.
  cbv zeta. unfold parseStd.
  match goal with
  | |- context [let '(lv, mx) := ?e in _] => destruct e as [lv mx]
  end.
  cbn [levelDb mix levelLin mixWet mixDry sp_enabled].
  destruct (clampf_within lv (fneg (of_Z 48)) (of_Z 24)) as [? ?];
    [reflexivity..|].
  destruct (clampf_within mx f0 f1) as [? ?]; [reflexivity..|].
  done.
Qed.
End RangeProofs.

Section OffsetLoops.
Context {A : Type}.

(** A loop that rewrites the slots from [start] on, each from its own
    content. *)
Lemma update_loop_offset (d : A) (g : nat -> A -> A) (start n : nat)
  (buf : list A) :
  (start + n <= length buf)%nat ->
  for_loop n
    (fun i o => <[(start + i)%nat := g i (rd d o (start + i))]> o) buf
  = take start buf
    ++ map (fun i => g i (rd d buf (start + i))) (seq 0 n)
    ++ drop (start + n) buf.
Proof.
  intros Hn. unfold for_loop.
  pose (P := fun (k : nat) (o : list A) =>
    (start + k <= length buf)%nat ->
    o = take start buf
        ++ map (fun i => g i (rd d buf (start + i))) (seq 0 k)
        ++ drop (start + k) buf).
  enough (Hp : P n (for_range 0 n
            (fun i o => <[(start + i)%nat := g i (rd d o (start + i))]> o)
            buf)) by (by apply Hp).
  apply (for_range_ind P); unfold P; [lia| |].
  - intros _. simpl. rewrite Nat.add_0_r. by rewrite take_drop.
  - intros i o Hi IH Hle. rewrite IH by lia.
    set (l1 := map (fun i0 => g i0 (rd d buf (start + i0))) (seq 0 i)).
    assert (Hl1 : length l1 = i)
      by (unfold l1; by rewrite length_map, length_seq).
    assert (Ht : length (take start buf) = start)
      by (rewrite length_take; lia).
    destruct (drop (start + i) buf) as [|x rest] eqn:Hd.
    { apply (f_equal length) in Hd. rewrite length_drop in Hd.
      simpl in Hd. lia. }
    assert (Hx : buf !! (start + i)%nat = Some x).
    { pose proof (lookup_drop buf (start + i) 0) as Hl.
      rewrite Hd, Nat.add_0_r in Hl. done. }
    assert (Hrest : drop (start + S i) buf = rest).
    { replace (start + S i)%nat with ((start + i) + 1)%nat by lia.
      rewrite <- drop_drop, Hd. done. }
    assert (Hrd : rd d (take start buf ++ l1 ++ x :: rest) (start + i)
                  = rd d buf (start + i)).
    { unfold rd. rewrite lookup_app_r by lia. rewrite Ht.
      rewrite lookup_app_r by lia. rewrite Hl1.
      replace (start + i - start - i)%nat with 0%nat by lia.
      simpl. by rewrite Hx. }
    rewrite Hrd, Hrest. rewrite seq_S, map_app, <- app_assoc. fold l1.
    rewrite insert_app_r_alt by lia. rewrite Ht.
    rewrite insert_app_r_alt by lia. rewrite Hl1.
    replace (start + i - start - i)%nat with 0%nat by lia. reflexivity.
Qed.
End OffsetLoops.

Section RampProofs.
Import Convolver Nodes Ramp.
Context {F : Type} `{Float F}.

(** The gain of sample [i] of a ramp of [r] samples. *)
Definition ramp_in (r : nat) (i : nat) : F :=
  fdiv (of_Z (Z.of_nat i)) (of_Z (Z.of_nat r - 1)).
Definition ramp_out (r : nat) (i : nat) : F := fsub f1 (ramp_in r i).

(** X21. The two swap ramps write the ramp and nothing else.  For a
    block of [frames] samples in [buf] and a ramp of [ramp] samples, with
    r = min(ramp, frames): [applyFadeOut] leaves the first frames - r
    samples and everything after the block as they are and multiplies
    sample i of the last r by 1 - i/(r-1); [applyFadeIn] multiplies
    sample i of the first r by i/(r-1) and leaves the rest; a ramp of one
    sample sets that sample (the last, the first) to zero; with r = 0 the
    buffer is unchanged. *)
Theorem swap_ramps_touch_the_ramp_only (buf : list F) (frames ramp : nat) :
  Z.of_nat frames < 2 ^ 32 ->
  Z.of_nat ramp < 2 ^ 32 ->
  (frames <= length buf)%nat ->
  let r := min ramp frames in
  let faded := applyFadeOut buf (Z.of_nat frames) (Z.of_nat ramp) in
  let raised := applyFadeIn buf (Z.of_nat frames) (Z.of_nat ramp) in
  faded
  = take (frames - r) buf
    ++ (if (r =? 1)%nat then [f0]
        else map (fun i => fmul (rd f0 buf (frames - r + i)) (ramp_out r i))
               (seq 0 r))
    ++ drop frames buf
  /\ raised
     = (if (r =? 1)%nat then [f0]
        else map (fun i => fmul (rd f0 buf i) (ramp_in r i)) (seq 0 r))
       ++ drop r buf.
Proof.
  intros Hf Hr Hlen. cbv zeta. unfold applyFadeOut, applyFadeIn.
  destruct (decide (ramp = 0)%nat) as [->|Hr0].
  { simpl. rewrite Nat.sub_0_r, drop_0. by rewrite take_drop. }
  destruct (decide (frames = 0)%nat) as [->|Hf0].
  { rewrite Nat.min_0_r. simpl. rewrite orb_true_r. by rewrite drop_0. }
  assert (E0 : (Z.of_nat ramp =? 0) || (Z.of_nat frames =? 0) = false).
  { apply orb_false_iff. split; apply Z.eqb_neq; lia. }
  rewrite E0. cbv zeta.
  assert (Emin : Z.min (Z.of_nat ramp) (Z.of_nat frames)
                 = Z.of_nat (min ramp frames)) by lia.
  rewrite Emin. set (r := min ramp frames).
  assert (Hrpos : (0 < r <= frames)%nat) by (unfold r; lia).
  destruct (decide (r = 1)%nat) as [Er|Er].
  - rewrite Er. cbn [Z.of_nat Nat.eqb]. change (Z.pos (Pos.of_succ_nat 0) =? 1) with true.
    cbv iota. split.
    + unfold wrap_uint32. rewrite Z.mod_small by lia.
      replace (Z.to_nat (Z.of_nat frames - 1)) with (frames - 1)%nat by lia.
      destruct (drop (frames - 1) buf) as [|x rest] eqn:Hd.
      { apply (f_equal length) in Hd. rewrite length_drop in Hd.
        simpl in Hd. lia. }
      assert (Hrest : drop frames buf = rest).
      { replace frames with ((frames - 1) + 1)%nat at 1 by lia.
        rewrite <- drop_drop, Hd. done. }
      rewrite Hrest.
      rewrite <- (take_drop (frames - 1) buf) at 1. rewrite Hd.
      rewrite insert_app_r_alt by (rewrite length_take; lia).
      rewrite length_take, Nat.min_l, Nat.sub_diag by lia. done.
    + destruct buf as [|x rest]; [simpl in Hlen; lia|done].
  - assert (E1 : (Z.of_nat r =? 1) = false) by (apply Z.eqb_neq; lia).
    assert (E1' : (r =? 1)%nat = false) by (by apply Nat.eqb_neq).
    rewrite E1, E1', Nat2Z.id.
    assert (Hw : wrap_uint32 (Z.of_nat r - 1) = Z.of_nat r - 1).
    { unfold wrap_uint32. apply Z.mod_small. lia. }
    rewrite Hw. split.
    + unfold for_loop. rewrite (for_range_ext 0 r _
        (fun i o => <[(frames - r + i)%nat :=
                        (fun i x => fmul x (ramp_out r i)) i
                          (rd f0 o (frames - r + i))]> o)).
      * change (for_range 0 r ?f ?b) with (for_loop r f b).
        rewrite (update_loop_offset f0 (fun i x => fmul x (ramp_out r i))
                   (frames - r) r buf) by lia.
        by replace (frames - r + r)%nat with frames by lia.
      * intros i o Hi.
        assert (Hj : Z.to_nat (wrap_uint32
                       (wrap_uint32 (Z.of_nat frames - Z.of_nat r)
                        + Z.of_nat i)) = (frames - r + i)%nat).
        { unfold wrap_uint32.
          rewrite (Z.mod_small (Z.of_nat frames - Z.of_nat r)) by lia.
          rewrite Z.mod_small by lia. lia. }
        by rewrite Hj.
    + by rewrite (update_loop_closed f0
                    (fun i x => fmul x (ramp_in r i))) by lia.
Qed.
End RampProofs.

Section IrTrimProofs.
Import Schema Convolver Nodes.
Context {F : Type} `{Float F} `{LibM F} `{FFTW F} `{!Externals F}.

(** The gain of sample [i] of a taper of [taper] samples. *)
Definition taper_gain (taper i : nat) : F :=
  let t := fdiv (of_Z (Z.of_nat i)) (of_Z (Z.of_nat (taper - 1))) in
  fmul (fconst 5 10) (fadd f1 (cosf (fmul kPi t))).

(** X22. Trimming an impulse response to [maxSamples] (at most its
    length) keeps exactly [maxSamples] samples, leaves all but the last
    min(128, maxSamples) of them as they are, and multiplies sample i of
    those last ones by the raised-cosine gain 0.5 * (1 + cos(pi * i /
    (taper - 1))); a taper of one sample is not applied. *)
Theorem ir_trim_spec (m : list F) (maxSamples : nat) :
  (maxSamples <= length m)%nat ->
  let taper := min 128 maxSamples in
  let start := (maxSamples - taper)%nat in
  length (ir_trim m maxSamples) = maxSamples
  /\ take start (ir_trim m maxSamples) = take start m
  /\ ir_trim m maxSamples
     = take start m
       ++ (if (1 <? taper)%nat
           then map (fun i => fmul (rd f0 m (start + i)) (taper_gain taper i))
                  (seq 0 taper)
           else take taper (drop start m)).
Proof.
  intros Hlen. cbv zeta.
  set (taper := min 128 maxSamples). set (start := (maxSamples - taper)%nat).
  assert (Hst : (start + taper = maxSamples)%nat) by (unfold start, taper; lia).
  assert (Hclosed : ir_trim m maxSamples
     = take start m
       ++ (if (1 <? taper)%nat
           then map (fun i => fmul (rd f0 m (start + i)) (taper_gain taper i))
                  (seq 0 taper)
           else take taper (drop start m))).
  { unfold ir_trim. fold taper. fold start.
    destruct (1 <? taper)%nat.
    - rewrite (update_loop_offset f0 (fun i x => fmul x (taper_gain taper i))
                 start taper m) by lia.
      rewrite Hst, app_assoc.
      rewrite take_app_length'; [done|].
      rewrite length_app, length_take, length_map, length_seq. lia.
    - rewrite <- Hst at 1. by rewrite take_take_drop. }
  split; [|split; [|exact Hclosed]].
  - unfold ir_trim. rewrite length_take.
    match goal with
    | |- context [length ?l] =>
        assert (Hl : length l = length m); [|rewrite Hl; lia]
    end.
    destruct (1 <? min 128 maxSamples)%nat; [|done].
    unfold for_loop.
    apply (for_range_ind (fun _ o => length o = length m)); [lia|done|].
    intros i o _ Ho. by rewrite length_insert.
  - rewrite Hclosed. rewrite take_app_length'; [done|].
    rewrite length_take. lia.
Qed.
End IrTrimProofs.

Section InitProofs.
Import Convolver.
Context {F : Type} `{FloatRing F} `{FFTW F}.

(** X23. When [init] of the convolver succeeds.  With the length of the
    impulse response plus the block size within [int] and the block
    size below 2^30 (so that twice the block size is an [int]), [init]
    returns true exactly when the block size is positive, the impulse
    response is not empty, every allocation returns a block (the output
    spectrum, then the two spectra of each partition) and both plans
    are created; [ready()] afterwards is the flag returned; on success
    the block size is stored and the ring starts at slot 0; on failure
    every later [processBlock] refuses its block, writes nothing and
    leaves the object as it is. *)
Theorem init_ready_iff (ir : list F) (blockSize : Z) :
  Z.of_nat (length ir) + blockSize <= 2 ^ 31 ->
  blockSize < 2 ^ 30 ->
  let r := init ir blockSize in
  let parts :=
    Z.to_nat ((Z.of_nat (length ir) + blockSize - 1) / blockSize) in
  let bins := Z.to_nat (blockSize + 1) in
  ready (snd r) = fst r
  /\ (fst r = true
      <-> 0 < blockSize /\ ir <> []
          /\ fftw_serves parts bins (Z.to_nat (2 * blockSize)))
  /\ (fst r = true -> mBlock (snd r) = blockSize /\ mWrite (snd r) = 0)
  /\ (fst r = false ->
      forall inb outb n, processBlock (snd r) inb outb n = (false, outb, snd r)).
Proof.
  intros Hsize Hsmall. cbv zeta. unfold init.
  destruct (Z.leb_spec blockSize 0) as [Hb|Hb].
  { simpl. split; [done|]. split; [split; [done|lia]|]. split; [done|].
    intros _ inb outb n. reflexivity. }
  assert (Hparts : wrap_int32
            (wrap_uint64 (Z.of_nat (length ir) + blockSize - 1) / blockSize)
          = (Z.of_nat (length ir) + blockSize - 1) / blockSize).
  { unfold wrap_uint64. rewrite Z.mod_small by lia.
    assert (0 <= (Z.of_nat (length ir) + blockSize - 1) / blockSize
            <= Z.of_nat (length ir) + blockSize - 1).
    { split; [apply Z.div_pos; lia|].
      apply Z.div_le_upper_bound; [lia|]. nia. }
    unfold wrap_int32. rewrite Z.mod_small; lia. }
  rewrite Hparts.
  rewrite (wrap_int32_small (2 * blockSize)) by lia.
  assert (Hq : Z.quot (2 * blockSize) 2 + 1 = blockSize + 1).
  { rewrite Z.mul_comm, Z.quot_mul by lia. lia. }
  rewrite Hq.
  set (parts := Z.to_nat ((Z.of_nat (length ir) + blockSize - 1) / blockSize)).
  set (bins := Z.to_nat (blockSize + 1)).
  set (n := Z.to_nat (2 * blockSize)).
  destruct (Z.leb_spec ((Z.of_nat (length ir) + blockSize - 1) / blockSize) 0)
    as [Hp|Hp].
  { assert (Hnil : ir = []).
    { destruct ir as [|x ir']; [done|]. exfalso.
      assert (1 <= (Z.of_nat (length (x :: ir')) + blockSize - 1) / blockSize).
      { apply Z.div_le_lower_bound; [lia|]. simpl length. lia. }
      lia. }
    simpl. split; [done|]. split; [split; [done|by intros (_ & ? & _)]|].
    split; [done|]. intros _ inb outb n0. reflexivity. }
  assert (Hne : ir <> []).
  { intros ->. simpl in Hp. rewrite Z.div_small in Hp by lia. lia. }
  destruct (fftwf_malloc 0 bins) as [g0|] eqn:E0.
  2:{ simpl. split; [done|]. split; [|split; [done|]].
      - split; [done|]. intros (_ & _ & Hm & _).
        destruct (Hm 0%nat ltac:(lia)) as [? E]. rewrite E0 in E. done.
      - intros _ inb outb n0. reflexivity. }
  pose proof (init_allocate_loop parts bins) as Hloop. cbv zeta in Hloop.
  destruct (for_loop parts (init_allocate bins) _) as [[ok Hs0] X0].
  cbn [fst snd] in Hloop. destruct Hloop as [Hiff Hres].
  destruct ok; cbn [negb].
  2:{ simpl. split; [done|]. split; [|split; [done|]].
      - split; [done|]. intros (_ & _ & Hm & _).
        assert (false = true); [|done].
        apply Hiff. intros j Hj. apply Hm. lia.
      - intros _ inb outb n0. reflexivity. }
  destruct (fftwf_plan_dft_r2c_1d n) eqn:Epf; cbn [negb orb].
  2:{ simpl. split; [done|]. split; [|split; [done|]].
      - split; [done|]. intros (_ & _ & _ & ? & _). congruence.
      - intros _ inb outb n0. reflexivity. }
  destruct (fftwf_plan_dft_c2r_1d n) eqn:Epi; cbn [negb].
  2:{ simpl. split; [done|]. split; [|split; [done|]].
      - split; [done|]. intros (_ & _ & _ & _ & ?). congruence.
      - intros _ inb outb n0. reflexivity. }
  destruct (for_loop _ (init_partition _ _ _ _) _) as [[timeIn X] Hs].
  simpl. split; [done|]. split; [|split; [done|done]].
  split; [|done]. intros _. split; [done|]. split; [done|].
  split; [|done].
  intros k Hk. destruct (decide (k = 0)%nat) as [->|?]; [by eexists|].
  apply (proj1 Hiff eq_refl). lia.
Qed.
End InitProofs.

Section NamNodeProofs.
Import Schema Convolver Nodes.
Context {F : Type} `{Float F} `{LibM F} `{FFTW F} `{!Externals F}.

(** What the amp node feeds its model for the input sample [x]: the
    pre-gain, the limiter, the soft clipper. *)
Definition conditioned (n : NamModelNode F) (x : F) : F :=
  let x := fmul x (preLin_ n) in
  let x := if flt (lim_ n) x then lim_ n
           else if flt x (fneg (lim_ n)) then fneg (lim_ n) else x in
  if negb (softclip_ n) then x
  else if softclipTanh_ n then tanhf x else softclipFast x.

(** X24. What an enabled amp node computes for a block within its
    bound.  Each input sample is conditioned (pre-gain, limiter at
    +-lim, then tanh or the cubic soft clipper unless soft clipping is
    off) and the block of conditioned samples is fed to the model;
    output sample i is [in*dry + (y*post)*wet] with [y] the model's
    answer, samples past the block are not written, and the model has
    the block in its history.  When the model throws, [y] is the
    conditioned input itself. *)
Theorem NamModelNode_process_samples (n : NamModelNode F) (m : NamDSP F)
  (inb outb : list F) (k : nat) :
  model_ n = Some m ->
  sp_enabled (nam_std n) = true ->
  (k <= nam_maxFrames n)%nat ->
  (k <= length inb)%nat ->
  (k <= length outb)%nat ->
  (k <= length (nam_in n))%nat ->
  let block := map (fun i => conditioned n (rd f0 inb i)) (seq 0 k) in
  let m' := dsp_feed m block in
  let y := match dsp_respond m' (dsp_fed m') with
           | Some ys => model_write (nam_out n) ys k
           | None => memcpy (nam_out n) (block ++ drop k (nam_in n)) k
           end in
  let r := NamModelNode_process n inb outb k in
  snd r
  = map (fun i =>
           fadd (fmul (rd f0 inb i) (mixDry (nam_std n)))
             (fmul (fmul (rd f0 y i) (nam_postLin n)) (mixWet (nam_std n))))
      (seq 0 k)
    ++ drop k outb
  /\ model_ (fst r) = Some m'
  /\ nam_out (fst r) = y
  /\ (dsp_respond m' (dsp_fed m') = None ->
      forall i, (i < k)%nat -> rd f0 y i = conditioned n (rd f0 inb i)).
Proof.
  intros Hm Hen Hk Hin Hout Hbuf. cbv zeta.
  unfold NamModelNode_process. rewrite Hm, Hen. cbn [negb].
  destruct (Nat.leb_spec k (nam_maxFrames n)) as [_|?]; [|lia].
  assert (Hloop : for_loop k
    (fun i buf =>
       let x := fmul (rd f0 inb i) (preLin_ n) in
       let x0 := if flt (lim_ n) x then lim_ n
                 else if flt x (fneg (lim_ n)) then fneg (lim_ n) else x in
       <[i := if negb (softclip_ n) then x0
              else if softclipTanh_ n then tanhf x0 else softclipFast x0]> buf)
    (nam_in n)
    = map (fun i => conditioned n (rd f0 inb i)) (seq 0 k)
      ++ drop k (nam_in n)).
  { exact (write_loop_closed (fun i => conditioned n (rd f0 inb i)) k
             (nam_in n) Hbuf). }
  cbv zeta. cbv zeta in Hloop. rewrite Hloop.
  rewrite take_app_length' by (by rewrite length_map, length_seq).
  rewrite for_range_empty by lia.
  cbn [fst snd model_ nam_out set_nam_state].
  split; [by apply (write_loop_closed (fun i => fadd _ _))|].
  split; [done|]. split; [done|].
  intros Hnone i Hi. rewrite Hnone. unfold rd.
  rewrite memcpy_lookup
    by (rewrite length_app, length_map, length_seq, length_drop; lia).
  rewrite decide_True by done.
  rewrite lookup_app_l by (rewrite length_map, length_seq; lia).
  change (map ?f ?l) with (f <$> l). rewrite list_lookup_fmap.
  by rewrite lookup_seq_lt by done.
Qed.
End NamNodeProofs.

Section ProcessKeeps.
Import Schema Convolver Nodes Chain.
Context {F : Type} `{Float F} `{LibM F} `{FFTW F} `{!Externals F}.

Lemma process_keeps_node rt (nd : Node F) inb outb k :
  node_id (fst (process rt nd inb outb k)) = node_id nd
  /\ node_type (fst (process rt nd inb outb k)) = node_type nd.
Proof.
  destruct nd as [n|n|n|n|n|n]; cbn [process Node_INode lift fst];
    try done.
  - unfold process, OverdriveNode_INode, OverdriveNode_process.
    destruct (negb _); [done|]. by destruct (for_loop _ _ _).
  - unfold process, NamModelNode_INode, NamModelNode_process.
    destruct (model_ n); [|done]. by destruct (negb _).
  - unfold process, IrConvolverNode_INode, IrConvolverNode_process.
    destruct (_ || _); [done|]. by destruct (processBlock _ _ _ _) as [[? ?] ?].
Qed.

Lemma call_node_keeps rt i src dst frames nodes bufs :
  map node_id (fst (call_node rt i src dst frames (nodes, bufs)))
  = map node_id nodes
  /\ map node_type (fst (call_node rt i src dst frames (nodes, bufs)))
     = map node_type nodes.
Proof.
  unfold call_node. destruct (nodes !! i) as [n|] eqn:Hn; [|done].
  pose proof (process_keeps_node rt n src (deref dst bufs) frames) as [Hi Ht].
  destruct (process rt n src (deref dst bufs) frames) as [n' o].
  cbn [fst] in *.
  change (map ?f ?l) with (f <$> l). rewrite !list_fmap_insert.
  rewrite Hi, Ht. split; apply list_insert_id; by rewrite list_lookup_fmap, Hn.
Qed.

Lemma pingpong_keeps rt c us frames lo hi init :
  map node_id (fst (fst (fst (for_range lo hi (pingpong_step rt c us frames) init))))
  = map node_id (fst (fst (fst init)))
  /\ map node_type
       (fst (fst (fst (for_range lo hi (pingpong_step rt c us frames) init))))
     = map node_type (fst (fst (fst init))).
Proof.
  destruct (Nat.le_gt_cases lo hi) as [Hle|Hlt].
  2:{ by rewrite !for_range_empty by lia. }
  induction hi as [|hi IH].
  - by rewrite !for_range_empty by lia.
  - destruct (decide (lo = S hi)) as [->|Hne].
    + by rewrite !for_range_empty by lia.
    + rewrite !for_range_S by lia. destruct IH as [IHi IHt]; [lia|].
      destruct (for_range lo hi _ init) as [[[nodes bufs] [a b]] buckets].
      unfold pingpong_step. cbn [fst] in IHi, IHt.
      pose proof (call_node_keeps rt hi (deref a bufs) b frames nodes bufs)
        as [Hi Ht].
      destruct (call_node _ _ _ _ _ _) as [nodes' bufs'].
      cbn [fst] in *. by rewrite Hi, Ht.
Qed.

(** X26. What [process] never changes.  Whatever the block, a call of
    [SignalChain::process] leaves the chain's spec, its context, the
    timing switch and the two timing tables as they were, and its nodes
    are the same in number and order, each with the id and type it had:
    the call changes only what the nodes remember, the scratch buffers
    and the timing counters. *)
Theorem process_keeps_the_chain (rt : RtParams F) (us : nat -> Z)
  (c : SignalChain F) (inb outb : list F) (k : nat) :
  let c' := fst (SignalChain_process rt us c inb outb k) in
  spec c' = spec c
  /\ ctx_ c' = ctx_ c
  /\ nodeTimingEnabled_ c' = nodeTimingEnabled_ c
  /\ timingTypes_ c' = timingTypes_ c
  /\ nodeToBucket_ c' = nodeToBucket_ c
  /\ map node_id (nodes_ c') = map node_id (nodes_ c)
  /\ map node_type (nodes_ c') = map node_type (nodes_ c).
Proof.
  cbv zeta. unfold SignalChain_process.
  destruct (nodes_ c) as [|n0 rest] eqn:Hnodes.
  { simpl. by rewrite Hnodes. }
  rewrite <- Hnodes.
  pose proof (call_node_keeps rt 0 inb PA
    (if (k <=? maxBlockFrames (ctx_ c))%nat then k
     else maxBlockFrames (ctx_ c)) (nodes_ c) (bufA_ c, bufB_ c)) as [Hi Ht].
  destruct (call_node _ _ _ _ _ _) as [nodes1 bufs1]. cbn [fst] in Hi, Ht.
  match goal with
  | |- context [for_range 1 ?hi ?body ?init] =>
      pose proof (pingpong_keeps rt c us
        (if (k <=? maxBlockFrames (ctx_ c))%nat then k
         else maxBlockFrames (ctx_ c)) 1 hi init) as [Hi2 Ht2];
      destruct (for_range 1 hi body init) as [[[nodes2 bufs2] [a b]] buckets2]
  end.
  cbn [fst snd spec spec_ ctx_ nodeTimingEnabled_ timingTypes_ nodeToBucket_
       nodes_] in *.
  by rewrite Hi2, Ht2, Hi, Ht.
Qed.
End ProcessKeeps.

Section BlockProofs.
Import Convolver.
Context {F : Type} `{FloatRing F} `{FFTW F}.

(** X25. The bookkeeping of [processBlock].  On a convolver that is not
    ready, or for a block of another size than the one it was set up
    for, the call returns false, writes nothing and changes nothing.
    Otherwise it returns true, writes the first [mBlock] samples of
    [out] and no other, never changes the spectra of the impulse
    response nor the sizes, and moves the ring's write index on by one
    slot, back to 0 after the last. *)
Theorem processBlock_bookkeeping (c : FFTConvolverPartitioned F)
  (inb outb : list F) (n : Z) :
  (Z.to_nat (mBlock c) <= length outb)%nat ->
  0 <= mWrite c < mParts c ->
  let '(ok, out', c') := processBlock c inb outb n in
  ok = mReady c && (n =? mBlock c)
  /\ if ok then
       length out' = length outb
       /\ drop (Z.to_nat (mBlock c)) out' = drop (Z.to_nat (mBlock c)) outb
       /\ mH c' = mH c
       /\ mBlock c' = mBlock c /\ mFFT c' = mFFT c /\ mBins c' = mBins c
       /\ mParts c' = mParts c /\ mReady c' = true
       /\ mWrite c' = (mWrite c + 1) mod mParts c
     else out' = outb /\ c' = c.
Proof.
  intros Hout Hw. unfold processBlock.
  destruct (mReady c) eqn:Hr; cbn [negb orb andb]; [|done].
  destruct (n =? mBlock c) eqn:Hn; cbn [negb]; [|done].
  split; [done|].
  cbn [mH mBlock mFFT mBins mParts mReady mWrite].
  split; [apply write_loop_length|].
  split.
  { rewrite write_loop_closed by done.
    apply closed_drop. by rewrite length_map, length_seq. }
  do 6 (split; [done|]).
  destruct (Z.geb_spec (mWrite c + 1) (mParts c)) as [Hge|Hlt].
  - assert (mWrite c + 1 = mParts c) as -> by lia.
    by rewrite Z.mod_same by lia.
  - by rewrite Z.mod_small by lia.
Qed.
End BlockProofs.

(** ** Runs of the further properties on concrete inputs *)

Section SchemaRuns.
Import Schema Convolver Nodes Chain Control Boot.

#[local] Existing Instance Reference.libm_annex_f.
#[local] Existing Instance Reference.fftw_binary32.
#[local] Existing Instance Reference.no_assets.

Lemma bypassed_node_copies_input_witness :
  exists node w,
    buildNode (plain_node "amp1" "nam_model" "") ctx48 rt_unity
    = (Ok (node, w), rt_unity)
    /\ node_id node = id (plain_node "amp1" "nam_model" "")
    /\ node_type node = type (plain_node "amp1" "nam_model" "")
    /\ (w = "" <-> enabled (plain_node "amp1" "nam_model" "") = false)
    /\ forall rt' inb outb k,
         process rt' node inb outb k = (node, memcpy outb inb k).
Proof.
  refine (bypassed_node_copies_input (plain_node "amp1" "nam_model" "")
            ctx48 rt_unity _ _).
  - left. reflexivity.
  - right. reflexivity.
Defined.

(** A library that reads back the one text [env_fine] dumps. *)
Definition be_fine : BootEnv :=
  {| stream_read := fun text =>
       if String.eqb text (String.append "{}" (String "010" ""))
       then Ok (chainSpecToJson spec_five) else Err "syntax error";
     passthroughMode := false; bypassNam := false; bypassIr := false;
     env_ALSA_INPUT_TRIM_DB := false; env_DSP_CONTROL_SOCK := None;
     env_ALSA_NODE_TIMING := false |}.

Lemma accepted_chain_is_loaded_at_boot_witness :
  let r := handleRequest env_fine w_legacy set_five in
  let accepted := lastSpec (state (snd r)) in
  loadConfig be_fine (disk (snd r)) BootSpec_init
  = {| gBootSpec := accepted; gBootSpecValid := true |}.
Proof.
  refine (accepted_chain_is_loaded_at_boot env_fine be_fine w_legacy set_five
            BootSpec_init set_five_is_set_chain _ _ _ _ _).
  - reflexivity.
  - simpl. lia.
  - vm_compute. reflexivity.
  - intros k Hk. discriminate Hk.
  - vm_compute. reflexivity.
Defined.

(** The engine with the realtime cells bound, as [initChainRuntime]
    leaves it; and a request whose amp names a file the machine does
    not have, with an input trim of 6 dB. *)
Definition ctx_live : ProcessContext :=
  {| ctx_sampleRate := 48000; maxBlockFrames := 2;
     inputTrimDb := true; inputTrimLin := true |}.

Definition w_live : World spec_float :=
  {| state := {| Control.activeChain := Some (bc_chain (built_from spec_legacy));
                 pendingChain := None; lastSpec := spec_legacy;
                 ctx := ctx_live;
                 configPath := "/opt/pedal/config/chain.json";
                 socketPath := "/tmp/pedal-dsp.sock" |};
     rt := rt_unity;
     disk := ∅ |}.

Definition trim_input : NodeSpec :=
  {| id := "input"; type := "input"; category := ""; enabled := true;
     params := JObject [("inputTrimDb", dbl 6 1)]; asset := None |}.

Definition trim_rest : list NodeSpec :=
  [ {| id := "amp1"; type := "nam_model"; category := ""; enabled := true;
       params := JObject []; asset := Some {| path := "missing.nam" |} |};
    plain_node "cab1" "ir_convolver" ""; plain_node "output" "output" "" ].

Definition trim_spec : ChainSpec :=
  {| version := 1; sampleRate := 48000; chain := trim_input :: trim_rest |}.

Definition set_trim : Json :=
  JObject [("cmd", JString "set_chain"); ("chain", chainSpecToJson trim_spec)].

Lemma set_trim_is_set_chain : request_for "set_chain" set_trim.
Proof. by repeat split. Qed.

Lemma set_chain_seeds_trim_witness :
  (exists msg, fst (handleRequest env_fine w_live set_trim) = resp_error msg)
  /\ type trim_input = "input"
  /\ rt (snd (handleRequest env_fine w_live set_trim)) = seeded trim_input.
Proof.
  split.
  - eexists. vm_compute. reflexivity.
  - refine (set_chain_seeds_trim env_fine w_live set_trim trim_spec trim_spec
              no_error no_error trim_input trim_rest
              set_trim_is_set_chain _ _ _ _ _ _ _).
    + reflexivity.
    + vm_compute. reflexivity.
    + vm_compute. reflexivity.
    + reflexivity.
    + reflexivity.
    + reflexivity.
    + reflexivity.
Defined.

End SchemaRuns.

Section RingRuns.
Import Swap.

Lemma empty_ring_ok : ring_ok empty_ring.
Proof.
  unfold ring_ok. change (occupancy empty_ring) with 0.
  split; [reflexivity|]. split; [simpl; lia|]. split; [simpl; lia|].
  split; [unfold kRetireQueueSize; lia|].
  intros k Hk. apply lookup_replicate_2. apply slot_lt.
Qed.

Lemma full_ring_ok : ring_ok full_ring.
Proof.
  unfold ring_ok. change (occupancy full_ring) with 128.
  split; [reflexivity|]. split; [simpl; lia|]. split; [simpl; lia|].
  split; [unfold kRetireQueueSize; lia|].
  unfold kRetireQueueSize. intros k Hk. lia.
Qed.

Lemma retire_ring_never_overwrites_witness :
  let '(ok, old, r') := retireChainFromAudioThread (Some "A") empty_ring in
  ring_ok r'
  /\ gRetireRead r' = gRetireRead empty_ring
  /\ if ok then
       old = None
       /\ gRetireQueue empty_ring !! ring_slot (gRetireWrite empty_ring)
          = Some None
       /\ gRetireQueue r'
          = <[ring_slot (gRetireWrite empty_ring) := Some "A"]>
              (gRetireQueue empty_ring)
       /\ occupancy r' = occupancy empty_ring + 1
       /\ gRetireQueueFull r' = gRetireQueueFull empty_ring
     else
       old = Some "A"
       /\ occupancy empty_ring = kRetireQueueSize
       /\ gRetireQueue r' = gRetireQueue empty_ring
       /\ gRetireWrite r' = gRetireWrite empty_ring
       /\ gRetireQueueFull r' = wrap_uint64 (gRetireQueueFull empty_ring + 1).
Proof.
  exact (retire_ring_never_overwrites "A" empty_ring empty_ring_ok).
Defined.

Lemma retire_thread_pass_empties_witness :
  let r' := retire_thread_pass full_ring in
  gRetireQueue r' = replicate (Z.to_nat kRetireQueueSize) None
  /\ gRetireRead r' = gRetireWrite full_ring
  /\ gRetireWrite r' = gRetireWrite full_ring
  /\ gRetireQueueFull r' = gRetireQueueFull full_ring
  /\ occupancy r' = 0
  /\ retireQueueHasSpace r' = true
  /\ ring_ok r'.
Proof.
  exact (retire_thread_pass_empties full_ring full_ring_ok).
Defined.

Definition sh_full : Shared string :=
  {| g_activeChain := Some "A"; g_pendingChain := Some "B";
     ring := full_ring |}.

Lemma full_ring_defers_the_swap_witness :
  let held :=
    run (replicate 3 (EvPeriod no_ramp [])) (sh_full, au_A, []) in
  let done := run [EvRetirePass; EvPeriod no_ramp []] held in
  activeChain (snd (fst held)) = Some "A"
  /\ deferredSwap (snd (fst held)) = Some "B"
  /\ chainSwapCount (snd (fst held)) = chainSwapCount au_A
  /\ ring (fst (fst held)) = ring sh_full
  /\ snd held = [] ++ replicate 3 (played no_ramp "A")
  /\ activeChain (snd (fst done)) = Some "B"
  /\ g_activeChain (fst (fst done)) = Some "B"
  /\ deferredSwap (snd (fst done)) = None
  /\ chainSwapCount (snd (fst done)) = wrap_uint64 (chainSwapCount au_A + 1)
  /\ ring (fst (fst done))
     = enqueued (Some "A") (retire_thread_pass (ring sh_full)).
Proof.
  refine (full_ring_defers_the_swap no_ramp sh_full au_A "A" "B" [] 2
            _ _ full_ring_ok _ _).
  - unfold settled. simpl. auto.
  - reflexivity.
  - vm_compute. reflexivity.
  - reflexivity.
Defined.

Definition ramp_32 : PeriodConfig :=
  {| passthrough := false; swapRampSamples := 32 |}.

Lemma request_during_fade_in_is_stranded_witness :
  let s :=
    run ([EvPublish "B"; EvPeriod ramp_32 []; EvPublish "C";
          EvPeriod ramp_32 []] ++ replicate 3 (EvPeriod ramp_32 []))
      (sh_A, au_A, []) in
  activeChain (snd (fst s)) = Some "B"
  /\ g_activeChain (fst (fst s)) = Some "B"
  /\ swapNext (snd (fst s)) = Some "C"
  /\ swapState (snd (fst s)) = Idle
  /\ deferredSwap (snd (fst s)) = None
  /\ g_pendingChain (fst (fst s)) = None
  /\ chainSwapCount (snd (fst s)) = wrap_uint64 (chainSwapCount au_A + 1)
  /\ snd s = [] ++ [Some "A"; Some "B"] ++ replicate 3 (Some "B").
Proof.
  refine (request_during_fade_in_is_stranded ramp_32 sh_A au_A "A" "B" "C"
            [] 3 _ _ _ _ _ _ _).
  - reflexivity.
  - simpl. lia.
  - unfold settled. simpl. auto.
  - reflexivity.
  - reflexivity.
  - vm_compute. reflexivity.
  - vm_compute. reflexivity.
Defined.

End RingRuns.

Section NodeRuns.
Import Schema Convolver Nodes Chain Snapshot Ramp.

#[local] Existing Instance Reference.libm_annex_f.
#[local] Existing Instance Reference.fftw_binary32.

Lemma mkSignalChain_timing_tables_witness :
  let s := spec od_amp_chain in
  let nodes := [NOverdrive default_overdrive_node; NNamModel amp_node] in
  let c := mkSignalChain s nodes ctx1 true in
  tables_ok (nodes_ c) (timingTypes_ c) (nodeToBucket_ c)
  /\ timingBuckets_ c
     = replicate (length (timingTypes_ c))
         {| calls := 0; sumUs := 0; maxUs := 0 |}
  /\ (length (timingTypes_ c) <= length nodes)%nat
  /\ nodes_ c = nodes
  /\ nodeTimingEnabled_ c = true.
Proof.
  refine (mkSignalChain_timing_tables (spec od_amp_chain)
            [NOverdrive default_overdrive_node; NNamModel amp_node] ctx1 _).
  simpl. lia.
Defined.

Lemma od_amp_chain_tables :
  tables_ok (nodes_ od_amp_chain) (timingTypes_ od_amp_chain)
    (nodeToBucket_ od_amp_chain)
  /\ length (timingBuckets_ od_amp_chain)
     = length (timingTypes_ od_amp_chain).
Proof.
  apply (mkSignalChain_tables_ok
           {| version := 1; sampleRate := 48000;
              chain := [overdrive_spec []; amp_spec] |}
           [NOverdrive default_overdrive_node; NNamModel amp_node] ctx1).
  simpl. lia.
Qed.

Lemma process_counts_calls_witness :
  let c := od_amp_chain in
  let inb : list spec_float := [fconst 1 100; fconst 1 4] in
  let outb : list spec_float := [f0; f0; f0] in
  let c' := fst (SignalChain_process rt_unity (fun _ => 7) c inb outb 2) in
  length (timingBuckets_ c') = length (timingBuckets_ c)
  /\ forall b t bk, timingTypes_ c !! b = Some t ->
       timingBuckets_ c !! b = Some bk ->
       0 <= calls bk < 2 ^ 64 ->
       exists bk', timingBuckets_ c' !! b = Some bk'
         /\ calls bk'
            = wrap_uint64 (calls bk + Z.of_nat (count_type t (nodes_ c))).
Proof.
  refine (process_counts_calls rt_unity (fun _ => 7) od_amp_chain
            [fconst 1 100; fconst 1 4] [f0; f0; f0] 2 _
            (proj1 od_amp_chain_tables) (proj2 od_amp_chain_tables)).
  reflexivity.
Defined.

Lemma snapshotNodeTiming_spec_witness :
  let c := od_amp_chain in
  let o := replicate 3 NodeTimingStat_default in
  let '(n, out, c') := snapshotNodeTiming c (Some o) 3 true in
  if nodeTimingEnabled_ c && (0 <? 3)%nat then
    n = min 3 (length (timingBuckets_ c))
    /\ out = Some (map (stat_of c) (seq 0 n) ++ drop n o)
    /\ c' = set_timingBuckets c
              (if true
               then replicate n TimingBucket_default
                    ++ drop n (timingBuckets_ c)
               else timingBuckets_ c)
  else n = 0%nat /\ out = Some o /\ c' = c.
Proof.
  refine (snapshotNodeTiming_spec od_amp_chain
            (replicate 3 NodeTimingStat_default) 3 true _).
  simpl. lia.
Defined.

Lemma NamModelNode_process_samples_witness :
  let n := amp_node in
  let m := dsp_reset echo_model in
  let inb : list spec_float := [fconst 1 2; fconst 1 4] in
  let outb : list spec_float := [f0; f0; f0] in
  let block := map (fun i => conditioned n (rd f0 inb i)) (seq 0 1) in
  let m' := dsp_feed m block in
  let y := match dsp_respond m' (dsp_fed m') with
           | Some ys => model_write (nam_out n) ys 1
           | None => memcpy (nam_out n) (block ++ drop 1 (nam_in n)) 1
           end in
  let r := NamModelNode_process n inb outb 1 in
  snd r
  = map (fun i =>
           fadd (fmul (rd f0 inb i) (mixDry (nam_std n)))
             (fmul (fmul (rd f0 y i) (nam_postLin n)) (mixWet (nam_std n))))
      (seq 0 1)
    ++ drop 1 outb
  /\ model_ (fst r) = Some m'
  /\ nam_out (fst r) = y
  /\ (dsp_respond m' (dsp_fed m') = None ->
      forall i, (i < 1)%nat -> rd f0 y i = conditioned n (rd f0 inb i)).
Proof.
  refine (NamModelNode_process_samples amp_node (dsp_reset echo_model)
            [fconst 1 2; fconst 1 4] [f0; f0; f0] 1 _ _ _ _ _ _).
  - reflexivity.
  - reflexivity.
  - simpl. lia.
  - simpl. lia.
  - simpl. lia.
  - simpl. lia.
Defined.

Lemma swap_ramps_touch_the_ramp_only_witness :
  let buf : list spec_float := [of_Z 1; of_Z 2; of_Z 3; of_Z 4; of_Z 5] in
  let r := min 3 4 in
  let faded := applyFadeOut buf (Z.of_nat 4) (Z.of_nat 3) in
  let raised := applyFadeIn buf (Z.of_nat 4) (Z.of_nat 3) in
  faded
  = take (4 - r) buf
    ++ (if (r =? 1)%nat then [f0]
        else map (fun i => fmul (rd f0 buf (4 - r + i)) (ramp_out r i))
               (seq 0 r))
    ++ drop 4 buf
  /\ raised
     = (if (r =? 1)%nat then [f0]
        else map (fun i => fmul (rd f0 buf i) (ramp_in r i)) (seq 0 r))
       ++ drop r buf.
Proof.
  refine (swap_ramps_touch_the_ramp_only
            [of_Z 1; of_Z 2; of_Z 3; of_Z 4; of_Z 5] 4 3 _ _ _).
  - simpl. lia.
  - simpl. lia.
  - simpl. lia.
Defined.

(** A library that runs out of memory at the fourth allocation. *)
Definition fftw_out_of_memory : FFTW spec_float :=
  {| r2c := Reference.naive_r2c Reference.tw_binary32;
     c2r := Reference.naive_c2r Reference.tw_binary32;
     fftwf_malloc :=
       fun k _ =>
         if (k <? 3)%nat
         then Some (fun _ => (Reference.sf_zero, Reference.sf_zero))
         else None;
     fftwf_plan_dft_r2c_1d := fun _ => true;
     fftwf_plan_dft_c2r_1d := fun _ => true |}.

Lemma init_ready_iff_witness :
  let ir : list spec_float := [of_Z 1; of_Z 2; of_Z 3] in
  let blockSize := 2 in
  let parts :=
    Z.to_nat ((Z.of_nat (length ir) + blockSize - 1) / blockSize) in
  let bins := Z.to_nat (blockSize + 1) in
  (let r := init (H0 := Reference.fftw_binary32) ir blockSize in
   ready (snd r) = fst r
   /\ (fst r = true
       <-> 0 < blockSize /\ ir <> []
           /\ fftw_serves (H0 := Reference.fftw_binary32) parts bins
                (Z.to_nat (2 * blockSize)))
   /\ (fst r = true -> mBlock (snd r) = blockSize /\ mWrite (snd r) = 0)
   /\ (fst r = false ->
       forall inb outb n,
         processBlock (snd r) inb outb n = (false, outb, snd r)))
  /\ (let r := init (H0 := fftw_out_of_memory) ir blockSize in
      ready (snd r) = fst r
      /\ (fst r = true
          <-> 0 < blockSize /\ ir <> []
              /\ fftw_serves (H0 := fftw_out_of_memory) parts bins
                   (Z.to_nat (2 * blockSize)))
      /\ (fst r = true -> mBlock (snd r) = blockSize /\ mWrite (snd r) = 0)
      /\ (fst r = false ->
          forall inb outb n,
            processBlock (H0 := fftw_out_of_memory) (snd r) inb outb n
            = (false, outb, snd r))).
Proof.
  split.
  - refine (init_ready_iff (H0 := Reference.fftw_binary32)
              [of_Z 1; of_Z 2; of_Z 3] 2 _ _); simpl; lia.
  - refine (init_ready_iff (H0 := fftw_out_of_memory)
              [of_Z 1; of_Z 2; of_Z 3] 2 _ _); simpl; lia.
Defined.

(** With that library [init] fails: the spectrum of the second partition
    is not there. *)
Lemma init_out_of_memory :
  let r := init (H0 := fftw_out_of_memory) [of_Z 1; of_Z 2; of_Z 3] 2 in
  fst r = false /\ mReady (snd r) = false
  /\ mH (snd r) = [replicate 3 c0; []].
Proof. vm_compute. done. Qed.

Definition conv_123 : FFTConvolverPartitioned spec_float :=
  snd (init [of_Z 1; of_Z 2; of_Z 3] 2).

Lemma conv_123_sizes :
  mBlock conv_123 = 2 /\ mWrite conv_123 = 0 /\ mParts conv_123 = 2.
Proof. repeat split; vm_compute; reflexivity. Qed.

Lemma processBlock_bookkeeping_witness :
  let c := conv_123 in
  let inb : list spec_float := [of_Z 1; of_Z 0] in
  let outb : list spec_float := [f0; f0; f0] in
  let '(ok, out', c') := processBlock c inb outb 2 in
  ok = mReady c && (2 =? mBlock c)
  /\ if ok then
       length out' = length outb
       /\ drop (Z.to_nat (mBlock c)) out' = drop (Z.to_nat (mBlock c)) outb
       /\ mH c' = mH c
       /\ mBlock c' = mBlock c /\ mFFT c' = mFFT c /\ mBins c' = mBins c
       /\ mParts c' = mParts c /\ mReady c' = true
       /\ mWrite c' = (mWrite c + 1) mod mParts c
     else out' = outb /\ c' = c.
Proof.
  refine (processBlock_bookkeeping conv_123 [of_Z 1; of_Z 0] [f0; f0; f0] 2
            _ _).
  - destruct conv_123_sizes as (-> & _ & _). simpl. lia.
  - destruct conv_123_sizes as (_ & -> & ->). lia.
Defined.

End NodeRuns.

Section CabRuns.
Import Schema Convolver Nodes.

(** A machine with one impulse response, [cab.wav]: two frames of mono
    audio at 48 kHz. *)
Definition one_ir : Externals spec_float :=
  {| get_dsp := fun _ => Err "No such file or directory";
     sf_open_read := fun path =>
       if String.eqb path "cab.wav"
       then Ok {| sf_frames := 2; sf_samplerate := 48000; sf_channels := 1;
                  sf_interleaved := [of_Z 1; of_Z 0]; sf_got := 2 |}
       else Err "System error.";
     env_ir_max_samples := None |}.

#[local] Existing Instance Reference.libm_annex_f.
#[local] Existing Instance Reference.fftw_binary32.
#[local] Existing Instance one_ir.

Definition cab_spec : NodeSpec :=
  {| id := "cab1"; type := "ir_convolver"; category := "cab";
     enabled := true; params := JObject [];
     asset := Some {| path := "cab.wav" |} |}.

Definition cab_node : IrConvolverNode spec_float :=
  match fst (buildNode cab_spec ctx48 rt_unity) with
  | Ok (NIrConvolver nd, _) => nd
  | _ => mkIrConvolverNode "" NodeStandardParams_default clear 0
  end.

Lemma buildNode_cab :
  buildNode cab_spec ctx48 rt_unity
  = (Ok (NIrConvolver cab_node, ""), rt_unity).
Proof. vm_compute. reflexivity. Qed.

Lemma ir_node_short_block_witness :
  let inb : list spec_float := [fconst 1 2; fconst 1 4] in
  let outb : list spec_float := [f0; f0; f0] in
  IrConvolverNode_process cab_node inb outb 1
  = (set_ir_state cab_node (conv_ cab_node) (memcpy (ir_out cab_node) inb 1),
     map (mixed (ir_std cab_node)
            (fun x => fmul x (levelLin (ir_std cab_node))) inb)
       (seq 0 1) ++ drop 1 outb).
Proof.
  refine (ir_node_short_block cab_spec ctx48 rt_unity rt_unity cab_node ""
            [fconst 1 2; fconst 1 4] [f0; f0; f0] 1 buildNode_cab _ _ _ _).
  - simpl. lia.
  - simpl. lia.
  - simpl. lia.
  - simpl. lia.
Defined.

Lemma ir_trim_spec_witness :
  let m : list spec_float := [of_Z 1; of_Z 2; of_Z 3] in
  let taper := min 128 2 in
  let start := (2 - taper)%nat in
  length (ir_trim m 2) = 2%nat
  /\ take start (ir_trim m 2) = take start m
  /\ ir_trim m 2
     = take start m
       ++ (if (1 <? taper)%nat
           then map (fun i => fmul (rd f0 m (start + i)) (taper_gain taper i))
                  (seq 0 taper)
           else take taper (drop start m)).
Proof.
  refine (ir_trim_spec [of_Z 1; of_Z 2; of_Z 3] 2 _).
  simpl. lia.
Defined.

End CabRuns.
